(** * llm-json: extraction, repair, partial parsing and streaming

    A shallow embedding of the recovery pipeline of llm-json
    (extract.ts, repair.ts, partial.ts, parse.ts, streaming.ts) and the
    properties its specification states about it.

    Conventions of the embedding.
    - A JavaScript string is the list of its UTF-16 code units ([str]).
    - A cursor [i] into a string [s] is the text still to be read
      ([s.slice(i)]); where the source needs the offset itself it is kept
      next to it.
    - A thrown exception is a value of [outcome]; [try]/[catch] is a
      [match] on it.
    - A loop whose cursor jumps forward is a fixpoint on a fuel counter
      bounded by the length of the text; the fuel lemmas show that the
      bound is never reached.
    - Exhaustion of machine resources (call stack, heap) is outside the
      model.
    - An object is the list of its own properties, and its prototype is
      taken to be [Object.prototype].  The assignment [obj[key] = v] of
      the partial parser creates no property for the key [__proto__], as
      on the platform; the change of prototype that it makes there when
      [v] is an object, an array or [null] is not followed. *)

From Stdlib Require Import Ascii String.
From Stdlib Require Import List Bool Arith NArith ZArith Lia.
Import ListNotations.

Set Implicit Arguments.
Set Warnings "-register-all".

(** ** Strings as code units *)

Definition chr := N.
Definition str := list chr.

Definition lit (s : string) : str :=
  map N_of_ascii (list_ascii_of_string s).

(** [jsq] reads a literal in which [~] stands for the double quote
    (code unit 34). *)
Definition jsq (s : string) : str :=
  map (fun c => if N.eqb c 126 then 34%N else c) (lit s).

Definition c_tab : chr := 9%N.
Definition c_nl : chr := 10%N.
Definition c_cr : chr := 13%N.
Definition c_space : chr := 32%N.
Definition c_dq : chr := 34%N.
Definition c_dollar : chr := 36%N.
Definition c_sq : chr := 39%N.
Definition c_star : chr := 42%N.
Definition c_plus : chr := 43%N.
Definition c_comma : chr := 44%N.
Definition c_minus : chr := 45%N.
Definition c_dot : chr := 46%N.
Definition c_slash : chr := 47%N.
Definition c_colon : chr := 58%N.
Definition c_lbrack : chr := 91%N.
Definition c_bslash : chr := 92%N.
Definition c_rbrack : chr := 93%N.
Definition c_underscore : chr := 95%N.
Definition c_tick : chr := 96%N.
Definition c_lbrace : chr := 123%N.
Definition c_rbrace : chr := 125%N.

Definition ceq (a b : chr) : bool := N.eqb a b.

Fixpoint str_eqb (a b : str) : bool :=
  match a, b with
  | [], [] => true
  | x :: a', y :: b' => ceq x y && str_eqb a' b'
  | _, _ => false
  end.

(** [\s] of a JavaScript regular expression, which is also what
    [String.prototype.trim] removes. *)
Definition isSpace (c : chr) : bool :=
  ((9 <=? c) && (c <=? 13) || (c =? 32) || (c =? 160) || (c =? 5760)
   || ((8192 <=? c) && (c <=? 8202)) || (c =? 8232) || (c =? 8233)
   || (c =? 8239) || (c =? 8287) || (c =? 12288) || (c =? 65279))%N.

(** [[0-9]] *)
Definition isDigit (c : chr) : bool := ((48 <=? c) && (c <=? 57))%N.

(** [[\w$_]] *)
Definition isWord (c : chr) : bool :=
  (isDigit c || ((65 <=? c) && (c <=? 90)) || ((97 <=? c) && (c <=? 122))
   || (c =? 95) || (c =? 36))%N.

(** ** List helpers standing for string primitives *)

(** The longest prefix whose characters satisfy [p], and the rest. *)
Fixpoint span (p : chr -> bool) (s : str) : str * str :=
  match s with
  | [] => ([], [])
  | c :: r => if p c then let (a, b) := span p r in (c :: a, b) else ([], s)
  end.

Fixpoint dropWhile (p : chr -> bool) (s : str) : str :=
  match s with
  | [] => []
  | c :: r => if p c then dropWhile p r else s
  end.

(** [stripPrefix p s] is the text after [p] when [s] starts with [p]. *)
Fixpoint stripPrefix (p s : str) : option str :=
  match p with
  | [] => Some s
  | x :: p' =>
      match s with
      | y :: s' => if ceq x y then stripPrefix p' s' else None
      | [] => None
      end
  end.

Definition startsWith (p s : str) : bool :=
  match stripPrefix p s with Some _ => true | None => false end.

(** [s.slice(a, b)] for offsets inside or past the string. *)
Definition slice (s : str) (a b : nat) : str := firstn (b - a) (skipn a s).

(** [s.trim()] *)
Definition trim (s : str) : str :=
  rev (dropWhile isSpace (rev (dropWhile isSpace s))).

(** ** [String.prototype.replace] with a global regular expression

    A pattern is given by its matcher: [m s] tells whether the pattern
    matches at the head of [s], and if so the replacement text and the text
    after the match.  None of the patterns below matches the empty string,
    so the scan resumes right after each match, and one position further
    where nothing matches. *)

Definition matcher := str -> option (str * str).

Fixpoint replaceFrom (fuel : nat) (m : matcher) (s : str) : str :=
  match fuel with
  | O => s
  | S fuel' =>
      match s with
      | [] => []
      | c :: r =>
          match m s with
          | Some (repl, rest) => repl ++ replaceFrom fuel' m rest
          | None => c :: replaceFrom fuel' m r
          end
      end
  end.

Definition replaceAll (m : matcher) (s : str) : str :=
  replaceFrom (length s) m s.

(** ** extract.ts *)

Record ExtractResult := mkExtract {
  json : option str;
  ex_start : nat;
  ex_end : nat;
  multiple : option (list str)
}.

(** The state of the bracket scanner of [findJson]: [start] is [-1] until
    a first opening bracket is met at depth 0. *)
Record fstate := mkF {
  f_depth : Z;
  f_inStr : bool;
  f_esc : bool;
  f_start : Z;
  f_results : list (str * (nat * nat))
}.

Definition f_init : fstate := mkF 0 false false (-1) [].

Definition isOpen (c : chr) : bool := ceq c c_lbrace || ceq c c_lbrack.
Definition isClose (c : chr) : bool := ceq c c_rbrace || ceq c c_rbrack.

(** The [for] loop of [findJson] at offset [i], with [rest = s.slice(i)]. *)
Fixpoint findLoop (all : bool) (s rest : str) (i : nat) (st : fstate)
  : fstate :=
  match rest with
  | [] => st
  | c :: rest' =>
      let '(mkF depth inStr esc start results) := st in
      if esc then findLoop all s rest' (S i) (mkF depth inStr false start results)
      else if ceq c c_bslash && inStr then
        findLoop all s rest' (S i) (mkF depth inStr true start results)
      else if ceq c c_dq then
        findLoop all s rest' (S i) (mkF depth (negb inStr) esc start results)
      else if inStr then findLoop all s rest' (S i) st
      else if isOpen c then
        let start' := if (depth =? 0)%Z then Z.of_nat i else start in
        findLoop all s rest' (S i) (mkF (depth + 1) inStr esc start' results)
      else if isClose c then
        let depth' := (depth - 1)%Z in
        if (depth' =? 0)%Z && (0 <=? start)%Z then
          let js := slice s (Z.to_nat start) (i + 1) in
          let st' := mkF depth' inStr esc start
                         (results ++ [(js, (Z.to_nat start, i + 1))]) in
          if negb all then st' else findLoop all s rest' (S i) st'
        else findLoop all s rest' (S i) (mkF depth' inStr esc start results)
      else findLoop all s rest' (S i) st
  end.

Definition findJson (s : str) (all : bool) : ExtractResult :=
  let st := findLoop all s s 0 f_init in
  match f_results st with
  | [] => mkExtract None 0 0 (Some [])
  | (js, (a, b)) :: _ => mkExtract (Some js) a b (Some (map fst (f_results st)))
  end.

(** [/```(?:json)?\s*\n?([\s\S]*?)\n?```/]: after the opening fence, the
    optional tag and the white space (greedy, so the optional newline that
    follows it never has anything left to take), the capture runs lazily
    to the first place where an optional newline and a closing fence
    stand. *)
Definition fence : str := [c_tick; c_tick; c_tick].
Definition tag_json : str := Eval cbv in lit "json".

Fixpoint findClose (s : str) : option (str * str) :=
  match stripPrefix (c_nl :: fence) s with
  | Some rest => Some ([], rest)
  | None =>
      match stripPrefix fence s with
      | Some rest => Some ([], rest)
      | None =>
          match s with
          | [] => None
          | c :: r =>
              match findClose r with
              | Some (cap, rest) => Some (c :: cap, rest)
              | None => None
              end
          end
      end
  end.

Definition m_fenced : matcher := fun s =>
  match stripPrefix fence s with
  | None => None
  | Some r1 =>
      let r2 := match stripPrefix tag_json r1 with Some r => r | None => r1 end in
      findClose (dropWhile isSpace r2)
  end.

Definition stripMd (s : str) : str := trim (replaceAll m_fenced s).

(** [!x] on a string: the empty string is falsy. *)
Definition emptyStr (s : str) : bool :=
  match s with [] => true | _ => false end.

Definition extract (input : str) : ExtractResult :=
  if emptyStr input then mkExtract None 0 0 None
  else findJson (stripMd input) false.

Definition extractAll (input : str) : ExtractResult :=
  if emptyStr input then mkExtract None 0 0 (Some [])
  else findJson (stripMd input) true.

(** ** Values, exceptions and results (types.ts) *)

(** A parsed value.  A number is kept as the literal that denotes it: both
    [JSON.parse] and [parseFloat] are functions of that literal, and they
    agree on every literal of the JSON grammar.  An object is the list of
    its own properties in insertion order. *)
Inductive value :=
| VNull
| VBool (b : bool)
| VNum (text : str)
| VStr (s : str)
| VArr (xs : list value)
| VObj (ms : list (str * value)).

(** The property [k] of [obj] is created, or updated where it stands,
    with the value [v]. *)
Fixpoint obj_set (k : str) (v : value) (ms : list (str * value))
  : list (str * value) :=
  match ms with
  | [] => [(k, v)]
  | (k', v') :: r =>
      if str_eqb k k' then (k, v) :: r else (k', v') :: obj_set k v r
  end.

(** [obj[k] = v] on an object that an object literal made.  The key
    [__proto__] names the accessor of [Object.prototype]: the assignment
    calls its setter and creates no property. *)
Definition assign (k : str) (v : value) (ms : list (str * value))
  : list (str * value) :=
  if str_eqb k (lit "__proto__") then ms else obj_set k v ms.

(** The message of an exception: a fixed text, a text followed by an
    offset, or the text that the platform gives to a [SyntaxError] of
    [JSON.parse] and to a [TypeError] of a conversion. *)
Inductive message :=
| Text (s : string)
| TextAt (s : string) (i : nat)
| SyntaxErrorText
| TypeErrorText.

Inductive exn :=
| SyntaxError
| TypeError
| Error (m : message).

Definition exn_message (e : exn) : message :=
  match e with
  | SyntaxError => SyntaxErrorText
  | TypeError => TypeErrorText
  | Error m => m
  end.

(** What a call does: it returns, it throws, or the model ran out of
    fuel. *)
Inductive outcome (A : Type) :=
| Return (a : A)
| Throw (e : exn)
| OutOfFuel.
Arguments Return {A} a.
Arguments Throw {A} e.
Arguments OutOfFuel {A}.

Definition bind {A B} (x : outcome A) (k : A -> outcome B) : outcome B :=
  match x with
  | Return a => k a
  | Throw e => Throw e
  | OutOfFuel => OutOfFuel
  end.

Notation "x <- c1 ;; c2" := (bind c1 (fun x => c2))
  (at level 61, c1 at next level, right associativity).
Notation "' pat <- c1 ;; c2" :=
  (bind c1 (fun x => match x with pat => c2 end))
  (at level 61, pat pattern, c1 at next level, right associativity).

Inductive WarningCode :=
| trailing_comma_removed | single_quotes_replaced | unquoted_key_fixed
| missing_comma_added | markdown_fence_stripped | prose_stripped
| python_literal_converted | truncated_string_closed | unescaped_quote_fixed.

Record Warning := mkWarning { w_code : WarningCode; w_message : str }.

Inductive ErrorCode :=
| no_json_found | invalid_json | schema_mismatch | truncated
| type_error | missing_required.

Record ParseError := mkError {
  code : ErrorCode;
  e_message : message;
  context : option str
}.

Inductive Confidence := high | medium | low.

Record PartialResult := mkPartial {
  confidence : Confidence;
  complete : value;
  pending : list str
}.

Inductive Result :=
| Success (data : value) (warnings : option (list Warning))
| Failure (error : ParseError) (partial : option PartialResult).

Record RepairResult := mkRepair {
  output : str;
  r_warnings : list Warning;
  valid : bool
}.

(** The options once the defaults are filled in. *)
Record PartialParseOptions := mkOpts {
  allowPartialStrings : bool;
  allowPartialObjects : bool;
  allowPartialArrays : bool;
  allowPartialNumbers : bool
}.

(** The options as the caller gives them: every field may be absent. *)
Record UserOptions := mkUser {
  u_strings : option bool;
  u_objects : option bool;
  u_arrays : option bool;
  u_numbers : option bool
}.

(** ** [JSON.parse]

    The strict parser of the platform, after ECMA-404: a lexer that cuts
    the text into tokens separated by JSON white space, and a
    recursive-descent parser on the tokens. *)

Inductive tok :=
| TLBrace | TRBrace | TLBrack | TRBrack | TColon | TComma
| TStr (body : str)
| TNum (text : str)
| TTrue | TFalse | TNull.

(** A token with the white space that precedes it. *)
Definition item := (str * tok)%type.

Definition kw_true : str := Eval cbv in lit "true".
Definition kw_false : str := Eval cbv in lit "false".
Definition kw_null : str := Eval cbv in lit "null".

Definition tokText (t : tok) : str :=
  match t with
  | TLBrace => [c_lbrace] | TRBrace => [c_rbrace]
  | TLBrack => [c_lbrack] | TRBrack => [c_rbrack]
  | TColon => [c_colon] | TComma => [c_comma]
  | TStr body => c_dq :: body ++ [c_dq]
  | TNum text => text
  | TTrue => kw_true | TFalse => kw_false | TNull => kw_null
  end.

Definition itemText (it : item) : str := fst it ++ tokText (snd it).

Fixpoint render (its : list item) : str :=
  match its with
  | [] => []
  | it :: r => itemText it ++ render r
  end.

Definition isJsonWs (c : chr) : bool :=
  ceq c c_tab || ceq c c_nl || ceq c c_cr || ceq c c_space.

Definition isHex (c : chr) : bool :=
  (isDigit c || ((65 <=? c) && (c <=? 70)) || ((97 <=? c) && (c <=? 102)))%N.

(** The characters that may follow a backslash, [u] apart. *)
Definition isSimpleEscape (c : chr) : bool :=
  (ceq c c_dq || ceq c c_bslash || ceq c c_slash || (c =? 98) || (c =? 102)
   || (c =? 110) || (c =? 114) || (c =? 116))%N.

(** The body of a string literal, read after its opening quote: the raw
    text up to the closing quote, and the text after it. *)
Fixpoint lexStr (s : str) : option (str * str) :=
  match s with
  | [] => None
  | c :: r =>
      if ceq c c_dq then Some ([], r)
      else if ceq c c_bslash then
        match r with
        | e :: r1 =>
            if isSimpleEscape e then
              match lexStr r1 with
              | Some (b, rest) => Some (c :: e :: b, rest)
              | None => None
              end
            else if (e =? 117)%N then
              match r1 with
              | h1 :: h2 :: h3 :: h4 :: r2 =>
                  if isHex h1 && isHex h2 && isHex h3 && isHex h4 then
                    match lexStr r2 with
                    | Some (b, rest) =>
                        Some (c :: e :: h1 :: h2 :: h3 :: h4 :: b, rest)
                    | None => None
                    end
                  else None
              | _ => None
              end
            else None
        | [] => None
        end
      else if (c <? 32)%N then None
      else
        match lexStr r with
        | Some (b, rest) => Some (c :: b, rest)
        | None => None
        end
  end.

Definition hexVal (c : chr) : N :=
  (if isDigit c then c - 48
   else if (65 <=? c) && (c <=? 70) then c - 55
   else c - 87)%N.

Definition unescape1 (e : chr) : chr :=
  (if e =? 98 then 8 else if e =? 102 then 12 else if e =? 110 then 10
   else if e =? 114 then 13 else if e =? 116 then 9 else e)%N.

(** The string a raw body denotes. *)
Fixpoint unescape (b : str) : str :=
  match b with
  | [] => []
  | c :: r =>
      if ceq c c_bslash then
        match r with
        | e :: r1 =>
            if (e =? 117)%N then
              match r1 with
              | h1 :: h2 :: h3 :: h4 :: r2 =>
                  (((hexVal h1 * 16 + hexVal h2) * 16 + hexVal h3) * 16
                   + hexVal h4)%N :: unescape r2
              | _ => []
              end
            else unescape1 e :: unescape r1
        | [] => []
        end
      else c :: unescape r
  end.

Definition isNumChar (c : chr) : bool :=
  (isDigit c || ceq c c_minus || ceq c c_plus || ceq c c_dot
   || (c =? 101) || (c =? 69))%N.

Definition isExpMark (c : chr) : bool := ((c =? 101) || (c =? 69))%N.

(** A number: an optional minus, then [0] or a digit string with no
    leading [0], then an optional fraction (a point and digits), then an
    optional exponent ([e] or [E], an optional sign, digits). *)
Definition validExp (s : str) : bool :=
  match s with
  | [] => true
  | e :: r =>
      isExpMark e &&
      let r1 := match r with
                | g :: r' => if ceq g c_plus || ceq g c_minus then r' else r
                | [] => r
                end in
      let (ds, rest) := span isDigit r1 in
      negb (emptyStr ds) && emptyStr rest
  end.

Definition validFrac (s : str) : bool :=
  match s with
  | d :: r =>
      if ceq d c_dot then
        let (ds, rest) := span isDigit r in
        negb (emptyStr ds) && validExp rest
      else validExp s
  | [] => true
  end.

Definition validNumber (s : str) : bool :=
  let s1 := match s with
            | m :: r => if ceq m c_minus then r else s
            | [] => s
            end in
  match s1 with
  | d :: r =>
      if (d =? 48)%N then validFrac r
      else if isDigit d then validFrac (dropWhile isDigit r)
      else false
  | [] => false
  end.

Fixpoint lexFrom (fuel : nat) (s : str) : option (list item * str) :=
  match fuel with
  | O => None
  | S fuel' =>
      let (w, s1) := span isJsonWs s in
      let next t rest :=
        match lexFrom fuel' rest with
        | Some (its, trail) => Some ((w, t) :: its, trail)
        | None => None
        end in
      match s1 with
      | [] => Some ([], w)
      | c :: r =>
          if ceq c c_lbrace then next TLBrace r
          else if ceq c c_rbrace then next TRBrace r
          else if ceq c c_lbrack then next TLBrack r
          else if ceq c c_rbrack then next TRBrack r
          else if ceq c c_colon then next TColon r
          else if ceq c c_comma then next TComma r
          else if ceq c c_dq then
            match lexStr r with
            | Some (b, rest) => next (TStr b) rest
            | None => None
            end
          else if ceq c c_minus || isDigit c then
            let (num, rest) := span isNumChar s1 in
            if validNumber num then next (TNum num) rest else None
          else
            match stripPrefix kw_true s1 with
            | Some rest => next TTrue rest
            | None =>
                match stripPrefix kw_false s1 with
                | Some rest => next TFalse rest
                | None =>
                    match stripPrefix kw_null s1 with
                    | Some rest => next TNull rest
                    | None => None
                    end
                end
            end
      end
  end.

Definition lex (s : str) : option (list item * str) :=
  lexFrom (S (length s)) s.

(** The grammar of values on tokens. *)
Fixpoint pValue (fuel : nat) (ts : list item) : option (value * list item) :=
  match fuel with
  | O => None
  | S fuel' =>
      match ts with
      | [] => None
      | (_, t) :: ts1 =>
          match t with
          | TStr b => Some (VStr (unescape b), ts1)
          | TNum n => Some (VNum n, ts1)
          | TTrue => Some (VBool true, ts1)
          | TFalse => Some (VBool false, ts1)
          | TNull => Some (VNull, ts1)
          | TLBrack =>
              match ts1 with
              | (_, TRBrack) :: ts2 => Some (VArr [], ts2)
              | _ => pElems fuel' [] ts1
              end
          | TLBrace =>
              match ts1 with
              | (_, TRBrace) :: ts2 => Some (VObj [], ts2)
              | _ => pMembers fuel' [] ts1
              end
          | _ => None
          end
      end
  end
with pElems (fuel : nat) (acc : list value) (ts : list item)
  : option (value * list item) :=
  match fuel with
  | O => None
  | S fuel' =>
      match pValue fuel' ts with
      | Some (v, (_, TComma) :: ts2) => pElems fuel' (acc ++ [v]) ts2
      | Some (v, (_, TRBrack) :: ts2) => Some (VArr (acc ++ [v]), ts2)
      | _ => None
      end
  end
with pMembers (fuel : nat) (acc : list (str * value)) (ts : list item)
  : option (value * list item) :=
  match fuel with
  | O => None
  | S fuel' =>
      match ts with
      | (_, TStr k) :: (_, TColon) :: ts1 =>
          match pValue fuel' ts1 with
          | Some (v, (_, TComma) :: ts2) =>
              pMembers fuel' (obj_set (unescape k) v acc) ts2
          | Some (v, (_, TRBrace) :: ts2) =>
              Some (VObj (obj_set (unescape k) v acc), ts2)
          | _ => None
          end
      | _ => None
      end
  end.

Definition JSON_parse (s : str) : outcome value :=
  match lex s with
  | Some (its, _) =>
      match pValue (2 * length its + 2) its with
      | Some (v, []) => Return v
      | _ => Throw SyntaxError
      end
  | None => Throw SyntaxError
  end.

(** ** partial.ts *)

Section DoParse.

Variable opts : PartialParseOptions.
(** [s.length], for the offset in the message of [parseValue]. *)
Variable len : nat.

(** [skip()] *)
Definition skip (s : str) : str := dropWhile isSpace s.

(** [take()]: at the end of the input the source still increments [i];
    every later read ([peek], [slice], the loop guards) then behaves as
    at [s.length], so the text to be read stays empty. *)
Definition take (s : str) : str := tl s.

(** The [while] loop of [parseStr]: the content, and the text after the
    closing quote when there is one. *)
Fixpoint strLoop (esc : bool) (r : str) (s : str) : str * option str :=
  match s with
  | [] => (r, None)
  | c :: s' =>
      if esc then strLoop false (r ++ [c]) s'
      else if ceq c c_bslash then strLoop true r s'
      else if ceq c c_dq then (r, Some s')
      else strLoop false (r ++ [c]) s'
  end.

Definition parseStr (s : str) : outcome (str * str) :=
  match strLoop false [] (take s) with
  | (r, Some rest) => Return (r, rest)
  | (r, None) =>
      if allowPartialStrings opts then Return (r, [])
      else Throw (Error (Text "Unterminated string"))
  end.

Definition endsWithDot (s : str) : bool :=
  match rev s with c :: _ => ceq c c_dot | [] => false end.

(** [if (peek() === '-') take();] *)
Definition takeSign (s : str) : str * str :=
  match s with
  | c :: r => if ceq c c_minus then ([c], r) else ([], s)
  | [] => ([], s)
  end.

(** The point and the digits after it. *)
Definition takeFrac (s : str) : str * str :=
  match s with
  | c :: r =>
      if ceq c c_dot then let (fs, r') := span isDigit r in (c :: fs, r')
      else ([], s)
  | [] => ([], s)
  end.

(** The exponent mark, the sign and the digits after it. *)
Definition takeExp (s : str) : str * str :=
  match s with
  | c :: r =>
      if isExpMark c then
        let (sg, r1) :=
          match r with
          | g :: r' =>
              if ceq g c_plus || ceq g c_minus then ([g], r') else ([], r)
          | [] => ([], r)
          end in
        let (es, r2) := span isDigit r1 in
        (c :: sg ++ es, r2)
      else ([], s)
  | [] => ([], s)
  end.

Definition parseNum (s : str) : value * str :=
  let (sign, s1) := takeSign s in
  let (ds, s2) := span isDigit s1 in
  let (frac, s3) := takeFrac s2 in
  let (ex, s4) := takeExp s3 in
  let num := sign ++ ds ++ frac ++ ex in
  let num' :=
    if allowPartialNumbers opts && endsWithDot num
    then removelast num else num in
  (VNum num', s4).

Fixpoint parseValue (fuel : nat) (s : str) : outcome (value * str) :=
  match fuel with
  | O => OutOfFuel
  | S fuel' =>
      let s0 := skip s in
      match s0 with
      | c :: _ =>
          if ceq c c_lbrace then
            (* parseObj *)
            let s1 := skip (take s0) in
            match s1 with
            | d :: s2 =>
                if ceq d c_rbrace then Return (VObj [], s2)
                else objLoop fuel' [] s1
            | [] => objLoop fuel' [] s1
            end
          else if ceq c c_lbrack then
            (* parseArr *)
            let s1 := skip (take s0) in
            match s1 with
            | d :: s2 =>
                if ceq d c_rbrack then Return (VArr [], s2)
                else arrLoop fuel' [] s1
            | [] => arrLoop fuel' [] s1
            end
          else if ceq c c_dq then
            '(r, rest) <- parseStr s0 ;; Return (VStr r, rest)
          else if ceq c c_minus || isDigit c then Return (parseNum s0)
          else if startsWith kw_true s0 then Return (VBool true, skipn 4 s0)
          else if startsWith kw_false s0 then Return (VBool false, skipn 5 s0)
          else if startsWith kw_null s0 then Return (VNull, skipn 4 s0)
          else Throw (Error (TextAt "Unexpected token at " (len - length s0)))
      | [] => Throw (Error (TextAt "Unexpected token at " (len - length s0)))
      end
  end
with arrLoop (fuel : nat) (arr : list value) (s : str)
  : outcome (value * str) :=
  match fuel with
  | O => OutOfFuel
  | S fuel' =>
      match s with
      | [] =>
          if allowPartialArrays opts then Return (VArr arr, [])
          else Throw (Error (Text "Unterminated array"))
      | _ :: _ =>
          let s1 := skip s in
          match s1 with
          | c :: s2 =>
              if ceq c c_rbrack then Return (VArr arr, s2)
              else if ceq c c_comma then arrLoop fuel' arr s2
              else
                '(v, rest) <- parseValue fuel' s1 ;;
                arrLoop fuel' (arr ++ [v]) rest
          | [] =>
              '(v, rest) <- parseValue fuel' s1 ;;
              arrLoop fuel' (arr ++ [v]) rest
          end
      end
  end
with objLoop (fuel : nat) (obj : list (str * value)) (s : str)
  : outcome (value * str) :=
  match fuel with
  | O => OutOfFuel
  | S fuel' =>
      match s with
      | [] =>
          if allowPartialObjects opts then Return (VObj obj, [])
          else Throw (Error (Text "Unterminated object"))
      | _ :: _ =>
          let s1 := skip s in
          let member :=
            '(key, s2) <- parseStr s1 ;;
            let s3 := skip s2 in
            match s3 with
            | c :: s4 =>
                if ceq c c_colon then
                  '(v, rest) <- parseValue fuel' (skip s4) ;;
                  objLoop fuel' (assign key v obj) rest
                else if allowPartialObjects opts then Return (VObj obj, s3)
                else Throw (Error (Text "Expected colon"))
            | [] =>
                if allowPartialObjects opts then Return (VObj obj, s3)
                else Throw (Error (Text "Expected colon"))
            end in
          match s1 with
          | c :: s2 =>
              if ceq c c_rbrace then Return (VObj obj, s2)
              else if ceq c c_comma then objLoop fuel' obj s2
              else member
          | [] => member
          end
      end
  end.

End DoParse.

Definition doParse (s : str) (opts : PartialParseOptions)
  : outcome value :=
  '(v, _) <- parseValue opts (length s) (2 * length s + 2) s ;; Return v.

(** [{ ...defaults, ...options }] *)
Definition withDefaults (options : option UserOptions) : PartialParseOptions :=
  let get (f : UserOptions -> option bool) (d : bool) :=
    match options with
    | Some o => match f o with Some b => b | None => d end
    | None => d
    end in
  mkOpts (get u_strings true) (get u_objects true) (get u_arrays true)
         (get u_numbers false).

Definition parsePartial (input : str) (options : option UserOptions)
  : outcome Result :=
  if emptyStr input then
    Return (Failure (mkError no_json_found (Text "Empty input") None) None)
  else
    match JSON_parse input with
    | Return d => Return (Success d None)
    | OutOfFuel => OutOfFuel
    | Throw _ =>
        let opts := withDefaults options in
        match doParse input opts with
        | Return d => Return (Success d None)
        | Throw e =>
            Return (Failure (mkError truncated (exn_message e) None)
                            (Some (mkPartial medium (VObj []) [])))
        | OutOfFuel => OutOfFuel
        end
    end.

(** ** repair.ts *)

Definition kw_None : str := Eval cbv in lit "None".
Definition kw_True : str := Eval cbv in lit "True".
Definition kw_False : str := Eval cbv in lit "False".
Definition kw_undefined : str := Eval cbv in lit "undefined".

(** The test of the word against
    [true|false|null|undefined|None|True|False]. *)
Definition isReserved (w : str) : bool :=
  existsb (str_eqb w)
    [kw_true; kw_false; kw_null; kw_undefined; kw_None; kw_True; kw_False].

(** The opening fence with its tag, case-insensitive, the last letter of
    the tag optional, and the white space after it. *)
Definition m_fenceOpen : matcher := fun s =>
  match stripPrefix fence s with
  | Some (j :: x :: o :: r) =>
      if ((j =? 106) || (j =? 74))%N && ((x =? 115) || (x =? 83))%N
         && ((o =? 111) || (o =? 79))%N then
        let r1 := match r with
                  | n :: r' => if ((n =? 110) || (n =? 78))%N then r' else r
                  | [] => r
                  end in
        Some ([], dropWhile isSpace r1)
      else None
  | _ => None
  end.

(** A fence followed by white space only up to the end of the text. *)
Definition m_fenceTail : matcher := fun s =>
  match stripPrefix fence s with
  | Some r => if emptyStr (dropWhile isSpace r) then Some ([], []) else None
  | None => None
  end.

(** Two slashes and the rest of the line. *)
Definition m_lineComment : matcher := fun s =>
  match stripPrefix [c_slash; c_slash] s with
  | Some r => Some ([], dropWhile (fun c => negb (ceq c c_nl)) r)
  | None => None
  end.

Fixpoint afterStarSlash (s : str) : option str :=
  match s with
  | [] => None
  | c :: r =>
      match stripPrefix [c_star; c_slash] s with
      | Some rest => Some rest
      | None => afterStarSlash r
      end
  end.

(** A slash and a star, up to the first star and slash after them. *)
Definition m_blockComment : matcher := fun s =>
  match stripPrefix [c_slash; c_star] s with
  | Some r =>
      match afterStarSlash r with
      | Some rest => Some ([], rest)
      | None => None
      end
  | None => None
  end.

(** A comma, white space, and a closing bracket, which is kept. *)
Definition m_trailingComma : matcher := fun s =>
  match s with
  | c :: r =>
      if ceq c c_comma then
        match dropWhile isSpace r with
        | d :: rest => if isClose d then Some ([d], rest) else None
        | [] => None
        end
      else None
  | [] => None
  end.

(** A comma, white space, and a comma: one comma is kept. *)
Definition m_doubleComma : matcher := fun s =>
  match s with
  | c :: r =>
      if ceq c c_comma then
        match dropWhile isSpace r with
        | d :: rest => if ceq d c_comma then Some ([c_comma], rest) else None
        | [] => None
        end
      else None
  | [] => None
  end.

(** [strQuote] is the empty string, a double quote or a single quote. *)
Inductive quote := QNone | QDouble | QSingle.

Record rstate := mkR {
  r_out : str;
  r_warn : list Warning;
  r_inStr : bool;
  r_quote : quote;
  r_esc : bool;
  r_had : bool
}.

Definition warn (c : WarningCode) : Warning := mkWarning c [].

Definition isSingle (q : quote) : bool :=
  match q with QSingle => true | _ => false end.

(** The [while] loop of [repairPass], with [s] the text from [i] on. *)
Fixpoint repairLoop (fuel : nat) (s : str) (st : rstate) : rstate :=
  match s, fuel with
  | [], _ => st
  | _, O => st
  | c :: s', S fuel' =>
      let '(mkR r w inStr q esc had) := st in
      if esc then
        if inStr && isSingle q && ceq c c_sq then
          repairLoop fuel' s' (mkR (r ++ [c_sq]) w inStr q false had)
        else if inStr && isSingle q && ceq c c_dq then
          repairLoop fuel' s' (mkR (r ++ [c_bslash; c_dq]) w inStr q false had)
        else repairLoop fuel' s' (mkR (r ++ [c]) w inStr q false had)
      else if ceq c c_bslash && inStr then
        if isSingle q then repairLoop fuel' s' (mkR r w inStr q true had)
        else repairLoop fuel' s' (mkR (r ++ [c]) w inStr q true had)
      else if ceq c c_dq then
        if inStr then
          match q with
          | QDouble => repairLoop fuel' s' (mkR (r ++ [c_dq]) w false QNone esc had)
          | QSingle =>
              repairLoop fuel' s' (mkR (r ++ [c_bslash; c_dq]) w inStr q esc had)
          | QNone => repairLoop fuel' s' (mkR (r ++ [c_dq]) w inStr q esc had)
          end
        else repairLoop fuel' s' (mkR (r ++ [c_dq]) w true QDouble esc had)
      else if ceq c c_sq then
        if inStr then
          match q with
          | QDouble => repairLoop fuel' s' (mkR (r ++ [c_sq]) w inStr q esc had)
          | QSingle => repairLoop fuel' s' (mkR (r ++ [c_dq]) w false QNone esc true)
          | QNone => repairLoop fuel' s' (mkR (r ++ [c_dq]) w inStr q esc had)
          end
        else repairLoop fuel' s' (mkR (r ++ [c_dq]) w true QSingle esc true)
      else if inStr then repairLoop fuel' s' (mkR (r ++ [c]) w inStr q esc had)
      else if ceq c c_lbrace || ceq c c_comma then
        let (sp, s1) := span isSpace s' in
        let r1 := r ++ c :: sp in
        match s1 with
        | [] => mkR r1 w inStr q esc had
        | d :: s2 =>
            if ceq d c_dq then
              repairLoop fuel' s2 (mkR (r1 ++ [c_dq]) w true QDouble esc had)
            else if ceq d c_sq then
              repairLoop fuel' s2 (mkR (r1 ++ [c_dq]) w true QSingle esc true)
            else
              let (word, s3) := span isWord s1 in
              if negb (emptyStr word) && negb (isReserved word) then
                repairLoop fuel' s3
                  (mkR (r1 ++ c_dq :: word ++ [c_dq])
                       (w ++ [warn unquoted_key_fixed]) inStr q esc had)
              else repairLoop fuel' s3 (mkR r1 w inStr q esc had)
        end
      else if startsWith kw_None s then
        repairLoop fuel' (skipn 4 s)
          (mkR (r ++ kw_null) (w ++ [warn python_literal_converted])
               inStr q esc had)
      else if startsWith kw_True s then
        repairLoop fuel' (skipn 4 s)
          (mkR (r ++ kw_true) (w ++ [warn python_literal_converted])
               inStr q esc had)
      else if startsWith kw_False s then
        repairLoop fuel' (skipn 5 s)
          (mkR (r ++ kw_false) (w ++ [warn python_literal_converted])
               inStr q esc had)
      else repairLoop fuel' s' (mkR (r ++ [c]) w inStr q esc had)
  end.

Definition r_init (warnings : list Warning) : rstate :=
  mkR [] warnings false QNone false false.

(** [repairPass] returns the text; the warnings it pushes on the array it
    was given are returned with it. *)
Definition repairPass (s : str) (warnings : list Warning)
  : str * list Warning :=
  let st := repairLoop (length s) s (r_init warnings) in
  (r_out st,
   if r_had st then r_warn st ++ [warn single_quotes_replaced]
   else r_warn st).

Definition isReturn {A} (x : outcome A) : bool :=
  match x with Return _ => true | _ => false end.

Definition repair (input : str) : RepairResult :=
  if emptyStr input then mkRepair [] [] false
  else
    let s := trim input in
    let s := replaceAll m_fenceTail (replaceAll m_fenceOpen s) in
    let s := replaceAll m_blockComment (replaceAll m_lineComment s) in
    let (s, warnings) := repairPass s [] in
    let before := s in
    let s := replaceAll m_trailingComma s in
    let warnings :=
      if negb (str_eqb before s)
      then warnings ++ [warn trailing_comma_removed] else warnings in
    let s := replaceAll m_doubleComma s in
    mkRepair s warnings (isReturn (JSON_parse s)).

(** ** parse.ts and streaming.ts

    Schema validation (validate.ts) is a collaborator of the pipeline: the
    pipeline only asks whether the list of errors is empty, and prints it
    into the context of the failure.  It is taken here as it comes: a
    call of [validateValue] returns a list of errors or throws. *)

Section Pipeline.

Variable Schema : Type.
Variable ValidationError : Type.
(** [validateValue(d, s, p)] *)
Variable validateValue :
  value -> Schema -> str -> outcome (list ValidationError).
(** [JSON.stringify] on the list of errors. *)
Variable stringifyErrors : option (list ValidationError) -> str.

Record ValidationResult := mkValidation {
  v_ok : bool;
  v_data : option value;
  v_errors : option (list ValidationError)
}.

Definition validate (data : value) (schema : Schema)
  : outcome ValidationResult :=
  errors <- validateValue data schema [] ;;
  Return (match errors with
          | [] => mkValidation true (Some data) None
          | _ => mkValidation false None (Some errors)
          end).

Definition mismatch (v : ValidationResult) : Result :=
  Failure (mkError schema_mismatch (Text "Schema mismatch")
                   (Some (stringifyErrors (v_errors v)))) None.

(** The body shared by the two [try] blocks of [parse]: parse, check the
    schema when there is one, and return.  What [JSON.parse] or [validate]
    throws leaves the block. *)
Definition parseChecked (text : str) (schema : option Schema)
    (warnings : option (list Warning)) : outcome Result :=
  d <- JSON_parse text ;;
  match schema with
  | Some sc =>
      v <- validate d sc ;;
      if negb (v_ok v) then Return (mismatch v)
      else Return (Success d warnings)
  | None => Return (Success d warnings)
  end.

Definition parse (input : str) (schema : option Schema) : outcome Result :=
  if emptyStr input then
    Return (Failure (mkError no_json_found (Text "Empty input") None) None)
  else
    let ex := extract input in
    match json ex with
    | None | Some [] =>
        Return (Failure (mkError no_json_found (Text "No JSON found") None) None)
    | Some js =>
        match parseChecked js schema None with
        | Return r => Return r
        | OutOfFuel => OutOfFuel
        | Throw _ =>
            let rep := repair js in
            match parseChecked (output rep) schema
                    (match r_warnings rep with
                     | [] => None
                     | ws => Some ws
                     end) with
            | Return r => Return r
            | Throw e =>
                Return (Failure (mkError invalid_json (exn_message e) None) None)
            | OutOfFuel => OutOfFuel
            end
        end
    end.

(** The variables closed over by [createStreamingParser]. *)
Record session := mkSession {
  buf : str;
  depth : Z;
  inStr : bool;
  esc : bool;
  started : bool
}.

Definition newSession : session := mkSession [] 0 false false false.

(** One turn of the [for] loop of [update], on the character [ch]. *)
Definition scanChar (st : session) (ch : chr) : session :=
  let '(mkSession b d i e s) := st in
  if e then mkSession b d i false s
  else if ceq ch c_bslash && i then mkSession b d i true s
  else if ceq ch c_dq then mkSession b d (negb i) e s
  else if i then st
  else if isOpen ch then
    mkSession b (d + 1) i e (if (d =? 0)%Z then true else s)
  else if isClose ch then mkSession b (d - 1) i e s
  else st.

(** [update(c)]: the chunk is appended, and the loop runs over the
    offsets from [buf.length - c.length] on. *)
Definition update (st : session) (c : str) : session :=
  let b := buf st ++ c in
  let st1 := mkSession b (depth st) (inStr st) (esc st) (started st) in
  fold_left scanChar (skipn (length b - length c) b) st1.

Definition pOpts : UserOptions :=
  mkUser (Some true) (Some true) (Some true) (Some false).

(** [process()]: no [try] block stands around the call of [validate], so
    that what it throws leaves [process], and with it [write] and
    [finish]. *)
Definition process (opts : option Schema) (st : session) : outcome Result :=
  let ex := extract (buf st) in
  match json ex with
  | None | Some [] =>
      Return (Failure (mkError truncated (Text "No JSON found") None) None)
  | Some js =>
      let rep := repair js in
      res <- parsePartial (output rep) (Some pOpts) ;;
      match res, opts with
      | Success d _, Some sc =>
          v <- validate d sc ;;
          if negb (v_ok v) then Return (mismatch v) else Return res
      | _, _ => Return res
      end
  end.

(** [write] changes the session and returns the preview. *)
Definition write (opts : option Schema) (st : session) (c : str)
  : session * outcome Result :=
  let st' := update st c in (st', process opts st').

Definition finish (opts : option Schema) (st : session) : outcome Result :=
  if negb (started st) then
    Return (Failure (mkError no_json_found (Text "No JSON found") None) None)
  else if (depth st >? 0)%Z || inStr st then
    Return (Failure (mkError truncated (Text "Incomplete JSON") None) None)
  else process opts st.

Definition reset (st : session) : session := newSession.

(** The session after the chunks [cs] were written one after the
    other, whatever the calls returned or threw: [update] has run when
    [process] starts. *)
Definition writes (opts : option Schema) (st : session) (cs : list str)
  : session :=
  fold_left (fun s c => fst (write opts s c)) cs st.

End Pipeline.

(** The pipeline when no schema is supplied. *)
Definition noErrors : value -> Empty_set -> str -> outcome (list unit) :=
  fun _ _ _ => Return [].
Definition noContext : option (list unit) -> str := fun _ => [].

Definition parse0 (input : str) : outcome Result :=
  parse noErrors noContext input None.
Definition write0 (st : session) (c : str) : session * outcome Result :=
  write noErrors noContext None st c.
Definition finish0 (st : session) : outcome Result :=
  finish noErrors noContext None st.
Definition writes0 (st : session) (cs : list str) : session :=
  writes noErrors noContext None st cs.

(** The chunks of a text written one character at a time. *)
Definition chars (s : str) : list str := map (fun c => [c]) s.

(** The scan of a whole buffer from offset 0, by the rules of [update]. *)
Definition scanAll (b : str) : session :=
  fold_left scanChar b (mkSession b 0 false false false).

Unset Implicit Arguments.

(** ** validate.ts

    The data is a [value]: what [JSON.parse] returns, an object being
    the list of its own properties, with [Object.prototype] as its
    prototype. *)

Inductive PrimitiveType := T_string | T_number | T_boolean | T_null.

(** A number of a schema.  Every finite double is a fraction
    [num / den]; the two zeros, which no comparison made here tells
    apart, are the fraction [0 / 1]. *)
Inductive jsnum :=
| Finite (num : Z) (den : positive)
| Infinite (positive : bool)
| NaN.

Inductive LiteralValue :=
| L_string (s : str)
| L_number (n : jsnum)
| L_boolean (b : bool)
| L_null.

Inductive Schema :=
| PrimitiveSchema (type : PrimitiveType) (enum : option (list str))
| ArraySchema (items : Schema) (minItems maxItems : option jsnum)
| ObjectSchema (properties : list (str * Schema))
    (required : option (list str)) (additionalProperties : option bool)
| UnionSchema (variants : list Schema)
| LiteralSchema (value : LiteralValue).

Record ValidationError := mkVE {
  ve_path : str;
  ve_code : ErrorCode;
  ve_message : str;
  ve_expected : option str;
  ve_actual : option str
}.

(** [typeof d] *)
Definition typeof (d : value) : str :=
  match d with
  | VNull | VArr _ | VObj _ => lit "object"
  | VBool _ => lit "boolean"
  | VNum _ => lit "number"
  | VStr _ => lit "string"
  end.

(** [n < x] and [n > x] for a length [n]. *)
Definition lengthBelow (n : nat) (x : jsnum) : bool :=
  match x with
  | Finite a b => (Z.of_nat n * Z.pos b <? a)%Z
  | Infinite positive => positive
  | NaN => false
  end.

Definition lengthAbove (n : nat) (x : jsnum) : bool :=
  match x with
  | Finite a b => (a <? Z.of_nat n * Z.pos b)%Z
  | Infinite positive => negb positive
  | NaN => false
  end.

(** [a === b] on numbers. *)
Definition num_eqb (a b : jsnum) : bool :=
  match a, b with
  | Finite a b, Finite c d => (a * Z.pos d =? c * Z.pos b)%Z
  | Infinite x, Infinite y => Bool.eqb x y
  | _, _ => false
  end.

(** The decimal digits of an array index or of a length. *)
Fixpoint uint_digits (u : Decimal.uint) : str :=
  match u with
  | Decimal.Nil => []
  | Decimal.D0 r => 48%N :: uint_digits r
  | Decimal.D1 r => 49%N :: uint_digits r
  | Decimal.D2 r => 50%N :: uint_digits r
  | Decimal.D3 r => 51%N :: uint_digits r
  | Decimal.D4 r => 52%N :: uint_digits r
  | Decimal.D5 r => 53%N :: uint_digits r
  | Decimal.D6 r => 54%N :: uint_digits r
  | Decimal.D7 r => 55%N :: uint_digits r
  | Decimal.D8 r => 56%N :: uint_digits r
  | Decimal.D9 r => 57%N :: uint_digits r
  end.

Definition indexText (n : nat) : str := uint_digits (Nat.to_uint n).

(** [e.join(sep)] on strings. *)
Fixpoint join (sep : str) (l : list str) : str :=
  match l with
  | [] => []
  | [x] => x
  | x :: r => x ++ sep ++ join sep r
  end.

(** The properties that every object inherits from [Object.prototype]. *)
Definition protoKeys : list str :=
  Eval cbv in
    map lit ["constructor"; "__defineGetter__"; "__defineSetter__";
             "hasOwnProperty"; "__lookupGetter__"; "__lookupSetter__";
             "isPrototypeOf"; "propertyIsEnumerable"; "toString"; "valueOf";
             "__proto__"; "toLocaleString"]%string.

Definition protoKey (k : str) : bool := existsb (str_eqb k) protoKeys.

Definition hasOwn (k : str) (ms : list (str * value)) : bool :=
  existsb (fun kv => str_eqb k (fst kv)) ms.

(** [k in obj] *)
Definition inObject (k : str) (ms : list (str * value)) : bool :=
  hasOwn k ms || protoKey k.

(** [Object.entries(obj)]: the properties whose key is an array index
    (a canonical decimal numeral below 2^32 - 1) come first, in ascending
    order, then the others as they were created. *)
Definition digitsValue (k : str) : N :=
  fold_left (fun a c => (a * 10 + (c - 48))%N) k 0%N.

Definition arrayIndex (k : str) : option N :=
  match k with
  | [] => None
  | c :: r =>
      if forallb isDigit k && (emptyStr r || negb (c =? 48)%N)
         && (digitsValue k <=? 4294967294)%N
      then Some (digitsValue k) else None
  end.

Fixpoint insertIndexed (x : N * (str * value)) (l : list (N * (str * value)))
  : list (N * (str * value)) :=
  match l with
  | [] => [x]
  | y :: r => if (fst x <=? fst y)%N then x :: l else y :: insertIndexed x r
  end.

Fixpoint indexed (ms : list (str * value)) : list (N * (str * value)) :=
  match ms with
  | [] => []
  | kv :: r =>
      match arrayIndex (fst kv) with
      | Some n => insertIndexed (n, kv) (indexed r)
      | None => indexed r
      end
  end.

Definition entries (ms : list (str * value)) : list (str * value) :=
  map snd (indexed ms)
  ++ filter (fun kv => match arrayIndex (fst kv) with
                       | Some _ => false
                       | None => true
                       end) ms.

(** [l.length === 0] *)
Definition isNil {A : Type} (l : list A) : bool :=
  match l with [] => true | _ => false end.

(** The results of [f] on the elements of [l], one after the other, put
    end to end; the first call that throws ends the loop. *)
Fixpoint flatMapM {A B : Type} (f : A -> outcome (list B)) (l : list A)
  : outcome (list B) :=
  match l with
  | [] => Return []
  | a :: r => x <- f a ;; y <- flatMapM f r ;; Return (x ++ y)
  end.

Section Validate.

(** The conversions of the platform on numbers: the number a numeric
    literal denotes, and [String(x)] on a number. *)
Variable numberOf : str -> jsnum.
Variable numberToString : jsnum -> str.

(** [String(d)].  An array is joined with commas, [null] elements giving
    the empty string.  An object is converted by the [toString] it has:
    the one of [Object.prototype] gives [[object Object]]; an own property
    of that name is data, which cannot be called, and [valueOf] gives back
    the object, so that the conversion throws a [TypeError]. *)
Fixpoint valueToString (d : value) : outcome str :=
  match d with
  | VNull => Return (lit "null")
  | VBool true => Return (lit "true")
  | VBool false => Return (lit "false")
  | VNum t => Return (numberToString (numberOf t))
  | VStr x => Return x
  | VArr xs =>
      (fix joinFrom (k : nat) (vs : list value) : outcome str :=
         match vs with
         | [] => Return []
         | v :: r =>
             x <- match v with
                  | VNull => Return []
                  | _ => valueToString v
                  end ;;
             y <- joinFrom (S k) r ;;
             Return ((match k with O => [] | S _ => [c_comma] end) ++ x ++ y)
         end) 0 xs
  | VObj ms =>
      if hasOwn (lit "toString") ms then Throw TypeError
      else Return (lit "[object Object]")
  end.

(** [d === s.value] *)
Definition strictEq (d : value) (l : LiteralValue) : bool :=
  match d, l with
  | VStr x, L_string y => str_eqb x y
  | VNum t, L_number n => num_eqb (numberOf t) n
  | VBool a, L_boolean b => Bool.eqb a b
  | VNull, L_null => true
  | _, _ => false
  end.

(** [String(s.value)] *)
Definition literalToString (l : LiteralValue) : str :=
  match l with
  | L_string s => s
  | L_number n => numberToString n
  | L_boolean true => lit "true"
  | L_boolean false => lit "false"
  | L_null => lit "null"
  end.

(** An error that carries [expected] and [actual]. *)
Definition typeError (p : str) (message expected actual : str)
  : ValidationError :=
  mkVE p type_error message (Some expected) (Some actual).

Definition checkEnum (d : str) (e : option (list str)) (p : str)
  : list ValidationError :=
  match e with
  | Some e' =>
      if negb (existsb (str_eqb d) e')
      then [typeError p (lit "Not in enum") (join (lit "|") e') d]
      else []
  | None => []
  end.

(** The path of a property or of an index under [p]. *)
Definition subPath (p k : str) : str := p ++ c_slash :: k.

(** [validateValue(d, s, p)], with [validateArray], [validateObject] and
    [validateUnion] in its branches.  A property of [s.properties] that is
    only inherited from [Object.prototype] has no [type], and so accepts
    every value.  The only operation that can throw is [String(d)], in the
    error of a literal and in the error of a union. *)
Fixpoint validateValue (d : value) (s : Schema) (p : str) {struct s}
  : outcome (list ValidationError) :=
  match s with
  | PrimitiveSchema T_null _ =>
      match d with
      | VNull => Return []
      | _ => Return [typeError p (lit "Expected null") (lit "null") (typeof d)]
      end
  | PrimitiveSchema T_string enum =>
      match d with
      | VStr x => Return (checkEnum x enum p)
      | _ =>
          Return [typeError p (lit "Expected string") (lit "string") (typeof d)]
      end
  | PrimitiveSchema T_number _ =>
      match d with
      | VNum _ => Return []
      | _ =>
          Return [typeError p (lit "Expected number") (lit "number") (typeof d)]
      end
  | PrimitiveSchema T_boolean _ =>
      match d with
      | VBool _ => Return []
      | _ =>
          Return [typeError p (lit "Expected boolean") (lit "boolean")
                    (typeof d)]
      end
  | ArraySchema items minItems maxItems =>
      (* validateArray *)
      match d with
      | VArr xs =>
          let e1 :=
            match minItems with
            | Some n =>
                if lengthBelow (length xs) n
                then [typeError p (lit "Min " ++ numberToString n ++ lit " items")
                        (lit ">=" ++ numberToString n) (indexText (length xs))]
                else []
            | None => []
            end in
          let e2 :=
            match maxItems with
            | Some n =>
                if lengthAbove (length xs) n
                then [typeError p
                        (lit "Max " ++ numberToString n ++ lit " items")
                        (lit "<=" ++ numberToString n) (indexText (length xs))]
                else []
            | None => []
            end in
          e3 <- (fix each (i : nat) (vs : list value)
                   : outcome (list ValidationError) :=
                   match vs with
                   | [] => Return []
                   | v :: r =>
                       a <- validateValue v items (subPath p (indexText i)) ;;
                       b <- each (S i) r ;;
                       Return (a ++ b)
                   end) 0 xs ;;
          Return (e1 ++ e2 ++ e3)
      | _ => Return [typeError p (lit "Expected array") (lit "array") (typeof d)]
      end
  | ObjectSchema properties required additionalProperties =>
      (* validateObject *)
      match d with
      | VObj ms =>
          let e1 :=
            flat_map
              (fun k =>
                 if inObject k ms then []
                 else [mkVE (subPath p k) missing_required (lit "Missing " ++ k)
                            (Some k) None])
              (match required with Some req => req | None => [] end) in
          e2 <- flatMapM
                  (fun kv =>
                     (fix look (ps : list (str * Schema))
                        : outcome (list ValidationError) :=
                        match ps with
                        | (k', sc) :: r =>
                            if str_eqb (fst kv) k'
                            then validateValue (snd kv) sc (subPath p (fst kv))
                            else look r
                        | [] =>
                            if protoKey (fst kv) then Return []
                            else
                              match additionalProperties with
                              | Some false =>
                                  Return [mkVE (subPath p (fst kv)) type_error
                                            (lit "Unknown property " ++ fst kv)
                                            None None]
                              | _ => Return []
                              end
                        end) properties)
                  (entries ms) ;;
          Return (e1 ++ e2)
      | _ =>
          Return
            [typeError p (lit "Expected object") (lit "object")
               (match d with
                | VNull => lit "null"
                | VArr _ => lit "array"
                | _ => typeof d
                end)]
      end
  | UnionSchema variants =>
      (* validateUnion *)
      (fix firstMatch (vs : list Schema) : outcome (list ValidationError) :=
         match vs with
         | v :: r =>
             e <- validateValue d v p ;;
             if isNil e then Return [] else firstMatch r
         | [] =>
             actual <- valueToString d ;;
             Return [typeError p (lit "No union variant matched") (lit "union")
                       actual]
         end) variants
  | LiteralSchema value =>
      if strictEq d value then Return []
      else
        actual <- valueToString d ;;
        Return [typeError p (lit "Expected " ++ literalToString value)
                  (literalToString value) actual]
  end.

End Validate.

(** ** parseWithSchema (parse.ts) and parseStream (streaming.ts) *)

Section Stream.

Variable Schema : Type.
Variable ValidationError : Type.
Variable validateValue :
  value -> Schema -> str -> outcome (list ValidationError).
Variable stringifyErrors : option (list ValidationError) -> str.

(** [parseWithSchema(input, schema)] *)
Definition parseWithSchema (input : str) (schema : Schema) : outcome Result :=
  parse validateValue stringifyErrors input (Some schema).

(** [for await (const c of it) p.write(c); return p.finish();]: a call
    of [write] that throws ends the loop, and the promise is rejected
    with what was thrown. *)
Fixpoint streamLoop (schema : option Schema) (st : session) (cs : list str)
  : outcome Result :=
  match cs with
  | [] => finish validateValue stringifyErrors schema st
  | c :: r =>
      let (st', res) := write validateValue stringifyErrors schema st c in
      _ <- res ;; streamLoop schema st' r
  end.

(** [parseStream(chunks, schema, options)], once its promise is settled:
    [Return] when it is fulfilled, [Throw] when it is rejected.
    [chunks] is [Some cs] for an async iterable that yields the strings
    [cs] and ends, and [None] for an argument that is neither an async
    iterable nor a [ReadableStream]. *)
Definition parseStream (chunks : option (list str)) (schema : option Schema)
  : outcome Result :=
  match chunks with
  | None =>
      Return (Failure (mkError invalid_json (Text "Invalid input") None) None)
  | Some cs => streamLoop schema newSession cs
  end.

End Stream.

(** ** The configuration (types.ts)

    A property of a configuration object is absent, or present with a
    value that may be [undefined]. *)
Inductive property (A : Type) :=
| Absent
| Present (v : option A).
Arguments Absent {A}.
Arguments Present {A} v.
Arguments Absent {A}.
Arguments Present {A} v.

Section Config.

(** A [RepairRule] holds a regular expression and possibly a function. *)
Variable RepairRule : Type.

Record LlmJsonConfig := mkConfig {
  maxBufferSize : property jsnum;
  maxRepairs : property jsnum;
  customRepairs : property (list RepairRule);
  collectWarnings : property bool
}.

(** [{ ...a, ...b }], property by property. *)
Definition spreadField {A : Type} (a b : property A) : property A :=
  match b with
  | Absent => a
  | Present _ => b
  end.

Definition spread (a b : LlmJsonConfig) : LlmJsonConfig :=
  mkConfig (spreadField (maxBufferSize a) (maxBufferSize b))
           (spreadField (maxRepairs a) (maxRepairs b))
           (spreadField (customRepairs a) (customRepairs b))
           (spreadField (collectWarnings a) (collectWarnings b)).

(** The initial value of [globalConfig]. *)
Definition initialConfig : LlmJsonConfig :=
  mkConfig (Present (Some (Finite 1048576 1))) (Present (Some (Finite 10 1)))
           Absent (Present (Some true)).

(** [configure(config)], as a function of the global it replaces. *)
Definition configure (config globalConfig : LlmJsonConfig) : LlmJsonConfig :=
  spread globalConfig config.

(** [getConfig()] *)
Definition getConfig (globalConfig : LlmJsonConfig) : LlmJsonConfig :=
  globalConfig.

End Config.

(** * Vocabulary of the properties *)

Unset Implicit Arguments.

(** ** The streaming session

    The four tracked variables. *)
Definition track (st : session) : Z * bool * bool * bool :=
  (depth st, inStr st, esc st, started st).

(** ** Fuel

    With [fuel] the three loops of [doParse] do not run out on a text
    whose length the fuel covers, and what they return is a suffix of
    what they were given. *)
Definition fuelOk (opts : PartialParseOptions) (len fuel : nat) : Prop :=
  (forall s, 2 * length s + 1 <= fuel -> parseValue opts len fuel s <> OutOfFuel)
  /\ (forall s v rest, parseValue opts len fuel s = Return (v, rest) ->
        length rest < length s)
  /\ (forall arr s, 2 * length s + 2 <= fuel ->
        arrLoop opts len fuel arr s <> OutOfFuel)
  /\ (forall arr s v rest, arrLoop opts len fuel arr s = Return (v, rest) ->
        length rest <= length s)
  /\ (forall obj s, 2 * length s + 2 <= fuel ->
        objLoop opts len fuel obj s <> OutOfFuel)
  /\ (forall obj s v rest, objLoop opts len fuel obj s = Return (v, rest) ->
        length rest <= length s).

(** The four [allowPartial*] options set by the caller. *)
Definition allPartial : option UserOptions :=
  Some (mkUser (Some true) (Some true) (Some true) (Some true)).

(** ** Patterns

    A match consumes a character or more. *)
Definition progresses (m : matcher) : Prop :=
  forall s repl rest, m s = Some (repl, rest) -> length rest < length s.

(** The pattern matches nowhere in the text. *)
Fixpoint neverMatches (m : matcher) (s : str) : bool :=
  match s with
  | [] => true
  | _ :: r => match m s with None => neverMatches m r | Some _ => false end
  end.

(** ** Tokens

    [w] is the content of a double-quoted literal as the pass reads it:
    it holds no double quote that is not escaped by a backslash, and does
    not end on a pending escape.  [e] tells whether an escape is
    pending when [w] starts. *)
Fixpoint dqContent (e : bool) (w : str) : bool :=
  match w with
  | [] => negb e
  | c :: r =>
      if e then dqContent false r
      else if ceq c c_bslash then dqContent true r
      else if ceq c c_dq then false
      else dqContent false r
  end.

(** The text does not go on like a number. *)
Definition noNumStart (s : str) : bool :=
  match s with c :: _ => negb (isNumChar c) | [] => true end.

(** The lexical shape of a token: the body of a string is a content in
    the sense of [dqContent]; a number is a non-empty run of number
    characters that starts with a minus or a digit and obeys the number
    grammar. *)
Definition wfTok (t : tok) : bool :=
  match t with
  | TStr b => dqContent false b
  | TNum n =>
      validNumber n && forallb isNumChar n
      && match n with c :: _ => ceq c c_minus || isDigit c | [] => false end
  | _ => true
  end.

(** The tokens [its] followed by [trail] are well formed: white space is
    JSON white space, every token has its shape, and a number is followed
    by something that does not go on like a number. *)
Fixpoint wfItems (its : list item) (trail : str) : bool :=
  match its with
  | [] => forallb isJsonWs trail
  | (w, t) :: r =>
      forallb isJsonWs w && wfTok t
      && match t with TNum _ => noNumStart (render r ++ trail) | _ => true end
      && wfItems r trail
  end.

(** ** The grammar of JSON values on tokens

    [JV ts]: the tokens [ts] make up one value; [JElems] and [JMembers]
    are the comma-separated elements of an array and members of an
    object. *)
Inductive JV : list item -> Prop :=
| JV_str w b : JV [(w, TStr b)]
| JV_num w n : JV [(w, TNum n)]
| JV_true w : JV [(w, TTrue)]
| JV_false w : JV [(w, TFalse)]
| JV_null w : JV [(w, TNull)]
| JV_arr0 w1 w2 : JV [(w1, TLBrack); (w2, TRBrack)]
| JV_arr w1 es w2 : JElems es -> JV ((w1, TLBrack) :: es ++ [(w2, TRBrack)])
| JV_obj0 w1 w2 : JV [(w1, TLBrace); (w2, TRBrace)]
| JV_obj w1 ms w2 : JMembers ms -> JV ((w1, TLBrace) :: ms ++ [(w2, TRBrace)])
with JElems : list item -> Prop :=
| JE_one v : JV v -> JElems v
| JE_cons v w es : JV v -> JElems es -> JElems (v ++ (w, TComma) :: es)
with JMembers : list item -> Prop :=
| JM_one w1 k w2 v : JV v -> JMembers ((w1, TStr k) :: (w2, TColon) :: v)
| JM_cons w1 k w2 v w3 ms :
    JV v -> JMembers ms ->
    JMembers ((w1, TStr k) :: (w2, TColon) :: v ++ (w3, TComma) :: ms).

Scheme JV_mut := Induction for JV Sort Prop
  with JElems_mut := Induction for JElems Sort Prop
  with JMembers_mut := Induction for JMembers Sort Prop.
Combined Scheme JSON_mutind from JV_mut, JElems_mut, JMembers_mut.

(** What the token parser accepts belongs to the grammar. *)
Definition pSound (f : nat) : Prop :=
  (forall ts v rest, pValue f ts = Some (v, rest) ->
     exists used, ts = used ++ rest /\ JV used)
  /\ (forall acc ts v rest, pElems f acc ts = Some (v, rest) ->
        exists es w, ts = es ++ (w, TRBrack) :: rest /\ JElems es)
  /\ (forall acc ts v rest, pMembers f acc ts = Some (v, rest) ->
        exists ms w, ts = ms ++ (w, TRBrace) :: rest /\ JMembers ms).

(** ** The bracket scanner

    The depth, the in-string flag and the pending escape, and the step
    that [findJson] and [update] have in common. *)
Definition cstate := (Z * bool * bool)%type.

Definition coreStep (st : cstate) (c : chr) : cstate :=
  let '(d, i, e) := st in
  if e then (d, i, false)
  else if ceq c c_bslash && i then (d, i, true)
  else if ceq c c_dq then (d, negb i, e)
  else if i then st
  else if isOpen c then ((d + 1)%Z, i, e)
  else if isClose c then ((d - 1)%Z, i, e)
  else st.

Definition coreScan (l : str) (st : cstate) : cstate := fold_left coreStep l st.

(** The depth stays at 1 or more after every character of [l]. *)
Fixpoint quiet (st : cstate) (l : str) : bool :=
  match l with
  | [] => true
  | c :: r =>
      let st' := coreStep st c in
      (1 <=? fst (fst st'))%Z && quiet st' r
  end.

(** What a token adds to the depth. *)
Definition delta (t : tok) : Z :=
  match t with
  | TLBrace | TLBrack => 1
  | TRBrace | TRBrack => -1
  | _ => 0
  end.

(** The nesting depth stays at 1 or more after every token. *)
Fixpoint levels (d : Z) (ts : list item) : bool :=
  match ts with
  | [] => true
  | (_, t) :: r => (1 <=? d + delta t)%Z && levels (d + delta t) r
  end.

Fixpoint depthAfter (d : Z) (ts : list item) : Z :=
  match ts with
  | [] => d
  | (_, t) :: r => depthAfter (d + delta t) r
  end.

(** The lexical part of [wfItems]. *)
Definition wfLex (its : list item) : bool :=
  forallb (fun it => forallb isJsonWs (fst it) && wfTok (snd it)) its.

(** Neither a double quote nor a bracket. *)
Definition plainChar (c : chr) : bool :=
  negb (ceq c c_dq) && negb (isOpen c) && negb (isClose c).

(** A text that starts with an opening bracket and ends with a closing
    one. *)
Definition bracketed (j : str) : bool :=
  match j with
  | o :: _ => isOpen o && isClose (last j 0%N)
  | [] => false
  end.

(** ** Texts that [repair] leaves alone

    The first character of the token is a word character. *)
Definition wordStart (t : tok) : bool :=
  match tokText t with c :: _ => isWord c | [] => false end.

(** The tokens after which the quote pass looks for a key. *)
Definition isSep (t : tok) : bool :=
  match t with TLBrace | TComma => true | _ => false end.

(** No opening brace and no comma is directly followed by a token that
    starts with a word character (a number that starts with a digit,
    [true], [false] or [null]). *)
Fixpoint sepOk (its : list item) : bool :=
  match its with
  | [] => true
  | (_, t) :: r =>
      match r with
      | (_, t') :: _ => (if isSep t then negb (wordStart t') else true)
      | [] => true
      end && sepOk r
  end.

(** The text is left alone by every stage of [repair]: it has no white
    space at either end, none of the six textual patterns matches in it,
    and its tokens satisfy [sepOk]. *)
Definition clean (o : str) : bool :=
  str_eqb (trim o) o
  && neverMatches m_fenceOpen o && neverMatches m_fenceTail o
  && neverMatches m_lineComment o && neverMatches m_blockComment o
  && neverMatches m_trailingComma o && neverMatches m_doubleComma o
  && match lex o with Some (its, _) => sepOk its | None => false end.

(** A character that the quote pass copies when it is outside a string. *)
Definition passChar (c : chr) : bool :=
  negb (ceq c c_dq || ceq c c_sq || ceq c c_lbrace || ceq c c_comma
        || (c =? 78)%N || (c =? 84)%N || (c =? 70)%N).

(** Texts are compared with their concatenations nested to the right. *)
Ltac app_norm := repeat first [rewrite <- app_assoc | progress cbn [app]].

(** ** Token prefixes

    The options of [parsePartial] once [allPartial] is merged in. *)
Definition optsAll : PartialParseOptions := mkOpts true true true true.

(** What follows does not start like the rest of a run of [p]. *)
Definition headNot (p : chr -> bool) (x : str) : Prop :=
  match x with c :: _ => p c = false | [] => True end.

(** The last token of a non-empty list of tokens. *)
Definition lastTok (ts : list item) : tok := snd (last ts ([], TColon)).

(** The tokens a value can start with. *)
Definition valueStart (t : tok) : bool :=
  match t with
  | TStr _ | TNum _ | TTrue | TFalse | TNull | TLBrack | TLBrace => true
  | _ => false
  end.

Section PartialSpec.

Variable len : nat.

Local Notation PV := (parseValue optsAll len).
Local Notation AL := (arrLoop optsAll len).
Local Notation OL := (objLoop optsAll len).

(** What the induction on the grammar proves of a value: [parseValue]
    reads it whole when it is followed by [x], and reads every prefix of
    it that ends after a token other than a colon, up to the end of the
    input. *)
Definition okV (ts : list item) : Prop :=
  wfLex ts = true ->
  (forall x f, noNumStart x = true ->
     PV f (render ts ++ x) <> OutOfFuel ->
     exists v, PV f (render ts ++ x) = Return (v, x))
  /\ (forall k f, 1 <= k -> k < length ts ->
        lastTok (firstn k ts) <> TColon ->
        PV f (render (firstn k ts)) <> OutOfFuel ->
        exists v, PV f (render (firstn k ts)) = Return (v, [])).

(** The same for the elements of an array, read by [arrLoop] up to the
    closing bracket. *)
Definition okE (es : list item) : Prop :=
  wfLex es = true ->
  (forall w x arr f, forallb isJsonWs w = true ->
     AL f arr (render es ++ w ++ c_rbrack :: x) <> OutOfFuel ->
     exists v, AL f arr (render es ++ w ++ c_rbrack :: x) = Return (v, x))
  /\ (forall k arr f, 1 <= k -> k <= length es ->
        lastTok (firstn k es) <> TColon ->
        AL f arr (render (firstn k es)) <> OutOfFuel ->
        exists v, AL f arr (render (firstn k es)) = Return (v, [])).

(** The same for the members of an object, read by [objLoop] up to the
    closing brace. *)
Definition okM (ms : list item) : Prop :=
  wfLex ms = true ->
  (forall w x obj f, forallb isJsonWs w = true ->
     OL f obj (render ms ++ w ++ c_rbrace :: x) <> OutOfFuel ->
     exists v, OL f obj (render ms ++ w ++ c_rbrace :: x) = Return (v, x))
  /\ (forall k obj f, 1 <= k -> k <= length ms ->
        lastTok (firstn k ms) <> TColon ->
        OL f obj (render (firstn k ms)) <> OutOfFuel ->
        exists v, OL f obj (render (firstn k ms)) = Return (v, [])).

End PartialSpec.

(** ** Candidates of [findJson]

    The candidate starts with an opening bracket at depth 0; the depth
    stays at 1 or more up to its last character, which is a closing
    bracket met outside any string that takes the depth back to 0. *)
Definition balanced (j : str) : bool :=
  match j with
  | o :: r =>
      isOpen o && negb (emptyStr r)
      && quiet (1%Z, false, false) (removelast r)
      && (let '(d, b, e) := coreScan (removelast r) (1%Z, false, false) in
          (d =? 1)%Z && negb b && negb e)
      && isClose (last r 0%N)
  | [] => false
  end.

(** A recorded result is a balanced piece of the text, at its span. *)
Definition goodResult (s : str) (r : str * (nat * nat)) : Prop :=
  exists pre post,
    s = pre ++ fst r ++ post /\ fst (snd r) = length pre
    /\ snd (snd r) = length pre + length (fst r) /\ balanced (fst r) = true.

(** Where the scanner stands: [i] characters were read, and while the
    depth is 1 or more, [start] is the offset of the bracket that opened
    at depth 0 and the depth never came back to 0 since. *)
Definition openInv (s rest : str) (i : nat) (st : fstate) : Prop :=
  (exists pre, s = pre ++ rest /\ length pre = i)
  /\ ((1 <= f_depth st)%Z ->
      exists pre0 o mid,
        s = pre0 ++ o :: mid ++ rest
        /\ f_start st = Z.of_nat (length pre0)
        /\ isOpen o = true
        /\ quiet (1%Z, false, false) mid = true
        /\ coreScan mid (1%Z, false, false) = (f_depth st, f_inStr st, f_esc st)).

(** The candidates [js], each after its gap. *)
Fixpoint weave (gaps js : list str) : str :=
  match gaps, js with
  | g :: gaps', j :: js' => g ++ j ++ weave gaps' js'
  | _, _ => []
  end.

(** The results so far lie one after the other in what was read, and the
    pending [start] lies after them. *)
Definition weaveInv (pre : str) (i : nat) (st : fstate) : Prop :=
  exists gaps tl,
    length gaps = length (f_results st)
    /\ pre = weave gaps (map fst (f_results st)) ++ tl
    /\ ((1 <= f_depth st)%Z ->
        (Z.of_nat (length (weave gaps (map fst (f_results st))))
         <= f_start st < Z.of_nat i)%Z).

(** What a pattern gives back is made of characters of the text. *)
Definition shrinks (m : matcher) : Prop :=
  forall s repl rest, m s = Some (repl, rest) -> incl repl s /\ incl rest s.

(** ** Results *)

Definition isContainer (v : value) : bool :=
  match v with VArr _ | VObj _ => true | _ => false end.

Section SchemaFilter.

Variable Schema : Type.
Variable ValidationError : Type.
Variable validateValue :
  value -> Schema -> str -> outcome (list ValidationError).
Variable stringifyErrors : option (list ValidationError) -> str.

(** What the schema check makes of a result: a [Success] whose data
    fails the validation becomes the [schema_mismatch] failure, and what
    the validation throws is thrown. *)
Definition checkSchema (schema : option Schema) (r : Result)
  : outcome Result :=
  match r, schema with
  | Success d w, Some sc =>
      v <- validate validateValue d sc ;;
      Return (if v_ok v then r else mismatch stringifyErrors v)
  | _, _ => Return r
  end.

End SchemaFilter.

(** ** Messages of the partial parser *)

Definition partialMessage (opts : PartialParseOptions) (len : nat)
    (m : message) : Prop :=
  (exists i, i <= len /\ m = TextAt "Unexpected token at " i)
  \/ (allowPartialStrings opts = false /\ m = Text "Unterminated string")
  \/ (allowPartialArrays opts = false /\ m = Text "Unterminated array")
  \/ (allowPartialObjects opts = false
      /\ (m = Text "Unterminated object" \/ m = Text "Expected colon")).

Definition throwsKnown (opts : PartialParseOptions) (len : nat)
    (x : outcome (value * str)) : Prop :=
  forall e, x = Throw e -> partialMessage opts len (exn_message e).

(** No double quote closes the string: every double quote of [w] is
    escaped.  [e] tells whether an escape is pending. *)
Fixpoint noClosingQuote (e : bool) (w : str) : bool :=
  match w with
  | [] => true
  | c :: r =>
      if e then noClosingQuote false r
      else if ceq c c_bslash then noClosingQuote true r
      else if ceq c c_dq then false
      else noClosingQuote false r
  end.

(** The characters that [parseStr] keeps: every backslash that is not
    itself escaped is dropped. *)
Fixpoint dropEscapes (e : bool) (w : str) : str :=
  match w with
  | [] => []
  | c :: r =>
      if e then c :: dropEscapes false r
      else if ceq c c_bslash then dropEscapes true r
      else c :: dropEscapes false r
  end.

(** ** The quote pass of [repair] *)

(** The warnings that the loop of [repairPass] pushes. *)
Definition passWarning (w : Warning) : Prop :=
  w = warn unquoted_key_fixed \/ w = warn python_literal_converted.

(** [w] is the content of a single-quoted literal as the pass reads it:
    it holds no single quote that is not escaped, and does not end on a
    pending escape. *)
Fixpoint sqContent (e : bool) (w : str) : bool :=
  match w with
  | [] => negb e
  | c :: r =>
      if e then sqContent false r
      else if ceq c c_bslash then sqContent true r
      else if ceq c c_sq then false
      else sqContent false r
  end.

(** What the pass writes for that content: an escaped single quote loses
    its backslash, a double quote gets one, and any other escaped
    character loses its backslash. *)
Fixpoint sqBody (e : bool) (w : str) : str :=
  match w with
  | [] => []
  | c :: r =>
      if e then
        (if ceq c c_sq then [c_sq]
         else if ceq c c_dq then [c_bslash; c_dq]
         else [c]) ++ sqBody false r
      else if ceq c c_bslash then sqBody true r
      else if ceq c c_dq then [c_bslash; c_dq] ++ sqBody false r
      else c :: sqBody false r
  end.

(** The ways in which the quote pass comes to the opening quote of a
    literal: at the top of its loop ([lead] is empty), or in the branch
    that looks for a key, after an opening brace or a comma and white
    space. *)
Definition keyLead (lead : str) : bool :=
  match lead with
  | [] => true
  | c :: sp => (ceq c c_lbrace || ceq c c_comma) && forallb isSpace sp
  end.

(** ** A value in prose or in a fence

    The prose before a value, as [findJson] reads it from the state
    [st]: no opening bracket stands at depth 0 outside a string, and at
    the end the depth is 0 and the scan is outside any string.  So the
    double quotes come in pairs, and a closing bracket outside them is
    followed by an opening one that takes the depth back. *)
Fixpoint proseFrom (st : cstate) (l : str) : bool :=
  match l with
  | [] => let '(d, i, e) := st in (d =? 0)%Z && negb i && negb e
  | c :: r =>
      let '(d, i, e) := st in
      negb (negb e && negb i && isOpen c && (d =? 0)%Z)
      && proseFrom (coreStep st c) r
  end.

Definition proseOk (pre : str) : bool := proseFrom (0%Z, false, false) pre.

(** The value stands as it is, or in a fence: three backquotes, the tag
    [json] or none, white space [ws], the value, a newline or none, and
    three backquotes. *)
Inductive wrapping :=
| Bare
| Fenced (tagged : bool) (ws : str) (nl : bool).

Definition wrap (k : wrapping) (j : str) : str :=
  match k with
  | Bare => j
  | Fenced tagged ws nl =>
      fence ++ (if tagged then tag_json else []) ++ ws ++ j
      ++ (if nl then [c_nl] else []) ++ fence
  end.

(** The pattern matches at no position of [a], in the text [a ++ rest]. *)
Fixpoint noMatchFrom (m : matcher) (a rest : str) : bool :=
  match a with
  | [] => true
  | _ :: a' =>
      match m (a ++ rest) with
      | None => noMatchFrom m a' rest
      | Some _ => false
      end
  end.

(** The text holds no three backquotes in a row. *)
Fixpoint noFence (s : str) : bool :=
  match s with
  | [] => true
  | _ :: r => negb (startsWith fence s) && noFence r
  end.

(** The fence pattern of [stripMd] leaves the prose before the value and
    the value alone: it matches at no position of the prose, nor of a
    value that stands as it is; a value in a fence holds no fence. *)
Definition fencesOk (k : wrapping) (pre j post : str) : bool :=
  match k with
  | Bare => noMatchFrom m_fenced (pre ++ j) post
  | Fenced tagged ws nl =>
      forallb isSpace ws && noMatchFrom m_fenced pre (wrap k j ++ post)
      && noFence j
  end.

(** ** Schemas *)

(** The schema that [properties] holds for the key [k]. *)
Fixpoint declared (ps : list (str * Schema)) (k : str) : option Schema :=
  match ps with
  | [] => None
  | (k', sc) :: r => if str_eqb k k' then Some sc else declared r k
  end.

Section Conforms.

Variable numberOf : str -> jsnum.

(** The value has the shape the schema describes.  For an object: every
    required key is a key of the object or the name of a member of
    [Object.prototype]; every property whose key the schema declares
    conforms to the schema declared for it; and, when
    [additionalProperties] is [false], every other key of the object is
    the name of a member of [Object.prototype]. *)
Inductive conforms : value -> Schema -> Prop :=
| conforms_null e : conforms VNull (PrimitiveSchema T_null e)
| conforms_string x e :
    (forall l, e = Some l -> In x l) ->
    conforms (VStr x) (PrimitiveSchema T_string e)
| conforms_number t e : conforms (VNum t) (PrimitiveSchema T_number e)
| conforms_boolean b e : conforms (VBool b) (PrimitiveSchema T_boolean e)
| conforms_array xs items mn mx :
    (forall n, mn = Some n -> lengthBelow (length xs) n = false) ->
    (forall n, mx = Some n -> lengthAbove (length xs) n = false) ->
    Forall (fun x => conforms x items) xs ->
    conforms (VArr xs) (ArraySchema items mn mx)
| conforms_object ms props req addl :
    (forall l k, req = Some l -> In k l ->
       In k (map fst ms) \/ In k protoKeys) ->
    (forall k v sc, In (k, v) ms -> declared props k = Some sc ->
       conforms v sc) ->
    (forall k v, In (k, v) ms -> declared props k = None ->
       In k protoKeys \/ addl <> Some false) ->
    conforms (VObj ms) (ObjectSchema props req addl)
| conforms_union d vs v :
    In v vs -> conforms d v -> conforms d (UnionSchema vs)
| conforms_lit_string x : conforms (VStr x) (LiteralSchema (L_string x))
| conforms_lit_number t n :
    num_eqb (numberOf t) n = true ->
    conforms (VNum t) (LiteralSchema (L_number n))
| conforms_lit_boolean b : conforms (VBool b) (LiteralSchema (L_boolean b))
| conforms_lit_null : conforms VNull (LiteralSchema L_null).

End Conforms.

(** No object inside the value has a property of its own named
    [toString]. *)
Fixpoint noToString (d : value) : bool :=
  match d with
  | VArr xs =>
      (fix all (vs : list value) : bool :=
         match vs with
         | [] => true
         | v :: r => noToString v && all r
         end) xs
  | VObj ms =>
      negb (hasOwn (lit "toString") ms)
      && (fix all (kvs : list (str * value)) : bool :=
            match kvs with
            | [] => true
            | kv :: r => noToString (snd kv) && all r
            end) ms
  | _ => true
  end.

(** The schema holds no union and no literal: the two places where the
    validation computes [String(d)]. *)
Fixpoint plainSchema (s : Schema) : bool :=
  match s with
  | PrimitiveSchema _ _ => true
  | ArraySchema items _ _ => plainSchema items
  | ObjectSchema props _ _ =>
      (fix all (ps : list (str * Schema)) : bool :=
         match ps with
         | [] => true
         | ks :: r => plainSchema (snd ks) && all r
         end) props
  | UnionSchema _ | LiteralSchema _ => false
  end.

(** [f] on the result that is returned. *)
Definition onReturn {A B : Type} (f : A -> B) (x : outcome A) : outcome B :=
  a <- x ;; Return (f a).

(** Induction on values, through the lists they hold. *)
Section ValueInduction.

Variable P : value -> Prop.
Hypothesis Hnull : P VNull.
Hypothesis Hbool : forall b, P (VBool b).
Hypothesis Hnum : forall t, P (VNum t).
Hypothesis Hstr : forall x, P (VStr x).
Hypothesis Harr : forall xs, Forall P xs -> P (VArr xs).
Hypothesis Hobj : forall ms, Forall (fun kv => P (snd kv)) ms -> P (VObj ms).

Fixpoint value_induction (d : value) : P d :=
  match d with
  | VNull => Hnull
  | VBool b => Hbool b
  | VNum t => Hnum t
  | VStr x => Hstr x
  | VArr xs =>
      Harr xs
        ((fix go (l : list value) : Forall P l :=
            match l with
            | [] => Forall_nil _
            | v :: r => Forall_cons v (value_induction v) (go r)
            end) xs)
  | VObj ms =>
      Hobj ms
        ((fix go (l : list (str * value)) : Forall (fun kv => P (snd kv)) l :=
            match l with
            | [] => Forall_nil _
            | kv :: r => Forall_cons kv (value_induction (snd kv)) (go r)
            end) ms)
  end.

End ValueInduction.

(** ** The loops of the validation *)

Section ValidateLoops.

Variable numberOf : str -> jsnum.
Variable numberToString : jsnum -> str.

(** The branch of [validateObject] for a property, by the schema that is
    declared for its key. *)
Definition lookProperty (props : list (str * Schema)) (addl : option bool)
    (p : str) (kv : str * value) : outcome (list ValidationError) :=
  match declared props (fst kv) with
  | Some sc => validateValue numberOf numberToString (snd kv) sc (subPath p (fst kv))
  | None =>
      if protoKey (fst kv) then Return []
      else
        match addl with
        | Some false =>
            Return [mkVE (subPath p (fst kv)) type_error
                      (lit "Unknown property " ++ fst kv) None None]
        | _ => Return []
        end
  end.

(** The loop of [validateArray] over the elements, from the index [i]. *)
Fixpoint eachItem (items : Schema) (p : str) (i : nat) (vs : list value)
  : outcome (list ValidationError) :=
  match vs with
  | [] => Return []
  | v :: r =>
      a <- validateValue numberOf numberToString v items (subPath p (indexText i)) ;;
      b <- eachItem items p (S i) r ;;
      Return (a ++ b)
  end.

(** The errors of [validateArray] on the length. *)
Definition minError (p : str) (n : nat) (mn : option jsnum)
  : list ValidationError :=
  match mn with
  | Some x =>
      if lengthBelow n x
      then [typeError p (lit "Min " ++ numberToString x ++ lit " items")
              (lit ">=" ++ numberToString x) (indexText n)]
      else []
  | None => []
  end.

Definition maxError (p : str) (n : nat) (mx : option jsnum)
  : list ValidationError :=
  match mx with
  | Some x =>
      if lengthAbove n x
      then [typeError p (lit "Max " ++ numberToString x ++ lit " items")
              (lit "<=" ++ numberToString x) (indexText n)]
      else []
  | None => []
  end.

(** The loop of [validateUnion]. *)
Fixpoint firstMatch (d : value) (p : str) (vs : list Schema)
  : outcome (list ValidationError) :=
  match vs with
  | v :: r => e <- validateValue numberOf numberToString d v p ;; if isNil e then Return [] else firstMatch d p r
  | [] =>
      actual <- valueToString numberOf numberToString d ;;
      Return [typeError p (lit "No union variant matched") (lit "union") actual]
  end.

End ValidateLoops.

(** Induction on schemas, through the lists they hold. *)
Section SchemaInduction.

Variable P : Schema -> Prop.
Hypothesis Hprim : forall t e, P (PrimitiveSchema t e).
Hypothesis Harr : forall items mn mx, P items -> P (ArraySchema items mn mx).
Hypothesis Hobj : forall props req addl,
  Forall (fun ks => P (snd ks)) props -> P (ObjectSchema props req addl).
Hypothesis Huni : forall vs, Forall P vs -> P (UnionSchema vs).
Hypothesis Hlit : forall l, P (LiteralSchema l).

Fixpoint Schema_induction (s : Schema) : P s :=
  match s with
  | PrimitiveSchema t e => Hprim t e
  | ArraySchema items mn mx => Harr items mn mx (Schema_induction items)
  | ObjectSchema props req addl =>
      Hobj props req addl
        ((fix go (ps : list (str * Schema))
            : Forall (fun ks => P (snd ks)) ps :=
            match ps with
            | [] => Forall_nil _
            | (k, sc) :: r =>
                Forall_cons (k, sc) (Schema_induction sc) (go r)
            end) props)
  | UnionSchema vs =>
      Huni vs
        ((fix go (l : list Schema) : Forall P l :=
            match l with
            | [] => Forall_nil _
            | v :: r => Forall_cons v (Schema_induction v) (go r)
            end) vs)
  | LiteralSchema l => Hlit l
  end.

End SchemaInduction.

(** The same error, with [q] in front of its path. *)
Definition reroot (q : str) (e : ValidationError) : ValidationError :=
  mkVE (q ++ ve_path e) (ve_code e) (ve_message e) (ve_expected e)
       (ve_actual e).

(** The path is [p] or lies under it. *)
Definition pathUnder (p : str) (e : ValidationError) : Prop :=
  ve_path e = p \/ exists r, ve_path e = p ++ c_slash :: r.

(** The codes that validation uses. *)
Definition validationCode (e : ValidationError) : Prop :=
  ve_code e = type_error \/ ve_code e = missing_required.

(** * Properties *)

(** ** The examples of the documentation *)

Example extract_prose :
  extract (jsq "prefix {~a~: 1} suffix")
  = mkExtract (Some (jsq "{~a~: 1}")) 7 15 (Some [jsq "{~a~: 1}"]).
Proof. vm_compute. reflexivity. Qed.

Example extractAll_two :
  multiple (extractAll (jsq "{~a~: 1} and {~b~: 2}"))
  = Some [jsq "{~a~: 1}"; jsq "{~b~: 2}"].
Proof. vm_compute. reflexivity. Qed.

Example extract_fenced :
  json (extract (lit "```json" ++ [c_nl] ++ jsq "{~a~: 1}" ++ [c_nl] ++ lit "```"))
  = Some (jsq "{~a~: 1}").
Proof. vm_compute. reflexivity. Qed.

Example JSON_parse_obj :
  JSON_parse (jsq "{~a~: [1, -2.5e3, true, null], ~b~: ~x\ny~}")
  = Return (VObj [(lit "a", VArr [VNum (lit "1"); VNum (lit "-2.5e3");
                                  VBool true; VNull]);
                  (lit "b", VStr [120%N; 10%N; 121%N])]).
Proof. vm_compute. reflexivity. Qed.

Example JSON_parse_rejects :
  map JSON_parse [[]; jsq "{~a~: 1,}"; lit "{a: 1}"; lit "[1 2]"; lit "01";
                  lit "[1] x"; jsq "~a"; lit "1.e3"; lit "tru"]
  = repeat (Throw SyntaxError) 9.
Proof. vm_compute. reflexivity. Qed.

Example repair_readme :
  repair (jsq "{name: ~John~, age: 30,}")
  = mkRepair (jsq "{~name~: ~John~, ~age~: 30}")
      [warn unquoted_key_fixed; warn unquoted_key_fixed;
       warn trailing_comma_removed] true.
Proof. vm_compute. reflexivity. Qed.

Example repair_single_quotes :
  output (repair (lit "{'text': 'it\'s'}")) = jsq "{~text~: ~it's~}"
  /\ output (repair (jsq "{'text': 'say ~hi~'}")) = jsq "{~text~: ~say \~hi\~~}"
  /\ output (repair (jsq "{'key': ~user's data~}")) = jsq "{~key~: ~user's data~}".
Proof. vm_compute. repeat split. Qed.

(** ** The streaming state machine *)

Lemma scanChar_buf (st : session) (ch : chr) :
  buf (scanChar st ch) = buf st.
Proof.
  destruct st as [b d i e s]; simpl.
  destruct e; [reflexivity|].
  destruct (ceq ch c_bslash && i); [reflexivity|].
  destruct (ceq ch c_dq); [reflexivity|].
  destruct i; [reflexivity|].
  destruct (isOpen ch); [reflexivity|].
  destruct (isClose ch); reflexivity.
Qed.

Lemma session_eq (a b : session) :
  buf a = buf b -> track a = track b -> a = b.
Proof.
  destruct a, b; unfold track; simpl; intros -> H; inversion H; reflexivity.
Qed.

(** The scanner never reads the buffer field: it only carries it. *)
Lemma scanChar_track (a b : session) (ch : chr) :
  track a = track b -> track (scanChar a ch) = track (scanChar b ch).
Proof.
  destruct a as [b1 d1 i1 e1 s1], b as [b2 d2 i2 e2 s2].
  unfold track; simpl. intros H; inversion H; subst.
  destruct e2; [reflexivity|].
  destruct (ceq ch c_bslash && i2); [reflexivity|].
  destruct (ceq ch c_dq); [reflexivity|].
  destruct i2; [reflexivity|].
  destruct (isOpen ch); [reflexivity|].
  destruct (isClose ch); reflexivity.
Qed.

Lemma scan_buf (l : str) : forall st, buf (fold_left scanChar l st) = buf st.
Proof.
  induction l as [|ch l IH]; intros st; [reflexivity|].
  cbn [fold_left]. rewrite IH. apply scanChar_buf.
Qed.

Lemma scan_track (l : str) : forall a b,
  track a = track b ->
  track (fold_left scanChar l a) = track (fold_left scanChar l b).
Proof.
  induction l as [|ch l IH]; intros a b H; [exact H|].
  cbn [fold_left]. apply IH, scanChar_track, H.
Qed.

Lemma length_skipn_app (A : Type) (b c : list A) :
  skipn (length (b ++ c) - length c) (b ++ c) = c.
Proof.
  rewrite length_app.
  replace (length b + length c - length c) with (length b) by lia.
  rewrite skipn_app, skipn_all, Nat.sub_diag. reflexivity.
Qed.

Lemma update_scanAll (b c : str) :
  update (scanAll b) c = scanAll (b ++ c).
Proof.
  unfold update.
  assert (Hb : buf (scanAll b) = b) by (unfold scanAll; apply scan_buf).
  rewrite Hb, length_skipn_app.
  apply session_eq.
  - unfold scanAll. rewrite !scan_buf. reflexivity.
  - unfold scanAll at 5. rewrite fold_left_app.
    apply scan_track.
    transitivity (track (scanAll b)); [reflexivity|].
    unfold scanAll. apply scan_track. reflexivity.
Qed.

Section StreamingFacts.

Variable Schema : Type.
Variable ValidationError : Type.
Variable validateValue :
  value -> Schema -> str -> outcome (list ValidationError).
Variable stringifyErrors : option (list ValidationError) -> str.

Let writesS := writes validateValue stringifyErrors.
Let finishS := finish validateValue stringifyErrors.

Lemma writes_scanAll (opts : option Schema) (cs : list str) :
  forall b, writesS opts (scanAll b) cs = scanAll (b ++ concat cs).
Proof.
  subst writesS.
  induction cs as [|c cs IH]; intros b.
  - simpl. rewrite app_nil_r. reflexivity.
  - unfold writes in *. cbn [fold_left concat].
    unfold write at 2. cbn [fst].
    rewrite update_scanAll, IH, app_assoc. reflexivity.
Qed.

(** C9.  After any sequence of [write] calls on a new session (or on a
    session that was [reset]), the buffer is the concatenation of the
    chunks, and the tracked depth, in-string flag, pending-escape flag
    and started flag are exactly those obtained by scanning the whole
    buffer once from offset 0 with the rules of [update]. *)
Theorem writes_track_whole_buffer (opts : option Schema) (st : session)
    (cs : list str) :
  writesS opts newSession cs = scanAll (concat cs)
  /\ writesS opts (reset st) cs = scanAll (concat cs)
  /\ buf (writesS opts newSession cs) = concat cs.
Proof.
  assert (H : writesS opts newSession cs = scanAll (concat cs))
    by apply (writes_scanAll opts cs []).
  repeat split; [exact H | exact H |].
  rewrite H. unfold scanAll. apply scan_buf.
Qed.

(** C6, as amended.  [finish] fails with [no_json_found] when no opening
    bracket was seen, and with [truncated] when one was seen and the
    depth is positive or the scan stopped inside a string.  (A negative
    depth does not make it fail.) *)
Theorem finish_unclosed (opts : option Schema) (st : session) :
  (started st = false ->
   finishS opts st
   = Return (Failure (mkError no_json_found (Text "No JSON found") None) None))
  /\ (started st = true -> (depth st > 0)%Z \/ inStr st = true ->
      finishS opts st
      = Return (Failure (mkError truncated (Text "Incomplete JSON") None) None)).
Proof.
  subst finishS. unfold finish. split.
  - intros ->. reflexivity.
  - intros -> H. simpl.
    destruct H as [H | ->].
    + destruct (Z.gtb_spec (depth st) 0) as [_|]; [reflexivity | lia].
    + rewrite orb_true_r. reflexivity.
Qed.

End StreamingFacts.

(** C6 at a session that is still open: after [{"a":] the depth is 1. *)
Lemma finish_unclosed_witness :
  let st := writes0 newSession [jsq "{~a~:"] in
  started st = true /\ ((depth st > 0)%Z \/ inStr st = true)
  /\ finish0 st
     = Return (Failure (mkError truncated (Text "Incomplete JSON") None) None).
Proof.
  cbv zeta.
  assert (Hs : started (writes0 newSession [jsq "{~a~:"]) = true)
    by (vm_compute; reflexivity).
  assert (Hd : (depth (writes0 newSession [jsq "{~a~:"]) > 0)%Z
               \/ inStr (writes0 newSession [jsq "{~a~:"]) = true)
    by (left; vm_compute; reflexivity).
  split; [exact Hs|]. split; [exact Hd|].
  exact (proj2 (finish_unclosed Empty_set unit noErrors noContext None _) Hs Hd).
Defined.

(** C6 as stated fails: after the chunk [{}}] the session is started and
    its depth is -1, which is not 0, yet [finish] does not fail with
    [truncated]: it returns the empty object. *)
Lemma finish_negative_depth :
  let st := writes0 newSession [lit "{}}"] in
  started st = true /\ depth st = (-1)%Z /\ depth st <> 0%Z
  /\ finish0 st = Return (Success (VObj []) None).
Proof. vm_compute. repeat split; discriminate. Qed.

(** ** [parsePartial] on strictly valid input *)

Lemma JSON_parse_empty : JSON_parse [] = Throw SyntaxError.
Proof. reflexivity. Qed.

(** C10.  When the strict parse of the input succeeds, [parsePartial]
    returns a [Success] that carries exactly the strictly parsed value,
    whatever options are given. *)
Theorem parsePartial_strict (input : str) (v : value)
    (options : option UserOptions) :
  JSON_parse input = Return v ->
  parsePartial input options = Return (Success v None).
Proof.
  intros H. unfold parsePartial.
  destruct input as [|c r].
  - rewrite JSON_parse_empty in H. discriminate.
  - simpl emptyStr. cbv iota. rewrite H. reflexivity.
Qed.

Lemma parsePartial_strict_witness :
  JSON_parse (jsq "{~a~: [1, 2]}")
  = Return (VObj [(lit "a", VArr [VNum (lit "1"); VNum (lit "2")])])
  /\ parsePartial (jsq "{~a~: [1, 2]}")
       (Some (mkUser (Some false) (Some false) (Some false) (Some false)))
     = Return (Success (VObj [(lit "a", VArr [VNum (lit "1"); VNum (lit "2")])])
                       None).
Proof.
  assert (H : JSON_parse (jsq "{~a~: [1, 2]}")
    = Return (VObj [(lit "a", VArr [VNum (lit "1"); VNum (lit "2")])]))
    by (vm_compute; reflexivity).
  split; [exact H|].
  exact (parsePartial_strict _ _ (Some (mkUser (Some false) (Some false)
                                               (Some false) (Some false))) H).
Defined.

(** ** Termination of the partial parser *)

Lemma dropWhile_length (p : chr -> bool) (s : str) :
  length (dropWhile p s) <= length s.
Proof.
  induction s as [|c s IH]; simpl; [lia|].
  destruct (p c); simpl; lia.
Qed.

Lemma span_snd (p : chr -> bool) (s : str) : snd (span p s) = dropWhile p s.
Proof.
  induction s as [|c s IH]; simpl; [reflexivity|].
  destruct (p c); [|reflexivity].
  destruct (span p s); simpl in *. exact IH.
Qed.

Lemma span_app (p : chr -> bool) (s : str) :
  fst (span p s) ++ snd (span p s) = s.
Proof.
  induction s as [|c s IH]; simpl; [reflexivity|].
  destruct (p c); [|reflexivity].
  destruct (span p s); simpl in *. f_equal. exact IH.
Qed.

Lemma span_length (p : chr -> bool) (s : str) :
  length (snd (span p s)) <= length s.
Proof. rewrite span_snd. apply dropWhile_length. Qed.

Lemma skip_length (s : str) : length (skip s) <= length s.
Proof. apply dropWhile_length. Qed.

Lemma strLoop_length (s : str) : forall e r r' rest,
  strLoop e r s = (r', Some rest) -> length rest < length s.
Proof.
  induction s as [|c s IH]; intros e r r' rest H; simpl in H; [discriminate|].
  destruct e.
  - apply IH in H. simpl; lia.
  - destruct (ceq c c_bslash); [apply IH in H; simpl; lia|].
    destruct (ceq c c_dq).
    + inversion H; subst. simpl; lia.
    + apply IH in H. simpl; lia.
Qed.

Lemma parseStr_length (opts : PartialParseOptions) (s r rest : str) :
  parseStr opts s = Return (r, rest) -> length rest <= pred (length s).
Proof.
  unfold parseStr, take. intros H.
  destruct (strLoop false [] (tl s)) as [r0 [rest0|]] eqn:E.
  - inversion H; subst. apply strLoop_length in E.
    destruct s; simpl in *; lia.
  - destruct (allowPartialStrings opts); inversion H; subst. simpl; lia.
Qed.

Lemma parseStr_no_fuel (opts : PartialParseOptions) (s : str) :
  parseStr opts s <> OutOfFuel.
Proof.
  unfold parseStr.
  destruct (strLoop false [] (take s)) as [r [rest|]]; [discriminate|].
  destruct (allowPartialStrings opts); discriminate.
Qed.

Lemma takeFrac_length (s : str) : length (snd (takeFrac s)) <= length s.
Proof.
  destruct s as [|c r]; simpl; [lia|].
  destruct (ceq c c_dot); [|simpl; lia].
  pose proof (span_length isDigit r) as L.
  destruct (span isDigit r). simpl in *. lia.
Qed.

Lemma takeExp_length (s : str) : length (snd (takeExp s)) <= length s.
Proof.
  destruct s as [|c r]; simpl; [lia|].
  destruct (isExpMark c); [|simpl; lia].
  destruct r as [|g r']; [simpl; lia|].
  destruct (ceq g c_plus || ceq g c_minus).
  - pose proof (span_length isDigit r') as L.
    destruct (span isDigit r'). simpl in *. lia.
  - pose proof (span_length isDigit (g :: r')) as L.
    destruct (span isDigit (g :: r')). simpl in *. lia.
Qed.

(** [parseNum] consumes the character it was called on. *)
Lemma parseNum_length (opts : PartialParseOptions) (c : chr) (s : str) :
  ceq c c_minus || isDigit c = true ->
  length (snd (parseNum opts (c :: s))) <= length s.
Proof.
  intros Hc. unfold parseNum.
  assert (H1 : length (snd (span isDigit (snd (takeSign (c :: s)))))
               <= length s).
  { unfold takeSign. destruct (ceq c c_minus) eqn:Em; simpl snd.
    - apply span_length.
    - simpl in Hc. simpl. rewrite Hc.
      pose proof (span_length isDigit s) as L.
      destruct (span isDigit s). exact L. }
  destruct (takeSign (c :: s)) as [sign s1]. simpl snd in H1.
  destruct (span isDigit s1) as [ds s2]. simpl snd in H1.
  pose proof (takeFrac_length s2) as H3.
  destruct (takeFrac s2) as [frac s3]. simpl snd in H3.
  pose proof (takeExp_length s3) as H4.
  destruct (takeExp s3) as [ex s4]. simpl in *. lia.
Qed.

Lemma bind_no_fuel {A B} (x : outcome A) (k : A -> outcome B) :
  x <> OutOfFuel -> (forall a, x = Return a -> k a <> OutOfFuel) ->
  bind x k <> OutOfFuel.
Proof.
  intros Hx Hk. destruct x; simpl;
    [apply Hk; reflexivity | discriminate | exfalso; apply Hx; reflexivity].
Qed.

Lemma bind_Return {A B} (x : outcome A) (k : A -> outcome B) (b : B) :
  bind x k = Return b -> exists a, x = Return a /\ k a = Return b.
Proof.
  destruct x; simpl; intros H; try discriminate. eauto.
Qed.

Lemma Return_inj {A : Type} (a b : A) : Return a = Return b -> a = b.
Proof. intros H. congruence. Qed.

Section FuelProof.

Variable opts : PartialParseOptions.
Variable len : nat.

Lemma fuelOk_step (f : nat) : fuelOk opts len f -> fuelOk opts len (S f).
Proof.
  intros (Vf & Vl & Af & Al & Of & Ol).
  assert (Vf' : forall s, 2 * length s + 1 <= S f ->
                  parseValue opts len (S f) s <> OutOfFuel).
  { intros s Hs. cbn -[skip parseStr parseNum startsWith take].
    pose proof (skip_length s) as Lk.
    destruct (skip s) as [|c s0] eqn:Es; [discriminate|].
    cbn [length] in Lk.
    assert (Lt : length (skip (take (c :: s0))) <= length s0)
      by (apply skip_length).
    destruct (ceq c c_lbrace).
    { destruct (skip (take (c :: s0))) as [|d s2] eqn:E1.
      - apply Of. simpl. lia.
      - destruct (ceq d c_rbrace); [discriminate|]. apply Of. lia. }
    destruct (ceq c c_lbrack).
    { destruct (skip (take (c :: s0))) as [|d s2] eqn:E1.
      - apply Af. simpl. lia.
      - destruct (ceq d c_rbrack); [discriminate|]. apply Af. lia. }
    destruct (ceq c c_dq).
    { apply bind_no_fuel; [apply parseStr_no_fuel|].
      intros [r rest] _. discriminate. }
    destruct (ceq c c_minus || isDigit c); [discriminate|].
    destruct (startsWith kw_true (c :: s0)); [discriminate|].
    destruct (startsWith kw_false (c :: s0)); [discriminate|].
    destruct (startsWith kw_null (c :: s0)); discriminate. }
  assert (Vl' : forall s v rest,
             parseValue opts len (S f) s = Return (v, rest) ->
             length rest < length s).
  { intros s v rest. cbn -[skip parseStr parseNum startsWith take skipn].
    pose proof (skip_length s) as Lk.
    destruct (skip s) as [|c s0] eqn:Es; [discriminate|].
    cbn [length] in Lk.
    assert (Lt : length (skip (take (c :: s0))) <= length s0)
      by (apply skip_length).
    destruct (ceq c c_lbrace).
    { destruct (skip (take (c :: s0))) as [|d s2] eqn:E1.
      - intros H. apply Ol in H. simpl in H. lia.
      - destruct (ceq d c_rbrace).
        + intros H; inversion H; subst. simpl in Lt. lia.
        + intros H. apply Ol in H. lia. }
    destruct (ceq c c_lbrack).
    { destruct (skip (take (c :: s0))) as [|d s2] eqn:E1.
      - intros H. apply Al in H. simpl in H. lia.
      - destruct (ceq d c_rbrack).
        + intros H; inversion H; subst. simpl in Lt. lia.
        + intros H. apply Al in H. lia. }
    destruct (ceq c c_dq).
    { intros H. apply bind_Return in H. destruct H as ([r rest0] & Hp & Hr).
      inversion Hr; subst. apply parseStr_length in Hp. simpl in Hp. lia. }
    destruct (ceq c c_minus || isDigit c) eqn:En.
    { intros H. pose proof (parseNum_length opts c s0 En) as L.
      inversion H as [H1]. rewrite H1 in L. simpl in L. lia. }
    destruct (startsWith kw_true (c :: s0)).
    { intros H; injection H as _ <-.
      change (length (skipn 3 s0) < length s). rewrite length_skipn. lia. }
    destruct (startsWith kw_false (c :: s0)).
    { intros H; injection H as _ <-.
      change (length (skipn 4 s0) < length s). rewrite length_skipn. lia. }
    destruct (startsWith kw_null (c :: s0)); [|discriminate].
    intros H; injection H as _ <-.
    change (length (skipn 3 s0) < length s). rewrite length_skipn. lia. }
  split; [exact Vf'|]. split; [exact Vl'|].
  split.
  { (* arrLoop, fuel *)
    intros arr s Hs. cbn -[skip parseValue].
    destruct s as [|c0 s']; [destruct (allowPartialArrays opts); discriminate|].
    pose proof (skip_length (c0 :: s')) as Lk.
    cbn [length] in Hs.
    assert (K : bind (parseValue opts len f (skip (c0 :: s')))
                  (fun x => let '(v, rest) := x in
                            arrLoop opts len f (arr ++ [v]) rest)
                <> OutOfFuel).
    { apply bind_no_fuel; [apply Vf; cbn [length] in Lk; lia|].
      intros [v rest] Hv. apply Vl in Hv. apply Af.
      cbn [length] in Lk. lia. }
    destruct (skip (c0 :: s')) as [|c s2] eqn:E1; [exact K|].
    cbn [length] in Lk.
    destruct (ceq c c_rbrack); [discriminate|].
    destruct (ceq c c_comma); [apply Af; lia | exact K]. }
  split.
  { (* arrLoop, length *)
    intros arr s v rest. cbn -[skip parseValue].
    destruct s as [|c0 s'].
    { destruct (allowPartialArrays opts); intros H; inversion H; simpl; lia. }
    pose proof (skip_length (c0 :: s')) as Lk.
    assert (K : bind (parseValue opts len f (skip (c0 :: s')))
                  (fun x => let '(v, rest) := x in
                            arrLoop opts len f (arr ++ [v]) rest)
                = Return (v, rest) -> length rest <= length (c0 :: s')).
    { intros H. apply bind_Return in H. destruct H as ([v1 r1] & Hv & Hr).
      apply Vl in Hv. apply Al in Hr. cbn [length] in *. lia. }
    destruct (skip (c0 :: s')) as [|c s2] eqn:E1; [exact K|].
    cbn [length] in Lk.
    destruct (ceq c c_rbrack).
    { intros H; inversion H; subst. cbn [length] in *. lia. }
    destruct (ceq c c_comma); [|exact K].
    intros H. apply Al in H. cbn [length] in *. lia. }
  set (member := fun (obj : list (str * value)) (s1 : str) =>
    bind (parseStr opts s1) (fun x => let '(key, s2) := x in
      match skip s2 with
      | [] => if allowPartialObjects opts then Return (VObj obj, skip s2)
              else Throw (Error (Text "Expected colon"))
      | c :: s4 =>
          if ceq c c_colon
          then bind (parseValue opts len f (skip s4))
                 (fun y => let '(v, rest) := y in
                           objLoop opts len f (assign key v obj) rest)
          else if allowPartialObjects opts then Return (VObj obj, skip s2)
          else Throw (Error (Text "Expected colon"))
      end)).
  split.
  { (* objLoop, fuel *)
    intros obj s Hs. cbn -[skip parseValue parseStr].
    destruct s as [|c0 s']; [destruct (allowPartialObjects opts); discriminate|].
    pose proof (skip_length (c0 :: s')) as Lk.
    cbn [length] in Hs, Lk.
    assert (K : member obj (skip (c0 :: s')) <> OutOfFuel).
    { subst member. cbv beta.
      apply bind_no_fuel; [apply parseStr_no_fuel|].
      intros [key s2] Hk. apply parseStr_length in Hk.
      pose proof (skip_length s2) as L2.
      destruct (skip s2) as [|c s4] eqn:E3.
      - destruct (allowPartialObjects opts); discriminate.
      - cbn [length] in L2.
        destruct (ceq c c_colon).
        + pose proof (skip_length s4) as L4.
          apply bind_no_fuel; [apply Vf; lia|].
          intros [v rest] Hv. apply Vl in Hv. apply Of. lia.
        + destruct (allowPartialObjects opts); discriminate. }
    destruct (skip (c0 :: s')) as [|c s2] eqn:E1; [exact K|].
    cbn [length] in Lk.
    destruct (ceq c c_rbrace); [discriminate|].
    destruct (ceq c c_comma); [apply Of; lia | exact K]. }
  { (* objLoop, length *)
    intros obj s v rest. cbn -[skip parseValue parseStr].
    destruct s as [|c0 s'].
    { destruct (allowPartialObjects opts); intros H; inversion H; simpl; lia. }
    pose proof (skip_length (c0 :: s')) as Lk.
    cbn [length] in Lk.
    assert (K : member obj (skip (c0 :: s')) = Return (v, rest) ->
                length rest <= length (c0 :: s')).
    { subst member. cbv beta. intros H.
      apply bind_Return in H. destruct H as ([key s2] & Hk & H).
      apply parseStr_length in Hk.
      pose proof (skip_length s2) as L2.
      destruct (skip s2) as [|c s4] eqn:E3.
      - destruct (allowPartialObjects opts); inversion H; subst.
        cbn [length]. lia.
      - cbn [length] in L2.
        destruct (ceq c c_colon).
        + pose proof (skip_length s4) as L4.
          apply bind_Return in H. destruct H as ([v1 r1] & Hv & Hr).
          apply Vl in Hv. apply Ol in Hr. cbn [length]. lia.
        + destruct (allowPartialObjects opts); inversion H; subst.
          cbn [length] in *. lia. }
    destruct (skip (c0 :: s')) as [|c s2] eqn:E1; [exact K|].
    cbn [length] in Lk.
    destruct (ceq c c_rbrace).
    { intros H; inversion H; subst. cbn [length]. lia. }
    destruct (ceq c c_comma); [|exact K].
    intros H. apply Ol in H. cbn [length]. lia. }
Qed.

Lemma fuelOk_all (f : nat) : fuelOk opts len f.
Proof.
  induction f as [|f IH]; [|apply fuelOk_step, IH].
  repeat split; intros; simpl in *; try lia; discriminate.
Qed.

End FuelProof.

(** With the fuel it is given, [doParse] returns or throws. *)
Lemma doParse_no_fuel (s : str) (opts : PartialParseOptions) :
  doParse s opts <> OutOfFuel.
Proof.
  unfold doParse. apply bind_no_fuel.
  - apply (fuelOk_all opts (length s) (2 * length s + 2)). lia.
  - intros [v rest] _. discriminate.
Qed.

(** ** Which entry points return a tagged result *)

Lemma JSON_parse_no_fuel (s : str) : JSON_parse s <> OutOfFuel.
Proof.
  unfold JSON_parse.
  destruct (lex s) as [[its trail]|]; [|discriminate].
  destruct (pValue (2 * length its + 2) its) as [[v [|t ts]]|]; discriminate.
Qed.

Lemma parsePartial_returns (input : str) (options : option UserOptions) :
  exists r, parsePartial input options = Return r.
Proof.
  unfold parsePartial.
  destruct (emptyStr input); [eauto|].
  pose proof (JSON_parse_no_fuel input) as Hj.
  destruct (JSON_parse input); [eauto| |contradiction].
  pose proof (doParse_no_fuel input (withDefaults options)) as Hd.
  destruct (doParse input (withDefaults options)); [eauto|eauto|contradiction].
Qed.

Section Totality.

Variable Schema : Type.
Variable ValidationError : Type.
Variable validateValue :
  value -> Schema -> str -> outcome (list ValidationError).
Variable stringifyErrors : option (list ValidationError) -> str.

(** The validation terminates. *)
Hypothesis validate_no_fuel : forall d sc p, validateValue d sc p <> OutOfFuel.

Let parseS := parse validateValue stringifyErrors.
Let processS := process validateValue stringifyErrors.

Lemma parseChecked_no_fuel (text : str) (schema : option Schema)
    (ws : option (list Warning)) :
  parseChecked validateValue stringifyErrors text schema ws <> OutOfFuel.
Proof.
  unfold parseChecked. apply bind_no_fuel; [apply JSON_parse_no_fuel|].
  intros d _. destruct schema as [sc|]; [|discriminate].
  apply bind_no_fuel.
  - unfold validate. apply bind_no_fuel; [apply validate_no_fuel|].
    intros errs _. discriminate.
  - intros v _. destruct (negb (v_ok v)); discriminate.
Qed.

(** [parse] returns, whatever the validation does: what it throws is
    caught. *)
Lemma parse_returns (input : str) (schema : option Schema) :
  exists r, parseS input schema = Return r.
Proof.
  subst parseS. unfold parse.
  destruct (emptyStr input); [eauto|].
  destruct (json (extract input)) as [[|c js]|]; [eauto| |eauto].
  pose proof (parseChecked_no_fuel (c :: js) schema None) as H1.
  destruct (parseChecked validateValue stringifyErrors (c :: js) schema None);
    [eauto| |contradiction].
  match goal with
  | |- context [parseChecked _ _ ?t ?s ?w] =>
      pose proof (parseChecked_no_fuel t s w) as H2;
      destruct (parseChecked validateValue stringifyErrors t s w)
  end; [eauto|eauto|contradiction].
Qed.

(** Without a schema, [process] returns. *)
Lemma process_returns (st : session) :
  exists r, processS None st = Return r.
Proof.
  subst processS. unfold process.
  destruct (json (extract (buf st))) as [[|c js]|]; [eauto| |eauto].
  destruct (parsePartial_returns (output (repair (c :: js))) (Some pOpts))
    as [res ->].
  simpl bind.
  destruct res as [d ws|e p]; eauto.
Qed.

End Totality.

(** ** Where the code departs from the stated properties *)

(** C1: the code at [{"toString":1}].  With a schema that is a union, the
    validation of the data finds no variant that matches and builds its
    error with [String(d)], which throws a [TypeError] on an object whose
    own [toString] is not a function.  Nothing catches it in [process]:
    [write] throws, and so does [finish].  [parse] catches it in its
    second [try] block and returns the [invalid_json] failure. *)
Lemma write_throws_in_validation :
  forall (numberOf : str -> jsnum) (numberToString : jsnum -> str)
         (print : option (list ValidationError) -> str),
  let vv := validateValue numberOf numberToString in
  let sc := UnionSchema [PrimitiveSchema T_string None] in
  let text := jsq "{~toString~:1}" in
  JSON_parse text = Return (VObj [(lit "toString", VNum (lit "1"))])
  /\ snd (write vv print (Some sc) newSession text) = Throw TypeError
  /\ finish vv print (Some sc) (fst (write vv print (Some sc) newSession text))
     = Throw TypeError
  /\ parse vv print text (Some sc)
     = Return (Failure (mkError invalid_json TypeErrorText None) None).
Proof. intros. vm_compute. repeat split; reflexivity. Qed.

(** C2 as stated fails.  The JSON value [null] serializes to the text
    [null]; written one character at a time, the session never sees an
    opening bracket, and [finish] fails with [no_json_found] instead of
    returning a [Success]. *)
Lemma stream_of_null_fails :
  JSON_parse (lit "null") = Return VNull
  /\ finish0 (writes0 newSession (chars (lit "null")))
     = Return (Failure (mkError no_json_found (Text "No JSON found") None) None).
Proof. vm_compute. split; reflexivity. Qed.

(** C3 as stated fails.  The text [size 5~ {~a~:1}] (with [~] for the
    double quote, as in [jsq]) contains exactly one bracketed JSON value,
    after prose that holds a double quote; the
    scanner takes that quote for the start of a string, never counts the
    brackets, and [extract] finds no candidate, so that [parse] fails. *)
Lemma extract_after_quote_in_prose :
  let text := jsq "size 5~ {~a~:1}" in
  JSON_parse (jsq "{~a~:1}") = Return (VObj [(lit "a", VNum (lit "1"))])
  /\ text = lit "size 5" ++ [c_dq; c_space] ++ jsq "{~a~:1}"
  /\ json (extract text) = None
  /\ parse0 text
     = Return (Failure (mkError no_json_found (Text "No JSON found") None) None).
Proof. vm_compute. repeat split; reflexivity. Qed.

(** C4 as stated fails.  On [/*c*/ [1]] the first pass removes the comment
    and leaves [ [1]], which is strictly valid; the second pass trims the
    leading blank, so that the output changes. *)
Lemma repair_not_idempotent :
  let s := lit "/*c*/ [1]" in
  output (repair s) = lit " [1]"
  /\ valid (repair s) = true
  /\ output (repair (output (repair s))) = lit "[1]"
  /\ output (repair (output (repair s))) <> output (repair s).
Proof. vm_compute. repeat split; discriminate. Qed.

(** C5 as stated fails.  [{"a":] is the prefix of the strictly valid text
    [{"a":1}] that ends right after the colon token; with every
    partial-allow flag set, [parsePartial] fails on it with [truncated],
    because [parseValue] finds the end of the input where a value must
    start. *)
Lemma parsePartial_after_colon :
  JSON_parse (jsq "{~a~:1}") = Return (VObj [(lit "a", VNum (lit "1"))])
  /\ jsq "{~a~:1}" = jsq "{~a~:" ++ lit "1}"
  /\ parsePartial (jsq "{~a~:") allPartial
     = Return (Failure (mkError truncated (TextAt "Unexpected token at " 5) None)
                       (Some (mkPartial medium (VObj []) []))).
Proof. vm_compute. repeat split; reflexivity. Qed.

(** C7 as stated fails.  In [{"u": "http://x/it's"}] the double-quoted
    string holds two slashes; the textual removal of line comments that
    precedes the quote pass cuts the text there, so that the content of
    the string is not reproduced and its apostrophe is lost. *)
Lemma repair_cuts_string_content :
  output (repair (jsq "{~u~: ~http://x/it's~}")) = jsq "{~u~: ~http:"
  /\ In c_sq (jsq "{~u~: ~http://x/it's~}")
  /\ ~ In c_sq (output (repair (jsq "{~u~: ~http://x/it's~}"))).
Proof.
  vm_compute. repeat split.
  - do 18 right. left. reflexivity.
  - intros H. repeat (destruct H as [H|H]; [discriminate|]). exact H.
Qed.

(** C8: the code at [[None,True]].  The token [True] follows a comma; the
    key-quoting branch reads it as a word, finds it reserved, and goes on
    without writing it, so that it is deleted instead of being replaced
    by [true], and one warning only is emitted for the two literals. *)
Lemma repair_drops_literal_after_comma :
  repair (lit "[None,True]")
  = mkRepair (lit "[null]")
      [warn python_literal_converted; warn trailing_comma_removed] true.
Proof. vm_compute. reflexivity. Qed.

(** ** The quote pass of [repair] *)

Lemma span_eq (p : chr -> bool) (s a b : str) :
  span p s = (a, b) -> s = a ++ b /\ length b <= length s.
Proof.
  intros H. pose proof (span_app p s) as E. pose proof (span_length p s) as L.
  rewrite H in E, L. simpl in *. split; [symmetry; exact E | exact L].
Qed.

(** The loop of [repairPass] consumes a character or more per turn, so
    that the length of the text is fuel enough. *)
Lemma repairLoop_fuel : forall f1 f2 s st,
  length s <= f1 -> length s <= f2 ->
  repairLoop f1 s st = repairLoop f2 s st.
Proof.
  induction f1 as [|f1 IH]; intros f2 s st H1 H2.
  - destruct s; [destruct f2; reflexivity | simpl in H1; lia].
  - destruct s as [|c s']; [destruct f2; reflexivity|].
    destruct f2 as [|f2]; [simpl in H2; lia|].
    simpl in H1, H2. destruct st as [r w i q e h].
    cbn -[span startsWith skipn isReserved].
    assert (T : forall st', repairLoop f1 s' st' = repairLoop f2 s' st')
      by (intros; apply IH; lia).
    assert (K : forall n st', repairLoop f1 (skipn n s') st'
                              = repairLoop f2 (skipn n s') st').
    { intros; apply IH; rewrite length_skipn; lia. }
    destruct e.
    { destruct (i && isSingle q && ceq c c_sq); [apply T|].
      destruct (i && isSingle q && ceq c c_dq); apply T. }
    destruct (ceq c c_bslash && i); [destruct (isSingle q); apply T|].
    destruct (ceq c c_dq); [destruct i; [destruct q|]; apply T|].
    destruct (ceq c c_sq); [destruct i; [destruct q|]; apply T|].
    destruct i; [apply T|].
    destruct (ceq c c_lbrace || ceq c c_comma).
    { destruct (span isSpace s') as [sp s1] eqn:Es.
      apply span_eq in Es. destruct Es as [_ Ls].
      destruct s1 as [|d s2]; [reflexivity|].
      simpl in Ls.
      destruct (ceq d c_dq); [apply IH; lia|].
      destruct (ceq d c_sq); [apply IH; lia|].
      destruct (span isWord (d :: s2)) as [word s3] eqn:Ew.
      apply span_eq in Ew. destruct Ew as [_ Lw]. simpl in Lw.
      destruct (negb (emptyStr word) && negb (isReserved word));
        apply IH; lia. }
    destruct (startsWith kw_None (c :: s')); [apply (K 3)|].
    destruct (startsWith kw_True (c :: s')); [apply (K 3)|].
    destruct (startsWith kw_False (c :: s')); [apply (K 4)|].
    apply T.
Qed.

(** ** The textual replacements *)

Lemma replaceFrom_fuel (m : matcher) : progresses m ->
  forall f1 f2 s, length s <= f1 -> length s <= f2 ->
  replaceFrom f1 m s = replaceFrom f2 m s.
Proof.
  intros P. induction f1 as [|f1 IH]; intros f2 s H1 H2.
  - destruct s; [destruct f2; reflexivity | simpl in H1; lia].
  - destruct s as [|c r]; [destruct f2; reflexivity|].
    destruct f2 as [|f2]; [simpl in H2; lia|].
    simpl in H1, H2. cbn [replaceFrom].
    destruct (m (c :: r)) as [[repl rest]|] eqn:E.
    + apply P in E. simpl in E. f_equal. apply IH; lia.
    + f_equal. apply IH; lia.
Qed.

Lemma replaceFrom_id (m : matcher) : forall f s,
  neverMatches m s = true -> replaceFrom f m s = s.
Proof.
  induction f as [|f IH]; intros s H; [reflexivity|].
  destruct s as [|c r]; [reflexivity|].
  cbn [replaceFrom]. cbn [neverMatches] in H.
  destruct (m (c :: r)); [discriminate|].
  f_equal. apply IH, H.
Qed.

Lemma replaceAll_id (m : matcher) (s : str) :
  neverMatches m s = true -> replaceAll m s = s.
Proof. apply replaceFrom_id. Qed.

Lemma stripPrefix_length (p : str) : forall s rest,
  stripPrefix p s = Some rest -> length s = length p + length rest.
Proof.
  induction p as [|x p IH]; intros s rest H; simpl in H.
  - inversion H; reflexivity.
  - destruct s as [|y s']; [discriminate|].
    destruct (ceq x y); [|discriminate].
    apply IH in H. simpl. lia.
Qed.

Lemma findClose_length : forall s cap rest,
  findClose s = Some (cap, rest) -> length rest < length s.
Proof.
  induction s as [|c r IH]; intros cap rest H.
  - simpl in H. discriminate.
  - cbn -[stripPrefix fence] in H.
    destruct (stripPrefix (c_nl :: fence) (c :: r)) as [r1|] eqn:E1.
    { inversion H; subst. apply stripPrefix_length in E1. simpl in *. lia. }
    destruct (stripPrefix fence (c :: r)) as [r2|] eqn:E2.
    { inversion H; subst. apply stripPrefix_length in E2. simpl in *. lia. }
    destruct (findClose r) as [[cap' rest']|] eqn:E3; [|discriminate].
    inversion H; subst. specialize (IH _ _ eq_refl). simpl. lia.
Qed.

Lemma afterStarSlash_length : forall s rest,
  afterStarSlash s = Some rest -> length rest < length s.
Proof.
  induction s as [|c r IH]; intros rest H; [discriminate|].
  cbn -[stripPrefix] in H.
  destruct (stripPrefix [c_star; c_slash] (c :: r)) as [r1|] eqn:E1.
  - inversion H; subst. apply stripPrefix_length in E1. simpl in *. lia.
  - apply IH in H. simpl. lia.
Qed.

Lemma m_fenced_progresses : progresses m_fenced.
Proof.
  intros s repl rest H. unfold m_fenced in H.
  destruct (stripPrefix fence s) as [r1|] eqn:E1; [|discriminate].
  apply stripPrefix_length in E1.
  apply findClose_length in H.
  pose proof (dropWhile_length isSpace
    (match stripPrefix tag_json r1 with Some r => r | None => r1 end)) as L.
  destruct (stripPrefix tag_json r1) as [r2|] eqn:E2.
  - apply stripPrefix_length in E2. lia.
  - lia.
Qed.

Lemma m_fenceOpen_progresses : progresses m_fenceOpen.
Proof.
  intros s repl rest H. unfold m_fenceOpen in H.
  destruct (stripPrefix fence s) as [r1|] eqn:E1; [|discriminate].
  apply stripPrefix_length in E1.
  destruct r1 as [|j [|x [|o r]]]; try discriminate.
  destruct (_ && _); [|discriminate].
  inversion H; subst. clear H.
  match goal with
  | |- length (dropWhile isSpace ?t) < _ =>
      pose proof (dropWhile_length isSpace t) as L;
      assert (length t <= length r) by (destruct r as [|n r']; simpl;
        [lia | destruct ((n =? 110)%N || (n =? 78)%N); simpl; lia])
  end.
  simpl in *. lia.
Qed.

Lemma m_fenceTail_progresses : progresses m_fenceTail.
Proof.
  intros s repl rest H. unfold m_fenceTail in H.
  destruct (stripPrefix fence s) as [r1|] eqn:E1; [|discriminate].
  apply stripPrefix_length in E1.
  destruct (emptyStr (dropWhile isSpace r1)); [|discriminate].
  inversion H; subst. simpl in *. lia.
Qed.

Lemma m_lineComment_progresses : progresses m_lineComment.
Proof.
  intros s repl rest H. unfold m_lineComment in H.
  destruct (stripPrefix [c_slash; c_slash] s) as [r1|] eqn:E1; [|discriminate].
  apply stripPrefix_length in E1. inversion H; subst.
  pose proof (dropWhile_length (fun c => negb (ceq c c_nl)) r1).
  simpl in *. lia.
Qed.

Lemma m_blockComment_progresses : progresses m_blockComment.
Proof.
  intros s repl rest H. unfold m_blockComment in H.
  destruct (stripPrefix [c_slash; c_star] s) as [r1|] eqn:E1; [|discriminate].
  apply stripPrefix_length in E1.
  destruct (afterStarSlash r1) as [r2|] eqn:E2; [|discriminate].
  apply afterStarSlash_length in E2. inversion H; subst. simpl in *. lia.
Qed.

Lemma m_trailingComma_progresses : progresses m_trailingComma.
Proof.
  intros s repl rest H. unfold m_trailingComma in H.
  destruct s as [|c r]; [discriminate|].
  destruct (ceq c c_comma); [|discriminate].
  pose proof (dropWhile_length isSpace r) as L.
  destruct (dropWhile isSpace r) as [|d r1]; [discriminate|].
  destruct (isClose d); [|discriminate].
  inversion H; subst. simpl in *. lia.
Qed.

Lemma m_doubleComma_progresses : progresses m_doubleComma.
Proof.
  intros s repl rest H. unfold m_doubleComma in H.
  destruct s as [|c r]; [discriminate|].
  destruct (ceq c c_comma); [|discriminate].
  pose proof (dropWhile_length isSpace r) as L.
  destruct (dropWhile isSpace r) as [|d r1]; [discriminate|].
  destruct (ceq d c_comma); [|discriminate].
  inversion H; subst. simpl in *. lia.
Qed.

(** ** Double-quoted strings in the quote pass *)

Lemma ceq_eq (a b : chr) : ceq a b = true -> a = b.
Proof. apply N.eqb_eq. Qed.

Lemma repairLoop_nil (f : nat) (st : rstate) : repairLoop f [] st = st.
Proof. destruct f; reflexivity. Qed.

Lemma repairLoop_in_dq (w : str) : forall e rest r ws had f f',
  dqContent e w = true ->
  length (w ++ c_dq :: rest) <= f -> length rest <= f' ->
  repairLoop f (w ++ c_dq :: rest) (mkR r ws true QDouble e had)
  = repairLoop f' rest (mkR (r ++ w ++ [c_dq]) ws false QNone false had).
Proof.
  induction w as [|c w IH]; intros e rest r ws had f f' Hw Hf Hf'.
  - simpl in Hw. destruct e; [discriminate|].
    simpl in Hf. destruct f as [|f]; [lia|].
    cbn. apply repairLoop_fuel; lia.
  - simpl in Hf. destruct f as [|f]; [lia|].
    cbn [app]. cbn [dqContent] in Hw.
    cbn -[span startsWith skipn isReserved].
    destruct e.
    + rewrite (IH false rest (r ++ [c]) ws had f f' Hw); [|lia|lia].
      rewrite <- !app_assoc. reflexivity.
    + destruct (ceq c c_bslash) eqn:Eb.
      * cbn [andb].
        rewrite (IH true rest (r ++ [c]) ws had f f' Hw); [|lia|lia].
        rewrite <- !app_assoc. reflexivity.
      * cbn [andb]. destruct (ceq c c_dq) eqn:Ed; [discriminate|].
        destruct (ceq c c_sq) eqn:Es.
        { apply ceq_eq in Es. subst c.
          rewrite (IH false rest (r ++ [c_sq]) ws had f f' Hw); [|lia|lia].
          rewrite <- !app_assoc. reflexivity. }
        rewrite (IH false rest (r ++ [c]) ws had f f' Hw); [|lia|lia].
        rewrite <- !app_assoc. reflexivity.
Qed.

(** The output only grows. *)
Lemma repairLoop_out_grows : forall f s st,
  exists t, r_out (repairLoop f s st) = r_out st ++ t.
Proof.
  assert (E : forall (r x t : str), (r ++ x) ++ t = r ++ (x ++ t))
    by (intros; rewrite app_assoc; reflexivity).
  induction f as [|f IH]; intros s st.
  - exists []. destruct s; simpl; rewrite app_nil_r; reflexivity.
  - destruct s as [|c s'].
    { exists []. simpl. rewrite app_nil_r. reflexivity. }
    destruct st as [r w i q e h].
    cbn -[span startsWith skipn isReserved].
    assert (G : forall s0 x w0 i0 q0 e0 h0,
      exists t, r_out (repairLoop f s0 (mkR (r ++ x) w0 i0 q0 e0 h0)) = r ++ t).
    { intros. destruct (IH s0 (mkR (r ++ x) w0 i0 q0 e0 h0)) as [t Ht].
      exists (x ++ t). rewrite Ht. simpl. apply E. }
    assert (G0 : forall s0 w0 i0 q0 e0 h0,
      exists t, r_out (repairLoop f s0 (mkR r w0 i0 q0 e0 h0)) = r ++ t).
    { intros. apply (IH s0 (mkR r w0 i0 q0 e0 h0)). }
    destruct e.
    { destruct (i && isSingle q && ceq c c_sq); [apply G|].
      destruct (i && isSingle q && ceq c c_dq); apply G. }
    destruct (ceq c c_bslash && i); [destruct (isSingle q); [apply G0|apply G]|].
    destruct (ceq c c_dq); [destruct i; [destruct q|]; apply G|].
    destruct (ceq c c_sq); [destruct i; [destruct q|]; apply G|].
    destruct i; [apply G|].
    destruct (ceq c c_lbrace || ceq c c_comma).
    { destruct (span isSpace s') as [sp s1].
      destruct s1 as [|d s2]; [simpl; eauto|].
      destruct (ceq d c_dq); [rewrite <- app_assoc; apply G|].
      destruct (ceq d c_sq); [rewrite <- app_assoc; apply G|].
      destruct (span isWord (d :: s2)) as [word s3].
      destruct (negb (emptyStr word) && negb (isReserved word));
        [rewrite <- app_assoc; apply G | apply G]. }
    destruct (startsWith kw_None (c :: s')); [apply G|].
    destruct (startsWith kw_True (c :: s')); [apply G|].
    destruct (startsWith kw_False (c :: s')); [apply G|].
    apply G.
Qed.

(** A whole literal, from outside a string. *)
Lemma dq_literal_step (w rest r : str) (ws : list Warning) (q : quote)
    (had : bool) (f f' : nat) :
  dqContent false w = true ->
  length (c_dq :: w ++ c_dq :: rest) <= f -> length rest <= f' ->
  repairLoop f (c_dq :: w ++ c_dq :: rest) (mkR r ws false q false had)
  = repairLoop f' rest (mkR (r ++ c_dq :: w ++ [c_dq]) ws false QNone false had).
Proof.
  intros Hw Hf Hf'.
  cbn [length] in Hf. destruct f as [|f]; [lia|].
  cbn -[span startsWith skipn isReserved].
  rewrite (repairLoop_in_dq w false rest (r ++ [c_dq]) ws had f f' Hw);
    [|lia|lia].
  rewrite <- !app_assoc. reflexivity.
Qed.

(** ** What the strict lexer accepts *)

Lemma span_forallb (p : chr -> bool) (s : str) :
  forallb p (fst (span p s)) = true.
Proof.
  induction s as [|c s IH]; simpl; [reflexivity|].
  destruct (p c) eqn:E; [|reflexivity].
  destruct (span p s); simpl in *. rewrite E, IH. reflexivity.
Qed.

Lemma span_stop (p : chr -> bool) (s : str) :
  match snd (span p s) with c :: _ => p c = false | [] => True end.
Proof.
  induction s as [|c s IH]; simpl; [exact I|].
  destruct (p c) eqn:E; [|exact E].
  destruct (span p s); simpl in *. exact IH.
Qed.

Lemma stripPrefix_app (p : str) : forall s rest,
  stripPrefix p s = Some rest -> s = p ++ rest.
Proof.
  induction p as [|x p IH]; intros s rest H; simpl in H.
  - inversion H; reflexivity.
  - destruct s as [|y s']; [discriminate|].
    destruct (ceq x y) eqn:E; [|discriminate].
    apply ceq_eq in E. subst y. simpl. f_equal. apply IH, H.
Qed.

Lemma isHex_plain (h : chr) :
  isHex h = true -> ceq h c_bslash = false /\ ceq h c_dq = false.
Proof.
  unfold isHex, isDigit, ceq, c_bslash, c_dq. intros H.
  split; apply N.eqb_neq; intros ->; discriminate.
Qed.

Lemma lexStr_sound_aux (n : nat) : forall s b rest,
  length s <= n -> lexStr s = Some (b, rest) ->
  s = b ++ c_dq :: rest /\ dqContent false b = true.
Proof.
  induction n as [|n IH]; intros s b rest Hn H.
  - destruct s; [discriminate | simpl in Hn; lia].
  - destruct s as [|c r]; [discriminate|].
    simpl in Hn. cbn -[isSimpleEscape isHex] in H.
    destruct (ceq c c_dq) eqn:Ed.
    { inversion H; subst. apply ceq_eq in Ed. subst c. split; reflexivity. }
    destruct (ceq c c_bslash) eqn:Eb.
    { destruct r as [|e r1]; [discriminate|]. simpl in Hn.
      destruct (isSimpleEscape e).
      - destruct (lexStr r1) as [[b1 rest1]|] eqn:E1; [|discriminate].
        inversion H; subst.
        apply IH in E1; [|lia]. destruct E1 as [-> D].
        split; [reflexivity|]. cbn [dqContent app]. rewrite Eb. exact D.
      - destruct ((e =? 117)%N); [|discriminate].
        destruct r1 as [|h1 [|h2 [|h3 [|h4 r2]]]]; try discriminate.
        destruct (isHex h1 && isHex h2 && isHex h3 && isHex h4) eqn:Eh;
          [|discriminate].
        destruct (lexStr r2) as [[b1 rest1]|] eqn:E1; [|discriminate].
        inversion H; subst. simpl in Hn.
        apply IH in E1; [|lia]. destruct E1 as [-> D].
        split; [reflexivity|].
        apply andb_prop in Eh. destruct Eh as [Eh E4].
        apply andb_prop in Eh. destruct Eh as [Eh E3].
        apply andb_prop in Eh. destruct Eh as [E1 E2].
        apply isHex_plain in E1, E2, E3, E4.
        destruct E1 as [A1 B1], E2 as [A2 B2], E3 as [A3 B3], E4 as [A4 B4].
        cbn [dqContent app]. rewrite Eb, A1, B1, A2, B2, A3, B3, A4, B4.
        exact D. }
    destruct ((c <? 32)%N); [discriminate|].
    destruct (lexStr r) as [[b1 rest1]|] eqn:E1; [|discriminate].
    inversion H; subst.
    apply IH in E1; [|lia]. destruct E1 as [-> D].
    split; [reflexivity|]. cbn [dqContent app]. rewrite Ed, Eb. exact D.
Qed.

Lemma lexStr_sound (s b rest : str) :
  lexStr s = Some (b, rest) ->
  s = b ++ c_dq :: rest /\ dqContent false b = true.
Proof. apply (lexStr_sound_aux (length s)). lia. Qed.

Lemma lexFrom_sound : forall f s its trail,
  lexFrom f s = Some (its, trail) ->
  s = render its ++ trail /\ wfItems its trail = true.
Proof.
  induction f as [|f IH]; intros s its trail H; [discriminate|].
  cbn -[span stripPrefix lexStr validNumber] in H.
  pose proof (span_app isJsonWs s) as Ea.
  pose proof (span_forallb isJsonWs s) as Ew.
  destruct (span isJsonWs s) as [w s1]. simpl in Ea, Ew.
  assert (N : forall t rest,
    match lexFrom f rest with
    | Some (its0, trail0) => Some ((w, t) :: its0, trail0)
    | None => None
    end = Some (its, trail) ->
    wfTok t = true ->
    match t with TNum _ => noNumStart rest | _ => true end = true ->
    w ++ tokText t ++ rest = render its ++ trail /\ wfItems its trail = true).
  { intros t rest H0 Ht Hn.
    destruct (lexFrom f rest) as [[its0 trail0]|] eqn:E; [|discriminate].
    inversion H0; subst. apply IH in E. destruct E as [-> W].
    split.
    - simpl. unfold itemText. simpl. rewrite <- !app_assoc. reflexivity.
    - cbn [wfItems]. rewrite Ew, Ht, W. 
      destruct t; try reflexivity. rewrite Hn. reflexivity. }
  destruct s1 as [|c r].
  { injection H as <- <-. rewrite app_nil_r in Ea.
    split; [simpl; symmetry; exact Ea | exact Ew]. }
  subst s.
  destruct (ceq c c_lbrace) eqn:E1.
  { apply ceq_eq in E1; subst c. apply (N TLBrace r H); reflexivity. }
  destruct (ceq c c_rbrace) eqn:E2.
  { apply ceq_eq in E2; subst c. apply (N TRBrace r H); reflexivity. }
  destruct (ceq c c_lbrack) eqn:E3.
  { apply ceq_eq in E3; subst c. apply (N TLBrack r H); reflexivity. }
  destruct (ceq c c_rbrack) eqn:E4.
  { apply ceq_eq in E4; subst c. apply (N TRBrack r H); reflexivity. }
  destruct (ceq c c_colon) eqn:E5.
  { apply ceq_eq in E5; subst c. apply (N TColon r H); reflexivity. }
  destruct (ceq c c_comma) eqn:E6.
  { apply ceq_eq in E6; subst c. apply (N TComma r H); reflexivity. }
  destruct (ceq c c_dq) eqn:E7.
  { apply ceq_eq in E7; subst c.
    destruct (lexStr r) as [[b rest]|] eqn:El; [|discriminate].
    apply lexStr_sound in El. destruct El as [-> D].
    replace (w ++ c_dq :: b ++ c_dq :: rest)
      with (w ++ tokText (TStr b) ++ rest)
      by (simpl; rewrite <- app_assoc; reflexivity).
    apply (N (TStr b) rest H); [exact D | reflexivity]. }
  destruct (ceq c c_minus || isDigit c) eqn:E8.
  { pose proof (span_app isNumChar (c :: r)) as Sa.
    pose proof (span_forallb isNumChar (c :: r)) as Sf.
    pose proof (span_stop isNumChar (c :: r)) as Ss.
    destruct (span isNumChar (c :: r)) as [num rest] eqn:Es.
    simpl fst in *. simpl snd in *.
    destruct (validNumber num) eqn:Ev; [|discriminate].
    rewrite <- Sa.
    apply (N (TNum num) rest H).
    - cbn [wfTok]. rewrite Ev, Sf. simpl.
      destruct num as [|c0 num']; [discriminate|].
      simpl in Sa. inversion Sa; subst. exact E8.
    - unfold noNumStart. destruct rest; [reflexivity|]. rewrite Ss. reflexivity. }
  destruct (stripPrefix kw_true (c :: r)) as [rest|] eqn:Et.
  { apply stripPrefix_app in Et. rewrite Et.
    apply (N TTrue rest H); reflexivity. }
  destruct (stripPrefix kw_false (c :: r)) as [rest|] eqn:Ef.
  { apply stripPrefix_app in Ef. rewrite Ef.
    apply (N TFalse rest H); reflexivity. }
  destruct (stripPrefix kw_null (c :: r)) as [rest|] eqn:En; [|discriminate].
  apply stripPrefix_app in En. rewrite En.
  apply (N TNull rest H); reflexivity.
Qed.

(** ** The token parser is sound for the grammar *)

Lemma pSound_all (f : nat) : pSound f.
Proof.
  induction f as [|f (IV & IE & IM)].
  { repeat split; intros; discriminate. }
  split; [|split].
  - intros ts v rest H. cbn [pValue] in H.
    destruct ts as [|[w t] ts1]; [discriminate|].
    destruct t; try discriminate.
    + (* object *)
      assert (K : pMembers f [] ts1 = Some (v, rest) ->
                  exists used, (w, TLBrace) :: ts1 = used ++ rest /\ JV used).
      { intros H0. apply IM in H0. destruct H0 as (ms & w2 & -> & J).
        exists ((w, TLBrace) :: ms ++ [(w2, TRBrace)]). split.
        - simpl. rewrite <- app_assoc. reflexivity.
        - constructor. exact J. }
      destruct ts1 as [|[w2 t2] ts2]; [apply K, H|].
      destruct t2; try (apply K, H).
      injection H as <- <-.
      exists [(w, TLBrace); (w2, TRBrace)]. split; [reflexivity|constructor].
    + (* array *)
      assert (K : pElems f [] ts1 = Some (v, rest) ->
                  exists used, (w, TLBrack) :: ts1 = used ++ rest /\ JV used).
      { intros H0. apply IE in H0. destruct H0 as (es & w2 & -> & J).
        exists ((w, TLBrack) :: es ++ [(w2, TRBrack)]). split.
        - simpl. rewrite <- app_assoc. reflexivity.
        - constructor. exact J. }
      destruct ts1 as [|[w2 t2] ts2]; [apply K, H|].
      destruct t2; try (apply K, H).
      injection H as <- <-.
      exists [(w, TLBrack); (w2, TRBrack)]. split; [reflexivity|constructor].
    + injection H as <- <-. exists [(w, TStr body)]. split; [reflexivity|constructor].
    + injection H as <- <-. exists [(w, TNum text)]. split; [reflexivity|constructor].
    + injection H as <- <-. exists [(w, TTrue)]. split; [reflexivity|constructor].
    + injection H as <- <-. exists [(w, TFalse)]. split; [reflexivity|constructor].
    + injection H as <- <-. exists [(w, TNull)]. split; [reflexivity|constructor].
  - intros acc ts v rest H. cbn [pElems] in H.
    destruct (pValue f ts) as [[v1 ts1]|] eqn:E; [|discriminate].
    apply IV in E. destruct E as (used & -> & J).
    destruct ts1 as [|[w t] ts2]; [discriminate|].
    destruct t; try discriminate.
    + injection H as <- <-. exists used, w. split; [reflexivity|].
      constructor. exact J.
    + apply IE in H. destruct H as (es & w2 & -> & JE).
      exists (used ++ (w, TComma) :: es), w2. split.
      * rewrite <- app_assoc. reflexivity.
      * constructor; assumption.
  - intros acc ts v rest H. cbn [pMembers] in H.
    destruct ts as [|[w1 t1] ts0]; [discriminate|].
    destruct t1; try discriminate.
    destruct ts0 as [|[w2 t2] ts1]; [discriminate|].
    destruct t2; try discriminate.
    destruct (pValue f ts1) as [[v1 ts2]|] eqn:E; [|discriminate].
    apply IV in E. destruct E as (used & -> & J).
    destruct ts2 as [|[w t] ts3]; [discriminate|].
    destruct t; try discriminate.
    + injection H as <- <-.
      exists ((w1, TStr body) :: (w2, TColon) :: used), w.
      split; [reflexivity|]. constructor. exact J.
    + apply IM in H. destruct H as (ms & w3 & -> & JM).
      exists ((w1, TStr body) :: (w2, TColon) :: used ++ (w, TComma) :: ms), w3.
      split.
      * simpl. rewrite <- app_assoc. reflexivity.
      * constructor; assumption.
Qed.

(** A text that [JSON.parse] accepts is the rendering of well-formed
    tokens that make up one value, followed by white space. *)
Lemma JSON_parse_sound (s : str) (v : value) :
  JSON_parse s = Return v ->
  exists its trail,
    s = render its ++ trail /\ wfItems its trail = true /\ JV its.
Proof.
  unfold JSON_parse, lex. intros H.
  destruct (lexFrom (S (length s)) s) as [[its trail]|] eqn:El; [|discriminate].
  apply lexFrom_sound in El. destruct El as [E W].
  destruct (pValue (2 * length its + 2) its) as [[v1 rest]|] eqn:Ep;
    [|discriminate].
  destruct rest; [|discriminate].
  apply (proj1 (pSound_all _)) in Ep. destruct Ep as (used & Eu & J).
  rewrite app_nil_r in Eu. subst used.
  exists its, trail. auto.
Qed.

(** ** The fuel of the model of [JSON.parse] is enough

    The lexer and the token parser are given an amount of fuel that
    depends on the length of their input.  With that amount they never
    stop for lack of fuel: more fuel does not change their answer. *)

Lemma JV_nonempty (its : list item) : JV its -> its <> [].
Proof. intros J. destruct J; discriminate. Qed.

Lemma lexStr_length (s b rest : str) :
  lexStr s = Some (b, rest) -> length rest < length s.
Proof.
  intros H. apply lexStr_sound in H. destruct H as [-> _].
  rewrite length_app. cbn [length]. lia.
Qed.

Lemma lexFrom_stable : forall f s,
  length s < f -> lexFrom (S f) s = lexFrom f s.
Proof.
  induction f as [|f IH]; intros s H; [lia|].
  remember (S f) as g eqn:Eg.
  assert (R : forall rest, length rest < f -> lexFrom g rest = lexFrom f rest)
    by (subst g; exact IH).
  rewrite Eg at 2. cbn [lexFrom].
  destruct (span isJsonWs s) as [w s1] eqn:Es.
  apply span_eq in Es. destruct Es as [_ Ls].
  destruct s1 as [|c r]; [reflexivity|]. cbn [length] in Ls.
  repeat match goal with
         | |- (if ceq ?a ?b then _ else _) = _ => destruct (ceq a b)
         | |- match lexFrom g ?x with _ => _ end = _ =>
             rewrite (R x) by lia; reflexivity
         end.
  - destruct (lexStr r) as [[b rest]|] eqn:El; [|reflexivity].
    apply lexStr_length in El. rewrite (R rest) by lia. reflexivity.
  - destruct (ceq c c_minus || isDigit c) eqn:Ec.
    + destruct (span isNumChar (c :: r)) as [num rest] eqn:En.
      destruct (validNumber num); [|reflexivity].
      assert (Lr : length rest <= length r).
      { assert (Nc : isNumChar c = true).
        { unfold isNumChar. destruct (isDigit c); [reflexivity|].
          destruct (ceq c c_minus); [reflexivity|discriminate]. }
        cbn [span] in En. rewrite Nc in En.
        destruct (span isNumChar r) as [a b0] eqn:E2.
        injection En as _ <-. apply span_eq in E2. apply E2. }
      rewrite (R rest) by lia. reflexivity.
    + destruct (stripPrefix kw_true (c :: r)) as [rest|] eqn:E1.
      { apply stripPrefix_length in E1. unfold kw_true in E1.
      cbn [length] in E1.
        rewrite (R rest) by lia. reflexivity. }
      destruct (stripPrefix kw_false (c :: r)) as [rest|] eqn:E2.
      { apply stripPrefix_length in E2. unfold kw_false in E2.
      cbn [length] in E2.
        rewrite (R rest) by lia. reflexivity. }
      destruct (stripPrefix kw_null (c :: r)) as [rest|] eqn:E3;
        [|reflexivity].
      apply stripPrefix_length in E3. unfold kw_null in E3.
      cbn [length] in E3.
      rewrite (R rest) by lia. reflexivity.
Qed.

(** The lexer gives the same answer with any larger amount of fuel. *)
Lemma lexFrom_enough (f : nat) (s : str) :
  length s < f -> lexFrom f s = lex s.
Proof.
  unfold lex. intros H.
  replace f with (S (length s) + (f - S (length s))) by lia.
  induction (f - S (length s)) as [|k IH].
  - rewrite Nat.add_0_r. reflexivity.
  - rewrite Nat.add_succ_r, lexFrom_stable by lia. exact IH.
Qed.

Lemma pValue_length (f : nat) (ts : list item) (v : value) (rest : list item) :
  pValue f ts = Some (v, rest) -> length rest < length ts.
Proof.
  intros H. apply (proj1 (pSound_all f)) in H.
  destruct H as (used & -> & J). apply JV_nonempty in J.
  rewrite length_app. destruct used; [contradiction|]. cbn [length]. lia.
Qed.

Lemma pValue_stable (f : nat) :
  (forall ts, 2 * length ts + 1 <= f -> pValue (S f) ts = pValue f ts)
  /\ (forall acc ts, 2 * length ts + 2 <= f ->
        pElems (S f) acc ts = pElems f acc ts)
  /\ (forall acc ts, 2 * length ts + 2 <= f ->
        pMembers (S f) acc ts = pMembers f acc ts).
Proof.
  induction f as [|f (IV & IE & IM)].
  { repeat split; intros; lia. }
  remember (S f) as g eqn:Eg.
  split; [|split].
  - intros ts H. rewrite Eg at 2. cbn [pValue].
    destruct ts as [|[w t] ts1]; [reflexivity|]. cbn [length] in H.
    destruct t; try reflexivity.
    + destruct ts1 as [|[w2 t2] ts2]; [|cbn [length] in H; destruct t2];
        try reflexivity; subst g; apply IM; cbn [length]; lia.
    + destruct ts1 as [|[w2 t2] ts2]; [|cbn [length] in H; destruct t2];
        try reflexivity; subst g; apply IE; cbn [length]; lia.
  - intros acc ts H. rewrite Eg at 2. cbn [pElems].
    assert (E : pValue g ts = pValue f ts) by (subst g; apply IV; lia).
    rewrite E.
    destruct (pValue f ts) as [[v rest]|] eqn:Ep; [|reflexivity].
    apply pValue_length in Ep.
    destruct rest as [|[w t] ts2]; [reflexivity|]. cbn [length] in Ep.
    destruct t; try reflexivity.
    subst g. apply IE. lia.
  - intros acc ts H. rewrite Eg at 2. cbn [pMembers].
    destruct ts as [|[w1 t1] ts0]; [reflexivity|].
    destruct t1; try reflexivity.
    destruct ts0 as [|[w2 t2] ts1]; [reflexivity|].
    destruct t2; try reflexivity. cbn [length] in H.
    assert (E : pValue g ts1 = pValue f ts1) by (subst g; apply IV; lia).
    rewrite E.
    destruct (pValue f ts1) as [[v rest]|] eqn:Ep; [|reflexivity].
    apply pValue_length in Ep.
    destruct rest as [|[w t] ts2]; [reflexivity|]. cbn [length] in Ep.
    destruct t; try reflexivity.
    subst g. apply IM. lia.
Qed.

(** The token parser gives the same answer with any larger amount of
    fuel. *)
Lemma pValue_enough (f : nat) (ts : list item) :
  2 * length ts + 2 <= f -> pValue f ts = pValue (2 * length ts + 2) ts.
Proof.
  intros H.
  replace f with (2 * length ts + 2 + (f - (2 * length ts + 2))) by lia.
  induction (f - (2 * length ts + 2)) as [|k IH].
  - rewrite Nat.add_0_r. reflexivity.
  - rewrite Nat.add_succ_r, (proj1 (pValue_stable _)) by lia. exact IH.
Qed.

(** ** The bracket scanner on valid JSON

    [findJson] and [update] apply the same rules to the depth, the
    in-string flag and the pending escape; [coreStep] is that common
    part. *)

Lemma quiet_app (a b : str) : forall st,
  quiet st (a ++ b) = quiet st a && quiet (coreScan a st) b.
Proof.
  induction a as [|c a IH]; intros st; [reflexivity|].
  cbn [app quiet]. rewrite IH. unfold coreScan. cbn [fold_left].
  rewrite andb_assoc. reflexivity.
Qed.

Lemma coreScan_app (a b : str) (st : cstate) :
  coreScan (a ++ b) st = coreScan b (coreScan a st).
Proof. apply fold_left_app. Qed.

(** Inside a quiet stretch [findJson] records nothing. *)
Lemma findLoop_quiet (all : bool) (s : str) (l : str) :
  forall rest i d b e start results,
  (1 <= d)%Z -> quiet (d, b, e) l = true ->
  findLoop all s (l ++ rest) i (mkF d b e start results)
  = let '(d', b', e') := coreScan l (d, b, e) in
    findLoop all s rest (i + length l) (mkF d' b' e' start results).
Proof.
  induction l as [|c l IH]; intros rest i d b e start results Hd Hq.
  - simpl. rewrite Nat.add_0_r. reflexivity.
  - cbn [app findLoop]. cbn [quiet] in Hq.
    apply andb_prop in Hq. destruct Hq as [H1 Hq].
    apply Z.leb_le in H1.
    unfold coreScan. cbn [fold_left]. fold (coreScan l (coreStep (d, b, e) c)).
    replace (i + length (c :: l)) with (S i + length l) by (simpl; lia).
    unfold coreStep in *.
    destruct e.
    { cbn [fst] in H1. apply IH; assumption. }
    destruct (ceq c c_bslash && b).
    { apply IH; assumption. }
    destruct (ceq c c_dq).
    { apply IH; assumption. }
    destruct b.
    { apply IH; assumption. }
    destruct (isOpen c).
    { cbn [fst] in H1.
      destruct (Z.eqb_spec d 0) as [->|_]; [lia|].
      apply IH; [lia | assumption]. }
    destruct (isClose c).
    { cbn [fst] in H1.
      destruct (Z.eqb_spec (d - 1) 0) as [E|_]; [lia|].
      cbn [andb]. apply IH; [lia | assumption]. }
    apply IH; assumption.
Qed.

(** Inside a quiet stretch [update] leaves [started] as it is. *)
Lemma scan_quiet (l : str) : forall b0 d b e s,
  (1 <= d)%Z -> quiet (d, b, e) l = true ->
  track (fold_left scanChar l (mkSession b0 d b e s))
  = let '(d', b', e') := coreScan l (d, b, e) in (d', b', e', s).
Proof.
  induction l as [|c l IH]; intros b0 d b e s Hd Hq.
  - reflexivity.
  - cbn [fold_left]. cbn [quiet] in Hq.
    apply andb_prop in Hq. destruct Hq as [H1 Hq].
    apply Z.leb_le in H1.
    unfold coreScan. cbn [fold_left]. fold (coreScan l (coreStep (d, b, e) c)).
    unfold coreStep in *. unfold scanChar.
    destruct e.
    { apply IH; assumption. }
    destruct (ceq c c_bslash && b).
    { apply IH; assumption. }
    destruct (ceq c c_dq).
    { apply IH; assumption. }
    destruct b.
    { apply IH; assumption. }
    destruct (isOpen c).
    { cbn [fst] in H1.
      destruct (Z.eqb_spec d 0) as [->|_]; [lia|].
      apply IH; [lia | assumption]. }
    destruct (isClose c).
    { cbn [fst] in H1. apply IH; [lia | assumption]. }
    apply IH; assumption.
Qed.

Lemma wfItems_wfLex (its : list item) (trail : str) :
  wfItems its trail = true -> wfLex its = true.
Proof.
  induction its as [|[w t] r IH]; intros H; [reflexivity|].
  cbn [wfItems] in H. cbn [wfLex forallb fst snd].
  apply andb_prop in H. destruct H as [H H4].
  apply andb_prop in H. destruct H as [H H3].
  rewrite H. apply IH, H4.
Qed.

Lemma levels_app (a b : list item) : forall d,
  levels d (a ++ b) = levels d a && levels (depthAfter d a) b.
Proof.
  induction a as [|[w t] a IH]; intros d; [reflexivity|].
  cbn [app levels depthAfter]. rewrite IH, andb_assoc. reflexivity.
Qed.

Lemma depthAfter_app (a b : list item) : forall d,
  depthAfter d (a ++ b) = depthAfter (depthAfter d a) b.
Proof.
  induction a as [|[w t] a IH]; intros d; [reflexivity|].
  cbn [app depthAfter]. apply IH.
Qed.

Lemma render_app (a b : list item) : render (a ++ b) = render a ++ render b.
Proof.
  induction a as [|it a IH]; [reflexivity|].
  cbn [app render]. rewrite IH, app_assoc. reflexivity.
Qed.

(** A value, a list of elements and a list of members leave the depth
    where it was and never go below it. *)
Lemma JSON_levels :
  (forall ts, JV ts ->
     forall d, (1 <= d)%Z -> levels d ts = true /\ depthAfter d ts = d)
  /\ (forall ts, JElems ts ->
        forall d, (1 <= d)%Z -> levels d ts = true /\ depthAfter d ts = d)
  /\ (forall ts, JMembers ts ->
        forall d, (1 <= d)%Z -> levels d ts = true /\ depthAfter d ts = d).
Proof.
  assert (L : forall d, (1 <= d)%Z -> (1 <=? d + 0)%Z = true)
    by (intros; apply Z.leb_le; lia).
  assert (U : forall d, (1 <= d)%Z -> (1 <=? d + 1)%Z = true)
    by (intros; apply Z.leb_le; lia).
  assert (D : forall d, (1 <= d)%Z -> (1 <=? d + 1 + -1)%Z = true)
    by (intros; apply Z.leb_le; lia).
  apply JSON_mutind.
  - intros w b d Hd. cbn. rewrite L by assumption. split; [reflexivity | lia].
  - intros w n d Hd. cbn. rewrite L by assumption. split; [reflexivity | lia].
  - intros w d Hd. cbn. rewrite L by assumption. split; [reflexivity | lia].
  - intros w d Hd. cbn. rewrite L by assumption. split; [reflexivity | lia].
  - intros w d Hd. cbn. rewrite L by assumption. split; [reflexivity | lia].
  - intros w1 w2 d Hd. cbn. rewrite U, D by assumption.
    split; [reflexivity | lia].
  - intros w1 es w2 _ IH d Hd. cbn [levels depthAfter delta].
    destruct (IH (d + 1)%Z) as [I1 I2]; [lia|].
    rewrite levels_app, depthAfter_app, I1, I2, U by assumption.
    cbn. rewrite D by assumption. split; [reflexivity | lia].
  - intros w1 w2 d Hd. cbn. rewrite U, D by assumption.
    split; [reflexivity | lia].
  - intros w1 ms w2 _ IH d Hd. cbn [levels depthAfter delta].
    destruct (IH (d + 1)%Z) as [I1 I2]; [lia|].
    rewrite levels_app, depthAfter_app, I1, I2, U by assumption.
    cbn. rewrite D by assumption. split; [reflexivity | lia].
  - intros v _ IH d Hd. apply IH; assumption.
  - intros v w es _ IHv _ IHe d Hd.
    destruct (IHv d) as [I1 I2]; [assumption|].
    destruct (IHe d) as [I3 I4]; [assumption|].
    rewrite levels_app, depthAfter_app, I1, I2.
    cbn [levels depthAfter delta]. rewrite L, Z.add_0_r, I3, I4 by assumption.
    split; reflexivity.
  - intros w1 k w2 v _ IH d Hd.
    cbn [levels depthAfter delta].
    rewrite !Z.add_0_r. rewrite <- (Z.add_0_r d) at 1 2. rewrite L by assumption.
    cbn [andb]. apply IH; assumption.
  - intros w1 k w2 v w3 ms _ IHv _ IHm d Hd.
    cbn [levels depthAfter delta].
    rewrite !Z.add_0_r. rewrite <- (Z.add_0_r d) at 1 2. rewrite L by assumption.
    cbn [andb].
    destruct (IHv d) as [I1 I2]; [assumption|].
    destruct (IHm d) as [I3 I4]; [assumption|].
    rewrite levels_app, depthAfter_app, I1, I2.
    cbn [levels depthAfter delta]. rewrite L, Z.add_0_r, I3, I4 by assumption.
    split; reflexivity.
Qed.

Lemma plain_scan (l : str) (d : Z) :
  forallb plainChar l = true ->
  coreScan l (d, false, false) = (d, false, false)
  /\ ((1 <= d)%Z -> quiet (d, false, false) l = true).
Proof.
  induction l as [|c l IH]; intros H; [split; reflexivity|].
  cbn [forallb] in H. apply andb_prop in H. destruct H as [Hc H].
  unfold plainChar in Hc.
  apply andb_prop in Hc. destruct Hc as [Hc H3].
  apply andb_prop in Hc. destruct Hc as [H1 H2].
  apply negb_true_iff in H1, H2, H3.
  assert (E : coreStep (d, false, false) c = (d, false, false)).
  { unfold coreStep. rewrite andb_false_r, H1, H2, H3. reflexivity. }
  unfold coreScan. cbn [fold_left quiet]. rewrite E.
  destruct (IH H) as [I1 I2]. split; [exact I1|].
  intros Hd. cbn [fst]. rewrite (I2 Hd).
  destruct (Z.leb_spec 1 d); [reflexivity | lia].
Qed.

Lemma isJsonWs_plain (c : chr) : isJsonWs c = true -> plainChar c = true.
Proof.
  unfold isJsonWs, plainChar, isOpen, isClose, ceq.
  intros H.
  repeat (apply orb_prop in H; destruct H as [H|H]);
    apply N.eqb_eq in H; subst c; reflexivity.
Qed.

Lemma isNumChar_plain (c : chr) : isNumChar c = true -> plainChar c = true.
Proof.
  unfold isNumChar, isDigit, plainChar, isOpen, isClose, ceq.
  intros H.
  assert (c <> c_dq /\ c <> c_lbrace /\ c <> c_lbrack /\ c <> c_rbrace
          /\ c <> c_rbrack) as (A1 & A2 & A3 & A4 & A5).
  { repeat split; intros ->; discriminate. }
  apply N.eqb_neq in A1, A2, A3, A4, A5.
  rewrite A1, A2, A3, A4, A5. reflexivity.
Qed.

Lemma forallb_impl (p q : chr -> bool) (l : str) :
  (forall c, p c = true -> q c = true) ->
  forallb p l = true -> forallb q l = true.
Proof.
  intros I. induction l as [|c l IH]; simpl; [reflexivity|].
  intros H. apply andb_prop in H. destruct H as [H1 H2].
  rewrite (I _ H1), (IH H2). reflexivity.
Qed.

Lemma body_scan (b : str) : forall (d : Z) (e : bool),
  dqContent e b = true ->
  coreScan b (d, true, e) = (d, true, false)
  /\ ((1 <= d)%Z -> quiet (d, true, e) b = true).
Proof.
  induction b as [|c b IH]; intros d e H.
  - simpl in H. destruct e; [discriminate|]. split; reflexivity.
  - cbn [dqContent] in H. unfold coreScan. cbn [fold_left quiet].
    assert (G : forall e', dqContent e' b = true ->
              coreStep (d, true, e) c = (d, true, e') ->
              fold_left coreStep b (coreStep (d, true, e) c) = (d, true, false)
              /\ ((1 <= d)%Z ->
                  (1 <=? fst (fst (coreStep (d, true, e) c)))%Z
                  && quiet (coreStep (d, true, e) c) b = true)).
    { intros e' D ->. destruct (IH d e' D) as [I1 I2].
      split; [exact I1|]. intros Hd. cbn [fst]. rewrite (I2 Hd).
      destruct (Z.leb_spec 1 d); [reflexivity | lia]. }
    destruct e.
    + apply (G false H). reflexivity.
    + destruct (ceq c c_bslash) eqn:Eb.
      * apply (G true H). unfold coreStep. rewrite Eb. reflexivity.
      * destruct (ceq c c_dq) eqn:Ed; [discriminate|].
        apply (G false H). unfold coreStep. rewrite Eb, Ed. reflexivity.
Qed.

Lemma tok_scan (t : tok) (d : Z) :
  wfTok t = true -> (1 <= d)%Z -> (1 <= d + delta t)%Z ->
  coreScan (tokText t) (d, false, false) = ((d + delta t)%Z, false, false)
  /\ quiet (d, false, false) (tokText t) = true.
Proof.
  intros W Hd Hd'.
  assert (P : forall l, forallb plainChar l = true -> delta t = 0%Z ->
            coreScan l (d, false, false) = ((d + delta t)%Z, false, false)
            /\ quiet (d, false, false) l = true).
  { intros l Hl ->. rewrite Z.add_0_r.
    destruct (plain_scan l d Hl) as [P1 P2]. split; [exact P1 | apply P2, Hd]. }
  assert (B : forall c, (isOpen c || isClose c) = true ->
            coreStep (d, false, false) c
            = ((if isOpen c then d + 1 else d - 1)%Z, false, false) ->
            delta t = (if isOpen c then 1 else -1)%Z ->
            coreScan [c] (d, false, false) = ((d + delta t)%Z, false, false)
            /\ quiet (d, false, false) [c] = true).
  { intros c _ E Dt. unfold coreScan. cbn [fold_left quiet]. rewrite E.
    cbn [fst]. rewrite Dt in *.
    destruct (isOpen c).
    - split; [reflexivity|]. destruct (Z.leb_spec 1 (d + 1)); [reflexivity | lia].
    - split; [f_equal; f_equal; lia|].
      destruct (Z.leb_spec 1 (d - 1)); [reflexivity | lia]. }
  destruct t; cbn [tokText].
  - apply B; reflexivity.
  - apply B; reflexivity.
  - apply B; reflexivity.
  - apply B; reflexivity.
  - apply P; reflexivity.
  - apply P; reflexivity.
  - cbn [wfTok] in W. cbn [delta]. rewrite Z.add_0_r.
    destruct (body_scan body d false W) as [B1 B2].
    unfold coreScan in *. cbn [fold_left quiet].
    change (coreStep (d, false, false) c_dq) with (d, true, false).
    rewrite fold_left_app, B1, quiet_app. unfold coreScan. rewrite B1, (B2 Hd).
    cbn. destruct (Z.leb_spec 1 d); [split; reflexivity | lia].
  - cbn [wfTok] in W.
    apply andb_prop in W. destruct W as [W _].
    apply andb_prop in W. destruct W as [_ W].
    apply P; [|reflexivity].
    apply (forallb_impl isNumChar plainChar); [apply isNumChar_plain | exact W].
  - apply P; reflexivity.
  - apply P; reflexivity.
  - apply P; reflexivity.
Qed.

Lemma items_scan (its : list item) : forall d,
  wfLex its = true -> (1 <= d)%Z -> levels d its = true ->
  coreScan (render its) (d, false, false) = (depthAfter d its, false, false)
  /\ quiet (d, false, false) (render its) = true.
Proof.
  induction its as [|[w t] its IH]; intros d W Hd L; [split; reflexivity|].
  cbn [wfLex forallb fst snd] in W.
  apply andb_prop in W. destruct W as [W W2].
  apply andb_prop in W. destruct W as [Ww Wt].
  cbn [levels] in L. apply andb_prop in L. destruct L as [L1 L2].
  apply Z.leb_le in L1.
  cbn [render depthAfter]. unfold itemText. cbn [fst snd].
  destruct (plain_scan w d) as [S1 Q1].
  { apply (forallb_impl isJsonWs plainChar); [apply isJsonWs_plain | exact Ww]. }
  destruct (tok_scan t d Wt Hd L1) as [S2 Q2].
  destruct (IH (d + delta t)%Z W2 L1 L2) as [S3 Q3].
  rewrite !coreScan_app, !quiet_app, !coreScan_app, S1, S2, S3, (Q1 Hd), Q2, Q3.
  split; reflexivity.
Qed.

(** The shape of a text that is a bracketed value: its first token opens
    and its last token closes, with no white space around; between them
    the depth stays at 1 or more and comes back to 1. *)
Lemma JV_bracketed (its : list item) :
  JV its ->
  match its with (_, t) :: _ => (delta t =? 1)%Z | [] => false end = true ->
  exists w1 t1 mid w2 t2,
    its = (w1, t1) :: mid ++ [(w2, t2)]
    /\ delta t1 = 1%Z /\ delta t2 = (-1)%Z
    /\ levels 1 mid = true /\ depthAfter 1 mid = 1%Z.
Proof.
  intros J H.
  destruct J; try discriminate.
  - exists w1, TLBrack, [], w2, TRBrack. repeat split.
  - exists w1, TLBrack, es, w2, TRBrack.
    destruct (proj1 (proj2 JSON_levels) es H0 1%Z) as [A B]; [lia|].
    repeat split; assumption.
  - exists w1, TLBrace, [], w2, TRBrace. repeat split.
  - exists w1, TLBrace, ms, w2, TRBrace.
    destruct (proj2 (proj2 JSON_levels) ms H0 1%Z) as [A B]; [lia|].
    repeat split; assumption.
Qed.

Lemma plainChar_not_open (c : chr) : plainChar c = true -> isOpen c = false.
Proof.
  unfold plainChar. intros H.
  apply andb_prop in H. destruct H as [H _].
  apply andb_prop in H. destruct H as [_ H].
  apply negb_true_iff in H. exact H.
Qed.

Lemma plainChar_not_close (c : chr) : plainChar c = true -> isClose c = false.
Proof.
  unfold plainChar. intros H.
  apply andb_prop in H. destruct H as [_ H].
  apply negb_true_iff in H. exact H.
Qed.

Lemma tokText_nonempty (t : tok) : wfTok t = true -> tokText t <> [].
Proof.
  destruct t; simpl; try discriminate.
  intros H. apply andb_prop in H. destruct H as [_ H].
  destruct text; [discriminate | discriminate].
Qed.

(** The first character of a token is an opening bracket only for the
    two opening tokens, and then it is the whole token. *)
Lemma tokText_open (t : tok) (o : chr) (r : str) :
  wfTok t = true -> tokText t = o :: r -> isOpen o = true ->
  delta t = 1%Z /\ r = [].
Proof.
  intros W E O.
  destruct t; cbn [tokText] in E;
    try (unfold kw_true, kw_false, kw_null in E;
         injection E as <- <-; first [discriminate | split; reflexivity]).
  subst text.
  cbn [wfTok] in W. apply andb_prop in W. destruct W as [W _].
  apply andb_prop in W. destruct W as [_ W].
  cbn [forallb] in W. apply andb_prop in W. destruct W as [W _].
  apply isNumChar_plain, plainChar_not_open in W. congruence.
Qed.

Lemma tokText_close (t : tok) : delta t = (-1)%Z ->
  exists c, tokText t = [c] /\ isClose c = true /\ isOpen c = false
            /\ ceq c c_dq = false.
Proof.
  destruct t; try discriminate; intros _.
  - exists c_rbrace. repeat split.
  - exists c_rbrack. repeat split.
Qed.

Lemma last_app_ne (A : Type) (a b : list A) (d : A) :
  b <> [] -> last (a ++ b) d = last b d.
Proof.
  intros N. induction a as [|x a IH]; [reflexivity|].
  cbn [app]. destruct (a ++ b) as [|y l] eqn:E.
  - destruct a; [simpl in E; contradiction | discriminate].
  - change (last (x :: y :: l) d) with (last (y :: l) d). exact IH.
Qed.

Lemma forallb_last (p : chr -> bool) (l : str) (d : chr) :
  l <> [] -> forallb p l = true -> p (last l d) = true.
Proof.
  induction l as [|c l IH]; intros N H; [contradiction|].
  cbn [forallb] in H. apply andb_prop in H. destruct H as [H1 H2].
  destruct l as [|c' l']; [exact H1|].
  change (last (c :: c' :: l') d) with (last (c' :: l') d).
  apply IH; [discriminate | exact H2].
Qed.

Lemma bracketed_text (j : str) (v : value) :
  JSON_parse j = Return v -> bracketed j = true ->
  exists o mid c,
    j = o :: mid ++ [c]
    /\ isOpen o = true /\ isClose c = true /\ isOpen c = false
    /\ ceq c c_dq = false
    /\ coreScan mid (1%Z, false, false) = (1%Z, false, false)
    /\ quiet (1%Z, false, false) mid = true.
Proof.
  intros P B. apply JSON_parse_sound in P.
  destruct P as (its & trail & E & W & J).
  destruct its as [|[w1 t1] its1]; [exfalso; apply (JV_nonempty _ J); reflexivity|].
  pose proof W as W0.
  cbn [wfItems] in W.
  apply andb_prop in W. destruct W as [W W4].
  apply andb_prop in W. destruct W as [W _].
  apply andb_prop in W. destruct W as [Ww Wt].
  (* no white space before the first token *)
  assert (w1 = []).
  { destruct w1 as [|c0 w1']; [reflexivity|]. exfalso.
    cbn [forallb] in Ww. apply andb_prop in Ww. destruct Ww as [Hc _].
    apply isJsonWs_plain, plainChar_not_open in Hc.
    subst j. cbn in B. rewrite Hc in B. discriminate. }
  subst w1.
  destruct (tokText t1) as [|o r] eqn:Et;
    [exfalso; apply (tokText_nonempty t1 Wt Et)|].
  assert (O : isOpen o = true).
  { subst j. cbn [render itemText fst snd app] in B. rewrite Et in B.
    cbn in B. apply andb_prop in B. apply B. }
  destruct (tokText_open t1 o r Wt Et O) as [D1 ->].
  destruct (JV_bracketed _ J) as (w1' & t1' & mid & w2 & t2 & Ei & _ & D2 & L & DA).
  { cbn. rewrite D1. reflexivity. }
  injection Ei as <- <- ->.
  destruct (tokText_close t2 D2) as (c & Ec & C1 & C2 & C3).
  (* no white space after the last token *)
  assert (T : wfItems (mid ++ [(w2, t2)]) trail = true) by exact W4.
  assert (trail = []).
  { destruct trail as [|c0 trail'] eqn:Etr; [reflexivity|]. exfalso.
    assert (F : forallb isJsonWs trail = true).
    { clear - T Etr. rewrite <- Etr in T. clear Etr.
      induction (mid ++ [(w2, t2)]) as [|[w t] l IH]; [exact T|].
      cbn [wfItems] in T. apply andb_prop in T. apply IH, T. }
    assert (Hl : isJsonWs (last j 0%N) = true).
    { subst j. rewrite <- Etr.
      assert (Ne : trail <> []) by (rewrite Etr; discriminate).
      rewrite last_app_ne by exact Ne.
      apply forallb_last; assumption. }
    apply isJsonWs_plain, plainChar_not_close in Hl.
    unfold bracketed in B. destruct j; [discriminate|].
    apply andb_prop in B. destruct B as [_ B]. congruence. }
  subst trail. rewrite app_nil_r in E.
  assert (Wl : wfLex (mid ++ [(w2, t2)]) = true)
    by (apply (wfItems_wfLex _ _ T)).
  unfold wfLex in Wl. rewrite forallb_app in Wl.
  apply andb_prop in Wl. destruct Wl as [Wm W2].
  cbn [forallb fst snd] in W2.
  apply andb_prop in W2. destruct W2 as [W2 _].
  apply andb_prop in W2. destruct W2 as [Ww2 _].
  destruct (items_scan mid 1%Z Wm) as [S1 Q1]; [lia | exact L |].
  destruct (plain_scan w2 1%Z) as [S2 Q2].
  { apply (forallb_impl isJsonWs plainChar); [apply isJsonWs_plain | exact Ww2]. }
  exists o, (render mid ++ w2), c.
  split.
  { rewrite E. cbn [render]. rewrite render_app. cbn [render].
    unfold itemText. cbn [fst snd app]. rewrite Et, Ec, app_nil_r.
    cbn [app]. rewrite <- !app_assoc. reflexivity. }
  repeat (split; [assumption|]).
  rewrite coreScan_app, quiet_app, S1, DA, S2, Q1, Q2 by lia.
  split; reflexivity.
Qed.

Lemma findLoop_plain (all : bool) (s : str) (l : str) :
  forall rest i d start results,
  forallb plainChar l = true ->
  findLoop all s (l ++ rest) i (mkF d false false start results)
  = findLoop all s rest (i + length l) (mkF d false false start results).
Proof.
  induction l as [|c l IH]; intros rest i d start results H.
  - simpl. rewrite Nat.add_0_r. reflexivity.
  - cbn [forallb] in H. apply andb_prop in H. destruct H as [Hc H].
    pose proof (plainChar_not_open c Hc) as H2.
    pose proof (plainChar_not_close c Hc) as H3.
    unfold plainChar in Hc.
    apply andb_prop in Hc. destruct Hc as [Hc _].
    apply andb_prop in Hc. destruct Hc as [H1 _].
    apply negb_true_iff in H1.
    cbn [app findLoop]. rewrite andb_false_r, H1, H2, H3.
    rewrite IH by exact H.
    f_equal. simpl. lia.
Qed.

Lemma slice_middle (pre j post : str) :
  slice (pre ++ j ++ post) (length pre) (length pre + length j) = j.
Proof.
  unfold slice.
  replace (length pre + length j - length pre) with (length j) by lia.
  rewrite skipn_app, skipn_all, Nat.sub_diag. cbn [skipn app].
  rewrite firstn_app, firstn_all, Nat.sub_diag. cbn [firstn].
  apply app_nil_r.
Qed.

(** On prose without double quote or bracket, followed by a strictly
    valid bracketed value, [findJson] returns that value and its span. *)
Lemma findJson_bracketed (pre j post : str) (v : value) :
  JSON_parse j = Return v -> bracketed j = true ->
  forallb plainChar pre = true ->
  findJson (pre ++ j ++ post) false
  = mkExtract (Some j) (length pre) (length pre + length j) (Some [j]).
Proof.
  intros P B Hpre.
  destruct (@bracketed_text j v P B) as (o & mid & c & E & O & C1 & C2 & C3 & Sc & Q).
  unfold findJson, f_init.
  rewrite findLoop_plain by exact Hpre. cbn [Nat.add].
  set (s := pre ++ j ++ post).
  assert (R : findLoop false s (j ++ post) (length pre) (mkF 0 false false (-1) [])
              = mkF 0 false false (Z.of_nat (length pre))
                    [(j, (length pre, length pre + length j))]).
  { rewrite E at 1. cbn [app findLoop]. rewrite andb_false_r.
    assert (Od : ceq o c_dq = false).
    { unfold isOpen, ceq, c_lbrace, c_lbrack, c_dq in *.
      apply orb_prop in O. destruct O as [O|O]; apply N.eqb_eq in O; subst o;
        reflexivity. }
    rewrite Od, O. cbn [Z.eqb]. change (0 + 1)%Z with 1%Z.
    rewrite <- app_assoc.
    rewrite (findLoop_quiet false s mid); [|lia|exact Q].
    rewrite Sc. cbn [app findLoop]. rewrite andb_false_r, C3, C2, C1.
    change (1 - 1)%Z with 0%Z. cbn [Z.eqb].
    destruct (Z.leb_spec 0 (Z.of_nat (length pre))) as [_|]; [|lia].
    cbn [andb negb app]. rewrite Nat2Z.id.
    replace (S (length pre) + length mid + 1) with (length pre + length j)
      by (rewrite E; cbn [length]; rewrite length_app; simpl; lia).
    subst s. rewrite slice_middle. reflexivity. }
  rewrite R. reflexivity.
Qed.

Section ExtractionFacts.

Variable Schema : Type.
Variable ValidationError : Type.
Variable validateValue :
  value -> Schema -> str -> outcome (list ValidationError).
Variable stringifyErrors : option (list ValidationError) -> str.

Let parseS := parse validateValue stringifyErrors.
Let finishS := finish validateValue stringifyErrors.
Let writesS := writes validateValue stringifyErrors.

(** C2, as amended.  Let [t] be a strictly valid JSON text of an object
    or an array, from its opening to its closing bracket, that holds no
    markdown fence for [extract] to strip and whose repaired form strictly
    parses to the same value [v].  Written into a new session one
    character at a time, [t] makes [finish] return what [parse] returns on
    the whole text, unless the validation of [v] against the schema
    throws: then [finish] throws what the validation throws, while
    [parse] catches it and returns the [invalid_json] failure with its
    message.  Without a schema both return the [Success] of the strict
    parse of [t]. *)
Theorem stream_equals_parse (t : str) (v : value) (schema : option Schema) :
  JSON_parse t = Return v -> bracketed t = true -> stripMd t = t ->
  JSON_parse (output (repair t)) = Return v ->
  ((forall sc e, schema = Some sc -> validateValue v sc [] <> Throw e) ->
   finishS schema (writesS schema newSession (chars t)) = parseS t schema)
  /\ (forall sc e, schema = Some sc -> validateValue v sc [] = Throw e ->
      finishS schema (writesS schema newSession (chars t)) = Throw e
      /\ parseS t schema
         = Return (Failure (mkError invalid_json (exn_message e) None) None))
  /\ finishS None (writesS None newSession (chars t))
     = Return (Success v None)
  /\ parseS t None = Return (Success v None).
Proof.
  intros P B Hs Hr.
  assert (Ht : stripMd t = [] ++ t ++ []) by (rewrite app_nil_r; exact Hs).
  assert (Ex : extract t = mkExtract (Some t) 0 (length t) (Some [t])).
  { destruct t as [|c0 t0] eqn:Et; [discriminate|]. rewrite <- Et in *.
    unfold extract. replace (emptyStr t) with false by (rewrite Et; reflexivity).
    rewrite Ht. apply (@findJson_bracketed [] t [] v P B eq_refl). }
  assert (Cc : forall l : str, concat (chars l) = l).
  { induction l as [|c l IH]; [reflexivity|]. simpl. rewrite IH. reflexivity. }
  assert (W : forall sc, writesS sc newSession (chars t) = scanAll t).
  { intros sc. subst writesS. change newSession with (scanAll []).
    rewrite (writes_scanAll Schema ValidationError validateValue
               stringifyErrors sc (chars t) []).
    rewrite Cc. reflexivity. }
  assert (Tr : track (scanAll t) = (0%Z, false, false, true)).
  { destruct (@bracketed_text t v P B)
      as (o & mid & c & E & O & C1 & C2 & C3 & Sc & Q).
    unfold scanAll. rewrite E at 1. cbn [fold_left].
    assert (Od : ceq o c_dq = false).
    { unfold isOpen, ceq, c_lbrace, c_lbrack, c_dq in *.
      apply orb_prop in O. destruct O as [O|O]; apply N.eqb_eq in O; subst o;
        reflexivity. }
    unfold scanChar at 2. rewrite andb_false_r, Od, O. cbn [Z.eqb].
    change (0 + 1)%Z with 1%Z.
    rewrite fold_left_app. cbn [fold_left].
    pose proof (scan_quiet mid t 1%Z false false true) as K.
    rewrite Sc in K. specialize (K ltac:(lia) Q).
    destruct (fold_left scanChar mid (mkSession t 1 false false true))
      as [b1 d1 i1 e1 s1].
    unfold track in K. cbn in K. injection K as -> -> -> ->.
    unfold scanChar. rewrite andb_false_r, C3, C2, C1. reflexivity. }
  assert (Bf : buf (scanAll t) = t) by (unfold scanAll; apply scan_buf).
  assert (Pp : parsePartial (output (repair t)) (Some pOpts)
               = Return (Success v None))
    by (apply parsePartial_strict, Hr).
  assert (F : forall sc, finishS sc (writesS sc newSession (chars t))
              = process validateValue stringifyErrors sc (scanAll t)).
  { intros sc. rewrite W. subst finishS. unfold finish.
    unfold track in Tr. injection Tr as -> -> _ ->. reflexivity. }
  assert (Ne : emptyStr t = false) by (destruct t; [discriminate|reflexivity]).
  assert (J : json (extract t) = Some t) by (rewrite Ex; reflexivity).
  assert (Pn : parseS t None = Return (Success v None)).
  { subst parseS. unfold parse. rewrite Ne, J.
    destruct t as [|c0 t0]; [discriminate|].
    unfold parseChecked. rewrite P. reflexivity. }
  assert (Fn : process validateValue stringifyErrors None (scanAll t)
               = Return (Success v None)).
  { unfold process. rewrite Bf, J.
    destruct t as [|c0 t0]; [discriminate|]. rewrite Pp. reflexivity. }
  split; [|split; [|split; [rewrite F; exact Fn | exact Pn]]].
  - intros N. rewrite F. destruct schema as [sc|]; [|rewrite Fn, Pn; reflexivity].
    specialize (N sc).
    unfold process. rewrite Bf, J.
    subst parseS. unfold parse. rewrite Ne, J.
    destruct t as [|c0 t0]; [discriminate|].
    rewrite Pp. cbn [bind]. unfold parseChecked. rewrite P. cbn [bind].
    unfold validate.
    destruct (validateValue v sc []) as [errs|e|] eqn:V; cbn [bind].
    + destruct errs; reflexivity.
    + exfalso. apply (N e); reflexivity.
    + reflexivity.
  - intros sc e -> V. rewrite F.
    unfold process. rewrite Bf, J.
    subst parseS. unfold parse. rewrite Ne, J.
    destruct t as [|c0 t0]; [discriminate|].
    rewrite Pp. cbn [bind]. unfold parseChecked. rewrite P, Hr. cbn [bind].
    unfold validate. rewrite V. cbn [bind]. split; reflexivity.
Qed.

End ExtractionFacts.

(** C2 at an object that holds an array, with a schema that has a
    union in it, and without a schema. *)
Lemma stream_equals_parse_witness :
  let vv := validateValue (fun _ : str => NaN) (fun _ : jsnum => @nil chr) in
  let print := fun _ : option (list ValidationError) => lit "errors" in
  let sc := ObjectSchema
              [(lit "a",
                ArraySchema (UnionSchema [PrimitiveSchema T_number None;
                                          PrimitiveSchema T_string None])
                  None None)]
              (Some [lit "a"]) (Some false) in
  let t := jsq "{~a~:[1,~x~]}" in
  let v := VObj [(lit "a", VArr [VNum (lit "1"); VStr (lit "x")])] in
  JSON_parse t = Return v
  /\ bracketed t = true
  /\ stripMd t = t
  /\ JSON_parse (output (repair t)) = Return v
  /\ vv v sc [] = Return []
  /\ finish vv print (Some sc) (writes vv print (Some sc) newSession (chars t))
     = parse vv print t (Some sc)
  /\ finish vv print None (writes vv print None newSession (chars t))
     = Return (Success v None)
  /\ parse vv print t None = Return (Success v None).
Proof.
  cbv zeta.
  set (vv := validateValue (fun _ : str => NaN) (fun _ : jsnum => @nil chr)).
  set (print := fun _ : option (list ValidationError) => lit "errors").
  set (sc := ObjectSchema
               [(lit "a",
                 ArraySchema (UnionSchema [PrimitiveSchema T_number None;
                                           PrimitiveSchema T_string None])
                   None None)]
               (Some [lit "a"]) (Some false)).
  set (t := jsq "{~a~:[1,~x~]}").
  set (v := VObj [(lit "a", VArr [VNum (lit "1"); VStr (lit "x")])]).
  assert (H1 : JSON_parse t = Return v) by (vm_compute; reflexivity).
  assert (H2 : bracketed t = true) by (vm_compute; reflexivity).
  assert (H3 : stripMd t = t) by (vm_compute; reflexivity).
  assert (H4 : JSON_parse (output (repair t)) = Return v)
    by (vm_compute; reflexivity).
  assert (H5 : vv v sc [] = Return []) by (vm_compute; reflexivity).
  destruct (stream_equals_parse Schema ValidationError vv print
              t v (Some sc) H1 H2 H3 H4) as [A [_ [B C]]].
  split; [exact H1|]. split; [exact H2|]. split; [exact H3|].
  split; [exact H4|]. split; [exact H5|].
  split; [|split; [exact B | exact C]].
  apply A. intros sc0 e E.
  assert (E0 : sc0 = sc) by congruence.
  rewrite E0, H5. discriminate.
Defined.

(** ** The fixed points of [repair] *)

Lemma str_eqb_refl (s : str) : str_eqb s s = true.
Proof.
  induction s as [|c s IH]; [reflexivity|].
  simpl. unfold ceq. rewrite N.eqb_refl. exact IH.
Qed.

Lemma str_eqb_eq (a b : str) : str_eqb a b = true -> a = b.
Proof.
  revert b. induction a as [|x a IH]; intros [|y b] H; try discriminate.
  - reflexivity.
  - simpl in H. apply andb_prop in H. destruct H as [H1 H2].
    apply ceq_eq in H1. subst y. f_equal. apply IH, H2.
Qed.

Lemma passChar_step (c : chr) (s' : str) (f : nat) r ws q had :
  passChar c = true ->
  repairLoop (S f) (c :: s') (mkR r ws false q false had)
  = repairLoop f s' (mkR (r ++ [c]) ws false q false had).
Proof.
  unfold passChar. intros H. apply negb_true_iff in H.
  repeat (apply orb_false_elim in H; destruct H as [H ?]).
  cbn -[span startsWith skipn isReserved].
  rewrite andb_false_r.
  repeat match goal with E : _ = false |- _ => rewrite E; clear E end.
  cbn [orb].
  assert (N : forall (k : chr) (kw : str), (c =? k)%N = false ->
              startsWith (k :: kw) (c :: s') = false).
  { intros k kw E. unfold startsWith. cbn [stripPrefix]. unfold ceq.
    rewrite N.eqb_sym, E. reflexivity. }
  unfold kw_None, kw_True, kw_False.
  rewrite !N by assumption. reflexivity.
Qed.

Lemma pass_chars (l : str) : forall rest f f' r ws q had,
  forallb passChar l = true ->
  length (l ++ rest) <= f -> length rest <= f' ->
  repairLoop f (l ++ rest) (mkR r ws false q false had)
  = repairLoop f' rest (mkR (r ++ l) ws false q false had).
Proof.
  induction l as [|c l IH]; intros rest f f' r ws q had H Hf Hf'.
  - cbn [app]. rewrite app_nil_r. apply repairLoop_fuel; assumption.
  - cbn [forallb] in H. apply andb_prop in H. destruct H as [Hc H].
    cbn [app length] in Hf. destruct f as [|f]; [lia|].
    cbn [app]. rewrite passChar_step by exact Hc.
    rewrite (IH rest f f' (r ++ [c]) ws q had H) by lia.
    rewrite <- app_assoc. reflexivity.
Qed.

Lemma isJsonWs_isSpace (c : chr) : isJsonWs c = true -> isSpace c = true.
Proof.
  unfold isJsonWs, ceq. intros H.
  repeat (apply orb_prop in H; destruct H as [H|H]);
    apply N.eqb_eq in H; subst c; reflexivity.
Qed.

Lemma isJsonWs_pass (c : chr) : isJsonWs c = true -> passChar c = true.
Proof.
  unfold isJsonWs, ceq. intros H.
  repeat (apply orb_prop in H; destruct H as [H|H]);
    apply N.eqb_eq in H; subst c; reflexivity.
Qed.

Lemma isNumChar_pass (c : chr) : isNumChar c = true -> passChar c = true.
Proof.
  unfold isNumChar, isDigit, passChar, ceq. intros H.
  assert (c <> c_dq /\ c <> c_sq /\ c <> c_lbrace /\ c <> c_comma
          /\ c <> 78%N /\ c <> 84%N /\ c <> 70%N)
    as (A1 & A2 & A3 & A4 & A5 & A6 & A7).
  { repeat split; intros ->; discriminate. }
  apply N.eqb_neq in A1, A2, A3, A4, A5, A6, A7.
  rewrite A1, A2, A3, A4, A5, A6, A7. reflexivity.
Qed.

Lemma span_stop_here (p : chr -> bool) (w : str) (d : chr) (x : str) :
  forallb p w = true -> p d = false -> span p (w ++ d :: x) = (w, d :: x).
Proof.
  intros Hw Hd. induction w as [|c w IH]; simpl.
  - rewrite Hd. reflexivity.
  - cbn [forallb] in Hw. apply andb_prop in Hw. destruct Hw as [Hc Hw].
    rewrite Hc, (IH Hw). reflexivity.
Qed.

Lemma span_all (p : chr -> bool) (w : str) :
  forallb p w = true -> span p w = (w, []).
Proof.
  intros Hw. induction w as [|c w IH]; simpl; [reflexivity|].
  cbn [forallb] in Hw. apply andb_prop in Hw. destruct Hw as [Hc Hw].
  rewrite Hc, (IH Hw). reflexivity.
Qed.

(** The first character of a well-formed token is no white space and no
    single quote; it is a double quote for strings only. *)
Lemma tokText_head (t : tok) :
  wfTok t = true ->
  exists d tt, tokText t = d :: tt /\ isSpace d = false /\ ceq d c_sq = false
    /\ (ceq d c_dq = true -> exists b, t = TStr b).
Proof.
  intros W.
  destruct t; cbn [tokText];
    try (eexists; eexists; split; [reflexivity|];
         split; [reflexivity|]; split; [reflexivity|]; discriminate).
  - exists c_dq, (body ++ [c_dq]). repeat split. intros _. eauto.
  - cbn [wfTok] in W. apply andb_prop in W. destruct W as [_ W].
    destruct text as [|d tt]; [discriminate|].
    exists d, tt. split; [reflexivity|].
    unfold isDigit, ceq, c_minus in W.
    assert (d = 45%N \/ (48 <= d <= 57)%N) as D.
    { apply orb_prop in W. destruct W as [W|W].
      - left. apply N.eqb_eq, W.
      - right. apply andb_prop in W. destruct W as [W1 W2].
        apply N.leb_le in W1, W2. lia. }
    assert (T : forall k : N, (k < 45 \/ 57 < k)%N -> (d =? k)%N = false)
      by (intros k Hk; apply N.eqb_neq; lia).
    split.
    { unfold isSpace.
      replace ((d <=? 13)%N) with false by (symmetry; apply N.leb_gt; lia).
      replace ((8192 <=? d)%N) with false by (symmetry; apply N.leb_gt; lia).
      rewrite (T 32%N), (T 160%N), (T 5760%N), (T 8232%N), (T 8233%N),
        (T 8239%N), (T 8287%N), (T 12288%N), (T 65279%N) by lia.
      rewrite andb_false_r. reflexivity. }
    split; [apply T; unfold c_sq; lia|].
    intros E. unfold ceq, c_dq in E. rewrite T in E by lia. discriminate.
Qed.

Lemma tokText_pass (t : tok) :
  wfTok t = true -> isSep t = false ->
  (forall b, t <> TStr b) -> forallb passChar (tokText t) = true.
Proof.
  intros W S N. destruct t; try discriminate; try reflexivity.
  - exfalso. apply (N body). reflexivity.
  - cbn [wfTok] in W. apply andb_prop in W. destruct W as [W _].
    apply andb_prop in W. destruct W as [_ W].
    apply (forallb_impl isNumChar passChar); [apply isNumChar_pass | exact W].
Qed.

Lemma sepOk_tail (it : item) (r : list item) :
  sepOk (it :: r) = true -> sepOk r = true.
Proof.
  destruct it as [w t]. cbn [sepOk]. intros H.
  apply andb_prop in H. apply H.
Qed.

(** On well-formed tokens that satisfy [sepOk], the quote pass copies the
    text and changes nothing else. *)
Lemma repairLoop_tokens (n : nat) : forall its trail r ws had f,
  length its <= n ->
  wfLex its = true -> forallb isJsonWs trail = true -> sepOk its = true ->
  length (render its ++ trail) <= f ->
  repairLoop f (render its ++ trail) (mkR r ws false QNone false had)
  = mkR (r ++ render its ++ trail) ws false QNone false had.
Proof.
  induction n as [|n IH]; intros its trail r ws had f Hn W Wt So Hf.
  { destruct its; [|simpl in Hn; lia]. cbn [render app].
    rewrite <- (app_nil_r trail) at 1.
    rewrite (pass_chars trail [] f 0); [apply repairLoop_nil | | | simpl; lia].
    - apply (forallb_impl isJsonWs passChar); [apply isJsonWs_pass | exact Wt].
    - rewrite app_nil_r. exact Hf. }
  destruct its as [|[w t] rest].
  { apply (IH [] trail r ws had f); [simpl; lia | assumption..]. }
  cbn [length] in Hn.
  pose proof W as W0. cbn [wfLex forallb fst snd] in W.
  apply andb_prop in W. destruct W as [W Wr].
  apply andb_prop in W. destruct W as [Ww Wk].
  pose proof (sepOk_tail _ _ So) as Sr.
  cbn [render] in *. unfold itemText in *. cbn [fst snd] in *.
  set (X := render rest ++ trail) in *.
  assert (EX : ((w ++ tokText t) ++ render rest) ++ trail
               = w ++ tokText t ++ X)
    by (subst X; app_norm; reflexivity).
  rewrite EX in *.
  rewrite (pass_chars w (tokText t ++ X) f (length (tokText t ++ X)));
    [| apply (forallb_impl isJsonWs passChar); [apply isJsonWs_pass | exact Ww]
     | exact Hf | lia].
  assert (Goal1 : forall r0,
    repairLoop (length (tokText t ++ X)) (tokText t ++ X)
      (mkR r0 ws false QNone false had)
    = mkR (r0 ++ tokText t ++ X) ws false QNone false had).
  2:{ rewrite Goal1. app_norm. reflexivity. }
  intros r0.
  destruct (isSep t) eqn:Es.
  - (* an opening brace or a comma *)
    assert (exists c, tokText t = [c] /\ (ceq c c_lbrace || ceq c c_comma) = true
                      /\ passChar c = false /\ ceq c c_dq = false
                      /\ ceq c c_sq = false) as (c & Ec & Hc & _ & Hq & Hs).
    { destruct t; try discriminate.
      - exists c_lbrace. repeat split.
      - exists c_comma. repeat split. }
    rewrite Ec. cbn [app length].
    cbn -[span startsWith skipn isReserved].
    rewrite andb_false_r, Hq, Hs, Hc.
    destruct rest as [|[w' t'] rest'].
    + subst X. cbn [render app].
      rewrite (span_all isSpace trail)
        by (apply (forallb_impl isJsonWs isSpace);
            [apply isJsonWs_isSpace | exact Wt]).
      reflexivity.
    + subst X. cbn [render]. unfold itemText. cbn [fst snd].
      cbn [wfLex forallb fst snd] in Wr.
      apply andb_prop in Wr. destruct Wr as [Wr Wr'].
      apply andb_prop in Wr. destruct Wr as [Ww' Wk'].
      destruct (tokText_head t' Wk') as (d & tt & Et & Hsp & Hsq & Hdq).
      set (X' := render rest' ++ trail).
      assert (EX' : ((w' ++ tokText t') ++ render rest') ++ trail
                    = w' ++ d :: (tt ++ X'))
        by (subst X'; rewrite Et; app_norm; reflexivity).
      rewrite EX'.
      rewrite (span_stop_here isSpace w' d (tt ++ X'))
        by (first [exact Hsp
                  | apply (forallb_impl isJsonWs isSpace);
                    [apply isJsonWs_isSpace | exact Ww']]).
      rewrite Hsq.
      destruct (ceq d c_dq) eqn:Ed.
      * (* the next token is a string: the branch opens it *)
        destruct (Hdq eq_refl) as [b ->].
        cbn [tokText] in Et. injection Et as <- <-.
        cbn [wfTok] in Wk'.
        rewrite <- app_assoc. cbn [app].
        rewrite (repairLoop_in_dq b false X' _ ws had _ (length X') Wk').
        2:{ rewrite !length_app. cbn [length]. rewrite !length_app.
            cbn [length]. lia. }
        2:{ lia. }
        subst X'.
        rewrite (IH rest' trail _ ws had (length (render rest' ++ trail)));
          [| cbn [length] in Hn; lia | exact Wr' | exact Wt
           | apply (sepOk_tail _ _ Sr) | lia].
        f_equal. app_norm. reflexivity.
      * (* any other token: no word is read *)
        assert (Hw : isWord d = false).
        { cbn [sepOk] in So. rewrite Es in So.
          apply andb_prop in So. destruct So as [So _].
          unfold wordStart in So. rewrite Et in So.
          apply negb_true_iff in So. exact So. }
        assert (Sp : span isWord (d :: tt ++ X') = ([], d :: tt ++ X'))
          by (simpl; rewrite Hw; reflexivity).
        rewrite Sp. cbn [emptyStr negb andb].
        assert (E1 : d :: tt ++ X' = render (([], t') :: rest') ++ trail).
        { subst X'. cbn [render]. unfold itemText. cbn [fst snd app].
          rewrite Et. cbn [app]. rewrite <- app_assoc. reflexivity. }
        rewrite E1.
        rewrite (IH (([], t') :: rest') trail _ ws had).
        -- f_equal. rewrite <- E1. app_norm. reflexivity.
        -- cbn [length] in *. lia.
        -- cbn [wfLex forallb fst snd]. rewrite Wk', Wr'. reflexivity.
        -- exact Wt.
        -- exact Sr.
        -- rewrite <- E1. rewrite (length_app w'). lia.
  - destruct t as [| | | | | |b|n0| | |];
      try (match goal with
           | |- context [repairLoop _ (tokText ?t ++ X) _] =>
             rewrite (pass_chars (tokText t) X _ (length X));
             [ subst X;
               rewrite (IH rest trail _ ws had (length (render rest ++ trail)));
               [ f_equal; app_norm; reflexivity
               | lia | exact Wr | exact Wt | exact Sr | lia ]
             | apply tokText_pass;
               [exact Wk | reflexivity | intros b0; discriminate]
             | lia | lia ]
           end; fail).
    + discriminate.
    + discriminate.
    + (* a string *)
      cbn [tokText wfTok] in *. app_norm.
      rewrite (dq_literal_step b X r0 ws QNone had _ (length X) Wk);
        [| app_norm; lia | lia].
      subst X.
      rewrite (IH rest trail _ ws had (length (render rest ++ trail)));
        [| lia | exact Wr | exact Wt | exact Sr | lia].
      f_equal. app_norm. reflexivity.
Qed.

Lemma wfItems_trail (its : list item) (trail : str) :
  wfItems its trail = true -> forallb isJsonWs trail = true.
Proof.
  induction its as [|[w t] r IH]; intros H; [exact H|].
  cbn [wfItems] in H. apply andb_prop in H. apply IH, H.
Qed.

(** A strictly valid and clean text is a fixed point of [repair], which
    emits no warning on it. *)
Lemma repair_fixed (o : str) (v : value) :
  JSON_parse o = Return v -> clean o = true ->
  repair o = mkRepair o [] true.
Proof.
  intros P C. unfold clean in C.
  repeat (apply andb_prop in C; destruct C as [C ?]).
  apply str_eqb_eq in C.
  destruct (lex o) as [[its trail]|] eqn:El; [|discriminate].
  pose proof El as El'. unfold lex in El'. apply lexFrom_sound in El'.
  destruct El' as [E W].
  assert (Ne : emptyStr o = false).
  { destruct o; [rewrite JSON_parse_empty in P; discriminate | reflexivity]. }
  unfold repair. rewrite Ne, C.
  rewrite (replaceAll_id m_fenceOpen o), (replaceAll_id m_fenceTail o),
    (replaceAll_id m_lineComment o), (replaceAll_id m_blockComment o)
    by assumption.
  assert (K : repairLoop (length o) o (r_init [])
              = mkR o [] false QNone false false).
  { unfold r_init. rewrite E at 2 3.
    rewrite (repairLoop_tokens (length its) its trail [] [] false);
      [| lia | apply (wfItems_wfLex _ _ W) | apply (wfItems_trail _ _ W)
       | assumption | rewrite <- E; lia].
    cbn [app]. rewrite <- E. reflexivity. }
  unfold repairPass. rewrite K.
  cbn [r_out r_had r_warn app].
  rewrite (replaceAll_id m_trailingComma o), (replaceAll_id m_doubleComma o)
    by assumption.
  rewrite str_eqb_refl. cbn [negb]. rewrite P. reflexivity.
Qed.

Lemma repair_valid (s : str) :
  valid (repair s) = isReturn (JSON_parse (output (repair s))).
Proof.
  unfold repair. destruct (emptyStr s); [reflexivity|].
  destruct (repairPass _ _) as [s1 w1]. reflexivity.
Qed.

(** C4, as amended.  When the output of [repair] on [s] is strictly valid
    and clean (no white space at either end; no fence marker, comment
    marker, comma before a closing bracket or doubled comma anywhere in
    it; no opening brace or comma followed by a token that starts with a
    word character), a second [repair] returns it unchanged, with no
    warning. *)
Theorem repair_idempotent_on_clean (s : str) :
  valid (repair s) = true -> clean (output (repair s)) = true ->
  output (repair (output (repair s))) = output (repair s)
  /\ r_warnings (repair (output (repair s))) = []
  /\ valid (repair (output (repair s))) = true.
Proof.
  intros V C. rewrite repair_valid in V.
  destruct (JSON_parse (output (repair s))) as [v| |] eqn:P; try discriminate.
  rewrite (repair_fixed _ v P C). repeat split.
Qed.

(** C4 at the example of the documentation: unquoted keys and a trailing
    comma. *)
Lemma repair_idempotent_on_clean_witness :
  let s := jsq "{name: ~John~, tags: [~a~, -1, {~k~: null}],}" in
  output (repair s) = jsq "{~name~: ~John~, ~tags~: [~a~, -1, {~k~: null}]}"
  /\ valid (repair s) = true
  /\ clean (output (repair s)) = true
  /\ output (repair (output (repair s))) = output (repair s).
Proof.
  cbv zeta.
  set (s := jsq "{name: ~John~, tags: [~a~, -1, {~k~: null}],}").
  assert (H0 : output (repair s)
               = jsq "{~name~: ~John~, ~tags~: [~a~, -1, {~k~: null}]}")
    by (vm_compute; reflexivity).
  assert (H1 : valid (repair s) = true) by (vm_compute; reflexivity).
  assert (H2 : clean (output (repair s)) = true) by (vm_compute; reflexivity).
  split; [exact H0|]. split; [exact H1|]. split; [exact H2|].
  exact (proj1 (repair_idempotent_on_clean s H1 H2)).
Defined.

(** ** The partial parser on token prefixes of valid JSON *)

Lemma skip_stop (w : str) (d : chr) (x : str) :
  forallb isSpace w = true -> isSpace d = false -> skip (w ++ d :: x) = d :: x.
Proof.
  intros Hw Hd. unfold skip. induction w as [|c w IH]; simpl.
  - rewrite Hd. reflexivity.
  - cbn [forallb] in Hw. apply andb_prop in Hw. destruct Hw as [Hc Hw].
    rewrite Hc. apply IH, Hw.
Qed.

Lemma skip_all (w : str) : forallb isSpace w = true -> skip w = [].
Proof.
  intros Hw. unfold skip. induction w as [|c w IH]; simpl; [reflexivity|].
  cbn [forallb] in Hw. apply andb_prop in Hw. destruct Hw as [Hc Hw].
  rewrite Hc. apply IH, Hw.
Qed.

Lemma skip_idem (s : str) : skip (skip s) = skip s.
Proof.
  unfold skip. induction s as [|c s IH]; simpl; [reflexivity|].
  destruct (isSpace c) eqn:E; [exact IH|]. simpl. rewrite E. reflexivity.
Qed.

Lemma jsonWs_space (w : str) :
  forallb isJsonWs w = true -> forallb isSpace w = true.
Proof. apply forallb_impl, isJsonWs_isSpace. Qed.

(** [parseStr] reads a complete literal up to its closing quote. *)
Lemma strLoop_complete (b : str) : forall e r x,
  dqContent e b = true -> exists r', strLoop e r (b ++ c_dq :: x) = (r', Some x).
Proof.
  induction b as [|c b IH]; intros e r x H.
  - simpl in H. destruct e; [discriminate|]. simpl. eauto.
  - cbn [dqContent] in H. cbn [app strLoop].
    destruct e; [apply IH, H|].
    destruct (ceq c c_bslash); [apply IH, H|].
    destruct (ceq c c_dq); [discriminate|]. apply IH, H.
Qed.

Lemma parseStr_complete (opts : PartialParseOptions) (b x : str) :
  dqContent false b = true ->
  exists r, parseStr opts (c_dq :: b ++ c_dq :: x) = Return (r, x).
Proof.
  intros H. unfold parseStr, take. cbn [tl].
  destruct (strLoop_complete b false [] x H) as [r' ->]. eauto.
Qed.

Lemma span_app_stop (p : chr -> bool) (a x : str) :
  (snd (span p a) = [] -> headNot p x) ->
  span p (a ++ x) = (fst (span p a), snd (span p a) ++ x).
Proof.
  induction a as [|c a IH]; intros H.
  - simpl in *. specialize (H eq_refl).
    destruct x as [|d x]; [reflexivity|]. simpl in *. rewrite H. reflexivity.
  - cbn [app span] in *. destruct (p c) eqn:E; [|reflexivity].
    destruct (span p a) as [ds rest] eqn:Es. cbn [fst snd] in *.
    rewrite (IH H). reflexivity.
Qed.

Lemma noNumStart_heads (x : str) :
  noNumStart x = true ->
  headNot isDigit x /\ headNot (fun c => ceq c c_dot) x
  /\ headNot isExpMark x.
Proof.
  destruct x as [|c x]; [repeat split|]. cbn [noNumStart headNot].
  intros H. apply negb_true_iff in H. unfold isNumChar in H.
  repeat (apply orb_false_elim in H; destruct H as [H ?]).
  repeat split; try assumption.
  unfold isExpMark. rewrite H0, H1. reflexivity.
Qed.

Lemma takeExp_exact (r x : str) :
  validExp r = true -> headNot isDigit x -> headNot isExpMark x ->
  snd (takeExp (r ++ x)) = x.
Proof.
  intros V Hd He. destruct r as [|e r4].
  - destruct x as [|c x]; [reflexivity|]. simpl in *. rewrite He. reflexivity.
  - cbn [validExp] in V. apply andb_prop in V. destruct V as [Ve V].
    cbn [app takeExp]. rewrite Ve.
    destruct r4 as [|g r']; [discriminate|].
    cbn [app]. destruct (ceq g c_plus || ceq g c_minus).
    + destruct (span isDigit r') as [ds rest] eqn:Es.
      apply andb_prop in V. destruct V as [_ V].
      destruct rest; [|discriminate].
      rewrite (span_app_stop isDigit r' x) by (intros _; exact Hd).
      rewrite Es. reflexivity.
    + destruct (span isDigit (g :: r')) as [ds rest] eqn:Es.
      apply andb_prop in V. destruct V as [_ V].
      destruct rest; [|discriminate].
      change (g :: r' ++ x) with ((g :: r') ++ x).
      rewrite (span_app_stop isDigit (g :: r') x) by (intros _; exact Hd).
      rewrite Es. reflexivity.
Qed.

Lemma validExp_head (r : str) : validExp r = true -> headNot isDigit r.
Proof.
  destruct r as [|e r]; [exact (fun _ => I)|]. cbn [validExp headNot].
  intros V. apply andb_prop in V. destruct V as [Ve _].
  unfold isExpMark in Ve. unfold isDigit.
  apply orb_prop in Ve. destruct Ve as [Ve|Ve]; apply N.eqb_eq in Ve; subst e;
    reflexivity.
Qed.

Lemma validExp_not_dot (r : str) :
  validExp r = true -> headNot (fun c => ceq c c_dot) r.
Proof.
  destruct r as [|e r]; [exact (fun _ => I)|]. cbn [validExp headNot].
  intros V. apply andb_prop in V. destruct V as [Ve _].
  unfold isExpMark in Ve.
  apply orb_prop in Ve. destruct Ve as [Ve|Ve]; apply N.eqb_eq in Ve; subst e;
    reflexivity.
Qed.

Lemma validFrac_head (r : str) : validFrac r = true -> headNot isDigit r.
Proof.
  destruct r as [|d r]; [exact (fun _ => I)|]. cbn [validFrac].
  destruct (ceq d c_dot) eqn:E.
  - intros _. apply ceq_eq in E. subst d. reflexivity.
  - apply validExp_head.
Qed.

Lemma takeFrac_exact (r x : str) :
  validFrac r = true ->
  headNot isDigit x -> headNot (fun c => ceq c c_dot) x ->
  headNot isExpMark x ->
  snd (takeExp (snd (takeFrac (r ++ x)))) = x.
Proof.
  intros V Hd Hp He. destruct r as [|d r2].
  - cbn [app]. replace (takeFrac x) with (([] : str), x).
    + apply (takeExp_exact [] x); [reflexivity | assumption..].
    + destruct x as [|c x]; [reflexivity|]. simpl in *. rewrite Hp. reflexivity.
  - cbn [validFrac] in V. cbn [app takeFrac].
    destruct (ceq d c_dot) eqn:E.
    + destruct (span isDigit r2) as [ds rest] eqn:Es.
      apply andb_prop in V. destruct V as [_ V].
      rewrite (span_app_stop isDigit r2 x) by (intros _; exact Hd).
      rewrite Es. cbn [fst snd].
      apply takeExp_exact; assumption.
    + cbn [snd]. apply (takeExp_exact (d :: r2) x); assumption.
Qed.

(** [parseNum] reads exactly a number of the JSON grammar when what
    follows does not go on like a number. *)
Lemma parseNum_exact (opts : PartialParseOptions) (n x : str) :
  validNumber n = true -> noNumStart x = true ->
  snd (parseNum opts (n ++ x)) = x.
Proof.
  intros V Hx. destruct (noNumStart_heads x Hx) as (Hd & Hp & He).
  unfold parseNum.
  assert (K : forall s1 : str,
    match s1 with
    | d :: r => if (d =? 48)%N then validFrac r
                else if isDigit d then validFrac (dropWhile isDigit r)
                else false
    | [] => false
    end = true ->
    snd (takeExp (snd (takeFrac (snd (span isDigit (s1 ++ x)))))) = x).
  { intros s1 V1. destruct s1 as [|d r]; [discriminate|].
    destruct (N.eqb_spec d 48) as [->|_].
    - cbn [app span]. change (isDigit 48%N) with true. cbv iota.
      pose proof (validFrac_head r V1) as Hr.
      assert (Sp : span isDigit (r ++ x) = ([], r ++ x)).
      { destruct r as [|d' r']; cbn [app].
        - destruct x as [|c x']; [reflexivity|]. simpl in *. rewrite Hd.
          reflexivity.
        - simpl in *. rewrite Hr. reflexivity. }
      rewrite Sp. cbn [snd]. apply takeFrac_exact; assumption.
    - destruct (isDigit d) eqn:Ed; [|discriminate].
      cbn [app span]. rewrite Ed.
      rewrite (span_app_stop isDigit r x) by (intros _; exact Hd).
      destruct (span isDigit r) as [ds rest] eqn:Es. cbn [fst snd].
      pose proof (span_snd isDigit r) as Sn. rewrite Es in Sn. cbn [snd] in Sn.
      rewrite <- Sn in V1. apply takeFrac_exact; assumption. }
  unfold validNumber in V.
  destruct n as [|m r0]; [discriminate|].
  cbn [app takeSign].
  destruct (ceq m c_minus) eqn:Em.
  - specialize (K r0 V).
    destruct (span isDigit (r0 ++ x)) as [ds s2]. cbn [snd] in K.
    destruct (takeFrac s2) as [fr s3]. cbn [snd] in K.
    destruct (takeExp s3) as [ex s4]. cbn [snd] in K. exact K.
  - specialize (K (m :: r0) V). cbn [app] in K.
    destruct (span isDigit (m :: r0 ++ x)) as [ds s2]. cbn [snd] in K.
    destruct (takeFrac s2) as [fr s3]. cbn [snd] in K.
    destruct (takeExp s3) as [ex s4]. cbn [snd] in K. exact K.
Qed.

Section PartialSteps.

Variable len : nat.

Let PV := parseValue optsAll len.
Let AL := arrLoop optsAll len.
Let OL := objLoop optsAll len.

Lemma PV_skip (f : nat) (s : str) : PV f (skip s) = PV f s.
Proof.
  unfold PV. destruct f as [|f]; [reflexivity|].
  cbn -[skip parseStr parseNum startsWith take skipn].
  rewrite skip_idem. reflexivity.
Qed.

Lemma AL_nil (f : nat) (arr : list value) :
  AL (S f) arr [] = Return (VArr arr, []).
Proof. reflexivity. Qed.

Lemma OL_nil (f : nat) (obj : list (str * value)) :
  OL (S f) obj [] = Return (VObj obj, []).
Proof. reflexivity. Qed.

Lemma skip_cons_nonempty (s : str) (d : chr) (s2 : str) :
  skip s = d :: s2 -> exists c s', s = c :: s'.
Proof. destruct s; [discriminate | eauto]. Qed.

Lemma AL_close (f : nat) (arr : list value) (s s2 : str) :
  skip s = c_rbrack :: s2 -> AL (S f) arr s = Return (VArr arr, s2).
Proof.
  intros H. destruct (skip_cons_nonempty _ _ _ H) as (c & s' & ->).
  unfold AL. cbn -[skip parseValue]. rewrite H. reflexivity.
Qed.

Lemma AL_comma (f : nat) (arr : list value) (s s2 : str) :
  skip s = c_comma :: s2 -> AL (S f) arr s = AL f arr s2.
Proof.
  intros H. destruct (skip_cons_nonempty _ _ _ H) as (c & s' & ->).
  unfold AL. cbn -[skip parseValue]. rewrite H. reflexivity.
Qed.

Lemma AL_value (f : nat) (arr : list value) (s : str) (d : chr) (s2 : str) :
  skip s = d :: s2 -> ceq d c_rbrack = false -> ceq d c_comma = false ->
  AL (S f) arr s
  = bind (PV f s) (fun x => let '(v, rest) := x in AL f (arr ++ [v]) rest).
Proof.
  intros H H1 H2. destruct (skip_cons_nonempty _ _ _ H) as (c & s' & ->).
  rewrite <- (PV_skip f (c :: s')).
  unfold AL, PV. cbn -[skip parseValue]. rewrite H, H1, H2. reflexivity.
Qed.

Lemma OL_close (f : nat) (obj : list (str * value)) (s s2 : str) :
  skip s = c_rbrace :: s2 -> OL (S f) obj s = Return (VObj obj, s2).
Proof.
  intros H. destruct (skip_cons_nonempty _ _ _ H) as (c & s' & ->).
  unfold OL. cbn -[skip parseValue parseStr]. rewrite H. reflexivity.
Qed.

Lemma OL_comma (f : nat) (obj : list (str * value)) (s s2 : str) :
  skip s = c_comma :: s2 -> OL (S f) obj s = OL f obj s2.
Proof.
  intros H. destruct (skip_cons_nonempty _ _ _ H) as (c & s' & ->).
  unfold OL. cbn -[skip parseValue parseStr]. rewrite H. reflexivity.
Qed.

(** A member that starts with a complete key. *)
Lemma OL_member (f : nat) (obj : list (str * value)) (s b x : str) :
  skip s = c_dq :: b ++ c_dq :: x -> dqContent false b = true ->
  exists key,
    OL (S f) obj s
    = match skip x with
      | c :: s4 =>
          if ceq c c_colon then
            bind (PV f s4)
              (fun y => let '(v, rest) := y in OL f (assign key v obj) rest)
          else Return (VObj obj, skip x)
      | [] => Return (VObj obj, skip x)
      end.
Proof.
  intros H Hb. destruct (skip_cons_nonempty _ _ _ H) as (c & s' & ->).
  destruct (parseStr_complete optsAll b x Hb) as [key Hk].
  exists key.
  unfold OL, PV. cbn -[skip parseValue parseStr]. rewrite H.
  change (ceq c_dq c_rbrace) with false. change (ceq c_dq c_comma) with false.
  cbv iota. rewrite Hk. cbn [bind].
  destruct (skip x) as [|c0 s4]; [reflexivity|].
  destruct (ceq c0 c_colon); [|reflexivity].
  fold PV. rewrite <- (PV_skip f s4). reflexivity.
Qed.

Lemma PV_arr (f : nat) (s r : str) :
  skip s = c_lbrack :: r ->
  PV (S f) s
  = match skip r with
    | d :: s2 => if ceq d c_rbrack then Return (VArr [], s2)
                 else AL f [] (skip r)
    | [] => AL f [] (skip r)
    end.
Proof.
  intros H. unfold PV, AL.
  cbn -[skip parseStr parseNum startsWith take skipn arrLoop objLoop].
  rewrite H. reflexivity.
Qed.

Lemma PV_obj (f : nat) (s r : str) :
  skip s = c_lbrace :: r ->
  PV (S f) s
  = match skip r with
    | d :: s2 => if ceq d c_rbrace then Return (VObj [], s2)
                 else OL f [] (skip r)
    | [] => OL f [] (skip r)
    end.
Proof.
  intros H. unfold PV, OL.
  cbn -[skip parseStr parseNum startsWith take skipn arrLoop objLoop].
  rewrite H. reflexivity.
Qed.

Lemma PV_str (f : nat) (s b x : str) :
  skip s = c_dq :: b ++ c_dq :: x -> dqContent false b = true ->
  exists v, PV (S f) s = Return (v, x).
Proof.
  intros H Hb. destruct (parseStr_complete optsAll b x Hb) as [r Hr].
  exists (VStr r). unfold PV.
  cbn -[skip parseStr parseNum startsWith take skipn arrLoop objLoop].
  rewrite H. change (ceq c_dq c_lbrace) with false.
  change (ceq c_dq c_lbrack) with false. change (ceq c_dq c_dq) with true.
  cbv iota. rewrite Hr. reflexivity.
Qed.

Lemma PV_num (f : nat) (s n x : str) :
  skip s = n ++ x -> wfTok (TNum n) = true -> noNumStart x = true ->
  exists v, PV (S f) s = Return (v, x).
Proof.
  intros H W Hx. cbn [wfTok] in W.
  apply andb_prop in W. destruct W as [W Hh].
  apply andb_prop in W. destruct W as [Hv Hf].
  pose proof (parseNum_exact optsAll n x Hv Hx) as E.
  destruct n as [|d n']; [discriminate|].
  cbn [forallb] in Hf. apply andb_prop in Hf. destruct Hf as [Hc _].
  pose proof (isNumChar_plain d Hc) as Hp.
  pose proof (plainChar_not_open d Hp) as Ho.
  unfold isOpen in Ho. apply orb_false_elim in Ho. destruct Ho as [O1 O2].
  unfold plainChar in Hp. apply andb_prop in Hp. destruct Hp as [Hp _].
  apply andb_prop in Hp. destruct Hp as [Hq _]. apply negb_true_iff in Hq.
  destruct (parseNum optsAll ((d :: n') ++ x)) as [v s0] eqn:Ep.
  cbn [snd] in E. subst s0. exists v. unfold PV.
  cbn -[skip parseStr parseNum startsWith take skipn arrLoop objLoop].
  rewrite H. cbn [app] in *. rewrite O1, O2, Hq, Hh, Ep. reflexivity.
Qed.

Lemma PV_lit (f : nat) (s x : str) (t : tok) :
  skip s = tokText t ++ x ->
  match t with TTrue | TFalse | TNull => true | _ => false end = true ->
  exists v, PV (S f) s = Return (v, x).
Proof.
  intros H Ht. unfold PV.
  destruct t; try discriminate; cbn [tokText] in H;
    cbn -[skip parseStr parseNum take arrLoop objLoop];
    rewrite H; cbn; eauto.
Qed.

End PartialSteps.

Lemma JSON_start :
  (forall ts, JV ts ->
     exists w t rest, ts = (w, t) :: rest /\ valueStart t = true)
  /\ (forall ts, JElems ts ->
        exists w t rest, ts = (w, t) :: rest /\ valueStart t = true)
  /\ (forall ts, JMembers ts ->
        exists w b rest, ts = (w, TStr b) :: rest).
Proof.
  apply JSON_mutind; intros; try (do 3 eexists; split; reflexivity);
    try (do 3 eexists; reflexivity).
  - assumption.
  - destruct H as (w0 & t0 & rest0 & -> & Hv).
    exists w0, t0, (rest0 ++ (w, TComma) :: es). split; [reflexivity | exact Hv].
Qed.

Lemma valueStart_head (t : tok) :
  wfTok t = true -> valueStart t = true ->
  exists d tt, tokText t = d :: tt /\ isSpace d = false
    /\ ceq d c_rbrack = false /\ ceq d c_rbrace = false
    /\ ceq d c_comma = false.
Proof.
  intros W V.
  destruct (tokText_head t W) as (d & tt & E & Hs & _ & _).
  exists d, tt. split; [exact E|]. split; [exact Hs|].
  destruct t; try discriminate; cbn [tokText] in E;
    try (unfold kw_true, kw_false, kw_null in E); try (injection E as <- _);
    try (repeat split; reflexivity).
  subst text. cbn [wfTok] in W. apply andb_prop in W. destruct W as [W _].
  apply andb_prop in W. destruct W as [_ W].
  cbn [forallb] in W. apply andb_prop in W. destruct W as [W _].
  pose proof (isNumChar_plain d W) as Hp.
  pose proof (plainChar_not_close d Hp) as Hc.
  unfold isClose in Hc. apply orb_false_elim in Hc. destruct Hc as [C1 C2].
  repeat split; try assumption.
  unfold isNumChar, isDigit, ceq, c_comma in *.
  apply N.eqb_neq. intros ->. discriminate.
Qed.

Lemma render_cons_app (w : str) (t : tok) (r : list item) (x : str) :
  render ((w, t) :: r) ++ x = w ++ tokText t ++ render r ++ x.
Proof. cbn [render]. unfold itemText. cbn [fst snd]. app_norm. reflexivity. Qed.

Lemma skip_item (w : str) (t : tok) (y : str) (d : chr) (tt : str) :
  forallb isJsonWs w = true -> tokText t = d :: tt -> isSpace d = false ->
  skip (w ++ tokText t ++ y) = d :: tt ++ y.
Proof.
  intros Hw E Hd. rewrite E. cbn [app].
  apply skip_stop; [apply jsonWs_space, Hw | exact Hd].
Qed.

Lemma skip_punct (w : str) (c : chr) (y : str) :
  forallb isJsonWs w = true -> isSpace c = false ->
  skip (w ++ c :: y) = c :: y.
Proof. intros Hw Hc. apply skip_stop; [apply jsonWs_space, Hw | exact Hc]. Qed.

Lemma noNumStart_punct (w : str) (c : chr) (y : str) :
  forallb isJsonWs w = true -> isNumChar c = false ->
  noNumStart (w ++ c :: y) = true.
Proof.
  intros Hw Hc. destruct w as [|c0 w]; cbn [app noNumStart].
  - rewrite Hc. reflexivity.
  - cbn [forallb] in Hw. apply andb_prop in Hw. destruct Hw as [H _].
    unfold isJsonWs, ceq in H.
    repeat (apply orb_prop in H; destruct H as [H|H]);
      apply N.eqb_eq in H; subst c0; reflexivity.
Qed.

Lemma bind_fuel_inv {A B} (x : outcome A) (k : A -> outcome B) :
  bind x k <> OutOfFuel -> x <> OutOfFuel.
Proof. intros H E. apply H. rewrite E. reflexivity. Qed.

Lemma lastTok_cons (it : item) (l : list item) :
  l <> [] -> lastTok (it :: l) = lastTok l.
Proof.
  intros N. unfold lastTok. destruct l as [|a l']; [contradiction|]. reflexivity.
Qed.

Lemma lastTok_app (a b : list item) :
  b <> [] -> lastTok (a ++ b) = lastTok b.
Proof. intros N. unfold lastTok. rewrite last_app_ne by exact N. reflexivity. Qed.

Lemma firstn_nonempty (A : Type) (k : nat) (l : list A) :
  1 <= k -> l <> [] -> firstn k l <> [].
Proof.
  intros Hk Hl. destruct k as [|k]; [lia|].
  destruct l; [contradiction | discriminate].
Qed.

Lemma wfLex_app (a b : list item) :
  wfLex (a ++ b) = wfLex a && wfLex b.
Proof. apply forallb_app. Qed.

Lemma wfLex_cons (w : str) (t : tok) (r : list item) :
  wfLex ((w, t) :: r) = forallb isJsonWs w && wfTok t && wfLex r.
Proof. reflexivity. Qed.

Section PartialOnValid.

Variable len : nat.

Local Notation PV := (parseValue optsAll len).
Local Notation AL := (arrLoop optsAll len).
Local Notation OL := (objLoop optsAll len).

Lemma PV_0 (s : str) : PV 0 s = OutOfFuel.
Proof. reflexivity. Qed.
Lemma AL_0 (arr : list value) (s : str) : AL 0 arr s = OutOfFuel.
Proof. reflexivity. Qed.
Lemma OL_0 (obj : list (str * value)) (s : str) : OL 0 obj s = OutOfFuel.
Proof. reflexivity. Qed.

Lemma okV_any (ts : list item) :
  okV len ts -> wfLex ts = true ->
  forall k f, 1 <= k -> k <= length ts ->
    lastTok (firstn k ts) <> TColon ->
    PV f (render (firstn k ts)) <> OutOfFuel ->
    exists v, PV f (render (firstn k ts)) = Return (v, []).
Proof.
  intros O W k f H1 H2 HL HF. destruct (O W) as [Oc Op].
  destruct (Nat.eq_dec k (length ts)) as [->|Hne].
  - rewrite firstn_all in *.
    specialize (Oc [] f eq_refl). rewrite app_nil_r in Oc. apply Oc, HF.
  - apply Op; [exact H1 | lia | exact HL | exact HF].
Qed.

(** A primitive value. *)
Lemma okV_prim (w : str) (t : tok) :
  match t with
  | TStr _ | TNum _ | TTrue | TFalse | TNull => true
  | _ => false
  end = true ->
  okV len [(w, t)].
Proof.
  intros Ht W. rewrite wfLex_cons in W.
  apply andb_prop in W. destruct W as [W _].
  apply andb_prop in W. destruct W as [Ww Wt].
  split; [|intros k f H1 H2; simpl in H2; lia].
  intros x f Hx HF.
  destruct f as [|f]; [exfalso; apply HF, PV_0|].
  rewrite render_cons_app in *. cbn [render app] in *.
  destruct (tokText_head t Wt) as (d & tt & E & Hs & _ & _).
  pose proof (skip_item w t x d tt Ww E Hs) as Sk.
  change (d :: tt ++ x) with ((d :: tt) ++ x) in Sk. rewrite <- E in Sk.
  destruct t; try discriminate.
  - cbn [tokText app] in Sk. rewrite <- app_assoc in Sk. cbn [app] in Sk.
    cbn [tokText app]. rewrite <- app_assoc. cbn [app].
    exact (PV_str len f _ body x Sk Wt).
  - exact (PV_num len f _ text x Sk Wt Hx).
  - exact (PV_lit len f _ x TTrue Sk eq_refl).
  - exact (PV_lit len f _ x TFalse Sk eq_refl).
  - exact (PV_lit len f _ x TNull Sk eq_refl).
Qed.

(** One element of an array, read whole. *)
Lemma AL_elem (v : list item) :
  JV v -> okV len v -> wfLex v = true ->
  forall x arr f, noNumStart x = true ->
    AL f arr (render v ++ x) <> OutOfFuel ->
    exists v1 f', f = S f'
      /\ AL f arr (render v ++ x) = AL f' (arr ++ [v1]) x.
Proof.
  intros J O W x arr f Hx HF.
  destruct f as [|f]; [exfalso; apply HF, AL_0|].
  destruct (proj1 JSON_start v J) as (w & t & rest & -> & Hv).
  pose proof W as W0. rewrite wfLex_cons in W0.
  apply andb_prop in W0. destruct W0 as [W0 _].
  apply andb_prop in W0. destruct W0 as [Ww Wt].
  destruct (valueStart_head t Wt Hv) as (d & tt & E & Hs & C1 & _ & C3).
  assert (Sk : skip (render ((w, t) :: rest) ++ x) = d :: tt ++ render rest ++ x).
  { rewrite render_cons_app. apply (skip_item w t _ d tt Ww E Hs). }
  rewrite (AL_value len f arr _ d _ Sk C1 C3) in *.
  pose proof (bind_fuel_inv _ _ HF) as HP.
  destruct (proj1 (O W) x f Hx HP) as [v1 Ev].
  rewrite Ev in *. cbn [bind] in *.
  exists v1, f. split; reflexivity.
Qed.

(** One element of an array, cut after a token. *)
Lemma AL_elem_prefix (v : list item) :
  JV v -> okV len v -> wfLex v = true ->
  forall k arr f, 1 <= k -> k <= length v ->
    lastTok (firstn k v) <> TColon ->
    AL f arr (render (firstn k v)) <> OutOfFuel ->
    exists v', AL f arr (render (firstn k v)) = Return (v', []).
Proof.
  intros J O W k arr f H1 H2 HL HF.
  destruct f as [|f]; [exfalso; apply HF, AL_0|].
  destruct (proj1 JSON_start v J) as (w & t & rest & E0 & Hv).
  pose proof W as W0. rewrite E0, wfLex_cons in W0.
  apply andb_prop in W0. destruct W0 as [W0 _].
  apply andb_prop in W0. destruct W0 as [Ww Wt].
  destruct (valueStart_head t Wt Hv) as (d & tt & E & Hs & C1 & _ & C3).
  assert (Sk : exists y, skip (render (firstn k v)) = d :: y).
  { rewrite E0. destruct k as [|k]; [lia|]. cbn [firstn].
    rewrite <- (app_nil_r (render _)), render_cons_app.
    rewrite (skip_item w t _ d tt Ww E Hs). eauto. }
  destruct Sk as [y Sk].
  rewrite (AL_value len f arr _ d _ Sk C1 C3) in *.
  pose proof (bind_fuel_inv _ _ HF) as HP.
  destruct (okV_any v O W k f H1 H2 HL HP) as [v1 Ev].
  rewrite Ev in *. cbn [bind] in *.
  destruct f as [|f]; [exfalso; apply HF, AL_0|].
  eexists. apply AL_nil.
Qed.

Lemma c_colon_facts :
  isSpace c_colon = false /\ isNumChar c_comma = false
  /\ isNumChar c_rbrack = false /\ isNumChar c_rbrace = false
  /\ isSpace c_comma = false /\ isSpace c_rbrack = false
  /\ isSpace c_rbrace = false.
Proof. repeat split. Qed.

(** One member of an object, read whole. *)
Lemma OL_memb (w1 key w2 : str) (v : list item) :
  JV v -> okV len v ->
  wfLex ((w1, TStr key) :: (w2, TColon) :: v) = true ->
  forall x obj f, noNumStart x = true ->
    OL f obj (render ((w1, TStr key) :: (w2, TColon) :: v) ++ x) <> OutOfFuel ->
    exists key' v1 f', f = S f'
      /\ OL f obj (render ((w1, TStr key) :: (w2, TColon) :: v) ++ x)
         = OL f' (assign key' v1 obj) x.
Proof.
  intros J O W x obj f Hx HF.
  destruct f as [|f]; [exfalso; apply HF, OL_0|].
  rewrite !wfLex_cons in W.
  apply andb_prop in W. destruct W as [W W2].
  apply andb_prop in W. destruct W as [Ww1 Wk]. cbn [wfTok] in Wk.
  apply andb_prop in W2. destruct W2 as [W2 Wv].
  apply andb_prop in W2. destruct W2 as [Ww2 _].
  assert (E : render ((w1, TStr key) :: (w2, TColon) :: v) ++ x
              = w1 ++ c_dq :: key ++ c_dq :: (w2 ++ c_colon :: render v ++ x)).
  { rewrite !render_cons_app. cbn [tokText]. app_norm. reflexivity. }
  rewrite E in *.
  assert (Sk : skip (w1 ++ c_dq :: key ++ c_dq :: (w2 ++ c_colon :: render v ++ x))
               = c_dq :: key ++ c_dq :: (w2 ++ c_colon :: render v ++ x))
    by (apply skip_punct; [exact Ww1 | reflexivity]).
  destruct (OL_member len f obj _ key _ Sk Wk) as [key' Eo].
  rewrite Eo in *.
  rewrite (skip_punct w2 c_colon _ Ww2 eq_refl) in *.
  change (ceq c_colon c_colon) with true in *. cbv iota in *.
  pose proof (bind_fuel_inv _ _ HF) as HP.
  destruct (proj1 (O Wv) x f Hx HP) as [v1 Ev].
  rewrite Ev in *. cbn [bind] in *.
  exists key', v1, f. split; reflexivity.
Qed.

(** One member of an object, cut after a token other than its colon. *)
Lemma OL_memb_prefix (w1 key w2 : str) (v : list item) :
  JV v -> okV len v ->
  wfLex ((w1, TStr key) :: (w2, TColon) :: v) = true ->
  forall k obj f, 1 <= k -> k <= 2 + length v ->
    lastTok (firstn k ((w1, TStr key) :: (w2, TColon) :: v)) <> TColon ->
    OL f obj (render (firstn k ((w1, TStr key) :: (w2, TColon) :: v)))
      <> OutOfFuel ->
    exists v',
      OL f obj (render (firstn k ((w1, TStr key) :: (w2, TColon) :: v)))
      = Return (v', []).
Proof.
  intros J O W k obj f H1 H2 HL HF.
  destruct f as [|f]; [exfalso; apply HF, OL_0|].
  rewrite !wfLex_cons in W.
  apply andb_prop in W. destruct W as [W W2].
  apply andb_prop in W. destruct W as [Ww1 Wk]. cbn [wfTok] in Wk.
  apply andb_prop in W2. destruct W2 as [W2 Wv].
  apply andb_prop in W2. destruct W2 as [Ww2 _].
  destruct k as [|[|[|k]]]; [lia| | |].
  - (* the key alone *)
    cbn [firstn render] in *. unfold itemText in *. cbn [fst snd tokText] in *.
    assert (E : (w1 ++ c_dq :: key ++ [c_dq]) ++ []
                = w1 ++ c_dq :: key ++ c_dq :: []) by (app_norm; reflexivity).
    rewrite E in *.
    assert (Sk : skip (w1 ++ c_dq :: key ++ c_dq :: [])
                 = c_dq :: key ++ c_dq :: [])
      by (apply skip_punct; [exact Ww1 | reflexivity]).
    destruct (OL_member len f obj _ key _ Sk Wk) as [key' Eo].
    rewrite Eo. cbn. eauto.
  - exfalso. apply HL. reflexivity.
  - (* the key, the colon and a part of the value *)
    set (k' := S k) in *.
    assert (Ef : firstn (S (S k')) ((w1, TStr key) :: (w2, TColon) :: v)
                 = (w1, TStr key) :: (w2, TColon) :: firstn k' v) by reflexivity.
    rewrite Ef in *.
    assert (Nv : firstn k' v <> []).
    { apply firstn_nonempty; [subst k'; lia|].
      destruct (proj1 JSON_start v J) as (? & ? & ? & -> & _). discriminate. }
    rewrite lastTok_cons in HL by discriminate.
    rewrite lastTok_cons in HL by exact Nv.
    assert (E : render ((w1, TStr key) :: (w2, TColon) :: firstn k' v)
                = w1 ++ c_dq :: key ++ c_dq
                     :: (w2 ++ c_colon :: render (firstn k' v))).
    { rewrite <- (app_nil_r (render _)). rewrite !render_cons_app.
      cbn [tokText]. app_norm. rewrite app_nil_r. reflexivity. }
    rewrite E in *.
    assert (Sk : skip (w1 ++ c_dq :: key ++ c_dq
                         :: (w2 ++ c_colon :: render (firstn k' v)))
                 = c_dq :: key ++ c_dq
                     :: (w2 ++ c_colon :: render (firstn k' v)))
      by (apply skip_punct; [exact Ww1 | reflexivity]).
    destruct (OL_member len f obj _ key _ Sk Wk) as [key' Eo].
    rewrite Eo in *.
    rewrite (skip_punct w2 c_colon _ Ww2 eq_refl) in *.
    change (ceq c_colon c_colon) with true in *. cbv iota in *.
    pose proof (bind_fuel_inv _ _ HF) as HP.
    destruct (okV_any v O Wv k' f) as [v1 Ev];
      [subst k'; lia | subst k'; simpl in H2; lia | exact HL | exact HP |].
    rewrite Ev in *. cbn [bind] in *.
    destruct f as [|f]; [exfalso; apply HF, OL_0|].
    eexists. apply OL_nil.
Qed.

Lemma okE_one (v : list item) : JV v -> okV len v -> okE len v.
Proof.
  intros J O W. split.
  - intros w x arr f Hw HF.
    destruct (AL_elem v J O W (w ++ c_rbrack :: x) arr f) as (v1 & f' & -> & E);
      [apply noNumStart_punct; [exact Hw | reflexivity] | exact HF |].
    rewrite E in *.
    destruct f' as [|f]; [exfalso; apply HF, AL_0|].
    eexists. apply AL_close. apply skip_punct; [exact Hw | reflexivity].
  - intros k arr f H1 H2 HL HF.
    apply (AL_elem_prefix v J O W k arr f H1 H2 HL HF).
Qed.

Lemma firstn_app_left (A : Type) (k : nat) (a b : list A) :
  k <= length a -> firstn k (a ++ b) = firstn k a.
Proof.
  intros H. rewrite firstn_app.
  replace (k - length a) with 0 by lia. cbn [firstn]. apply app_nil_r.
Qed.

Lemma firstn_app_right (A : Type) (k : nat) (a : list A) (c : A) (b : list A) :
  length a < k ->
  firstn k (a ++ c :: b) = a ++ c :: firstn (k - length a - 1) b.
Proof.
  intros H. rewrite firstn_app, firstn_all2 by lia.
  destruct (k - length a) as [|j] eqn:E; [lia|].
  cbn [firstn]. replace (S j - 1) with j by lia. reflexivity.
Qed.

Lemma okE_cons (v : list item) (w' : str) (es : list item) :
  JV v -> okV len v -> JElems es -> okE len es -> okE len (v ++ (w', TComma) :: es).
Proof.
  intros J O JE OE W.
  rewrite wfLex_app, wfLex_cons in W.
  apply andb_prop in W. destruct W as [Wv W].
  apply andb_prop in W. destruct W as [W We].
  apply andb_prop in W. destruct W as [Ww' _].
  destruct (OE We) as [Ec Ep].
  assert (Nv : v <> []).
  { destruct (proj1 JSON_start v J) as (? & ? & ? & -> & _). discriminate. }
  split.
  - intros w x arr f Hw HF.
    assert (E : render (v ++ (w', TComma) :: es) ++ w ++ c_rbrack :: x
                = render v ++ (w' ++ c_comma
                                 :: (render es ++ w ++ c_rbrack :: x))).
    { rewrite render_app, <- app_assoc, render_cons_app. reflexivity. }
    rewrite E in *.
    destruct (AL_elem v J O Wv
                (w' ++ c_comma :: (render es ++ w ++ c_rbrack :: x)) arr f)
      as (v1 & f' & -> & E1);
      [apply noNumStart_punct; [exact Ww' | reflexivity] | exact HF |].
    rewrite E1 in *.
    destruct f' as [|f]; [exfalso; apply HF, AL_0|].
    rewrite (AL_comma len f _ _ _ (skip_punct w' c_comma _ Ww' eq_refl)) in *.
    apply Ec; assumption.
  - intros k arr f H1 H2 HL HF.
    destruct (Nat.le_gt_cases k (length v)) as [Hk|Hk].
    + assert (Ef : firstn k (v ++ (w', TComma) :: es) = firstn k v)
        by (apply firstn_app_left; exact Hk).
      rewrite Ef in HL, HF |- *.
      apply (AL_elem_prefix v J O Wv k arr f H1 Hk HL HF).
    + assert (Ef : firstn k (v ++ (w', TComma) :: es)
                   = v ++ (w', TComma) :: firstn (k - length v - 1) es)
        by (apply firstn_app_right; exact Hk).
      rewrite Ef in HL, HF |- *. clear Ef.
      set (k' := k - length v - 1) in *.
      assert (E : render (v ++ (w', TComma) :: firstn k' es)
                  = render v ++ (w' ++ c_comma :: render (firstn k' es))).
      { rewrite render_app. rewrite <- (app_nil_r (render (_ :: _))).
        rewrite render_cons_app, app_nil_r. reflexivity. }
      rewrite E in *.
      destruct (AL_elem v J O Wv (w' ++ c_comma :: render (firstn k' es)) arr f)
        as (v1 & f' & -> & E1);
        [apply noNumStart_punct; [exact Ww' | reflexivity] | exact HF |].
      rewrite E1 in *.
      destruct f' as [|f]; [exfalso; apply HF, AL_0|].
      rewrite (AL_comma len f _ _ _ (skip_punct w' c_comma _ Ww' eq_refl)) in *.
      destruct k' as [|k''] eqn:Ek.
      * cbn [firstn render] in *.
        destruct f as [|f]; [exfalso; apply HF, AL_0|].
        eexists. apply AL_nil.
      * rewrite length_app in H2. cbn [length] in H2.
        assert (Ne : firstn (S k'') es <> []).
        { apply firstn_nonempty; [lia|].
          destruct (proj1 (proj2 JSON_start) es JE) as (? & ? & ? & -> & _).
          discriminate. }
        rewrite lastTok_app in HL by discriminate.
        rewrite lastTok_cons in HL by exact Ne.
        apply Ep; [lia | lia | exact HL | exact HF].
Qed.

Lemma okM_one (w1 key w2 : str) (v : list item) :
  JV v -> okV len v -> okM len ((w1, TStr key) :: (w2, TColon) :: v).
Proof.
  intros J O W. split.
  - intros w x obj f Hw HF.
    destruct (OL_memb w1 key w2 v J O W (w ++ c_rbrace :: x) obj f)
      as (key' & v1 & f' & -> & E);
      [apply noNumStart_punct; [exact Hw | reflexivity] | exact HF |].
    rewrite E in *.
    destruct f' as [|f]; [exfalso; apply HF, OL_0|].
    eexists. apply OL_close. apply skip_punct; [exact Hw | reflexivity].
  - intros k obj f H1 H2 HL HF.
    apply (OL_memb_prefix w1 key w2 v J O W k obj f H1 H2 HL HF).
Qed.

Lemma okM_cons (w1 key w2 : str) (v : list item) (w3 : str) (ms : list item) :
  JV v -> okV len v -> JMembers ms -> okM len ms ->
  okM len ((w1, TStr key) :: (w2, TColon) :: v ++ (w3, TComma) :: ms).
Proof.
  intros J O JM OM.
  change (okM len (((w1, TStr key) :: (w2, TColon) :: v) ++ (w3, TComma) :: ms)).
  pose proof (OL_memb w1 key w2 v J O) as Mc0.
  pose proof (OL_memb_prefix w1 key w2 v J O) as Mp0.
  assert (Lm : length ((w1, TStr key) :: (w2, TColon) :: v) = 2 + length v)
    by reflexivity.
  remember ((w1, TStr key) :: (w2, TColon) :: v) as m eqn:Hm.
  intros W.
  rewrite wfLex_app, wfLex_cons in W.
  apply andb_prop in W. destruct W as [Wm W].
  apply andb_prop in W. destruct W as [W Wms].
  apply andb_prop in W. destruct W as [Ww3 _].
  destruct (OM Wms) as [Mc Mp].
  split.
  - intros w x obj f Hw HF.
    assert (E : render (m ++ (w3, TComma) :: ms) ++ w ++ c_rbrace :: x
                = render m ++ (w3 ++ c_comma
                                 :: (render ms ++ w ++ c_rbrace :: x))).
    { rewrite render_app, <- app_assoc, render_cons_app. reflexivity. }
    rewrite E in HF |- *.
    destruct (Mc0 Wm (w3 ++ c_comma :: (render ms ++ w ++ c_rbrace :: x)) obj f)
      as (key' & v1 & f' & -> & E1);
      [apply noNumStart_punct; [exact Ww3 | reflexivity] | exact HF |].
    rewrite E1 in HF |- *.
    destruct f' as [|f]; [exfalso; apply HF, OL_0|].
    rewrite (OL_comma len f _ _ _ (skip_punct w3 c_comma _ Ww3 eq_refl))
      in HF |- *.
    apply Mc; assumption.
  - intros k obj f H1 H2 HL HF. unfold item in *.
    destruct (Nat.le_gt_cases k (length m)) as [Hk|Hk].
    + assert (Ef : firstn k (m ++ (w3, TComma) :: ms) = firstn k m)
        by (apply firstn_app_left; exact Hk).
      rewrite Ef in HL, HF |- *.
      apply (Mp0 Wm k obj f H1); [lia | exact HL | exact HF].
    + assert (Ef : firstn k (m ++ (w3, TComma) :: ms)
                   = m ++ (w3, TComma) :: firstn (k - length m - 1) ms)
        by (apply firstn_app_right; exact Hk).
      rewrite Ef in HL, HF |- *. clear Ef.
      set (k' := k - length m - 1) in *.
      assert (E : render (m ++ (w3, TComma) :: firstn k' ms)
                  = render m ++ (w3 ++ c_comma :: render (firstn k' ms))).
      { rewrite render_app. rewrite <- (app_nil_r (render (_ :: firstn _ _))).
        rewrite render_cons_app, app_nil_r. reflexivity. }
      rewrite E in HF |- *.
      destruct (Mc0 Wm (w3 ++ c_comma :: render (firstn k' ms)) obj f)
        as (key' & v1 & f' & -> & E1);
        [apply noNumStart_punct; [exact Ww3 | reflexivity] | exact HF |].
      rewrite E1 in HF |- *.
      destruct f' as [|f]; [exfalso; apply HF, OL_0|].
      rewrite (OL_comma len f _ _ _ (skip_punct w3 c_comma _ Ww3 eq_refl))
        in HF |- *.
      destruct k' as [|k''] eqn:Ek.
      * cbn [firstn render] in *.
        destruct f as [|f]; [exfalso; apply HF, OL_0|].
        eexists. apply OL_nil.
      * rewrite length_app in H2. cbn [length] in H2.
        assert (Ne : firstn (S k'') ms <> []).
        { apply firstn_nonempty; [lia|].
          destruct (proj2 (proj2 JSON_start) ms JM) as (? & ? & ? & ->).
          discriminate. }
        rewrite lastTok_app in HL by discriminate.
        rewrite lastTok_cons in HL by exact Ne.
        apply Mp; [lia | lia | exact HL | exact HF].
Qed.

Lemma AL_skip (f : nat) (arr : list value) (s : str) :
  skip s <> [] -> AL f arr (skip s) = AL f arr s.
Proof.
  intros N. destruct f as [|f]; [reflexivity|].
  destruct s as [|c s']; [contradiction|].
  destruct (skip (c :: s')) as [|d y] eqn:E; [contradiction|].
  assert (E2 : skip (d :: y) = d :: y) by (rewrite <- E; apply skip_idem).
  cbn -[skip parseValue]. rewrite E, E2. reflexivity.
Qed.

Lemma OL_skip (f : nat) (obj : list (str * value)) (s : str) :
  skip s <> [] -> OL f obj (skip s) = OL f obj s.
Proof.
  intros N. destruct f as [|f]; [reflexivity|].
  destruct s as [|c s']; [contradiction|].
  destruct (skip (c :: s')) as [|d y] eqn:E; [contradiction|].
  assert (E2 : skip (d :: y) = d :: y) by (rewrite <- E; apply skip_idem).
  cbn -[skip parseValue parseStr]. rewrite E, E2. reflexivity.
Qed.

(** The first character of a non-empty prefix of a list of elements. *)
Lemma elems_head (es : list item) (k : nat) (y : str) :
  JElems es -> wfLex es = true -> 1 <= k ->
  exists d z, skip (render (firstn k es) ++ y) = d :: z
              /\ ceq d c_rbrack = false.
Proof.
  intros J W Hk. unfold item in *.
  destruct (proj1 (proj2 JSON_start) es J) as (w & t & rest & -> & Hv).
  rewrite wfLex_cons in W.
  apply andb_prop in W. destruct W as [W _].
  apply andb_prop in W. destruct W as [Ww Wt].
  destruct (valueStart_head t Wt Hv) as (d & tt & E & Hs & C1 & _ & _).
  destruct k as [|k]; [lia|]. cbn [firstn].
  rewrite render_cons_app, (skip_item w t _ d tt Ww E Hs). eauto.
Qed.

Lemma members_head (ms : list item) (k : nat) (y : str) :
  JMembers ms -> wfLex ms = true -> 1 <= k ->
  exists d z, skip (render (firstn k ms) ++ y) = d :: z
              /\ ceq d c_rbrace = false.
Proof.
  intros J W Hk. unfold item in *.
  destruct (proj2 (proj2 JSON_start) ms J) as (w & b & rest & ->).
  rewrite wfLex_cons in W.
  apply andb_prop in W. destruct W as [W _].
  apply andb_prop in W. destruct W as [Ww Wt].
  destruct k as [|k]; [lia|]. cbn [firstn].
  rewrite render_cons_app. cbn [tokText app].
  rewrite (skip_punct w c_dq _ Ww eq_refl). eauto.
Qed.

Lemma okV_arr0 (w1 w2 : str) : okV len [(w1, TLBrack); (w2, TRBrack)].
Proof.
  intros W. rewrite !wfLex_cons in W.
  apply andb_prop in W. destruct W as [W W2].
  apply andb_prop in W. destruct W as [Ww1 _].
  apply andb_prop in W2. destruct W2 as [W2 _].
  apply andb_prop in W2. destruct W2 as [Ww2 _].
  split.
  - intros x f Hx HF.
    destruct f as [|f]; [exfalso; apply HF; reflexivity|].
    assert (E : render [(w1, TLBrack); (w2, TRBrack)] ++ x
                = w1 ++ c_lbrack :: (w2 ++ c_rbrack :: x)).
    { rewrite !render_cons_app. cbn [tokText render]. app_norm. reflexivity. }
    rewrite E.
    rewrite (PV_arr len f _ _ (skip_punct w1 c_lbrack _ Ww1 eq_refl)).
    rewrite (skip_punct w2 c_rbrack _ Ww2 eq_refl). cbn. eauto.
  - intros k f H1 H2 HL HF. cbn [length] in H2.
    assert (k = 1) by lia. subst k. cbn [firstn] in *. unfold item in *.
    destruct f as [|f]; [exfalso; apply HF; reflexivity|].
    assert (E : render [(w1, TLBrack)] = w1 ++ c_lbrack :: []).
    { rewrite <- (app_nil_r (render _)), render_cons_app. reflexivity. }
    rewrite E in HF |- *.
    rewrite (PV_arr len f _ _ (skip_punct w1 c_lbrack _ Ww1 eq_refl))
      in HF |- *.
    cbn [skip dropWhile] in HF |- *.
    destruct f as [|f]; [exfalso; apply HF; reflexivity|].
    eexists. reflexivity.
Qed.

Lemma okV_obj0 (w1 w2 : str) : okV len [(w1, TLBrace); (w2, TRBrace)].
Proof.
  intros W. rewrite !wfLex_cons in W.
  apply andb_prop in W. destruct W as [W W2].
  apply andb_prop in W. destruct W as [Ww1 _].
  apply andb_prop in W2. destruct W2 as [W2 _].
  apply andb_prop in W2. destruct W2 as [Ww2 _].
  split.
  - intros x f Hx HF.
    destruct f as [|f]; [exfalso; apply HF; reflexivity|].
    assert (E : render [(w1, TLBrace); (w2, TRBrace)] ++ x
                = w1 ++ c_lbrace :: (w2 ++ c_rbrace :: x)).
    { rewrite !render_cons_app. cbn [tokText render]. app_norm. reflexivity. }
    rewrite E.
    rewrite (PV_obj len f _ _ (skip_punct w1 c_lbrace _ Ww1 eq_refl)).
    rewrite (skip_punct w2 c_rbrace _ Ww2 eq_refl). cbn. eauto.
  - intros k f H1 H2 HL HF. cbn [length] in H2.
    assert (k = 1) by lia. subst k. cbn [firstn] in *. unfold item in *.
    destruct f as [|f]; [exfalso; apply HF; reflexivity|].
    assert (E : render [(w1, TLBrace)] = w1 ++ c_lbrace :: []).
    { rewrite <- (app_nil_r (render _)), render_cons_app. reflexivity. }
    rewrite E in HF |- *.
    rewrite (PV_obj len f _ _ (skip_punct w1 c_lbrace _ Ww1 eq_refl))
      in HF |- *.
    cbn [skip dropWhile] in HF |- *.
    destruct f as [|f]; [exfalso; apply HF; reflexivity|].
    eexists. reflexivity.
Qed.

Lemma okV_arr (w1 : str) (es : list item) (w2 : str) :
  JElems es -> okE len es -> okV len ((w1, TLBrack) :: es ++ [(w2, TRBrack)]).
Proof.
  intros J OE W. unfold item in *.
  rewrite wfLex_cons, wfLex_app, wfLex_cons in W.
  apply andb_prop in W. destruct W as [W W2].
  apply andb_prop in W. destruct W as [Ww1 _].
  apply andb_prop in W2. destruct W2 as [We W2].
  apply andb_prop in W2. destruct W2 as [W2 _].
  apply andb_prop in W2. destruct W2 as [Ww2 _].
  destruct (OE We) as [Ec Ep].
  split.
  - intros x f Hx HF.
    destruct f as [|f]; [exfalso; apply HF; reflexivity|].
    assert (E : render ((w1, TLBrack) :: es ++ [(w2, TRBrack)]) ++ x
                = w1 ++ c_lbrack :: (render es ++ w2 ++ c_rbrack :: x)).
    { rewrite render_cons_app, render_app, <- app_assoc, render_cons_app.
      reflexivity. }
    rewrite E in HF |- *.
    rewrite (PV_arr len f _ _ (skip_punct w1 c_lbrack _ Ww1 eq_refl))
      in HF |- *.
    destruct (elems_head es (length es) (w2 ++ c_rbrack :: x) J We)
      as (d & z & Sk & Cd).
    { destruct (proj1 (proj2 JSON_start) es J) as (? & ? & ? & -> & _).
      simpl. lia. }
    rewrite firstn_all in Sk.
    assert (Ns : skip (render es ++ w2 ++ c_rbrack :: x) <> [])
      by (rewrite Sk; discriminate).
    rewrite (AL_skip f [] _ Ns) in HF |- *.
    rewrite Sk, Cd in HF |- *.
    apply Ec; assumption.
  - intros k f H1 H2 HL HF.
    destruct f as [|f]; [exfalso; apply HF; reflexivity|].
    destruct k as [|k]; [lia|].
    cbn [length] in H2. rewrite length_app in H2. cbn [length] in H2.
    assert (Ef : firstn (S k) ((w1, TLBrack) :: es ++ [(w2, TRBrack)])
                 = (w1, TLBrack) :: firstn k es).
    { cbn [firstn]. rewrite firstn_app_left by lia. reflexivity. }
    rewrite Ef in HL, HF |- *. clear Ef.
    assert (E : render ((w1, TLBrack) :: firstn k es)
                = w1 ++ c_lbrack :: render (firstn k es)).
    { rewrite <- (app_nil_r (render _)), render_cons_app, app_nil_r.
      reflexivity. }
    rewrite E in HF |- *.
    rewrite (PV_arr len f _ _ (skip_punct w1 c_lbrack _ Ww1 eq_refl))
      in HF |- *.
    destruct k as [|k].
    + cbn [firstn render skip dropWhile] in HF |- *.
      destruct f as [|f]; [exfalso; apply HF; reflexivity|].
      eexists. reflexivity.
    + destruct (elems_head es (S k) [] J We) as (d & z & Sk & Cd); [lia|].
      rewrite app_nil_r in Sk. unfold item in *.
      assert (Ns : skip (render (firstn (S k) es)) <> [])
        by (rewrite Sk; discriminate).
      rewrite (AL_skip f [] _ Ns) in HF |- *.
      rewrite Sk, Cd in HF |- *.
      assert (Ne : firstn (S k) es <> []).
      { apply firstn_nonempty; [lia|].
        destruct (proj1 (proj2 JSON_start) es J) as (? & ? & ? & -> & _).
        discriminate. }
      rewrite lastTok_cons in HL by exact Ne.
      apply Ep; [lia | lia | exact HL | exact HF].
Qed.

Lemma okV_obj (w1 : str) (ms : list item) (w2 : str) :
  JMembers ms -> okM len ms -> okV len ((w1, TLBrace) :: ms ++ [(w2, TRBrace)]).
Proof.
  intros J OM W. unfold item in *.
  rewrite wfLex_cons, wfLex_app, wfLex_cons in W.
  apply andb_prop in W. destruct W as [W W2].
  apply andb_prop in W. destruct W as [Ww1 _].
  apply andb_prop in W2. destruct W2 as [Wm W2].
  apply andb_prop in W2. destruct W2 as [W2 _].
  apply andb_prop in W2. destruct W2 as [Ww2 _].
  destruct (OM Wm) as [Mc Mp].
  split.
  - intros x f Hx HF.
    destruct f as [|f]; [exfalso; apply HF; reflexivity|].
    assert (E : render ((w1, TLBrace) :: ms ++ [(w2, TRBrace)]) ++ x
                = w1 ++ c_lbrace :: (render ms ++ w2 ++ c_rbrace :: x)).
    { rewrite render_cons_app, render_app, <- app_assoc, render_cons_app.
      reflexivity. }
    rewrite E in HF |- *.
    rewrite (PV_obj len f _ _ (skip_punct w1 c_lbrace _ Ww1 eq_refl))
      in HF |- *.
    destruct (members_head ms (length ms) (w2 ++ c_rbrace :: x) J Wm)
      as (d & z & Sk & Cd).
    { destruct (proj2 (proj2 JSON_start) ms J) as (? & ? & ? & ->).
      simpl. lia. }
    rewrite firstn_all in Sk.
    assert (Ns : skip (render ms ++ w2 ++ c_rbrace :: x) <> [])
      by (rewrite Sk; discriminate).
    rewrite (OL_skip f [] _ Ns) in HF |- *.
    rewrite Sk, Cd in HF |- *.
    apply Mc; assumption.
  - intros k f H1 H2 HL HF.
    destruct f as [|f]; [exfalso; apply HF; reflexivity|].
    destruct k as [|k]; [lia|].
    cbn [length] in H2. rewrite length_app in H2. cbn [length] in H2.
    assert (Ef : firstn (S k) ((w1, TLBrace) :: ms ++ [(w2, TRBrace)])
                 = (w1, TLBrace) :: firstn k ms).
    { cbn [firstn]. rewrite firstn_app_left by lia. reflexivity. }
    rewrite Ef in HL, HF |- *. clear Ef.
    assert (E : render ((w1, TLBrace) :: firstn k ms)
                = w1 ++ c_lbrace :: render (firstn k ms)).
    { rewrite <- (app_nil_r (render _)), render_cons_app, app_nil_r.
      reflexivity. }
    rewrite E in HF |- *.
    rewrite (PV_obj len f _ _ (skip_punct w1 c_lbrace _ Ww1 eq_refl))
      in HF |- *.
    destruct k as [|k].
    + cbn [firstn render skip dropWhile] in HF |- *.
      destruct f as [|f]; [exfalso; apply HF; reflexivity|].
      eexists. reflexivity.
    + destruct (members_head ms (S k) [] J Wm) as (d & z & Sk & Cd); [lia|].
      rewrite app_nil_r in Sk. unfold item in *.
      assert (Ns : skip (render (firstn (S k) ms)) <> [])
        by (rewrite Sk; discriminate).
      rewrite (OL_skip f [] _ Ns) in HF |- *.
      rewrite Sk, Cd in HF |- *.
      assert (Ne : firstn (S k) ms <> []).
      { apply firstn_nonempty; [lia|].
        destruct (proj2 (proj2 JSON_start) ms J) as (? & ? & ? & ->).
        discriminate. }
      rewrite lastTok_cons in HL by exact Ne.
      apply Mp; [lia | lia | exact HL | exact HF].
Qed.

(** The partial parser reads every value of the grammar, and every prefix
    of it that ends after a token other than a colon. *)
Lemma okV_all : forall ts, JV ts -> okV len ts.
Proof.
  apply (proj1 (JSON_mutind
                  (fun ts _ => okV len ts) (fun es _ => okE len es)
                  (fun ms _ => okM len ms)
                  (fun w b => okV_prim w (TStr b) eq_refl)
                  (fun w n => okV_prim w (TNum n) eq_refl)
                  (fun w => okV_prim w TTrue eq_refl)
                  (fun w => okV_prim w TFalse eq_refl)
                  (fun w => okV_prim w TNull eq_refl)
                  okV_arr0
                  (fun w1 es w2 J O => okV_arr w1 es w2 J O)
                  okV_obj0
                  (fun w1 ms w2 J O => okV_obj w1 ms w2 J O)
                  (fun v J O => okE_one v J O)
                  (fun v w es J O JE OE => okE_cons v w es J O JE OE)
                  (fun w1 k w2 v J O => okM_one w1 k w2 v J O)
                  (fun w1 k w2 v w3 ms J O JM OM =>
                     okM_cons w1 k w2 v w3 ms J O JM OM))).
Qed.

End PartialOnValid.

(** C5, as amended.  Let [t] be a text that [JSON.parse] accepts, and cut
    it right after one of its tokens, other than a colon: the prefix is
    not empty and ends with the last character of a string, a number, a
    literal, a bracket, a brace or a comma of [t].  Then [parsePartial],
    with all four [allowPartial*] flags set, returns a [Success] on that
    prefix.  (A prefix that ends after a colon is refused, see
    [parsePartial_after_colon].) *)
Theorem parsePartial_token_prefix
  (t : str) (v : value) (its : list item) (trail : str) (k : nat) :
  JSON_parse t = Return v ->
  lex t = Some (its, trail) ->
  1 <= k -> k <= length its ->
  lastTok (firstn k its) <> TColon ->
  exists d,
    parsePartial (render (firstn k its)) allPartial = Return (Success d None).
Proof.
  intros HP HL H1 H2 HT.
  assert (J : JV its /\ wfLex its = true).
  { unfold JSON_parse in HP. rewrite HL in HP.
    unfold lex in HL. apply lexFrom_sound in HL. destruct HL as [_ W].
    destruct (pValue (2 * length its + 2) its) as [[v1 rest]|] eqn:Ep;
      [|discriminate].
    destruct rest; [|discriminate].
    apply (proj1 (pSound_all _)) in Ep. destruct Ep as (used & Eu & J).
    rewrite app_nil_r in Eu. subst used.
    split; [exact J | exact (wfItems_wfLex _ _ W)]. }
  destruct J as [J W].
  pose proof (fun len =>
                okV_any len its (okV_all len its J) W k) as K.
  remember (render (firstn k its)) as p eqn:Ep.
  assert (Ne : emptyStr p = false).
  { destruct p; [|reflexivity]. exfalso.
    destruct (K 0 1 H1 H2 HT) as [v0 Hv]; [discriminate|discriminate]. }
  unfold parsePartial. rewrite Ne.
  destruct (JSON_parse p) eqn:EJ.
  - eexists. reflexivity.
  - change (withDefaults allPartial) with optsAll. unfold doParse.
    destruct (K (length p) (2 * length p + 2) H1 H2 HT) as [v0 Hv].
    + apply (proj1 (fuelOk_all optsAll (length p) (2 * length p + 2))). lia.
    + rewrite Hv. eexists. reflexivity.
  - exfalso. exact (JSON_parse_no_fuel p EJ).
Qed.

(** C5 at [{"a": [1, 2]}], cut after its seventh token: the prefix
    [{"a": [1, 2] ends inside the array, right after a number. *)
Lemma parsePartial_token_prefix_witness :
  let t := jsq "{~a~: [1, 2]}" in
  let its := [([], TLBrace); ([], TStr (lit "a")); ([], TColon);
              ([32%N], TLBrack); ([], TNum (lit "1")); ([], TComma);
              ([32%N], TNum (lit "2")); ([], TRBrack); ([], TRBrace)] in
  JSON_parse t = Return (VObj [(lit "a", VArr [VNum (lit "1"); VNum (lit "2")])])
  /\ lex t = Some (its, [])
  /\ render (firstn 7 its) = jsq "{~a~: [1, 2"
  /\ lastTok (firstn 7 its) = TNum (lit "2")
  /\ exists d,
       parsePartial (jsq "{~a~: [1, 2") allPartial = Return (Success d None).
Proof.
  cbv zeta.
  set (t := jsq "{~a~: [1, 2]}").
  set (its := [([], TLBrace); ([], TStr (lit "a")); ([], TColon);
               ([32%N], TLBrack); ([], TNum (lit "1")); ([], TComma);
               ([32%N], TNum (lit "2")); ([], TRBrack); ([], TRBrace)]).
  assert (H1 : JSON_parse t
               = Return (VObj [(lit "a", VArr [VNum (lit "1"); VNum (lit "2")])]))
    by (vm_compute; reflexivity).
  assert (H2 : lex t = Some (its, [])) by (vm_compute; reflexivity).
  assert (H3 : lastTok (firstn 7 its) <> TColon) by (vm_compute; discriminate).
  split; [exact H1|]. split; [exact H2|].
  split; [vm_compute; reflexivity|]. split; [vm_compute; reflexivity|].
  exact (parsePartial_token_prefix t _ its [] 7 H1 H2
           ltac:(lia) ltac:(simpl; lia) H3).
Defined.

(** * Further properties of the code *)

(** ** The candidates of [extract] *)

Lemma balanced_intro (o : chr) (mid : str) (c : chr) :
  isOpen o = true -> quiet (1%Z, false, false) mid = true ->
  coreScan mid (1%Z, false, false) = (1%Z, false, false) ->
  isClose c = true ->
  balanced (o :: mid ++ [c]) = true.
Proof.
  intros O Q Sc C. unfold balanced.
  rewrite removelast_last, last_last, O, Q, Sc, C.
  destruct mid; reflexivity.
Qed.

Lemma openInv_step (s : str) (c : chr) (rest : str) (i : nat)
    (d : Z) (b e : bool) (start : Z) (rs rs' : list (str * (nat * nat)))
    (d' : Z) (b' e' : bool) :
  openInv s (c :: rest) i (mkF d b e start rs) ->
  coreStep (d, b, e) c = (d', b', e') ->
  ((1 <= d)%Z \/ (d' < 1)%Z) ->
  openInv s rest (S i) (mkF d' b' e' start rs').
Proof.
  intros [[pre [E L]] H] St Hd. split.
  - exists (pre ++ [c]). rewrite <- app_assoc. split; [exact E|].
    rewrite length_app. simpl. lia.
  - cbn [f_depth f_inStr f_esc f_start] in *. intros H1.
    destruct Hd as [Hd|Hd]; [|lia].
    destruct (H Hd) as (pre0 & o & mid & E0 & S0 & O & Q & Sc).
    exists pre0, o, (mid ++ [c]). rewrite <- app_assoc.
    repeat split; try assumption.
    + rewrite quiet_app, Q, Sc. cbn [quiet andb]. rewrite St. cbn [fst].
      rewrite andb_true_r. apply Z.leb_le. exact H1.
    + rewrite coreScan_app, Sc. unfold coreScan. cbn [fold_left]. exact St.
Qed.

Lemma findLoop_good (all : bool) (s : str) : forall rest i st,
  openInv s rest i st -> Forall (goodResult s) (f_results st) ->
  Forall (goodResult s) (f_results (findLoop all s rest i st)).
Proof.
  induction rest as [|c rest IH]; intros i st Inv G; [exact G|].
  destruct st as [d b e start rs]. cbn [findLoop].
  cbn [f_results] in G.
  destruct e.
  { apply IH; [|exact G].
    apply (openInv_step s c rest i d b true start rs rs d b false Inv).
    - reflexivity.
    - destruct (Z_le_gt_dec 1 d); [left; assumption | right; lia]. }
  destruct (ceq c c_bslash && b) eqn:E1.
  { apply IH; [|exact G].
    apply (openInv_step s c rest i d b false start rs rs d b true Inv).
    - unfold coreStep. rewrite E1. reflexivity.
    - destruct (Z_le_gt_dec 1 d); [left; assumption | right; lia]. }
  destruct (ceq c c_dq) eqn:E2.
  { apply IH; [|exact G].
    apply (openInv_step s c rest i d b false start rs rs d (negb b) false Inv).
    - unfold coreStep. rewrite E1, E2. reflexivity.
    - destruct (Z_le_gt_dec 1 d); [left; assumption | right; lia]. }
  destruct b.
  { apply IH; [|exact G].
    apply (openInv_step s c rest i d true false start rs rs d true false Inv).
    - unfold coreStep. rewrite E1, E2. reflexivity.
    - destruct (Z_le_gt_dec 1 d); [left; assumption | right; lia]. }
  destruct (isOpen c) eqn:E3.
  { apply IH; [|exact G].
    destruct (Z.eqb_spec d 0) as [->|Hd].
    - destruct Inv as [[pre [E L]] _]. split.
      + exists (pre ++ [c]). rewrite <- app_assoc. split; [exact E|].
        rewrite length_app. simpl. lia.
      + intros _. exists pre, c, []. cbn [f_start f_depth f_inStr f_esc].
        subst i. repeat split; try assumption; reflexivity.
    - apply (openInv_step s c rest i d false false start rs rs
               (d + 1)%Z false false Inv).
      + unfold coreStep. rewrite E1, E2, E3. reflexivity.
      + destruct (Z_le_gt_dec 1 d); [left; assumption | right; lia]. }
  destruct (isClose c) eqn:E4.
  { destruct ((d - 1 =? 0)%Z && (0 <=? start)%Z) eqn:E5.
    - apply andb_prop in E5. destruct E5 as [E5 E6].
      apply Z.eqb_eq in E5. assert (Hd : d = 1%Z) by lia. subst d.
      assert (G' : Forall (goodResult s)
                     (rs ++ [(slice s (Z.to_nat start) (i + 1),
                              (Z.to_nat start, i + 1))])).
      { apply Forall_app. split; [exact G|]. constructor; [|constructor].
        destruct Inv as [[pre [E L]] H].
        destruct (H ltac:(simpl; lia)) as (pre0 & o & mid & E0 & S0 & O & Q & Sc).
        cbn [f_start f_depth f_inStr f_esc] in *.
        assert (Li : i = length pre0 + S (length mid)).
        { assert (EE : pre ++ c :: rest = (pre0 ++ o :: mid) ++ c :: rest).
          { rewrite <- E, E0, <- app_assoc. reflexivity. }
          apply app_inv_tail in EE. subst pre i.
          rewrite length_app. reflexivity. }
        exists pre0, rest. cbn [fst snd].
        assert (Es : slice s (Z.to_nat start) (i + 1) = o :: mid ++ [c]).
        { rewrite S0, Nat2Z.id, E0.
          replace (pre0 ++ o :: mid ++ c :: rest)
            with (pre0 ++ (o :: mid ++ [c]) ++ rest)
            by (cbn [app]; rewrite <- app_assoc; reflexivity).
          replace (i + 1) with (length pre0 + length (o :: mid ++ [c]))
            by (cbn [length]; rewrite length_app; simpl; lia).
          apply slice_middle. }
        rewrite Es. repeat split.
        - rewrite E0. cbn [app]. rewrite <- app_assoc. reflexivity.
        - rewrite S0, Nat2Z.id. reflexivity.
        - cbn [length]. rewrite length_app. simpl. lia.
        - apply balanced_intro; assumption. }
      destruct all; cbn [negb]; [|exact G'].
      apply IH; [|exact G'].
      apply (openInv_step s c rest i 1%Z false false start rs _
               0%Z false false Inv).
      + unfold coreStep. rewrite E1, E2, E3, E4. reflexivity.
      + right. lia.
    - apply IH; [|exact G].
      apply (openInv_step s c rest i d false false start rs rs
               (d - 1)%Z false false Inv).
      + unfold coreStep. rewrite E1, E2, E3, E4. reflexivity.
      + destruct (Z_le_gt_dec 1 d); [left; assumption | right; lia]. }
  apply IH; [|exact G].
  apply (openInv_step s c rest i d false false start rs rs d false false Inv).
  - unfold coreStep. rewrite E1, E2, E3, E4. reflexivity.
  - destruct (Z_le_gt_dec 1 d); [left; assumption | right; lia].
Qed.

Lemma findJson_good (s : str) (all : bool) :
  Forall (goodResult s) (f_results (findLoop all s s 0 f_init)).
Proof.
  apply findLoop_good; [|constructor].
  split.
  - exists []. split; reflexivity.
  - cbn. lia.
Qed.

Lemma findLoop_results_app (all : bool) (s : str) : forall rest i st,
  exists more, f_results (findLoop all s rest i st) = f_results st ++ more.
Proof.
  induction rest as [|c rest IH]; intros i st.
  { exists []. rewrite app_nil_r. reflexivity. }
  destruct st as [d b e start rs]. cbn [findLoop f_results].
  repeat match goal with
         | |- context [if ?x then _ else _] =>
             match x with
             | negb all => fail 1
             | _ => destruct x
             end
         end;
    try (match goal with
         | |- exists _, f_results (findLoop _ _ _ _ ?st') = _ =>
             destruct (IH (S i) st') as [m Hm]; rewrite Hm; cbn [f_results];
             eexists; reflexivity
         end).
  destruct all; cbn [negb].
  - match goal with
    | |- exists _, f_results (findLoop _ _ _ _ ?st') = _ =>
        destruct (IH (S i) st') as [m Hm]; rewrite Hm; cbn [f_results]
    end.
    rewrite <- app_assoc. eexists. reflexivity.
  - cbn [f_results]. eexists. reflexivity.
Qed.

Lemma findLoop_first (s : str) : forall rest i st,
  f_results st = [] ->
  firstn 1 (f_results (findLoop true s rest i st))
  = f_results (findLoop false s rest i st).
Proof.
  induction rest as [|c rest IH]; intros i st H.
  { cbn [findLoop]. rewrite H. reflexivity. }
  destruct st as [d b e start rs]. cbn [f_results] in H. subst rs.
  cbn [findLoop].
  repeat match goal with
         | |- context [if ?x then _ else _] =>
             match x with
             | negb _ => fail 1
             | _ => destruct x
             end
         end;
    try (apply IH; reflexivity).
  cbn [negb app f_results].
  match goal with
  | |- firstn 1 (f_results (findLoop _ _ _ _ ?st')) = _ =>
      destruct (findLoop_results_app true s rest (S i) st') as [m Hm];
      rewrite Hm
  end.
  reflexivity.
Qed.

Lemma findJson_first (s : str) :
  json (findJson s true) = json (findJson s false)
  /\ ex_start (findJson s true) = ex_start (findJson s false)
  /\ ex_end (findJson s true) = ex_end (findJson s false)
  /\ (forall l, multiple (findJson s true) = Some l ->
        multiple (findJson s false) = Some (firstn 1 l)).
Proof.
  unfold findJson.
  pose proof (findLoop_first s s 0 f_init eq_refl) as H.
  destruct (findLoop_results_app false s s 0 f_init) as [m Hm].
  cbn [f_init f_results app] in Hm.
  destruct (f_results (findLoop true s s 0 f_init)) as [|[j1 [a1 b1]] l1];
    cbn [firstn] in H; rewrite <- H; cbn.
  - repeat split. intros l E. inversion E. reflexivity.
  - repeat split. intros l E. inversion E. reflexivity.
Qed.

Lemma balanced_inv (j : str) :
  balanced j = true ->
  exists o mid c, j = o :: mid ++ [c] /\ isOpen o = true
    /\ quiet (1%Z, false, false) mid = true
    /\ coreScan mid (1%Z, false, false) = (1%Z, false, false)
    /\ isClose c = true.
Proof.
  unfold balanced. destruct j as [|o r]; [discriminate|].
  intros H.
  apply andb_prop in H. destruct H as [H C].
  apply andb_prop in H. destruct H as [H Sc].
  apply andb_prop in H. destruct H as [H Q].
  apply andb_prop in H. destruct H as [O N].
  assert (Nr : r <> []) by (destruct r; [discriminate | discriminate]).
  exists o, (removelast r), (last r 0%N).
  split; [f_equal; apply app_removelast_last; exact Nr|].
  repeat split; try assumption.
  destruct (coreScan (removelast r) (1%Z, false, false)) as [[d b] e].
  apply andb_prop in Sc. destruct Sc as [Sc E].
  apply andb_prop in Sc. destruct Sc as [D B].
  apply Z.eqb_eq in D. apply negb_true_iff in B, E. subst. reflexivity.
Qed.

Lemma open_not_dq (o : chr) : isOpen o = true -> ceq o c_dq = false.
Proof.
  unfold isOpen, ceq, c_lbrace, c_lbrack, c_dq. intros O.
  apply orb_prop in O. destruct O as [O|O]; apply N.eqb_eq in O; subst o;
    reflexivity.
Qed.

Lemma close_facts (c : chr) :
  isClose c = true -> ceq c c_dq = false /\ isOpen c = false.
Proof.
  unfold isClose, isOpen, ceq, c_lbrace, c_lbrack, c_rbrace, c_rbrack, c_dq.
  intros C.
  apply orb_prop in C. destruct C as [C|C]; apply N.eqb_eq in C; subst c;
    split; reflexivity.
Qed.

Lemma findJson_balanced (j : str) (all : bool) :
  balanced j = true ->
  findJson j all = mkExtract (Some j) 0 (length j) (Some [j]).
Proof.
  intros B.
  destruct (balanced_inv j B) as (o & mid & c & E & O & Q & Sc & C).
  destruct (close_facts c C) as [C1 C2].
  unfold findJson, f_init.
  assert (R : findLoop all j j 0 (mkF 0 false false (-1) [])
              = mkF 0 false false 0 [(j, (0, length j))]).
  { rewrite E at 2. cbn [findLoop]. rewrite andb_false_r.
    rewrite (open_not_dq o O), O. cbn [Z.eqb]. change (0 + 1)%Z with 1%Z.
    rewrite (findLoop_quiet all j mid); [|lia|exact Q].
    rewrite Sc. cbn [app findLoop]. rewrite andb_false_r, C1, C2, C.
    change (1 - 1)%Z with 0%Z. cbn [Z.eqb Z.leb Z.compare andb Z.of_nat].
    cbn [Z.to_nat].
    replace (1 + length mid + 1) with (0 + length j)
      by (rewrite E; cbn [length]; rewrite length_app; simpl; lia).
    pose proof (slice_middle [] j []) as Sl.
    cbn [app length] in Sl. rewrite app_nil_r in Sl. rewrite Sl.
    destruct all; reflexivity. }
  rewrite R. reflexivity.
Qed.

Lemma isSpace_not_open (c : chr) : isOpen c = true -> isSpace c = false.
Proof.
  unfold isOpen, ceq, c_lbrace, c_lbrack. intros O.
  apply orb_prop in O. destruct O as [O|O]; apply N.eqb_eq in O; subst c;
    reflexivity.
Qed.

Lemma isSpace_not_close (c : chr) : isClose c = true -> isSpace c = false.
Proof.
  unfold isClose, ceq, c_rbrace, c_rbrack. intros O.
  apply orb_prop in O. destruct O as [O|O]; apply N.eqb_eq in O; subst c;
    reflexivity.
Qed.

Lemma trim_balanced (j : str) : balanced j = true -> trim j = j.
Proof.
  intros B.
  destruct (balanced_inv j B) as (o & mid & c & E & O & _ & _ & C).
  subst j. unfold trim. cbn [dropWhile]. rewrite (isSpace_not_open o O).
  change (o :: mid ++ [c]) with ((o :: mid) ++ [c]).
  rewrite rev_app_distr. cbn [rev app dropWhile].
  rewrite (isSpace_not_close c C).
  change (c :: rev mid ++ [o]) with ([c] ++ rev (o :: mid)).
  rewrite rev_app_distr, rev_involutive. reflexivity.
Qed.

Lemma replaceFrom_incl (m : matcher) : shrinks m ->
  forall f s, incl (replaceFrom f m s) s.
Proof.
  intros Hm. induction f as [|f IH]; intros s; [apply incl_refl|].
  destruct s as [|c r]; [apply incl_refl|]. cbn [replaceFrom].
  destruct (m (c :: r)) as [[repl rest]|] eqn:E.
  - destruct (Hm _ _ _ E) as [H1 H2].
    apply incl_app; [exact H1|].
    eapply incl_tran; [apply IH | exact H2].
  - apply incl_cons; [left; reflexivity|].
    apply incl_tl. apply IH.
Qed.

Lemma dropWhile_incl (p : chr -> bool) (s : str) : incl (dropWhile p s) s.
Proof.
  induction s as [|c s IH]; [apply incl_refl|]. cbn [dropWhile].
  destruct (p c); [apply incl_tl; exact IH | apply incl_refl].
Qed.

Lemma findClose_incl : forall s cap rest,
  findClose s = Some (cap, rest) -> incl cap s /\ incl rest s.
Proof.
  induction s as [|c s IH]; intros cap rest H.
  - cbn in H. discriminate.
  - cbn [findClose] in H.
    destruct (stripPrefix (c_nl :: fence) (c :: s)) as [r0|] eqn:E0.
    { inversion H; subst. apply stripPrefix_app in E0. rewrite E0.
      split; [intros x []|]. apply incl_appr, incl_refl. }
    destruct (stripPrefix fence (c :: s)) as [r1|] eqn:E1.
    { inversion H; subst. apply stripPrefix_app in E1. rewrite E1.
      split; [intros x []|]. apply incl_appr, incl_refl. }
    destruct (findClose s) as [[cap0 rest0]|] eqn:E2; [|discriminate].
    inversion H; subst. destruct (IH _ _ eq_refl) as [H1 H2].
    split.
    + apply incl_cons; [left; reflexivity | apply incl_tl; exact H1].
    + apply incl_tl; exact H2.
Qed.

Lemma m_fenced_shrinks : shrinks m_fenced.
Proof.
  intros s repl rest H. unfold m_fenced in H.
  destruct (stripPrefix fence s) as [r1|] eqn:E1; [|discriminate].
  apply stripPrefix_app in E1.
  apply findClose_incl in H. destruct H as [H1 H2].
  assert (I : incl (dropWhile isSpace
                      match stripPrefix tag_json r1 with
                      | Some r => r
                      | None => r1
                      end) s).
  { eapply incl_tran; [apply dropWhile_incl|].
    rewrite E1. apply incl_appr.
    destruct (stripPrefix tag_json r1) as [r|] eqn:E2; [|apply incl_refl].
    apply stripPrefix_app in E2. rewrite E2. apply incl_appr, incl_refl. }
  split; eapply incl_tran; eassumption.
Qed.

Lemma stripMd_incl (s : str) : incl (stripMd s) s.
Proof.
  unfold stripMd, trim, replaceAll.
  intros x H. apply in_rev in H. apply dropWhile_incl in H.
  apply in_rev in H. apply dropWhile_incl in H.
  exact (replaceFrom_incl m_fenced m_fenced_shrinks _ _ x H).
Qed.

Lemma weave_snoc : forall gaps js g j,
  length gaps = length js ->
  weave (gaps ++ [g]) (js ++ [j]) = weave gaps js ++ g ++ j.
Proof.
  induction gaps as [|g0 gaps IH]; intros js g j H.
  - destruct js; [|discriminate]. cbn. rewrite !app_nil_r. reflexivity.
  - destruct js as [|j0 js]; [discriminate|]. cbn [app weave].
    rewrite IH by (simpl in H; lia). rewrite <- !app_assoc. reflexivity.
Qed.

Lemma weaveInv_keep (pre : str) (c : chr) (i : nat)
    (d : Z) (b e : bool) (start : Z) (rs : list (str * (nat * nat)))
    (d' : Z) (b' e' : bool) :
  weaveInv pre i (mkF d b e start rs) ->
  ((1 <= d)%Z \/ (d' < 1)%Z) ->
  weaveInv (pre ++ [c]) (S i) (mkF d' b' e' start rs).
Proof.
  intros (gaps & tl & L & E & H) Hd.
  exists gaps, (tl ++ [c]). cbn [f_results f_depth f_start] in *.
  split; [exact L|]. split; [rewrite E, <- app_assoc; reflexivity|].
  intros H1. destruct Hd as [Hd|Hd]; [|lia].
  specialize (H Hd). lia.
Qed.

Lemma findLoop_weave (all : bool) (s : str) : forall rest pre i st,
  s = pre ++ rest -> length pre = i -> weaveInv pre i st ->
  exists gaps tl,
    length gaps = length (f_results (findLoop all s rest i st))
    /\ s = weave gaps (map fst (f_results (findLoop all s rest i st))) ++ tl.
Proof.
  induction rest as [|c rest IH]; intros pre i st E L Inv.
  { destruct Inv as (gaps & tl & Lg & Ep & _).
    exists gaps, tl. cbn [findLoop]. split; [exact Lg|].
    rewrite E, app_nil_r. exact Ep. }
  assert (E' : s = (pre ++ [c]) ++ rest)
    by (rewrite <- app_assoc; exact E).
  assert (L' : length (pre ++ [c]) = S i)
    by (rewrite length_app; simpl; lia).
  destruct st as [d b e start rs]. cbn [findLoop].
  assert (K : forall d' b' e',
             ((1 <= d)%Z \/ (d' < 1)%Z) ->
             exists gaps tl,
               length gaps
               = length (f_results (findLoop all s rest (S i)
                                      (mkF d' b' e' start rs)))
               /\ s = weave gaps
                        (map fst (f_results (findLoop all s rest (S i)
                                               (mkF d' b' e' start rs))))
                      ++ tl).
  { intros d' b' e' Hd. apply (IH (pre ++ [c]) (S i) _ E' L').
    eapply weaveInv_keep; [exact Inv | exact Hd]. }
  destruct e.
  { apply K. lia. }
  destruct (ceq c c_bslash && b).
  { apply K. lia. }
  destruct (ceq c c_dq).
  { apply K. lia. }
  destruct b.
  { apply K. lia. }
  destruct (isOpen c).
  { destruct (Z.eqb_spec d 0) as [->|Hd].
    - apply (IH (pre ++ [c]) (S i) _ E' L').
      destruct Inv as (gaps & tl & Lg & Ep & _).
      exists gaps, (tl ++ [c]). cbn [f_results f_depth f_start] in *.
      split; [exact Lg|]. split; [rewrite Ep, <- app_assoc; reflexivity|].
      intros _. subst i. rewrite Ep, length_app. lia.
    - apply K. lia. }
  destruct (isClose c).
  { destruct ((d - 1 =? 0)%Z && (0 <=? start)%Z) eqn:E5.
    - apply andb_prop in E5. destruct E5 as [E5 _].
      apply Z.eqb_eq in E5.
      destruct Inv as (gaps & tl & Lg & Ep & H).
      cbn [f_results f_depth f_start] in *.
      specialize (H ltac:(lia)).
      set (w := weave gaps (map fst rs)) in *.
      (* the gap before the candidate, and the candidate *)
      set (k := Z.to_nat start - length w).
      assert (Hk : k < length tl).
      { subst k i. rewrite Ep, length_app in H. lia. }
      assert (Sl : slice s (Z.to_nat start) (i + 1)
                   = skipn k tl ++ [c]).
      { unfold slice. rewrite E, Ep.
        replace (Z.to_nat start) with (length w + k) by (subst k; lia).
        rewrite <- app_assoc, skipn_app.
        rewrite skipn_all2 by lia.
        replace (length w + k - length w) with k by lia.
        cbn [app]. rewrite skipn_app.
        replace (k - length tl) with 0 by lia. cbn [skipn].
        replace (i + 1 - (length w + k)) with (length (skipn k tl ++ [c])).
        2:{ rewrite length_app, length_skipn. subst i.
            rewrite Ep, length_app. simpl. lia. }
        change (c :: rest) with ([c] ++ rest). rewrite app_assoc.
        rewrite firstn_app, firstn_all, Nat.sub_diag. cbn [firstn].
        apply app_nil_r. }
      rewrite Sl.
      assert (W' : weaveInv (pre ++ [c]) (S i)
                     (mkF (d - 1) false false start
                        (rs ++ [(skipn k tl ++ [c], (Z.to_nat start, i + 1))]))).
      { exists (gaps ++ [firstn k tl]), []. cbn [f_results f_depth f_start].
        rewrite !length_app, map_app. cbn [length map fst].
        split; [lia|]. split.
        - rewrite weave_snoc by (rewrite length_map; exact Lg).
          fold w. rewrite Ep, app_nil_r, <- !app_assoc. f_equal.
          rewrite app_assoc, firstn_skipn. reflexivity.
        - intros H1. lia. }
      destruct all; cbn [negb].
      + apply (IH (pre ++ [c]) (S i) _ E' L' W').
      + destruct W' as (gaps' & tl' & Lg' & Ep' & _).
        exists gaps', (tl' ++ rest). cbn [f_results] in *.
        split; [exact Lg'|].
        rewrite E', Ep', <- app_assoc. reflexivity.
    - apply K. lia. }
  apply K. lia.
Qed.

Lemma extract_good (input j : str) :
  json (extract input) = Some j ->
  exists pre post,
    stripMd input = pre ++ j ++ post
    /\ ex_start (extract input) = length pre
    /\ ex_end (extract input) = length pre + length j
    /\ balanced j = true.
Proof.
  unfold extract. destruct (emptyStr input); [discriminate|].
  unfold findJson.
  pose proof (findJson_good (stripMd input) false) as G.
  destruct (f_results (findLoop false (stripMd input) (stripMd input) 0 f_init))
    as [|[js [a b]] rs]; [discriminate|].
  cbn [json ex_start ex_end]. intros H. injection H as ->.
  inversion G as [|x l (pre & post & E & A & B & Bal) _]; subst.
  exists pre, post. cbn [fst snd] in *. auto.
Qed.


(** X1.  When [extract] returns a candidate, the candidate is the piece of
    the stripped and trimmed text between the offsets [start] and [end]
    that are returned with it, and it is balanced: it starts with an
    opening bracket, ends with a closing bracket, and the depth counted
    outside strings stays at 1 or more in between. *)
Theorem extract_candidate_balanced (input j : str) :
  json (extract input) = Some j ->
  exists pre post,
    stripMd input = pre ++ j ++ post
    /\ ex_start (extract input) = length pre
    /\ ex_end (extract input) = length pre + length j
    /\ balanced j = true.
Proof. apply extract_good. Qed.

(** X1 at a value whose string holds a closing brace. *)
Lemma extract_candidate_balanced_witness :
  let input := jsq "so: {~a~: [1, ~}~]} and more" in
  json (extract input) = Some (jsq "{~a~: [1, ~}~]}")
  /\ exists pre post,
       stripMd input = pre ++ jsq "{~a~: [1, ~}~]}" ++ post
       /\ ex_start (extract input) = length pre
       /\ ex_end (extract input) = length pre + length (jsq "{~a~: [1, ~}~]}")
       /\ balanced (jsq "{~a~: [1, ~}~]}") = true.
Proof.
  cbv zeta.
  assert (H : json (extract (jsq "so: {~a~: [1, ~}~]} and more"))
              = Some (jsq "{~a~: [1, ~}~]}")) by (vm_compute; reflexivity).
  split; [exact H|].
  exact (extract_candidate_balanced _ _ H).
Defined.

(** X2.  The candidates that [extractAll] returns are balanced, and they
    lie in the stripped and trimmed text one after the other, in the order
    of the list and without overlap: the text is a gap, the first
    candidate, a gap, the second candidate, and so on, then a rest. *)
Theorem extractAll_candidates_in_order (input : str) (js : list str) :
  multiple (extractAll input) = Some js ->
  Forall (fun j => balanced j = true) js
  /\ exists gaps tl,
       length gaps = length js /\ stripMd input = weave gaps js ++ tl.
Proof.
  unfold extractAll. destruct input as [|c0 input0].
  { cbn. intros H. injection H as <-. split; [constructor|].
    exists [], []. split; reflexivity. }
  cbn [emptyStr]. set (s := stripMd (c0 :: input0)).
  unfold findJson.
  pose proof (findJson_good s true) as G.
  destruct (findLoop_weave true s s [] 0 f_init eq_refl eq_refl)
    as (gaps & tl & Lg & E).
  { exists [], []. cbn. repeat split; try reflexivity. lia. }
  assert (M : js = map fst (f_results (findLoop true s s 0 f_init))
              -> Forall (fun j => balanced j = true) js
                 /\ exists gaps tl, length gaps = length js
                                    /\ s = weave gaps js ++ tl).
  { intros ->. split.
    - apply Forall_map. eapply Forall_impl; [|exact G].
      intros r (pre & post & _ & _ & _ & B). exact B.
    - exists gaps, tl. rewrite length_map. auto. }
  destruct (f_results (findLoop true s s 0 f_init)) as [|[j1 [a b]] rs];
    cbn [multiple]; intros H; injection H as <-; apply M; reflexivity.
Qed.

(** X2 at three values in prose. *)
Lemma extractAll_candidates_in_order_witness :
  let input := jsq "{~a~: 1} and [2] or {}" in
  let js := [jsq "{~a~: 1}"; lit "[2]"; lit "{}"] in
  multiple (extractAll input) = Some js
  /\ Forall (fun j => balanced j = true) js
  /\ exists gaps tl,
       length gaps = length js /\ stripMd input = weave gaps js ++ tl.
Proof.
  cbv zeta.
  assert (H : multiple (extractAll (jsq "{~a~: 1} and [2] or {}"))
              = Some [jsq "{~a~: 1}"; lit "[2]"; lit "{}"])
    by (vm_compute; reflexivity).
  split; [exact H|].
  exact (extractAll_candidates_in_order _ _ H).
Defined.

(** X3.  [extractAll] and [extract] agree on the first candidate and on
    its offsets; the list that [extract] returns with it holds that
    candidate alone (and is absent on the empty input, where [extractAll]
    returns the empty list). *)
Theorem extractAll_first_is_extract (input : str) :
  json (extractAll input) = json (extract input)
  /\ ex_start (extractAll input) = ex_start (extract input)
  /\ ex_end (extractAll input) = ex_end (extract input)
  /\ exists js,
       multiple (extractAll input) = Some js
       /\ multiple (extract input)
          = if emptyStr input then None else Some (firstn 1 js).
Proof.
  unfold extract, extractAll. destruct (emptyStr input).
  { repeat split. exists []. split; reflexivity. }
  destruct (findJson_first (stripMd input)) as (H1 & H2 & H3 & H4).
  repeat split; try assumption.
  destruct (multiple (findJson (stripMd input) true)) as [l|] eqn:E.
  - exists l. split; [reflexivity | apply H4; reflexivity].
  - exfalso. unfold findJson in E.
    destruct (f_results _) as [|[? [? ?]] ?]; discriminate.
Qed.

Lemma stripMd_balanced (j : str) :
  balanced j = true -> neverMatches m_fenced j = true -> stripMd j = j.
Proof.
  intros B N. unfold stripMd. rewrite (replaceAll_id m_fenced j N).
  apply trim_balanced. exact B.
Qed.


(** X4.  A candidate that [extract] returned, and that holds no fenced
    block for [stripMd] to remove, is extracted again as it is: [extract]
    and [extractAll] on the candidate return the candidate, from offset 0
    to its length. *)
Theorem extract_candidate_again (input j : str) :
  json (extract input) = Some j ->
  neverMatches m_fenced j = true ->
  extract j = mkExtract (Some j) 0 (length j) (Some [j])
  /\ extractAll j = mkExtract (Some j) 0 (length j) (Some [j]).
Proof.
  intros H N.
  destruct (extract_good input j H) as (_ & _ & _ & _ & _ & B).
  pose proof (stripMd_balanced j B N) as E.
  unfold extract, extractAll. rewrite E.
  destruct j as [|c j']; [discriminate|]. cbn [emptyStr].
  split; apply findJson_balanced; exact B.
Qed.

(** X4 at the candidate of X1. *)
Lemma extract_candidate_again_witness :
  let input := jsq "so: {~a~: [1, ~}~]} and more" in
  let j := jsq "{~a~: [1, ~}~]}" in
  json (extract input) = Some j
  /\ neverMatches m_fenced j = true
  /\ extract j = mkExtract (Some j) 0 (length j) (Some [j])
  /\ extractAll j = mkExtract (Some j) 0 (length j) (Some [j]).
Proof.
  cbv zeta.
  assert (H : json (extract (jsq "so: {~a~: [1, ~}~]} and more"))
              = Some (jsq "{~a~: [1, ~}~]}")) by (vm_compute; reflexivity).
  assert (N : neverMatches m_fenced (jsq "{~a~: [1, ~}~]}") = true)
    by (vm_compute; reflexivity).
  split; [exact H|]. split; [exact N|].
  exact (extract_candidate_again _ _ H N).
Defined.

Lemma balanced_head (j : str) :
  balanced j = true -> exists o r, j = o :: r /\ isOpen o = true.
Proof.
  intros B. destruct (balanced_inv j B) as (o & mid & c & E & O & _).
  exists o, (mid ++ [c]). auto.
Qed.

Lemma extract_needs_open (input : str) :
  forallb (fun c => negb (isOpen c)) input = true ->
  json (extract input) = None.
Proof.
  intros H. destruct (json (extract input)) as [j|] eqn:E; [|reflexivity].
  exfalso.
  destruct (extract_good input j E) as (pre & post & Es & _ & _ & B).
  destruct (balanced_head j B) as (o & r & -> & O).
  assert (I : In o input).
  { apply stripMd_incl. rewrite Es. apply in_or_app. right. left. reflexivity. }
  rewrite forallb_forall in H. specialize (H o I). rewrite O in H. discriminate.
Qed.


(** ** What [repair] and the parsers make of a candidate *)

Lemma dropWhile_snoc (p : chr -> bool) (o : chr) : forall l,
  p o = false -> exists l', dropWhile p (l ++ [o]) = l' ++ [o].
Proof.
  induction l as [|c l IH]; intros H; cbn [app dropWhile].
  - rewrite H. exists []. reflexivity.
  - destruct (p c); [apply IH; exact H|]. exists (c :: l). reflexivity.
Qed.

Lemma trim_head (o : chr) (r : str) :
  isSpace o = false -> exists t, trim (o :: r) = o :: t.
Proof.
  intros H. unfold trim. cbn [dropWhile]. rewrite H. cbn [rev].
  destruct (dropWhile_snoc isSpace o (rev r) H) as [l' E]. rewrite E.
  rewrite rev_app_distr. cbn. eexists. reflexivity.
Qed.

Lemma replaceAll_head (m : matcher) (o : chr) (t : str) :
  m (o :: t) = None -> exists t', replaceAll m (o :: t) = o :: t'.
Proof.
  intros H. unfold replaceAll. cbn [length replaceFrom]. rewrite H.
  eexists. reflexivity.
Qed.

Lemma open_cases (o : chr) : isOpen o = true -> o = c_lbrace \/ o = c_lbrack.
Proof.
  unfold isOpen, ceq. intros H. apply orb_prop in H.
  destruct H as [H|H]; apply N.eqb_eq in H; auto.
Qed.

Lemma matchers_skip_open (o : chr) (t : str) :
  isOpen o = true ->
  m_fenceOpen (o :: t) = None /\ m_fenceTail (o :: t) = None
  /\ m_lineComment (o :: t) = None /\ m_blockComment (o :: t) = None
  /\ m_trailingComma (o :: t) = None /\ m_doubleComma (o :: t) = None.
Proof.
  intros O. destruct (open_cases o O) as [-> | ->]; repeat split; reflexivity.
Qed.

Lemma repairPass_head (o : chr) (t : str) (ws : list Warning) :
  isOpen o = true -> exists t', fst (repairPass (o :: t) ws) = o :: t'.
Proof.
  intros O. unfold repairPass, r_init. cbn [fst length].
  destruct (open_cases o O) as [-> | ->].
  - cbn [repairLoop]. change (ceq c_lbrace c_bslash && false) with false.
    change (ceq c_lbrace c_dq) with false. change (ceq c_lbrace c_sq) with false.
    change (ceq c_lbrace c_lbrace || ceq c_lbrace c_comma) with true.
    cbv iota. destruct (span isSpace t) as [sp s1].
    destruct s1 as [|d s2].
    { cbn. eexists. reflexivity. }
    destruct (ceq d c_dq).
    { match goal with |- exists _, r_out (repairLoop ?f ?s ?st) = _ =>
        destruct (repairLoop_out_grows f s st) as [x Hx]; rewrite Hx end.
      cbn. eexists. reflexivity. }
    destruct (ceq d c_sq).
    { match goal with |- exists _, r_out (repairLoop ?f ?s ?st) = _ =>
        destruct (repairLoop_out_grows f s st) as [x Hx]; rewrite Hx end.
      cbn. eexists. reflexivity. }
    destruct (span isWord (d :: s2)) as [word s3].
    destruct (negb (emptyStr word) && negb (isReserved word));
      match goal with |- exists _, r_out (repairLoop ?f ?s ?st) = _ =>
        destruct (repairLoop_out_grows f s st) as [x Hx]; rewrite Hx end;
      cbn; eexists; reflexivity.
  - cbn [repairLoop]. change (ceq c_lbrack c_bslash && false) with false.
    change (ceq c_lbrack c_dq) with false. change (ceq c_lbrack c_sq) with false.
    change (ceq c_lbrack c_lbrace || ceq c_lbrack c_comma) with false.
    change (startsWith kw_None (c_lbrack :: t)) with false.
    change (startsWith kw_True (c_lbrack :: t)) with false.
    change (startsWith kw_False (c_lbrack :: t)) with false.
    cbv iota.
    match goal with |- exists _, r_out (repairLoop ?f ?s ?st) = _ =>
      destruct (repairLoop_out_grows f s st) as [x Hx]; rewrite Hx end.
    cbn. eexists. reflexivity.
Qed.

Lemma repair_head (o : chr) (r : str) :
  isOpen o = true -> exists t, output (repair (o :: r)) = o :: t.
Proof.
  intros O. unfold repair. cbn [emptyStr].
  destruct (trim_head o r (isSpace_not_open o O)) as [t0 ->].
  destruct (matchers_skip_open o t0 O) as (M1 & _).
  destruct (replaceAll_head m_fenceOpen o t0 M1) as [t1 ->].
  destruct (matchers_skip_open o t1 O) as (_ & M2 & _).
  destruct (replaceAll_head m_fenceTail o t1 M2) as [t2 ->].
  destruct (matchers_skip_open o t2 O) as (_ & _ & M3 & _).
  destruct (replaceAll_head m_lineComment o t2 M3) as [t3 ->].
  destruct (matchers_skip_open o t3 O) as (_ & _ & _ & M4 & _).
  destruct (replaceAll_head m_blockComment o t3 M4) as [t4 ->].
  destruct (repairPass_head o t4 [] O) as [t5 E5].
  destruct (repairPass (o :: t4) []) as [s5 w5]. cbn [fst] in E5. subst s5.
  destruct (matchers_skip_open o t5 O) as (_ & _ & _ & _ & M5 & _).
  destruct (replaceAll_head m_trailingComma o t5 M5) as [t6 E6].
  rewrite E6.
  destruct (matchers_skip_open o t6 O) as (_ & _ & _ & _ & _ & M6).
  destruct (replaceAll_head m_doubleComma o t6 M6) as [t7 E7].
  rewrite E7. cbn [output]. eexists. reflexivity.
Qed.

Lemma pLoops_container (f : nat) :
  (forall acc ts v rest, pElems f acc ts = Some (v, rest) -> isContainer v = true)
  /\ (forall acc ts v rest, pMembers f acc ts = Some (v, rest) ->
        isContainer v = true).
Proof.
  induction f as [|f [IE IM]]; [split; intros; discriminate|].
  split.
  - intros acc ts v rest H. cbn [pElems] in H.
    destruct (pValue f ts) as [[v1 [|[w t] ts2]]|]; try discriminate.
    destruct t; try discriminate.
    + injection H as <- _. reflexivity.
    + eapply IE; exact H.
  - intros acc ts v rest H. cbn [pMembers] in H.
    destruct ts as [|[w1 t1] ts0]; [discriminate|].
    destruct t1; try discriminate.
    destruct ts0 as [|[w2 t2] ts1]; [discriminate|].
    destruct t2; try discriminate.
    destruct (pValue f ts1) as [[v1 [|[w t] ts2]]|]; try discriminate.
    destruct t; try discriminate.
    + injection H as <- _. reflexivity.
    + eapply IM; exact H.
Qed.

Lemma isJsonWs_not_open (o : chr) : isOpen o = true -> isJsonWs o = false.
Proof.
  intros O. destruct (open_cases o O) as [-> | ->]; reflexivity.
Qed.

Lemma pValue_open (f : nat) (w : str) (t : tok) (ts : list item)
    (v : value) (rest : list item) :
  delta t = 1%Z -> pValue f ((w, t) :: ts) = Some (v, rest) ->
  isContainer v = true.
Proof.
  intros D H. destruct f as [|f]; [discriminate|]. cbn [pValue] in H.
  destruct t; try discriminate.
  - destruct ts as [|[w2 t2] ts2].
    + eapply (proj2 (pLoops_container f)); exact H.
    + destruct t2;
        try (eapply (proj2 (pLoops_container f)); exact H).
      injection H as <- _. reflexivity.
  - destruct ts as [|[w2 t2] ts2].
    + eapply (proj1 (pLoops_container f)); exact H.
    + destruct t2;
        try (eapply (proj1 (pLoops_container f)); exact H).
      injection H as <- _. reflexivity.
Qed.

Lemma JSON_parse_open (o : chr) (r : str) (v : value) :
  isOpen o = true -> JSON_parse (o :: r) = Return v -> isContainer v = true.
Proof.
  intros O H. unfold JSON_parse in H.
  destruct (lex (o :: r)) as [[its trail]|] eqn:El; [|discriminate].
  unfold lex in El. apply lexFrom_sound in El. destruct El as [E W].
  destruct (pValue (2 * length its + 2) its) as [[v1 rest]|] eqn:Ep;
    [|discriminate].
  destruct rest; [|discriminate]. injection H as ->.
  destruct its as [|[w t] ts].
  { destruct (2 * length (@nil item) + 2); discriminate. }
  cbn [wfItems] in W.
  apply andb_prop in W. destruct W as [W _].
  apply andb_prop in W. destruct W as [W _].
  apply andb_prop in W. destruct W as [Ww Wt].
  cbn [render] in E. unfold itemText in E. cbn [fst snd] in E.
  destruct w as [|c w'].
  - destruct (tokText t) as [|d tt] eqn:Et.
    { exfalso. exact (tokText_nonempty t Wt Et). }
    cbn [app] in E. injection E as <- _.
    destruct (tokText_open t o tt Wt Et O) as [D _].
    eapply pValue_open; [exact D | exact Ep].
  - cbn [app] in E. injection E as <- _. cbn [forallb] in Ww.
    rewrite (isJsonWs_not_open o O) in Ww. discriminate.
Qed.

Lemma loops_container (opts : PartialParseOptions) (len : nat) (f : nat) :
  (forall arr s v rest, arrLoop opts len f arr s = Return (v, rest) ->
     isContainer v = true)
  /\ (forall obj s v rest, objLoop opts len f obj s = Return (v, rest) ->
        isContainer v = true).
Proof.
  induction f as [|f [IA IO]]; [split; intros; discriminate|].
  split.
  - intros arr s v rest. cbn -[skip parseValue].
    destruct s as [|c0 s0].
    { destruct (allowPartialArrays opts); [|discriminate].
      intros H. injection H as <- _. reflexivity. }
    assert (K : bind (parseValue opts len f (skip (c0 :: s0)))
                  (fun x => let '(v, rest) := x in
                            arrLoop opts len f (arr ++ [v]) rest)
                = Return (v, rest) -> isContainer v = true).
    { intros H. apply bind_Return in H. destruct H as ([v1 r1] & _ & H).
      eapply IA; exact H. }
    destruct (skip (c0 :: s0)) as [|c s2]; [exact K|].
    destruct (ceq c c_rbrack).
    { intros H. injection H as <- _. reflexivity. }
    destruct (ceq c c_comma); [apply IA | exact K].
  - intros obj s v rest. cbn -[skip parseValue parseStr].
    destruct s as [|c0 s0].
    { destruct (allowPartialObjects opts); [|discriminate].
      intros H. injection H as <- _. reflexivity. }
    assert (M : bind (parseStr opts (skip (c0 :: s0)))
                  (fun x => let '(key, s2) := x in
                     match skip s2 with
                     | [] =>
                         if allowPartialObjects opts
                         then Return (VObj obj, skip s2)
                         else Throw (Error (Text "Expected colon"))
                     | c :: s4 =>
                         if ceq c c_colon
                         then
                           bind (parseValue opts len f (skip s4))
                             (fun y => let '(v, rest) := y in
                                objLoop opts len f (assign key v obj) rest)
                         else if allowPartialObjects opts
                              then Return (VObj obj, skip s2)
                              else Throw (Error (Text "Expected colon"))
                     end)
                = Return (v, rest) -> isContainer v = true).
    { intros K. apply bind_Return in K. destruct K as ([key s2] & _ & K).
      destruct (skip s2) as [|c s4].
      - destruct (allowPartialObjects opts); [|discriminate].
        injection K as <- _. reflexivity.
      - destruct (ceq c c_colon).
        + apply bind_Return in K. destruct K as ([v1 r1] & _ & K).
          eapply IO; exact K.
        + destruct (allowPartialObjects opts); [|discriminate].
          injection K as <- _. reflexivity. }
    destruct (skip (c0 :: s0)) as [|c s2]; [exact M|].
    destruct (ceq c c_rbrace).
    { intros H. injection H as <- _. reflexivity. }
    destruct (ceq c c_comma); [apply IO | exact M].
Qed.

Lemma parseValue_open (opts : PartialParseOptions) (len f : nat)
    (o : chr) (r : str) (v : value) (rest : str) :
  isOpen o = true -> parseValue opts len f (o :: r) = Return (v, rest) ->
  isContainer v = true.
Proof.
  intros O. destruct f as [|f]; [discriminate|].
  cbn -[skip parseStr parseNum startsWith take skipn].
  assert (Sk : skip (o :: r) = o :: r).
  { unfold skip. cbn [dropWhile]. rewrite (isSpace_not_open o O). reflexivity. }
  rewrite Sk.
  destruct (open_cases o O) as [-> | ->].
  - change (ceq c_lbrace c_lbrace) with true. cbv iota.
    destruct (skip (take (c_lbrace :: r))) as [|d s2].
    + apply (proj2 (loops_container opts _ f)).
    + destruct (ceq d c_rbrace).
      * intros E. injection E as <- _. reflexivity.
      * apply (proj2 (loops_container opts _ f)).
  - change (ceq c_lbrack c_lbrace) with false.
    change (ceq c_lbrack c_lbrack) with true. cbv iota.
    destruct (skip (take (c_lbrack :: r))) as [|d s2].
    + apply (proj1 (loops_container opts _ f)).
    + destruct (ceq d c_rbrack).
      * intros E. injection E as <- _. reflexivity.
      * apply (proj1 (loops_container opts _ f)).
Qed.

Lemma doParse_open (o : chr) (r : str) (opts : PartialParseOptions) (v : value) :
  isOpen o = true -> doParse (o :: r) opts = Return v -> isContainer v = true.
Proof.
  intros O H. unfold doParse in H.
  apply bind_Return in H. destruct H as ([v1 r1] & E & H).
  injection H as <-.
  eapply parseValue_open; [exact O | exact E].
Qed.

Lemma parsePartial_open (o : chr) (r : str) (options : option UserOptions)
    (d : value) (w : option (list Warning)) :
  isOpen o = true ->
  parsePartial (o :: r) options = Return (Success d w) ->
  isContainer d = true /\ w = None.
Proof.
  intros O. unfold parsePartial. cbn [emptyStr].
  destruct (JSON_parse (o :: r)) as [v| |] eqn:E; try discriminate.
  - intros H. injection H as <- <-.
    split; [eapply JSON_parse_open; eassumption | reflexivity].
  - destruct (doParse (o :: r) (withDefaults options)) as [v| |] eqn:E2;
      try discriminate.
    intros H. injection H as <- <-.
    split; [eapply doParse_open; eassumption | reflexivity].
Qed.


(** ** The results of [parse] and of the streaming session *)

Section PipelineFacts.

Variable Schema : Type.
Variable ValidationError : Type.
Variable validateValue :
  value -> Schema -> str -> outcome (list ValidationError).
Variable stringifyErrors : option (list ValidationError) -> str.

Let parseS := parse validateValue stringifyErrors.
Let processS := process validateValue stringifyErrors.
Let writeS := write validateValue stringifyErrors.
Let finishS := finish validateValue stringifyErrors.
Let checkS := checkSchema Schema ValidationError validateValue stringifyErrors.

Lemma validate_ok (d : value) (sc : Schema)
    (v : ValidationResult ValidationError) :
  validate validateValue d sc = Return v ->
  exists errs,
    validateValue d sc [] = Return errs
    /\ (v_ok v = true <-> errs = [])
    /\ (v_ok v = false -> v_errors v = Some errs).
Proof.
  unfold validate. destruct (validateValue d sc []) as [errs| |];
    cbn [bind]; intros H; try discriminate.
  apply Return_inj in H. subst v. exists errs. split; [reflexivity|].
  destruct errs; cbn; repeat split; congruence.
Qed.

Lemma parseChecked_filter (text : str) (schema : option Schema)
    (ws : option (list Warning)) :
  parseChecked validateValue stringifyErrors text schema ws
  = r <- parseChecked validateValue stringifyErrors text None ws ;;
    checkS schema r.
Proof.
  unfold parseChecked. destruct (JSON_parse text) as [d| |]; cbn [bind];
    try reflexivity.
  destruct schema as [sc|]; [|reflexivity].
  unfold checkS, checkSchema. cbn [bind].
  destruct (validate validateValue d sc) as [v| |]; cbn [bind];
    try reflexivity.
  destruct (v_ok v); reflexivity.
Qed.

Lemma process_filter (schema : option Schema) (st : session) :
  processS schema st = r <- processS None st ;; checkS schema r.
Proof.
  unfold processS, process.
  destruct (json (extract (buf st))) as [[|c js]|]; try reflexivity.
  destruct (parsePartial (output (repair (c :: js))) (Some pOpts))
    as [r| |]; cbn [bind]; try reflexivity.
  destruct r as [d w|e p]; [|destruct schema; reflexivity].
  destruct schema as [sc|]; [|reflexivity].
  unfold checkS, checkSchema. cbn [bind].
  destruct (validate validateValue d sc) as [v| |]; cbn [bind];
    try reflexivity.
  destruct (v_ok v); reflexivity.
Qed.

Lemma checkSchema_failure_id (schema : option Schema) (e : ParseError)
    (p : option PartialResult) :
  checkS schema (Failure e p) = Return (Failure e p).
Proof. destruct schema; reflexivity. Qed.

(** When the check of the schema returns, [parse] with the schema returns
    what the check makes of the result without it. *)
Lemma parse_filter (input : str) (schema : option Schema) (r r' : Result) :
  parseS input None = Return r -> checkS schema r = Return r' ->
  parseS input schema = Return r'.
Proof.
  unfold parseS, parse. destruct (emptyStr input).
  { intros H C. apply Return_inj in H. subst r.
    rewrite checkSchema_failure_id in C. rewrite C. reflexivity. }
  destruct (json (extract input)) as [[|c js]|];
    try (intros H C; apply Return_inj in H; subst r;
         rewrite checkSchema_failure_id in C; rewrite C; reflexivity).
  rewrite (parseChecked_filter (c :: js) schema None).
  destruct (parseChecked validateValue stringifyErrors (c :: js) None None)
    as [r0| |] eqn:E1; cbn [bind]; try discriminate.
  - intros H C. apply Return_inj in H. subst r0. rewrite C. reflexivity.
  - rewrite (parseChecked_filter (output (repair (c :: js))) schema).
    destruct (parseChecked validateValue stringifyErrors
                (output (repair (c :: js))) None _) as [r0| |] eqn:E2;
      cbn [bind]; try discriminate.
    + intros H C. apply Return_inj in H. subst r0. rewrite C. reflexivity.
    + intros H C. apply Return_inj in H. subst r.
      rewrite checkSchema_failure_id in C. exact C.
Qed.

(** X6.  The schema only filters the result.  With a schema, [write] and
    [finish] make of the result they have without one what the check of
    the schema makes of it: a [Success] whose data fails the validation
    becomes the [schema_mismatch] failure, and what the validation throws
    is thrown.  [parse] does the same whenever the check returns; what
    the validation throws is caught there.  The schema has no effect on
    the session itself. *)
Theorem schema_is_a_filter (input : str) (schema : option Schema)
    (st : session) (chunk : str) :
  (forall r r', parseS input None = Return r ->
     checkS schema r = Return r' -> parseS input schema = Return r')
  /\ snd (writeS schema st chunk)
     = (r <- snd (writeS None st chunk) ;; checkS schema r)
  /\ finishS schema st = (r <- finishS None st ;; checkS schema r)
  /\ fst (writeS schema st chunk) = fst (writeS None st chunk).
Proof.
  split; [|split; [|split]].
  - intros r r'. apply parse_filter.
  - unfold writeS, write. cbn [snd]. apply process_filter.
  - unfold finishS, finish.
    destruct (negb (started st)); [reflexivity|].
    destruct ((depth st >? 0)%Z || inStr st); [reflexivity|].
    apply process_filter.
  - reflexivity.
Qed.

Lemma extract_head (input : str) (c : chr) (js : str) :
  json (extract input) = Some (c :: js) -> isOpen c = true.
Proof.
  intros H. destruct (extract_good input _ H) as (_ & _ & _ & _ & _ & B).
  destruct (balanced_head _ B) as (o & r & E & O). injection E as -> _.
  exact O.
Qed.

Lemma process_none_shape (st : session) (r : Result) :
  processS None st = Return r ->
  match r with
  | Success d w => isContainer d = true /\ w = None
  | Failure e p =>
      code e = truncated
      /\ (p = None \/ p = Some (mkPartial medium (VObj []) []))
  end.
Proof.
  unfold processS, process.
  destruct (json (extract (buf st))) as [[|c js]|] eqn:Ej;
    try (intros H; injection H as <-; cbn; auto).
  pose proof (extract_head _ c js Ej) as O.
  destruct (repair_head c js O) as [t Et]. rewrite Et.
  destruct (parsePartial (c :: t) (Some pOpts)) as [r0| |] eqn:Ep;
    cbn [bind]; try discriminate.
  intros H.
  assert (E : r0 = r) by (destruct r0; injection H as <-; reflexivity).
  subst r0. clear H.
  destruct r as [d w|e p].
  - eapply parsePartial_open; eassumption.
  - unfold parsePartial in Ep. cbn [emptyStr] in Ep.
    destruct (JSON_parse (c :: t)); try discriminate.
    destruct (doParse (c :: t) (withDefaults (Some pOpts)));
      try discriminate.
    injection Ep as <- <-. cbn. auto.
Qed.

Lemma checkSchema_success (schema : option Schema) (r : Result)
    (d : value) (w : option (list Warning)) :
  checkS schema r = Return (Success d w) ->
  r = Success d w
  /\ (forall sc, schema = Some sc -> validateValue d sc [] = Return []).
Proof.
  unfold checkS, checkSchema. destruct r as [d0 w0|e p]; [|discriminate].
  destruct schema as [sc|].
  - destruct (validate validateValue d0 sc) as [v| |] eqn:V; cbn [bind];
      try discriminate.
    destruct (validate_ok d0 sc v V) as (errs & Ev & Ok & _).
    destruct (v_ok v); [|discriminate].
    intros H. injection H as <- <-. split; [reflexivity|].
    intros sc0 H. injection H as <-. rewrite Ev.
    rewrite (proj1 Ok eq_refl). reflexivity.
  - intros H. apply Return_inj in H. split; [exact H | discriminate].
Qed.

Lemma checkSchema_failure (schema : option Schema) (r : Result)
    (e : ParseError) (p : option PartialResult) :
  checkS schema r = Return (Failure e p) ->
  r = Failure e p
  \/ (code e = schema_mismatch /\ p = None
      /\ exists sc d w errs,
           schema = Some sc /\ r = Success d w
           /\ validateValue d sc [] = Return errs /\ errs <> []
           /\ context e = Some (stringifyErrors (Some errs))).
Proof.
  unfold checkS, checkSchema. destruct r as [d0 w0|e0 p0].
  - destruct schema as [sc|]; [|discriminate].
    destruct (validate validateValue d0 sc) as [v| |] eqn:V; cbn [bind];
      try discriminate.
    destruct (validate_ok d0 sc v V) as (errs & Ev & Ok & Er).
    destruct (v_ok v) eqn:K; [discriminate|].
    intros H. injection H as <- <-. right.
    split; [reflexivity|]. split; [reflexivity|].
    exists sc, d0, w0, errs. repeat split; try assumption.
    + intros N. apply Ok in N. discriminate.
    + cbn. rewrite (Er eq_refl). reflexivity.
  - destruct schema; intros H; left; apply Return_inj in H; exact H.
Qed.

(** What a [try] block of [parse] returns on a text that starts with an
    opening bracket. *)
Lemma parseChecked_shape (o : chr) (t : str) (schema : option Schema)
    (ws : option (list Warning)) (r : Result) :
  isOpen o = true ->
  parseChecked validateValue stringifyErrors (o :: t) schema ws = Return r ->
  match r with
  | Success d w =>
      isContainer d = true /\ w = ws
      /\ (forall sc, schema = Some sc -> validateValue d sc [] = Return [])
  | Failure e p => p = None /\ code e = schema_mismatch /\ schema <> None
  end.
Proof.
  intros O H. rewrite parseChecked_filter in H. apply bind_Return in H.
  destruct H as (r0 & E & H).
  unfold parseChecked in E. apply bind_Return in E.
  destruct E as (d0 & P & E). apply Return_inj in E. subst r0.
  pose proof (JSON_parse_open o t d0 O P) as C.
  destruct r as [d w|e p].
  - apply checkSchema_success in H. destruct H as [H V].
    injection H as <- <-. auto.
  - apply checkSchema_failure in H.
    destruct H as [H | (Hc & -> & sc & _ & _ & _ & -> & _)]; [discriminate|].
    split; [reflexivity|]. split; [exact Hc | discriminate].
Qed.

Lemma parse_shape (input : str) (schema : option Schema) (r : Result) :
  parseS input schema = Return r ->
  match r with
  | Success d w =>
      isContainer d = true /\ w <> Some []
      /\ (forall sc, schema = Some sc -> validateValue d sc [] = Return [])
  | Failure e p =>
      p = None
      /\ In (code e) [no_json_found; invalid_json; schema_mismatch]
      /\ (code e = schema_mismatch -> schema <> None)
  end.
Proof.
  unfold parseS, parse. destruct (emptyStr input).
  { intros H. apply Return_inj in H. subst r. cbn.
    split; [reflexivity|]. split; [tauto | discriminate]. }
  destruct (json (extract input)) as [[|c js]|] eqn:Ej;
    try (intros H; apply Return_inj in H; subst r; cbn;
         split; [reflexivity|]; split; [tauto | discriminate]).
  pose proof (extract_head input c js Ej) as O.
  assert (K : forall ws r0,
    ws <> Some [] ->
    forall o t, isOpen o = true ->
    parseChecked validateValue stringifyErrors (o :: t) schema ws = Return r0 ->
    match r0 with
    | Success d w =>
        isContainer d = true /\ w <> Some []
        /\ (forall sc, schema = Some sc -> validateValue d sc [] = Return [])
    | Failure e p =>
        p = None
        /\ In (code e) [no_json_found; invalid_json; schema_mismatch]
        /\ (code e = schema_mismatch -> schema <> None)
    end).
  { intros ws r0 Hw o t Oo H.
    apply (parseChecked_shape o t schema ws r0 Oo) in H.
    destruct r0 as [d w|e p].
    - destruct H as (H1 & -> & H3). auto.
    - destruct H as (H1 & H2 & H3). rewrite H2.
      split; [exact H1|]. split; [cbn; tauto | intros _; exact H3]. }
  destruct (parseChecked validateValue stringifyErrors (c :: js) schema None)
    as [r0| |] eqn:E1.
  - intros H. apply Return_inj in H. subst r0.
    apply (K None r ltac:(discriminate) c js O E1).
  - destruct (repair_head c js O) as [t Et]. rewrite Et.
    match goal with
    | |- context [parseChecked _ _ _ _ ?w] => set (ws := w)
    end.
    assert (Hw : ws <> Some [])
      by (subst ws; destruct (r_warnings (repair (c :: js))); discriminate).
    destruct (parseChecked validateValue stringifyErrors (c :: t) schema ws)
      as [r0| |] eqn:E2; try discriminate.
    + intros H. apply Return_inj in H. subst r0.
      apply (K ws r Hw c t O E2).
    + intros H. apply Return_inj in H. subst r. cbn.
      split; [reflexivity|]. split; [tauto | discriminate].
  - discriminate.
Qed.

(** X7.  When [parse] returns a [Success], the data is an object or an
    array, never a string, a number, a boolean or [null]; the warnings
    are absent or form a non-empty list; and the validation of the data
    against the schema, when one was given, returned no error. *)
Theorem parse_success_shape (input : str) (schema : option Schema)
    (d : value) (w : option (list Warning)) :
  parseS input schema = Return (Success d w) ->
  isContainer d = true
  /\ w <> Some []
  /\ (forall sc, schema = Some sc -> validateValue d sc [] = Return []).
Proof. intros H. apply parse_shape in H. exact H. Qed.

(** X8.  When [parse] returns a [Failure], it carries no partial result
    and its code is [no_json_found], [invalid_json] or [schema_mismatch],
    the latter only when a schema was given: [parse] never reports
    [truncated]. *)
Theorem parse_failure_shape (input : str) (schema : option Schema)
    (e : ParseError) (p : option PartialResult) :
  parseS input schema = Return (Failure e p) ->
  p = None
  /\ In (code e) [no_json_found; invalid_json; schema_mismatch]
  /\ (code e = schema_mismatch -> schema <> None).
Proof. intros H. apply parse_shape in H. exact H. Qed.

(** X9.  When [write] or [finish] returns a [Success], the data is an
    object or an array, it passes the validation against the schema, when
    one was given, and no warning comes with it: the warnings of [repair]
    are dropped by the session. *)
Theorem stream_success_shape (schema : option Schema) (st : session)
    (chunk : str) (d : value) (w : option (list Warning)) :
  snd (writeS schema st chunk) = Return (Success d w)
  \/ finishS schema st = Return (Success d w) ->
  isContainer d = true
  /\ w = None
  /\ (forall sc, schema = Some sc -> validateValue d sc [] = Return []).
Proof.
  assert (K : forall st0, processS schema st0 = Return (Success d w) ->
              isContainer d = true /\ w = None
              /\ (forall sc, schema = Some sc ->
                    validateValue d sc [] = Return [])).
  { intros st0 H. rewrite process_filter in H. apply bind_Return in H.
    destruct H as (r & E & H).
    apply checkSchema_success in H. destruct H as [-> V].
    apply process_none_shape in E. destruct E as [C W]. auto. }
  intros [H|H].
  - apply (K (update st chunk)). exact H.
  - unfold finishS, finish in H.
    destruct (negb (started st)); [discriminate|].
    destruct ((depth st >? 0)%Z || inStr st); [discriminate|].
    apply (K st). exact H.
Qed.

(** X10.  A [Failure] of [write] has the code [truncated] or
    [schema_mismatch]; a [Failure] of [finish] has one of these or
    [no_json_found].  Neither reports [invalid_json].  The partial result
    that comes with the failure is absent or the placeholder of
    [parsePartial]. *)
Theorem stream_failure_shape (schema : option Schema) (st : session)
    (chunk : str) (e : ParseError) (p : option PartialResult) :
  (snd (writeS schema st chunk) = Return (Failure e p) ->
   In (code e) [truncated; schema_mismatch]
   /\ (p = None \/ p = Some (mkPartial medium (VObj []) [])))
  /\ (finishS schema st = Return (Failure e p) ->
      In (code e) [no_json_found; truncated; schema_mismatch]
      /\ (p = None \/ p = Some (mkPartial medium (VObj []) []))).
Proof.
  assert (K : forall st0, processS schema st0 = Return (Failure e p) ->
              In (code e) [truncated; schema_mismatch]
              /\ (p = None \/ p = Some (mkPartial medium (VObj []) []))).
  { intros st0 H. rewrite process_filter in H. apply bind_Return in H.
    destruct H as (r & E & H).
    apply checkSchema_failure in H.
    destruct H as [-> | (C & -> & _)].
    - apply process_none_shape in E. destruct E as [E P]. rewrite E.
      split; [cbn; tauto | exact P].
    - rewrite C. split; [cbn; tauto | left; reflexivity]. }
  split; intros H.
  - apply (K (update st chunk)). exact H.
  - unfold finishS, finish in H.
    destruct (negb (started st)).
    { injection H as <- <-. split; [cbn; tauto | left; reflexivity]. }
    destruct ((depth st >? 0)%Z || inStr st).
    { injection H as <- <-. split; [cbn; tauto | left; reflexivity]. }
    apply K in H. destruct H as [H P]. split; [cbn in H |- *; tauto | exact P].
Qed.

(** X5.  A text without an opening bracket holds no candidate: [extract]
    returns none, and [parse] fails with [no_json_found].  So a bare
    number, string or literal is never parsed by [parse]. *)
Theorem parse_needs_open_bracket (input : str) (schema : option Schema) :
  forallb (fun c => negb (isOpen c)) input = true ->
  json (extract input) = None
  /\ parseS input schema
     = Return (Failure (mkError no_json_found
                          (Text (if emptyStr input then "Empty input"
                                 else "No JSON found")) None) None).
Proof.
  intros H. pose proof (extract_needs_open input H) as E.
  split; [exact E|].
  unfold parseS, parse. destruct (emptyStr input); [reflexivity|].
  rewrite E. reflexivity.
Qed.

End PipelineFacts.

(** X6 at a test of the repository: a number where the schema asks for a
    string. *)
Lemma schema_is_a_filter_witness :
  let vv := validateValue (fun _ : str => NaN) (fun _ : jsnum => @nil chr) in
  let print := fun _ : option (list ValidationError) => lit "errors" in
  let sc := ObjectSchema [(lit "name", PrimitiveSchema T_string None)]
              None None in
  let bad := VObj [(lit "name", VNum (lit "123"))] in
  let failure :=
    Failure (mkError schema_mismatch (Text "Schema mismatch")
               (Some (lit "errors"))) None in
  parse vv print (jsq "{~name~: 123}") None = Return (Success bad None)
  /\ checkSchema Schema ValidationError vv print (Some sc) (Success bad None)
     = Return failure
  /\ parse vv print (jsq "{~name~: 123}") (Some sc) = Return failure.
Proof.
  cbv zeta.
  set (vv := validateValue (fun _ : str => NaN) (fun _ : jsnum => @nil chr)).
  set (print := fun _ : option (list ValidationError) => lit "errors").
  set (sc := ObjectSchema [(lit "name", PrimitiveSchema T_string None)]
               None None).
  assert (H1 : parse vv print (jsq "{~name~: 123}") None
               = Return (Success (VObj [(lit "name", VNum (lit "123"))]) None))
    by (vm_compute; reflexivity).
  assert (H2 : checkSchema Schema ValidationError vv print (Some sc)
                 (Success (VObj [(lit "name", VNum (lit "123"))]) None)
               = Return (Failure (mkError schema_mismatch (Text "Schema mismatch")
                                    (Some (lit "errors"))) None))
    by (vm_compute; reflexivity).
  split; [exact H1|]. split; [exact H2|].
  exact (proj1 (schema_is_a_filter Schema ValidationError vv print
                  (jsq "{~name~: 123}") (Some sc) newSession [])
           _ _ H1 H2).
Defined.

(** X5 at a bare number. *)
Lemma parse_needs_open_bracket_witness :
  forallb (fun c => negb (isOpen c)) (lit "the answer is 42") = true
  /\ json (extract (lit "the answer is 42")) = None
  /\ parse0 (lit "the answer is 42")
     = Return (Failure (mkError no_json_found (Text "No JSON found") None) None).
Proof.
  assert (H : forallb (fun c => negb (isOpen c)) (lit "the answer is 42") = true)
    by (vm_compute; reflexivity).
  split; [exact H|].
  exact (parse_needs_open_bracket Empty_set unit noErrors noContext
           (lit "the answer is 42") None H).
Defined.

(** X7 at a candidate whose validation throws in the first [try] block
    of [parse]: the [Success] is the one of the second block, on the
    repaired data, which passes the validation. *)
Lemma parse_success_shape_witness :
  let vv := validateValue (fun _ : str => NaN) (fun _ : jsnum => @nil chr) in
  let print := fun _ : option (list ValidationError) => lit "errors" in
  let sc := UnionSchema
              [ObjectSchema [(lit "k", PrimitiveSchema T_string (Some [[]]))]
                 None None] in
  let d := VObj [(lit "toString", VNum (lit "1")); (lit "k", VStr [])] in
  parse vv print (jsq "{~toString~:1,~k~:~/**/~}") (Some sc)
  = Return (Success d None)
  /\ isContainer d = true
  /\ vv d sc [] = Return [].
Proof.
  cbv zeta.
  set (vv := validateValue (fun _ : str => NaN) (fun _ : jsnum => @nil chr)).
  set (print := fun _ : option (list ValidationError) => lit "errors").
  set (sc := UnionSchema
               [ObjectSchema [(lit "k", PrimitiveSchema T_string (Some [[]]))]
                  None None]).
  assert (H : parse vv print (jsq "{~toString~:1,~k~:~/**/~}") (Some sc)
              = Return (Success
                          (VObj [(lit "toString", VNum (lit "1"));
                                 (lit "k", VStr [])]) None))
    by (vm_compute; reflexivity).
  split; [exact H|].
  destruct (parse_success_shape Schema ValidationError vv print _ (Some sc) _ _ H)
    as (H1 & _ & H3).
  split; [exact H1 | exact (H3 sc eq_refl)].
Defined.

(** X8 at data that does not conform and on which the validation
    throws: the failure is [invalid_json], with the message of the
    [TypeError]. *)
Lemma parse_failure_shape_witness :
  let vv := validateValue (fun _ : str => NaN) (fun _ : jsnum => @nil chr) in
  let print := fun _ : option (list ValidationError) => lit "errors" in
  let sc := LiteralSchema (L_number (Finite 1 1)) in
  let e := mkError invalid_json TypeErrorText None in
  parse vv print (jsq "{~toString~: 1}") (Some sc) = Return (Failure e None)
  /\ In (code e) [no_json_found; invalid_json; schema_mismatch].
Proof.
  cbv zeta.
  set (vv := validateValue (fun _ : str => NaN) (fun _ : jsnum => @nil chr)).
  set (print := fun _ : option (list ValidationError) => lit "errors").
  set (sc := LiteralSchema (L_number (Finite 1 1))).
  assert (H : parse vv print (jsq "{~toString~: 1}") (Some sc)
              = Return (Failure (mkError invalid_json TypeErrorText None) None))
    by (vm_compute; reflexivity).
  split; [exact H|].
  exact (proj1 (proj2 (parse_failure_shape Schema ValidationError vv print
                         _ (Some sc) _ _ H))).
Defined.

(** X9 at an object written in one chunk. *)
Lemma stream_success_shape_witness :
  let d := VObj [(lit "a", VNum (lit "1"))] in
  snd (write0 newSession (jsq "{'a': 1,}")) = Return (Success d None)
  /\ isContainer d = true.
Proof.
  cbv zeta.
  assert (H : snd (write0 newSession (jsq "{'a': 1,}"))
              = Return (Success (VObj [(lit "a", VNum (lit "1"))]) None))
    by (vm_compute; reflexivity).
  split; [exact H|].
  exact (proj1 (stream_success_shape Empty_set unit noErrors noContext None
                  newSession (jsq "{'a': 1,}") _ None (or_introl H))).
Defined.

(** X10 at a chunk that holds no bracket. *)
Lemma stream_failure_shape_witness :
  let e := mkError truncated (Text "No JSON found") None in
  snd (write0 newSession (lit "hello")) = Return (Failure e None)
  /\ In (code e) [truncated; schema_mismatch].
Proof.
  cbv zeta.
  assert (H : snd (write0 newSession (lit "hello"))
              = Return (Failure (mkError truncated (Text "No JSON found") None)
                                None))
    by (vm_compute; reflexivity).
  split; [exact H|].
  exact (proj1 (proj1 (stream_failure_shape Empty_set unit noErrors noContext
                         None newSession (lit "hello") _ None) H)).
Defined.

(** ** The streaming session and [parseStream] *)

Section StreamFacts.

Variable Schema : Type.
Variable ValidationError : Type.
Variable validateValue :
  value -> Schema -> str -> outcome (list ValidationError).
Variable stringifyErrors : option (list ValidationError) -> str.

Let processS := process validateValue stringifyErrors.
Let writeS := write validateValue stringifyErrors.
Let writesS := writes validateValue stringifyErrors.
Let finishS := finish validateValue stringifyErrors.
Let parseStreamS :=
  parseStream Schema ValidationError validateValue stringifyErrors.
Let streamLoopS :=
  streamLoop Schema ValidationError validateValue stringifyErrors.

Lemma update_buf (st : session) (c : str) : buf (update st c) = buf st ++ c.
Proof. unfold update. rewrite scan_buf. reflexivity. Qed.

Lemma process_buf (schema : option Schema) (a b : session) :
  buf a = buf b -> processS schema a = processS schema b.
Proof. unfold processS, process. intros ->. reflexivity. Qed.


(** X11.  [write] appends the chunk to the buffer, and the result it
    returns depends on the text written so far only: it is the result
    that a new session returns when that whole text is written to it as
    one chunk. *)
Theorem write_previews_the_buffer (schema : option Schema) (st : session)
    (chunk : str) :
  buf (fst (writeS schema st chunk)) = buf st ++ chunk
  /\ snd (writeS schema st chunk)
     = snd (writeS schema newSession (buf st ++ chunk)).
Proof.
  unfold writeS, write. cbn [fst snd]. split; [apply update_buf|].
  apply process_buf. rewrite !update_buf. reflexivity.
Qed.

(** When the loop of [parseStream] comes to its end, the result is the
    one of [finish] on the session that the chunks leave, and the last
    [write] has returned. *)
Lemma streamLoop_returns (schema : option Schema) (cs : list str) :
  forall st r,
  streamLoopS schema st cs = Return r ->
  finishS schema (writesS schema st cs) = Return r
  /\ (cs <> [] ->
      exists r0, processS schema (writesS schema st cs) = Return r0).
Proof.
  unfold streamLoopS, finishS, writesS, processS.
  induction cs as [|c cs IH]; intros st r H.
  - split; [exact H | intros N; contradiction].
  - cbn [streamLoop] in H. unfold write in H.
    apply bind_Return in H. destruct H as (r1 & E1 & H).
    apply IH in H. destruct H as [H1 H2].
    unfold writes. cbn [fold_left]. unfold write at 2 4. cbn [fst].
    split; [exact H1|]. intros _.
    destruct cs as [|c' cs']; [exists r1; exact E1 | apply H2; discriminate].
Qed.

(** When no [write] throws, the loop comes to its end. *)
Lemma streamLoop_total (schema : option Schema) (cs : list str) :
  (forall st, exists r, processS schema st = Return r) ->
  forall st, streamLoopS schema st cs = finishS schema (writesS schema st cs).
Proof.
  unfold streamLoopS, finishS, writesS, processS. intros T.
  induction cs as [|c cs IH]; intros st; [reflexivity|].
  cbn [streamLoop]. unfold write.
  destruct (T (update st c)) as [r ->]. cbn [bind].
  rewrite IH. reflexivity.
Qed.

Lemma process_total (schema : option Schema) :
  (forall sc d, schema = Some sc ->
     exists errs, validateValue d sc [] = Return errs) ->
  forall st, exists r, processS schema st = Return r.
Proof.
  intros T st. unfold processS.
  rewrite (process_filter Schema ValidationError validateValue stringifyErrors).
  destruct (process_returns Schema ValidationError validateValue
              stringifyErrors st) as [r ->].
  cbn [bind]. unfold checkSchema.
  destruct r as [d w|e p]; [|eauto].
  destruct schema as [sc|]; [|eauto].
  unfold validate. destruct (T sc d eq_refl) as [errs ->]. cbn [bind].
  eauto.
Qed.

(** X12.  When the validation does not throw (as when no schema is
    given), the result of [parseStream] depends on the concatenation of
    the chunks only, not on where the text was cut into chunks.  In any
    case, when [parseStream] is fulfilled on the chunks, it is fulfilled
    with the same result on their concatenation given as one chunk: a
    [write] of a part of the text can throw where the [write] of the
    whole text does not, never the other way round. *)
Theorem parseStream_chunking (cs1 cs2 : list str) (schema : option Schema) :
  concat cs1 = concat cs2 ->
  ((forall sc d, schema = Some sc ->
      exists errs, validateValue d sc [] = Return errs) ->
   parseStreamS (Some cs1) schema = parseStreamS (Some cs2) schema)
  /\ (forall r, parseStreamS (Some cs1) schema = Return r ->
        parseStreamS (Some [concat cs2]) schema = Return r).
Proof.
  intros H.
  pose proof (writes_scanAll Schema ValidationError validateValue
                stringifyErrors schema cs1 []) as E1.
  pose proof (writes_scanAll Schema ValidationError validateValue
                stringifyErrors schema cs2 []) as E2.
  cbn [app] in E1, E2. change (scanAll []) with newSession in E1, E2.
  split.
  - intros T. unfold parseStreamS, parseStream.
    pose proof (process_total schema T) as P.
    fold streamLoopS.
    rewrite (streamLoop_total schema cs1 P), (streamLoop_total schema cs2 P).
    unfold writesS. rewrite E1, E2, H. reflexivity.
  - intros r R. unfold parseStreamS, parseStream in R |- *.
    fold streamLoopS in R. apply streamLoop_returns in R.
    destruct R as [F L]. unfold writesS in F, L. rewrite E1 in F, L.
    cbn [streamLoop]. unfold write.
    assert (U : update newSession (concat cs2) = scanAll (concat cs1)).
    { rewrite <- H. change newSession with (scanAll []).
      rewrite update_scanAll. reflexivity. }
    rewrite U.
    assert (P : exists r0, processS schema (scanAll (concat cs1)) = Return r0).
    { destruct cs1 as [|c cs]; [|apply L; discriminate].
      exists (Failure (mkError truncated (Text "No JSON found") None) None).
      reflexivity. }
    destruct P as [r0 P]. unfold processS in P. rewrite P. cbn [bind].
    exact F.
Qed.

Lemma scanChar_started (st : session) (ch : chr) :
  started st = true -> started (scanChar st ch) = true.
Proof.
  destruct st as [b d i e s]. cbn. intros ->.
  destruct e; [reflexivity|].
  destruct (ceq ch c_bslash && i); [reflexivity|].
  destruct (ceq ch c_dq); [reflexivity|].
  destruct i; [reflexivity|].
  destruct (isOpen ch); [destruct (d =? 0)%Z; reflexivity|].
  destruct (isClose ch); reflexivity.
Qed.

Lemma scan_started (l : str) : forall st,
  started st = true -> started (fold_left scanChar l st) = true.
Proof.
  induction l as [|c l IH]; intros st H; [exact H|].
  cbn [fold_left]. apply IH, scanChar_started, H.
Qed.


(** X13.  Once the session has seen an opening bracket at depth 0
    ([inJson] is true), it stays so through every later [write], whatever
    is written; only [reset] clears it. *)
Theorem started_is_kept (schema : option Schema) (st : session)
    (cs : list str) :
  started st = true -> started (writesS schema st cs) = true.
Proof.
  unfold writesS, writes. revert st.
  induction cs as [|c cs IH]; intros st H; [exact H|].
  cbn [fold_left]. apply IH. unfold write. cbn [fst]. unfold update.
  apply scan_started. exact H.
Qed.

End StreamFacts.

(** X13 at a session that saw an object and then prose. *)
Lemma started_is_kept_witness :
  let st := writes0 newSession [lit "{"] in
  started st = true
  /\ started (writes0 st [lit "}"; lit " and so on"]) = true.
Proof.
  cbv zeta.
  assert (H : started (writes0 newSession [lit "{"]) = true) by reflexivity.
  split; [exact H|].
  exact (started_is_kept Empty_set unit noErrors noContext None _
           [lit "}"; lit " and so on"] H).
Defined.

(** ** The partial parser *)

Section Messages.

Variable opts : PartialParseOptions.
Variable len : nat.

Lemma parseStr_throws (s : str) (e : exn) :
  parseStr opts s = Throw e ->
  allowPartialStrings opts = false /\ e = Error (Text "Unterminated string").
Proof.
  unfold parseStr. destruct (strLoop false [] (take s)) as [r [rest|]];
    [discriminate|].
  destruct (allowPartialStrings opts); [discriminate|].
  intros H. injection H as <-. auto.
Qed.

Lemma bind_Throw {A B} (x : outcome A) (k : A -> outcome B) (e : exn) :
  bind x k = Throw e ->
  x = Throw e \/ exists a, x = Return a /\ k a = Throw e.
Proof.
  destruct x as [a|e0|]; cbn; intros H.
  - right. exists a. auto.
  - left. injection H as ->. reflexivity.
  - discriminate.
Qed.

Lemma throws_all (f : nat) :
  (forall s, throwsKnown opts len (parseValue opts len f s))
  /\ (forall arr s, throwsKnown opts len (arrLoop opts len f arr s))
  /\ (forall obj s, throwsKnown opts len (objLoop opts len f obj s)).
Proof.
  unfold throwsKnown.
  induction f as [|f (IV & IA & IO)];
    [repeat split; intros; discriminate|].
  assert (U : forall k, partialMessage opts len
                          (TextAt "Unexpected token at " (len - k))).
  { intros k. left. exists (len - k). split; [lia | reflexivity]. }
  assert (V' : forall s e, parseValue opts len (S f) s = Throw e ->
                 partialMessage opts len (exn_message e)).
  { intros s e. cbn -[skip parseStr parseNum startsWith take skipn].
    destruct (skip s) as [|c s0].
    { intros H. injection H as <-. apply U. }
    destruct (ceq c c_lbrace).
    { destruct (skip (take (c :: s0))) as [|d s2]; [apply IO|].
      destruct (ceq d c_rbrace); [discriminate | apply IO]. }
    destruct (ceq c c_lbrack).
    { destruct (skip (take (c :: s0))) as [|d s2]; [apply IA|].
      destruct (ceq d c_rbrack); [discriminate | apply IA]. }
    destruct (ceq c c_dq).
    { intros H. apply bind_Throw in H.
      destruct H as [H|([r rest] & _ & H)]; [|discriminate].
      apply parseStr_throws in H. destruct H as [H ->].
      right. left. auto. }
    destruct (ceq c c_minus || isDigit c); [discriminate|].
    destruct (startsWith kw_true (c :: s0)); [discriminate|].
    destruct (startsWith kw_false (c :: s0)); [discriminate|].
    destruct (startsWith kw_null (c :: s0)); [discriminate|].
    intros H. injection H as <-. apply U. }
  split; [exact V'|]. split.
  - intros arr s e. cbn -[skip parseValue].
    destruct s as [|c0 s0].
    { destruct (allowPartialArrays opts) eqn:Ea; [discriminate|].
      intros H. injection H as <-. right. right. left. auto. }
    assert (K : bind (parseValue opts len f (skip (c0 :: s0)))
                  (fun x => let '(v, rest) := x in
                            arrLoop opts len f (arr ++ [v]) rest)
                = Throw e -> partialMessage opts len (exn_message e)).
    { intros H. apply bind_Throw in H.
      destruct H as [H|([v1 r1] & _ & H)]; [eapply IV | eapply IA]; exact H. }
    destruct (skip (c0 :: s0)) as [|c s2]; [exact K|].
    destruct (ceq c c_rbrack); [discriminate|].
    destruct (ceq c c_comma); [apply IA | exact K].
  - intros obj s e. cbn -[skip parseValue parseStr].
    destruct s as [|c0 s0].
    { destruct (allowPartialObjects opts) eqn:Ea; [discriminate|].
      intros H. injection H as <-. right. right. right. auto. }
    assert (M : bind (parseStr opts (skip (c0 :: s0)))
                  (fun x => let '(key, s2) := x in
                     match skip s2 with
                     | [] =>
                         if allowPartialObjects opts
                         then Return (VObj obj, skip s2)
                         else Throw (Error (Text "Expected colon"))
                     | c :: s4 =>
                         if ceq c c_colon
                         then
                           bind (parseValue opts len f (skip s4))
                             (fun y => let '(v, rest) := y in
                                objLoop opts len f (assign key v obj) rest)
                         else if allowPartialObjects opts
                              then Return (VObj obj, skip s2)
                              else Throw (Error (Text "Expected colon"))
                     end)
                = Throw e -> partialMessage opts len (exn_message e)).
    { intros K. apply bind_Throw in K.
      destruct K as [K|([key s2] & _ & K)].
      { apply parseStr_throws in K. destruct K as [K ->].
        right. left. auto. }
      destruct (skip s2) as [|c s4].
      - destruct (allowPartialObjects opts) eqn:Ea; [discriminate|].
        injection K as <-. right. right. right. auto.
      - destruct (ceq c c_colon).
        + apply bind_Throw in K.
          destruct K as [K|([v1 r1] & _ & K)]; [eapply IV | eapply IO];
            exact K.
        + destruct (allowPartialObjects opts) eqn:Ea; [discriminate|].
          injection K as <-. right. right. right. auto. }
    destruct (skip (c0 :: s0)) as [|c s2]; [exact M|].
    destruct (ceq c c_rbrace); [discriminate|].
    destruct (ceq c c_comma); [apply IO | exact M].
Qed.


End Messages.

Lemma doParse_throws (s : str) (opts : PartialParseOptions) (e : exn) :
  doParse s opts = Throw e -> partialMessage opts (length s) (exn_message e).
Proof.
  unfold doParse. intros H. apply bind_Throw in H.
  destruct H as [H|([v r] & _ & H)]; [|discriminate].
  eapply (proj1 (throws_all opts (length s) _)); exact H.
Qed.


(** X14.  [parsePartial] fails with [no_json_found] on the empty input
    and on no other.  Every other failure has the code [truncated], no
    context, the placeholder as its partial result, and one of five
    messages: [Unexpected token at i] for an offset [i] of the input, or,
    only when the matching [allowPartial*] option is off,
    [Unterminated string], [Unterminated array], [Unterminated object]
    or [Expected colon]. *)
Theorem parsePartial_failure_shape (input : str)
    (options : option UserOptions) (e : ParseError)
    (p : option PartialResult) :
  parsePartial input options = Return (Failure e p) ->
  (input = [] /\ e = mkError no_json_found (Text "Empty input") None
   /\ p = None)
  \/ (input <> [] /\ code e = truncated /\ context e = None
      /\ p = Some (mkPartial medium (VObj []) [])
      /\ partialMessage (withDefaults options) (length input) (e_message e)).
Proof.
  unfold parsePartial. destruct input as [|c input'].
  { cbn. intros H. injection H as <- <-. left. auto. }
  cbn [emptyStr]. intros H. right. split; [discriminate|].
  destruct (JSON_parse (c :: input')) as [d0|x0|]; try discriminate.
  destruct (doParse (c :: input') (withDefaults options)) as [d|e1|] eqn:E;
    try discriminate.
  injection H as <- <-. cbn [code context e_message].
  repeat split. apply doParse_throws. exact E.
Qed.

(** X14 at an object cut after a colon. *)
Lemma parsePartial_failure_shape_witness :
  let e := mkError truncated (TextAt "Unexpected token at " 5) None in
  let p := Some (mkPartial medium (VObj []) []) in
  parsePartial (jsq "{~a~:") allPartial = Return (Failure e p)
  /\ partialMessage (withDefaults allPartial) 5 (e_message e).
Proof.
  cbv zeta.
  assert (H : parsePartial (jsq "{~a~:") allPartial
              = Return (Failure
                          (mkError truncated (TextAt "Unexpected token at " 5)
                                   None)
                          (Some (mkPartial medium (VObj []) []))))
    by (vm_compute; reflexivity).
  split; [exact H|].
  destruct (parsePartial_failure_shape _ _ _ _ H)
    as [(E & _)|(_ & _ & _ & _ & M)]; [discriminate E | exact M].
Defined.

Lemma noNumStart_app (trail x : str) :
  forallb isJsonWs trail = true -> noNumStart x = true ->
  noNumStart (trail ++ x) = true.
Proof.
  destruct trail as [|c trail]; [intros _ H; exact H|].
  cbn [forallb app noNumStart]. intros H _.
  apply andb_prop in H. destruct H as [H _].
  unfold isJsonWs, ceq in H. unfold isNumChar, isDigit, ceq.
  repeat (apply orb_prop in H; destruct H as [H|H]);
    apply N.eqb_eq in H; subst c; reflexivity.
Qed.


(** X15.  Text that follows a complete value is not read: when [t] is
    strictly valid and what follows it does not go on like a number,
    [parsePartial] with every [allowPartial*] option set returns a
    [Success] on [t] followed by that text. *)
Theorem parsePartial_ignores_rest (t x : str) (v : value) :
  JSON_parse t = Return v -> noNumStart x = true ->
  exists d, parsePartial (t ++ x) allPartial = Return (Success d None).
Proof.
  intros P Nx.
  destruct (JSON_parse_sound t v P) as (its & trail & E & W & J).
  assert (Nt : t <> []) by (intros ->; discriminate).
  assert (Ne : emptyStr (t ++ x) = false)
    by (destruct t; [contradiction | reflexivity]).
  unfold parsePartial. rewrite Ne.
  destruct (JSON_parse (t ++ x)) as [d|e|] eqn:EJ.
  - eexists. reflexivity.
  - change (withDefaults allPartial) with optsAll. unfold doParse.
    destruct (okV_all (length (t ++ x)) its J (wfItems_wfLex _ _ W))
      as [C _].
    destruct (C (trail ++ x) (2 * length (t ++ x) + 2)) as [v0 Hv].
    + apply noNumStart_app; [exact (wfItems_trail _ _ W) | exact Nx].
    + rewrite app_assoc, <- E.
      apply (proj1 (fuelOk_all optsAll (length (t ++ x))
                      (2 * length (t ++ x) + 2))). lia.
    + rewrite app_assoc, <- E in Hv. rewrite Hv. eexists. reflexivity.
  - exfalso. exact (JSON_parse_no_fuel _ EJ).
Qed.

(** X15 at an object followed by prose. *)
Lemma parsePartial_ignores_rest_witness :
  JSON_parse (jsq "{~a~: [1, 2]}")
  = Return (VObj [(lit "a", VArr [VNum (lit "1"); VNum (lit "2")])])
  /\ noNumStart (lit "] and so on") = true
  /\ exists d,
       parsePartial (jsq "{~a~: [1, 2]}" ++ lit "] and so on") allPartial
       = Return (Success d None).
Proof.
  assert (H : JSON_parse (jsq "{~a~: [1, 2]}")
    = Return (VObj [(lit "a", VArr [VNum (lit "1"); VNum (lit "2")])]))
    by (vm_compute; reflexivity).
  split; [exact H|]. split; [reflexivity|].
  exact (parsePartial_ignores_rest _ (lit "] and so on") _ H eq_refl).
Defined.

Lemma strLoop_open (w : str) : forall e r,
  noClosingQuote e w = true ->
  strLoop e r w = (r ++ dropEscapes e w, None).
Proof.
  induction w as [|c w IH]; intros e r H.
  - destruct e; cbn; rewrite app_nil_r; reflexivity.
  - cbn [noClosingQuote strLoop dropEscapes] in *.
    destruct e.
    + rewrite IH by exact H. rewrite <- app_assoc. reflexivity.
    + destruct (ceq c c_bslash); [apply IH; exact H|].
      destruct (ceq c c_dq); [discriminate|].
      rewrite IH by exact H. rewrite <- app_assoc. reflexivity.
Qed.

Lemma hex_not_special (h : chr) :
  isHex h = true -> ceq h c_bslash = false /\ ceq h c_dq = false.
Proof.
  unfold isHex, isDigit, ceq, c_bslash, c_dq. intros H.
  split; apply N.eqb_neq; intros ->; discriminate.
Qed.

Lemma lexStr_open_aux (n : nat) : forall w,
  length w <= n -> noClosingQuote false w = true -> lexStr w = None.
Proof.
  induction n as [|n IH]; intros w L H.
  { destruct w; [reflexivity | simpl in L; lia]. }
  destruct w as [|c r]; [reflexivity|].
  cbn [lexStr noClosingQuote] in *. cbn [length] in L.
  destruct (ceq c c_bslash) eqn:Eb.
  - apply N.eqb_eq in Eb. subst c. change (ceq c_bslash c_dq) with false.
    cbv iota.
    destruct r as [|e r1]; [reflexivity|].
    cbn [noClosingQuote] in H. cbn [length] in L.
    destruct (isSimpleEscape e).
    { rewrite (IH r1) by (assumption || lia). reflexivity. }
    destruct (e =? 117)%N; [|reflexivity].
    destruct r1 as [|h1 [|h2 [|h3 [|h4 r2]]]]; try reflexivity.
    destruct (isHex h1 && isHex h2 && isHex h3 && isHex h4) eqn:Eh;
      [|reflexivity].
    apply andb_prop in Eh. destruct Eh as [Eh H4].
    apply andb_prop in Eh. destruct Eh as [Eh H3].
    apply andb_prop in Eh. destruct Eh as [H1 H2].
    apply hex_not_special in H1, H2, H3, H4.
    cbn [noClosingQuote] in H.
    rewrite (proj1 H1), (proj2 H1), (proj1 H2), (proj2 H2),
      (proj1 H3), (proj2 H3), (proj1 H4), (proj2 H4) in H.
    cbn [length] in L.
    rewrite (IH r2) by (assumption || lia). reflexivity.
  - destruct (ceq c c_dq); [discriminate|].
    destruct (c <? 32)%N; [reflexivity|].
    rewrite (IH r) by (assumption || lia). reflexivity.
Qed.

Lemma JSON_parse_cut_string (w : str) :
  noClosingQuote false w = true -> JSON_parse (c_dq :: w) = Throw SyntaxError.
Proof.
  intros H. unfold JSON_parse, lex.
  remember (length (c_dq :: w)) as n eqn:En. cbn [lexFrom span].
  change (isJsonWs c_dq) with false. cbv iota.
  change (ceq c_dq c_lbrace) with false. change (ceq c_dq c_rbrace) with false.
  change (ceq c_dq c_lbrack) with false. change (ceq c_dq c_rbrack) with false.
  change (ceq c_dq c_colon) with false. change (ceq c_dq c_comma) with false.
  change (ceq c_dq c_dq) with true. cbv iota.
  rewrite (lexStr_open_aux (length w) w (le_n _) H). reflexivity.
Qed.

Lemma parseValue_dq (opts : PartialParseOptions) (len f : nat) (w : str) :
  parseValue opts len (S f) (c_dq :: w)
  = '(r, rest) <- parseStr opts (c_dq :: w) ;; Return (VStr r, rest).
Proof.
  cbn -[skip parseStr parseNum startsWith take skipn].
  change (skip (c_dq :: w)) with (c_dq :: w). reflexivity.
Qed.


(** X16.  On a string literal that is cut before its closing quote,
    [parsePartial] returns the characters read so far (each backslash
    dropped, the character after it kept as it is) when
    [allowPartialStrings] is set, which is the default, and fails with
    [truncated] and the message [Unterminated string] when it is off. *)
Theorem parsePartial_cut_string (w : str) (options : option UserOptions) :
  noClosingQuote false w = true ->
  parsePartial (c_dq :: w) options
  = Return (if allowPartialStrings (withDefaults options)
            then Success (VStr (dropEscapes false w)) None
            else Failure (mkError truncated (Text "Unterminated string") None)
                         (Some (mkPartial medium (VObj []) []))).
Proof.
  intros H. unfold parsePartial. cbn [emptyStr].
  rewrite (JSON_parse_cut_string w H).
  unfold doParse.
  replace (2 * length (c_dq :: w) + 2) with (S (2 * length (c_dq :: w) + 1))
    by lia.
  rewrite parseValue_dq.
  unfold parseStr. cbn [take tl].
  rewrite (strLoop_open w false [] H). cbn [app].
  destruct (allowPartialStrings (withDefaults options)); reflexivity.
Qed.

(** X16 at a string with three backslashes, the last one pending. *)
Lemma parsePartial_cut_string_witness :
  noClosingQuote false (lit "it\'s a\nb\") = true
  /\ parsePartial (jsq "~it\'s a\nb\") None
     = Return (Success (VStr (lit "it's anb")) None)
  /\ parsePartial (jsq "~it\'s a\nb\")
       (Some (mkUser (Some false) None None None))
     = Return (Failure (mkError truncated (Text "Unterminated string") None)
                       (Some (mkPartial medium (VObj []) []))).
Proof.
  split; [reflexivity|]. split.
  - exact (parsePartial_cut_string (lit "it\'s a\nb\") None eq_refl).
  - exact (parsePartial_cut_string (lit "it\'s a\nb\")
             (Some (mkUser (Some false) None None None)) eq_refl).
Defined.

(** The key [__proto__] in the two parsers.  [JSON.parse] defines the
    property; the fallback parser assigns to it, which creates no
    property. *)
Example parsePartial_proto_key :
  JSON_parse (jsq "{~__proto__~: 5, ~a~: 1}")
  = Return (VObj [(lit "__proto__", VNum (lit "5")); (lit "a", VNum (lit "1"))])
  /\ parsePartial (jsq "{~__proto__~: 5, ~a~: 1") None
     = Return (Success (VObj [(lit "a", VNum (lit "1"))]) None).
Proof. vm_compute. split; reflexivity. Qed.

(** ** The warnings and the single quotes of [repair] *)

Lemma repairLoop_warns : forall f s st,
  exists ws, r_warn (repairLoop f s st) = r_warn st ++ ws
             /\ Forall passWarning ws.
Proof.
  induction f as [|f IH]; intros s st.
  { exists []. destruct s; cbn; rewrite app_nil_r; split; constructor. }
  destruct s as [|c s'].
  { exists []. cbn. rewrite app_nil_r. split; constructor. }
  destruct st as [r w i q e h].
  cbn -[span startsWith skipn isReserved].
  assert (G0 : forall s0 r0 i0 q0 e0 h0,
    exists ws, r_warn (repairLoop f s0 (mkR r0 w i0 q0 e0 h0)) = w ++ ws
               /\ Forall passWarning ws).
  { intros. apply (IH s0 (mkR r0 w i0 q0 e0 h0)). }
  assert (G1 : forall s0 r0 x i0 q0 e0 h0, passWarning x ->
    exists ws, r_warn (repairLoop f s0 (mkR r0 (w ++ [x]) i0 q0 e0 h0)) = w ++ ws
               /\ Forall passWarning ws).
  { intros s0 r0 x i0 q0 e0 h0 Px.
    destruct (IH s0 (mkR r0 (w ++ [x]) i0 q0 e0 h0)) as (ws & E & F).
    exists (x :: ws). cbn [r_warn] in E. rewrite E, <- app_assoc.
    split; [reflexivity | constructor; assumption]. }
  destruct e.
  { destruct (i && isSingle q && ceq c c_sq); [apply G0|].
    destruct (i && isSingle q && ceq c c_dq); apply G0. }
  destruct (ceq c c_bslash && i); [destruct (isSingle q); apply G0|].
  destruct (ceq c c_dq); [destruct i; [destruct q|]; apply G0|].
  destruct (ceq c c_sq); [destruct i; [destruct q|]; apply G0|].
  destruct i; [apply G0|].
  destruct (ceq c c_lbrace || ceq c c_comma).
  { destruct (span isSpace s') as [sp s1].
    destruct s1 as [|d s2].
    { exists []. cbn. rewrite app_nil_r. split; constructor. }
    destruct (ceq d c_dq); [apply G0|].
    destruct (ceq d c_sq); [apply G0|].
    destruct (span isWord (d :: s2)) as [word s3].
    destruct (negb (emptyStr word) && negb (isReserved word));
      [apply G1; left; reflexivity | apply G0]. }
  destruct (startsWith kw_None (c :: s')); [apply G1; right; reflexivity|].
  destruct (startsWith kw_True (c :: s')); [apply G1; right; reflexivity|].
  destruct (startsWith kw_False (c :: s')); [apply G1; right; reflexivity|].
  apply G0.
Qed.


(** X17.  The warnings of [repair] are, in this order: one
    [unquoted_key_fixed] or [python_literal_converted] for each key that
    was quoted and each literal that was converted, as they were met;
    then at most one [single_quotes_replaced]; then at most one
    [trailing_comma_removed].  The five other warning codes are never
    used, and every message is empty. *)
Theorem repair_warnings_shape (input : str) :
  exists ws sq tc,
    r_warnings (repair input) = ws ++ sq ++ tc
    /\ Forall passWarning ws
    /\ (sq = [] \/ sq = [warn single_quotes_replaced])
    /\ (tc = [] \/ tc = [warn trailing_comma_removed]).
Proof.
  unfold repair. destruct (emptyStr input).
  { exists [], [], []. cbn. repeat split; auto. }
  cbv zeta. unfold repairPass, r_init.
  set (s1 := replaceAll m_blockComment _).
  destruct (repairLoop_warns (length s1) s1 (mkR [] [] false QNone false false))
    as (ws & E & F).
  cbn [r_warn app] in E.
  set (st := repairLoop (length s1) s1 (mkR [] [] false QNone false false)) in *.
  exists ws,
    (if r_had st then [warn single_quotes_replaced] else []),
    (if negb (str_eqb (r_out st) (replaceAll m_trailingComma (r_out st)))
     then [warn trailing_comma_removed] else []).
  split.
  - rewrite E.
    destruct (r_had st);
      destruct (negb (str_eqb (r_out st) (replaceAll m_trailingComma (r_out st))));
      cbn [r_warnings]; rewrite ?app_nil_r, <- ?app_assoc; reflexivity.
  - split; [exact F|].
    split; [destruct (r_had st); auto|].
    destruct (negb _); auto.
Qed.

Lemma repairLoop_in_sq (w : str) : forall e rest r ws had f f',
  sqContent e w = true ->
  length (w ++ c_sq :: rest) <= f -> length rest <= f' ->
  repairLoop f (w ++ c_sq :: rest) (mkR r ws true QSingle e had)
  = repairLoop f' rest (mkR (r ++ sqBody e w ++ [c_dq]) ws false QNone false true).
Proof.
  induction w as [|c w IH]; intros e rest r ws had f f' Hw Hf Hf'.
  - simpl in Hw. destruct e; [discriminate|].
    simpl in Hf. destruct f as [|f]; [lia|].
    cbn. apply repairLoop_fuel; lia.
  - simpl in Hf. destruct f as [|f]; [lia|].
    cbn [app]. cbn [sqContent sqBody] in *.
    cbn -[span startsWith skipn isReserved].
    destruct e.
    + destruct (ceq c c_sq) eqn:Es.
      { rewrite (IH false rest (r ++ [c_sq]) ws had f f' Hw); [|lia|lia].
        rewrite <- !app_assoc. reflexivity. }
      destruct (ceq c c_dq) eqn:Ed.
      { rewrite (IH false rest (r ++ [c_bslash; c_dq]) ws had f f' Hw);
          [|lia|lia].
        rewrite <- !app_assoc. reflexivity. }
      rewrite (IH false rest (r ++ [c]) ws had f f' Hw); [|lia|lia].
      rewrite <- !app_assoc. reflexivity.
    + destruct (ceq c c_bslash) eqn:Eb.
      * cbn [andb]. apply IH; [exact Hw | lia | lia].
      * cbn [andb]. destruct (ceq c c_dq) eqn:Ed.
        { apply ceq_eq in Ed. subst c.
          change (ceq c_dq c_sq) with false in Hw. cbv iota in Hw.
          rewrite (IH false rest (r ++ [c_bslash; c_dq]) ws had f f' Hw);
            [|lia|lia].
          rewrite <- !app_assoc. reflexivity. }
        destruct (ceq c c_sq) eqn:Es; [discriminate|].
        rewrite (IH false rest (r ++ [c]) ws had f f' Hw); [|lia|lia].
        rewrite <- !app_assoc. reflexivity.
Qed.


(** The pass comes to the opening quote [d] of a literal, and is inside
    the string after it. *)
Lemma repairLoop_lead (lead : str) (d : chr) (x r : str)
    (ws : list Warning) (q : quote) (had : bool) (f : nat) :
  keyLead lead = true -> d = c_dq \/ d = c_sq ->
  length (lead ++ d :: x) <= f ->
  exists f',
    length x <= f'
    /\ repairLoop f (lead ++ d :: x) (mkR r ws false q false had)
       = repairLoop f' x
           (mkR (r ++ lead ++ [c_dq]) ws true
                (if ceq d c_dq then QDouble else QSingle) false
                (if ceq d c_dq then had else true)).
Proof.
  intros L D Hf.
  assert (Sd : isSpace d = false) by (destruct D as [-> | ->]; reflexivity).
  destruct f as [|f].
  { exfalso. destruct lead; cbn [app length] in Hf; lia. }
  exists f. destruct lead as [|c sp].
  - cbn [app length] in *. split; [lia|].
    destruct D as [-> | ->]; cbn -[span startsWith skipn isReserved];
      reflexivity.
  - cbn [keyLead] in L. apply andb_prop in L. destruct L as [Lc Ls].
    cbn [app length] in *. rewrite length_app in Hf. cbn [length] in Hf.
    split; [lia|].
    assert (C : ceq c c_dq = false /\ ceq c c_sq = false
                /\ ceq c c_bslash = false).
    { apply orb_prop in Lc. destruct Lc as [Lc|Lc]; apply ceq_eq in Lc;
        subst c; repeat split; reflexivity. }
    destruct C as (C1 & C2 & C3).
    cbn -[span startsWith skipn isReserved].
    rewrite C1, C2, C3, Lc. cbn [andb].
    rewrite (span_stop_here isSpace sp d x Ls Sd).
    destruct D as [-> | ->].
    + change (ceq c_dq c_dq) with true. cbv iota.
      rewrite <- !app_assoc. reflexivity.
    + change (ceq c_sq c_dq) with false. change (ceq c_sq c_sq) with true.
      cbv iota. rewrite <- !app_assoc. reflexivity.
Qed.

(** C7, as amended.  The quote pass of [repair] reproduces a
    double-quoted string literal unchanged, apostrophes and escapes
    included, however it comes to it: at the top of its loop, or in the
    branch that looks for a key after an opening brace or a comma (which
    is how it comes to every key of an object and to every element of an
    array after the first).  Standing outside any string before [lead],
    the opening quote, a content [w] and the closing quote, the loop
    appends [lead] and exactly that literal to the output, changes
    nothing else (no warning, no single-quote mark), and goes on after
    it; so the final output of the pass holds the literal as it was, and
    the pass returns a text made of [lead] and the literal as it is.
    (The textual removal of fences and comments before the pass, and of
    commas after it, do not know about strings.) *)
Theorem quote_pass_keeps_double_quoted (lead w rest r : str)
    (ws : list Warning) (q : quote) (had : bool) (f : nat) :
  keyLead lead = true -> dqContent false w = true ->
  length (lead ++ c_dq :: w ++ c_dq :: rest) <= f ->
  repairLoop f (lead ++ c_dq :: w ++ c_dq :: rest) (mkR r ws false q false had)
  = repairLoop (length rest) rest
      (mkR (r ++ lead ++ c_dq :: w ++ [c_dq]) ws false QNone false had)
  /\ (exists t,
        r_out (repairLoop f (lead ++ c_dq :: w ++ c_dq :: rest)
                 (mkR r ws false q false had))
        = r ++ lead ++ (c_dq :: w ++ [c_dq]) ++ t)
  /\ repairPass (lead ++ c_dq :: w ++ [c_dq]) ws
     = (lead ++ c_dq :: w ++ [c_dq], ws).
Proof.
  intros L Hw Hf.
  assert (H : forall r0 rest0 q0 had0 f0,
    length (lead ++ c_dq :: w ++ c_dq :: rest0) <= f0 ->
    repairLoop f0 (lead ++ c_dq :: w ++ c_dq :: rest0)
      (mkR r0 ws false q0 false had0)
    = repairLoop (length rest0) rest0
        (mkR (r0 ++ lead ++ c_dq :: w ++ [c_dq]) ws false QNone false had0)).
  { intros r0 rest0 q0 had0 f0 F.
    destruct (repairLoop_lead lead c_dq (w ++ c_dq :: rest0) r0 ws q0 had0 f0
                L (or_introl eq_refl) F) as (f' & F' & E).
    rewrite E. change (ceq c_dq c_dq) with true. cbv iota.
    rewrite (repairLoop_in_dq w false rest0 _ ws had0 f' (length rest0) Hw F');
      [|lia].
    rewrite <- !app_assoc. reflexivity. }
  split; [apply H, Hf|]. split.
  - rewrite (H r rest q had f Hf).
    destruct (repairLoop_out_grows (length rest) rest
                (mkR (r ++ lead ++ c_dq :: w ++ [c_dq]) ws false QNone false had))
      as [t Ht].
    exists t. rewrite Ht. cbn [r_out]. rewrite <- !app_assoc. reflexivity.
  - unfold repairPass, r_init.
    replace (lead ++ c_dq :: w ++ [c_dq]) with (lead ++ c_dq :: w ++ c_dq :: [])
      by reflexivity.
    rewrite (H [] [] QNone false _ (Nat.le_refl _)).
    cbn [length repairLoop r_out r_had r_warn app]. reflexivity.
Qed.

(** X18.  The quote pass rewrites a single-quoted literal as a
    double-quoted one, however it comes to it: at the top of its loop, or
    in the branch that looks for a key after an opening brace or a comma.
    Standing outside any string before [lead], a single quote, a content
    [w] and the closing quote, the loop appends [lead], a double quote,
    the converted content and a double quote, records that a single
    quote was seen, and goes on after the literal.  In the content an
    escaped single quote loses its backslash, a double quote gets one,
    and any other escaped character loses its backslash.  On [lead] and
    the literal alone, [repairPass] returns [lead] and the converted
    literal and pushes [single_quotes_replaced]. *)
Theorem quote_pass_converts_single_quoted (lead w rest r : str)
    (ws : list Warning) (q : quote) (had : bool) (f : nat) :
  keyLead lead = true -> sqContent false w = true ->
  length (lead ++ c_sq :: w ++ c_sq :: rest) <= f ->
  repairLoop f (lead ++ c_sq :: w ++ c_sq :: rest) (mkR r ws false q false had)
  = repairLoop (length rest) rest
      (mkR (r ++ lead ++ c_dq :: sqBody false w ++ [c_dq]) ws false QNone
           false true)
  /\ repairPass (lead ++ c_sq :: w ++ [c_sq]) ws
     = (lead ++ c_dq :: sqBody false w ++ [c_dq],
        ws ++ [warn single_quotes_replaced]).
Proof.
  intros L Hw Hf.
  assert (H : forall r0 rest0 q0 had0 f0,
    length (lead ++ c_sq :: w ++ c_sq :: rest0) <= f0 ->
    repairLoop f0 (lead ++ c_sq :: w ++ c_sq :: rest0)
      (mkR r0 ws false q0 false had0)
    = repairLoop (length rest0) rest0
        (mkR (r0 ++ lead ++ c_dq :: sqBody false w ++ [c_dq]) ws false QNone
             false true)).
  { intros r0 rest0 q0 had0 f0 F.
    destruct (repairLoop_lead lead c_sq (w ++ c_sq :: rest0) r0 ws q0 had0 f0
                L (or_intror eq_refl) F) as (f' & F' & E).
    rewrite E. change (ceq c_sq c_dq) with false. cbv iota.
    rewrite (repairLoop_in_sq w false rest0 _ ws true f' (length rest0) Hw F');
      [|lia].
    rewrite <- !app_assoc. reflexivity. }
  split; [apply H, Hf|].
  unfold repairPass, r_init.
  replace (lead ++ c_sq :: w ++ [c_sq]) with (lead ++ c_sq :: w ++ c_sq :: [])
    by reflexivity.
  rewrite (H [] [] QNone false _ (Nat.le_refl _)).
  cbn [length repairLoop r_out r_had r_warn app]. reflexivity.
Qed.

(** C7 at the second element of an array, which the pass reaches in the
    branch that looks for a key: an apostrophe in a double-quoted
    string. *)
Lemma quote_pass_keeps_double_quoted_witness :
  let lead := lit ", " in
  let w := lit "it's" in
  let rest := lit "]" in
  let r := jsq "[~a~" in
  keyLead lead = true
  /\ dqContent false w = true
  /\ length (lead ++ c_dq :: w ++ c_dq :: rest) <= 20
  /\ repairLoop 20 (lead ++ c_dq :: w ++ c_dq :: rest)
       (mkR r [] false QNone false false)
     = repairLoop (length rest) rest
         (mkR (r ++ lead ++ c_dq :: w ++ [c_dq]) [] false QNone false false).
Proof.
  cbv zeta.
  assert (Hl : keyLead (lit ", ") = true) by reflexivity.
  assert (Hw : dqContent false (lit "it's") = true) by reflexivity.
  assert (Hf : length (lit ", " ++ c_dq :: lit "it's" ++ c_dq :: lit "]") <= 20)
    by (vm_compute; lia).
  split; [exact Hl|]. split; [exact Hw|]. split; [exact Hf|].
  exact (proj1 (quote_pass_keeps_double_quoted (lit ", ") (lit "it's") (lit "]")
                  (jsq "[~a~") [] QNone false 20 Hl Hw Hf)).
Defined.

(** The whole pass on an array and on an object whose strings hold
    apostrophes. *)
Example repairPass_keeps_apostrophes :
  repairPass (jsq "[~a~, ~it's~]") [] = (jsq "[~a~, ~it's~]", [])
  /\ repairPass (jsq "{~it's~: ~user's data~, ~b~: ~'~}") []
     = (jsq "{~it's~: ~user's data~, ~b~: ~'~}", []).
Proof. vm_compute. split; reflexivity. Qed.

(** X18 at a key of an object, with an escaped single quote, double
    quotes and an escaped letter. *)
Lemma quote_pass_converts_single_quoted_witness :
  let lead := lit "{ " in
  let w := jsq "it\'s ~so~\n" in
  keyLead lead = true
  /\ sqContent false w = true
  /\ length (lead ++ c_sq :: w ++ c_sq :: lit ": 1}") <= 30
  /\ sqBody false w = jsq "it's \~so\~n"
  /\ repairPass (lead ++ c_sq :: w ++ [c_sq]) []
     = (lead ++ c_dq :: jsq "it's \~so\~n" ++ [c_dq],
        [warn single_quotes_replaced]).
Proof.
  cbv zeta.
  assert (Hl : keyLead (lit "{ ") = true) by reflexivity.
  assert (Hw : sqContent false (jsq "it\'s ~so~\n") = true) by reflexivity.
  assert (Hf : length (lit "{ " ++ c_sq :: jsq "it\'s ~so~\n"
                       ++ c_sq :: lit ": 1}") <= 30)
    by (vm_compute; lia).
  split; [exact Hl|]. split; [exact Hw|]. split; [exact Hf|].
  split; [reflexivity|].
  exact (proj2 (quote_pass_converts_single_quoted (lit "{ ")
                  (jsq "it\'s ~so~\n") (lit ": 1}") [] [] QNone false 30
                  Hl Hw Hf)).
Defined.

(** X19.  [repair] leaves alone a strictly valid text that is clean: it
    returns the text as it is, with no warning, and reports it valid. *)
Theorem repair_leaves_clean_json (o : str) (v : value) :
  JSON_parse o = Return v -> clean o = true ->
  repair o = mkRepair o [] true.
Proof. apply repair_fixed. Qed.

(** X19 at an object that holds an array. *)
Lemma repair_leaves_clean_json_witness :
  let o := jsq "{~a~: [~x~, -1]}" in
  JSON_parse o = Return (VObj [(lit "a", VArr [VStr (lit "x"); VNum (lit "-1")])])
  /\ clean o = true
  /\ repair o = mkRepair o [] true.
Proof.
  cbv zeta.
  assert (H1 : JSON_parse (jsq "{~a~: [~x~, -1]}")
               = Return (VObj [(lit "a", VArr [VStr (lit "x"); VNum (lit "-1")])]))
    by (vm_compute; reflexivity).
  assert (H2 : clean (jsq "{~a~: [~x~, -1]}") = true)
    by (vm_compute; reflexivity).
  split; [exact H1|]. split; [exact H2|].
  exact (repair_leaves_clean_json _ _ H1 H2).
Defined.

(** ** Validation *)

Lemma In_insertIndexed (x y : N * (str * value)) (l : list (N * (str * value))) :
  In y (insertIndexed x l) <-> y = x \/ In y l.
Proof.
  induction l as [|z l IH]; cbn [insertIndexed].
  - cbn. intuition congruence.
  - destruct (fst x <=? fst z)%N.
    + cbn. intuition congruence.
    + cbn [In]. rewrite IH. cbn. intuition congruence.
Qed.

Lemma In_indexed (ms : list (str * value)) (n : N) (kv : str * value) :
  In (n, kv) (indexed ms) <-> In kv ms /\ arrayIndex (fst kv) = Some n.
Proof.
  induction ms as [|kv0 ms IH]; cbn [indexed].
  - cbn. tauto.
  - destruct (arrayIndex (fst kv0)) as [m|] eqn:E.
    + rewrite In_insertIndexed, IH. cbn [In]. split.
      * intros [H|[H1 H2]]; [injection H as -> ->; auto | auto].
      * intros [[->|H1] H2]; [left; congruence | auto].
    + rewrite IH. cbn [In]. split.
      * intros [H1 H2]. auto.
      * intros [[->|H1] H2]; [congruence | auto].
Qed.

Lemma In_entries (ms : list (str * value)) (kv : str * value) :
  In kv (entries ms) <-> In kv ms.
Proof.
  unfold entries. rewrite in_app_iff, in_map_iff, filter_In. split.
  - intros [([n kv'] & E & H)|[H _]]; [|exact H].
    cbn in E. subst kv'. apply In_indexed in H. apply H.
  - intros H. destruct (arrayIndex (fst kv)) as [n|] eqn:E.
    + left. exists (n, kv). split; [reflexivity|].
      apply In_indexed. auto.
    + right. auto.
Qed.

Lemma flat_map_nil {A B : Type} (f : A -> list B) (l : list A) :
  flat_map f l = [] <-> forall x, In x l -> f x = [].
Proof.
  induction l as [|a l IH]; cbn [flat_map].
  - split; [intros _ x [] | reflexivity].
  - split.
    + intros H. apply app_eq_nil in H. destruct H as [H1 H2].
      intros x [<-|Hx]; [exact H1 | apply IH; assumption].
    + intros H. rewrite (H a (or_introl eq_refl)).
      apply IH. intros x Hx. apply H. right. exact Hx.
Qed.

Lemma existsb_str (x : str) (l : list str) :
  existsb (str_eqb x) l = true <-> In x l.
Proof.
  rewrite existsb_exists. split.
  - intros (y & H & E). apply str_eqb_eq in E. subst y. exact H.
  - intros H. exists x. split; [exact H | apply str_eqb_refl].
Qed.



Lemma hasOwn_In (k : str) (ms : list (str * value)) :
  hasOwn k ms = true <-> In k (map fst ms).
Proof.
  unfold hasOwn. rewrite existsb_exists, in_map_iff. split.
  - intros (kv & H & E). apply str_eqb_eq in E. exists kv. auto.
  - intros (kv & E & H). exists kv. split; [exact H|].
    rewrite E. apply str_eqb_refl.
Qed.

Lemma protoKey_In (k : str) : protoKey k = true <-> In k protoKeys.
Proof. apply existsb_str. Qed.

Lemma inObject_In (k : str) (ms : list (str * value)) :
  inObject k ms = true <-> In k (map fst ms) \/ In k protoKeys.
Proof. unfold inObject. rewrite orb_true_iff, hasOwn_In, protoKey_In. tauto. Qed.

Section ValidateFacts.

Variable numberOf : str -> jsnum.
Variable numberToString : jsnum -> str.

Local Notation vv := (validateValue numberOf numberToString).
Local Notation toStr := (valueToString numberOf numberToString).

(** [String(d)] returns or throws a [TypeError]. *)
Lemma valueToString_cases (d : value) :
  (exists x, toStr d = Return x) \/ toStr d = Throw TypeError.
Proof.
  induction d as [|b|t|x|xs IH|ms _] using value_induction;
    cbn [valueToString]; eauto.
  - destruct b; eauto.
  - generalize 0.
    induction IH as [|v r Hv _ IHr]; intros k; [eauto|].
    assert (E : (exists x, match v with
                           | VNull => Return []
                           | _ => valueToString numberOf numberToString v
                           end = Return x)
                \/ match v with
                   | VNull => Return []
                   | _ => valueToString numberOf numberToString v
                   end = Throw TypeError)
      by (destruct v; eauto).
    destruct E as [[x ->] | ->]; cbn [bind]; [|auto].
    destruct (IHr (S k)) as [[y ->] | ->]; cbn [bind]; eauto.
  - destruct (hasOwn (lit "toString") ms); eauto.
Qed.

(** It returns when no object in the value has a [toString] of its
    own. *)
Lemma valueToString_returns (d : value) :
  noToString d = true -> exists x, toStr d = Return x.
Proof.
  induction d as [|b|t|x|xs IH|ms _] using value_induction;
    cbn [valueToString noToString]; eauto.
  - destruct b; eauto.
  - generalize 0.
    induction IH as [|v r Hv _ IHr]; intros k N; [eauto|].
    apply andb_prop in N. destruct N as [N1 N2].
    assert (E : exists x, match v with
                          | VNull => Return []
                          | _ => valueToString numberOf numberToString v
                          end = Return x)
      by (destruct v; eauto).
    destruct E as [x ->]. cbn [bind].
    destruct (IHr (S k) N2) as [y ->]. cbn [bind]. eauto.
  - intros N. apply andb_prop in N. destruct N as [N _].
    apply negb_true_iff in N. rewrite N. eauto.
Qed.


Lemma flatMapM_cases {A B : Type} (f : A -> outcome (list B)) (l : list A) :
  (forall x, In x l ->
     (exists e, f x = Return e) \/ f x = Throw TypeError) ->
  (exists e, flatMapM f l = Return e) \/ flatMapM f l = Throw TypeError.
Proof.
  induction l as [|a l IH]; intros H; cbn [flatMapM]; [eauto|].
  destruct (H a (or_introl eq_refl)) as [[e ->] | ->]; cbn [bind]; [|auto].
  destruct IH as [[y ->] | ->]; cbn [bind]; eauto.
  intros x Hx. apply H. right. exact Hx.
Qed.

Lemma flatMapM_returns {A B : Type} (f : A -> outcome (list B)) (l : list A) :
  (forall x, In x l -> exists e, f x = Return e) ->
  exists e, flatMapM f l = Return e.
Proof.
  induction l as [|a l IH]; intros H; cbn [flatMapM]; [eauto|].
  destruct (H a (or_introl eq_refl)) as [e ->]. cbn [bind].
  destruct IH as [y ->]; cbn [bind]; eauto.
  intros x Hx. apply H. right. exact Hx.
Qed.

(** What the loop returns is empty exactly when every call returned the
    empty list. *)
Lemma flatMapM_nil {A B : Type} (f : A -> outcome (list B)) (l : list A)
    (e : list B) :
  flatMapM f l = Return e ->
  (forall x, In x l -> exists ex, f x = Return ex)
  /\ (e = [] <-> forall x, In x l -> f x = Return []).
Proof.
  revert e. induction l as [|a l IH]; intros e H; cbn [flatMapM] in H.
  - apply Return_inj in H. subst e. split; [intros x []|].
    split; [intros _ x [] | reflexivity].
  - apply bind_Return in H. destruct H as (ea & Ea & H).
    apply bind_Return in H. destruct H as (el & El & H).
    apply Return_inj in H. subst e.
    destruct (IH el El) as [R N]. split.
    + intros x [<-|Hx]; [eauto | apply R, Hx].
    + split.
      * intros E. apply app_eq_nil in E. destruct E as [-> ->].
        intros x [<-|Hx]; [exact Ea | apply N; [reflexivity | exact Hx]].
      * intros K. pose proof (K a (or_introl eq_refl)) as Ka.
        rewrite Ea in Ka. apply Return_inj in Ka. subst ea.
        cbn [app]. apply N. intros x Hx. apply K. right. exact Hx.
Qed.


Lemma validateObject_eq (ms : list (str * value)) (props : list (str * Schema))
    (req : option (list str)) (addl : option bool) (p : str) :
  vv (VObj ms) (ObjectSchema props req addl) p
  = (e2 <- flatMapM (lookProperty numberOf numberToString props addl p) (entries ms) ;;
     Return (flat_map
               (fun k =>
                  if inObject k ms then []
                  else [mkVE (subPath p k) missing_required (lit "Missing " ++ k)
                             (Some k) None])
               (match req with Some r => r | None => [] end) ++ e2)).
Proof.
  cbn [validateValue].
  assert (E : forall l, flatMapM
    (fun kv =>
       (fix look (ps : list (str * Schema)) : outcome (list ValidationError) :=
          match ps with
          | (k', sc) :: r =>
              if str_eqb (fst kv) k'
              then validateValue numberOf numberToString (snd kv) sc
                     (subPath p (fst kv))
              else look r
          | [] =>
              if protoKey (fst kv) then Return []
              else match addl with
                   | Some false =>
                       Return [mkVE (subPath p (fst kv)) type_error
                                 (lit "Unknown property " ++ fst kv) None None]
                   | _ => Return []
                   end
          end) props) l
    = flatMapM (lookProperty numberOf numberToString props addl p) l).
  { induction l as [|kv l IH]; [reflexivity|].
    cbn [flatMapM]. rewrite IH. f_equal.
    unfold lookProperty. clear.
    induction props as [|[k' sc] r IHr]; [reflexivity|].
    cbn [declared]. destruct (str_eqb (fst kv) k'); [reflexivity | exact IHr]. }
  rewrite E. reflexivity.
Qed.




Lemma validateArray_eq (xs : list value) (items : Schema)
    (mn mx : option jsnum) (p : str) :
  vv (VArr xs) (ArraySchema items mn mx) p
  = (e3 <- eachItem numberOf numberToString items p 0 xs ;;
     Return (minError numberToString p (length xs) mn ++ maxError numberToString p (length xs) mx ++ e3)).
Proof.
  cbn [validateValue].
  assert (E : forall l i,
    (fix each (i : nat) (vs : list value) : outcome (list ValidationError) :=
       match vs with
       | [] => Return []
       | v :: r =>
           a <- validateValue numberOf numberToString v items
                  (subPath p (indexText i)) ;;
           b <- each (S i) r ;;
           Return (a ++ b)
       end) i l = eachItem numberOf numberToString items p i l).
  { induction l as [|v l IH]; intros i; [reflexivity|].
    cbn [eachItem]. rewrite IH. reflexivity. }
  rewrite E. reflexivity.
Qed.


Lemma validateUnion_eq (d : value) (vs : list Schema) (p : str) :
  vv d (UnionSchema vs) p = firstMatch numberOf numberToString d p vs.
Proof.
  cbn [validateValue].
  induction vs as [|v r IH]; [reflexivity|].
  cbn [firstMatch]. rewrite <- IH. reflexivity.
Qed.


Lemma declared_Forall (P : Schema -> Prop) (props : list (str * Schema))
    (k : str) (sc : Schema) :
  Forall (fun ks => P (snd ks)) props -> declared props k = Some sc -> P sc.
Proof.
  induction 1 as [|[k' sc'] r H _ IH]; cbn [declared]; [discriminate|].
  destruct (str_eqb k k'); [|exact IH].
  intros E. injection E as <-. exact H.
Qed.

Lemma subPath_app (q p k : str) : subPath (q ++ p) k = q ++ subPath p k.
Proof. unfold subPath. rewrite <- app_assoc. reflexivity. Qed.

(** X21.  The errors follow the base path: validating under the path
    [q ++ p] does what validating under [p] does, the errors that are
    returned being the same, in the same order, with [q] put in front of
    every path and nothing else changed. *)
Theorem validate_base_path (s : Schema) : forall d q p,
  vv d s (q ++ p) = onReturn (map (reroot q)) (vv d s p).
Proof.
  induction s as [t e|items mn mx IH|props req addl IH|vs IH|l]
    using Schema_induction; intros d q p.
  - destruct t; cbn [validateValue]; destruct d; try reflexivity.
    unfold checkEnum. destruct e as [e'|]; [|reflexivity].
    destruct (negb (existsb (str_eqb s) e')); reflexivity.
  - destruct d; try reflexivity.
    rewrite !validateArray_eq.
    assert (E : forall i, eachItem numberOf numberToString items (q ++ p) i xs
                          = onReturn (map (reroot q)) (eachItem numberOf numberToString items p i xs)).
    { induction xs as [|v r IHr]; intros i; [reflexivity|].
      cbn [eachItem]. rewrite subPath_app, IH, IHr.
      destruct (vv v items (subPath p (indexText i))) as [a| |];
        cbn [bind onReturn]; try reflexivity.
      destruct (eachItem numberOf numberToString items p (S i) r) as [b| |];
        cbn [bind onReturn]; try reflexivity.
      rewrite map_app. reflexivity. }
    rewrite E.
    destruct (eachItem numberOf numberToString items p 0 xs) as [e3| |]; cbn [bind onReturn];
      try reflexivity.
    rewrite !map_app. f_equal. f_equal; [|f_equal].
    + unfold minError. destruct mn as [n|]; [|reflexivity].
      destruct (lengthBelow (length xs) n); reflexivity.
    + unfold maxError. destruct mx as [n|]; [|reflexivity].
      destruct (lengthAbove (length xs) n); reflexivity.
  - destruct d; try reflexivity.
    rewrite !validateObject_eq.
    assert (E : forall l, flatMapM (lookProperty numberOf numberToString props addl (q ++ p)) l
                = onReturn (map (reroot q))
                    (flatMapM (lookProperty numberOf numberToString props addl p) l)).
    { induction l as [|kv l IHl]; [reflexivity|].
      cbn [flatMapM]. rewrite IHl.
      assert (L : lookProperty numberOf numberToString props addl (q ++ p) kv
                  = onReturn (map (reroot q)) (lookProperty numberOf numberToString props addl p kv)).
      { unfold lookProperty. rewrite subPath_app.
        destruct (declared props (fst kv)) as [sc|] eqn:D.
        - exact (declared_Forall
                   (fun s => forall d q p,
                      vv d s (q ++ p) = onReturn (map (reroot q)) (vv d s p))
                   props (fst kv) sc IH D _ _ _).
        - destruct (protoKey (fst kv)); [reflexivity|].
          destruct addl as [[|]|]; reflexivity. }
      rewrite L.
      destruct (lookProperty numberOf numberToString props addl p kv) as [a| |];
        cbn [bind onReturn]; try reflexivity.
      destruct (flatMapM (lookProperty numberOf numberToString props addl p) l) as [b| |];
        cbn [bind onReturn]; try reflexivity.
      rewrite map_app. reflexivity. }
    rewrite E.
    destruct (flatMapM (lookProperty numberOf numberToString props addl p) (entries ms)) as [e2| |];
      cbn [bind onReturn]; try reflexivity.
    rewrite map_app. f_equal. f_equal.
    induction (match req with Some r => r | None => [] end) as [|k r IHr];
      [reflexivity|].
    cbn [flat_map]. rewrite map_app, IHr. f_equal.
    destruct (inObject k ms); [reflexivity|].
    cbn [map]. unfold reroot. cbn. rewrite subPath_app. reflexivity.
  - rewrite !validateUnion_eq.
    induction IH as [|v r Hv _ IHr]; cbn [firstMatch].
    + destruct (toStr d); reflexivity.
    + rewrite Hv. destruct (vv d v p) as [e| |]; cbn [bind onReturn];
        try reflexivity.
      destruct e; cbn [map isNil]; [reflexivity | exact IHr].
  - cbn [validateValue].
    destruct (strictEq numberOf d l); [reflexivity|].
    destruct (valueToString numberOf numberToString d); reflexivity.
Qed.

(** X22.  Every error that [validateValue] returns has the code
    [type_error] or [missing_required], and its path is the base path or
    lies under it (the base path, a slash, and more). *)
Theorem validate_error_codes_and_paths (s : Schema) : forall d p errs,
  vv d s p = Return errs ->
  Forall (fun e => validationCode e /\ pathUnder p e) errs.
Proof.
  assert (T : forall p m e a,
             validationCode (typeError p m e a)
             /\ pathUnder p (typeError p m e a)).
  { intros. split; left; reflexivity. }
  assert (One : forall p m e a errs,
             Return [typeError p m e a] = Return errs ->
             Forall (fun e => validationCode e /\ pathUnder p e) errs).
  { intros p m e a errs H. apply Return_inj in H. subst errs.
    constructor; [apply T | constructor]. }
  assert (Zero : forall p errs,
             @Return (list ValidationError) [] = Return errs ->
             Forall (fun e => validationCode e /\ pathUnder p e) errs).
  { intros p errs H. apply Return_inj in H. subst errs. constructor. }
  assert (Under : forall p k e, pathUnder (subPath p k) e -> pathUnder p e).
  { intros p k e [H|[r H]]; right.
    - exists k. exact H.
    - exists (k ++ c_slash :: r). rewrite H. unfold subPath.
      rewrite <- app_assoc. reflexivity. }
  assert (Weak : forall p k l,
             Forall (fun e => validationCode e /\ pathUnder (subPath p k) e) l ->
             Forall (fun e => validationCode e /\ pathUnder p e) l).
  { intros p k l H. eapply Forall_impl; [|exact H].
    intros e [H1 H2]. split; [exact H1 | eapply Under; exact H2]. }
  induction s as [t e|items mn mx IH|props req addl IH|vs IH|l]
    using Schema_induction; intros d p errs.
  - destruct t; cbn [validateValue]; destruct d;
      try apply One; try apply Zero.
    intros H. apply Return_inj in H. subst errs.
    unfold checkEnum. destruct e as [e'|]; [|constructor].
    destruct (negb (existsb (str_eqb s) e'));
      [constructor; [apply T | constructor] | constructor].
  - destruct d; try apply One.
    rewrite validateArray_eq. intros H.
    apply bind_Return in H. destruct H as (e3 & E & H).
    apply Return_inj in H. subst errs.
    apply Forall_app. split; [|apply Forall_app; split].
    + unfold minError. destruct mn as [n|]; [|constructor].
      destruct (lengthBelow (length xs) n);
        [constructor; [apply T | constructor] | constructor].
    + unfold maxError. destruct mx as [n|]; [|constructor].
      destruct (lengthAbove (length xs) n);
        [constructor; [apply T | constructor] | constructor].
    + revert e3 E. generalize 0.
      induction xs as [|v r IHr]; intros i e3 E; cbn [eachItem] in E.
      * apply Return_inj in E. subst e3. constructor.
      * apply bind_Return in E. destruct E as (a & Ea & E).
        apply bind_Return in E. destruct E as (b & Eb & E).
        apply Return_inj in E. subst e3.
        apply Forall_app. split; [|eapply IHr; exact Eb].
        eapply Weak. eapply IH. exact Ea.
  - destruct d; try apply One.
    rewrite validateObject_eq. intros H.
    apply bind_Return in H. destruct H as (e2 & E & H).
    apply Return_inj in H. subst errs.
    apply Forall_app. split.
    + induction (match req with Some r => r | None => [] end) as [|k r IHr];
        [constructor|].
      cbn [flat_map]. apply Forall_app. split; [|exact IHr].
      destruct (inObject k ms); [constructor|].
      constructor; [|constructor].
      split; [right; reflexivity | right; exists k; reflexivity].
    + revert e2 E.
      induction (entries ms) as [|kv r IHr]; intros e2 E; cbn [flatMapM] in E.
      * apply Return_inj in E. subst e2. constructor.
      * apply bind_Return in E. destruct E as (a & Ea & E).
        apply bind_Return in E. destruct E as (b & Eb & E).
        apply Return_inj in E. subst e2.
        apply Forall_app. split; [|eapply IHr; exact Eb].
        unfold lookProperty in Ea.
        destruct (declared props (fst kv)) as [sc|] eqn:D.
        -- eapply Weak.
           exact (declared_Forall
                    (fun s => forall d p errs, vv d s p = Return errs ->
                       Forall (fun e => validationCode e /\ pathUnder p e) errs)
                    props (fst kv) sc IH D _ _ _ Ea).
        -- destruct (protoKey (fst kv)).
           { apply Return_inj in Ea. subst a. constructor. }
           destruct addl as [[|]|]; apply Return_inj in Ea; subst a;
             try constructor; [|constructor].
           split; [left; reflexivity | right; exists (fst kv); reflexivity].
  - rewrite validateUnion_eq.
    induction IH as [|v r Hv _ IHr]; cbn [firstMatch]; intros H.
    + apply bind_Return in H. destruct H as (a & _ & H).
      eapply One. exact H.
    + apply bind_Return in H. destruct H as (e & _ & H).
      destruct (isNil e); [eapply Zero; exact H | apply IHr; exact H].
  - cbn [validateValue].
    destruct (strictEq numberOf d l); [apply Zero|].
    intros H. apply bind_Return in H. destruct H as (a & _ & H).
    eapply One. exact H.
Qed.


Lemma noToString_arr (xs : list value) :
  noToString (VArr xs) = true -> Forall (fun x => noToString x = true) xs.
Proof.
  cbn [noToString]. induction xs as [|v r IH]; intros H; [constructor|].
  apply andb_prop in H. destruct H as [H1 H2].
  constructor; [exact H1 | apply IH, H2].
Qed.

Lemma noToString_obj (ms : list (str * value)) :
  noToString (VObj ms) = true ->
  hasOwn (lit "toString") ms = false
  /\ Forall (fun kv => noToString (snd kv) = true) ms.
Proof.
  cbn [noToString]. intros H. apply andb_prop in H. destruct H as [H1 H2].
  split; [apply negb_true_iff, H1|]. clear H1.
  induction ms as [|kv r IH]; [constructor|].
  apply andb_prop in H2. destruct H2 as [H2 H3].
  constructor; [exact H2 | apply IH, H3].
Qed.

(** [validateValue] returns or throws a [TypeError]. *)
Lemma validate_cases (s : Schema) : forall d p,
  (exists errs, vv d s p = Return errs) \/ vv d s p = Throw TypeError.
Proof.
  induction s as [t e|items mn mx IH|props req addl IH|vs IH|l]
    using Schema_induction; intros d p.
  - left. destruct t; cbn [validateValue]; destruct d; eauto.
  - destruct d; try (left; cbn [validateValue]; eauto; fail).
    rewrite validateArray_eq.
    assert (E : forall i, (exists e, eachItem numberOf numberToString items p i xs = Return e)
                          \/ eachItem numberOf numberToString items p i xs = Throw TypeError).
    { induction xs as [|v r IHr]; intros i; cbn [eachItem]; [eauto|].
      destruct (IH v (subPath p (indexText i))) as [[a ->] | ->];
        cbn [bind]; [|auto].
      destruct (IHr (S i)) as [[b ->] | ->]; cbn [bind]; eauto. }
    destruct (E 0) as [[e3 ->] | ->]; cbn [bind]; eauto.
  - destruct d; try (left; cbn [validateValue]; eauto; fail).
    rewrite validateObject_eq.
    destruct (flatMapM_cases (lookProperty numberOf numberToString props addl p) (entries ms))
      as [[e2 ->] | ->]; cbn [bind]; eauto.
    intros kv _. unfold lookProperty.
    destruct (declared props (fst kv)) as [sc|] eqn:D.
    + exact (declared_Forall
               (fun s => forall d p,
                  (exists errs, vv d s p = Return errs)
                  \/ vv d s p = Throw TypeError)
               props (fst kv) sc IH D _ _).
    + destruct (protoKey (fst kv)); [eauto|].
      destruct addl as [[|]|]; eauto.
  - rewrite validateUnion_eq.
    induction IH as [|v r Hv _ IHr]; cbn [firstMatch].
    + destruct (valueToString_cases d) as [[a ->] | ->]; cbn [bind]; eauto.
    + destruct (Hv d p) as [[e ->] | ->]; cbn [bind]; [|auto].
      destruct (isNil e); [eauto | exact IHr].
  - cbn [validateValue].
    destruct (strictEq numberOf d l); [eauto|].
    destruct (valueToString_cases d) as [[a E] | E]; rewrite E; cbn [bind]; eauto.
Qed.

(** It returns when no object in the data has a [toString] of its own. *)
Lemma validate_returns (s : Schema) : forall d p,
  noToString d = true -> exists errs, vv d s p = Return errs.
Proof.
  induction s as [t e|items mn mx IH|props req addl IH|vs IH|l]
    using Schema_induction; intros d p N.
  - destruct t; cbn [validateValue]; destruct d; eauto.
  - destruct d; try (cbn [validateValue]; eauto; fail).
    rewrite validateArray_eq.
    apply noToString_arr in N.
    assert (E : forall i, exists e, eachItem numberOf numberToString items p i xs = Return e).
    { induction N as [|v r Nv _ IHr]; intros i; cbn [eachItem]; [eauto|].
      destruct (IH v (subPath p (indexText i)) Nv) as [a ->]. cbn [bind].
      destruct (IHr (S i)) as [b ->]. cbn [bind]. eauto. }
    destruct (E 0) as [e3 ->]. cbn [bind]. eauto.
  - destruct d; try (cbn [validateValue]; eauto; fail).
    rewrite validateObject_eq.
    apply noToString_obj in N. destruct N as [_ N].
    destruct (flatMapM_returns (lookProperty numberOf numberToString props addl p) (entries ms))
      as [e2 ->]; cbn [bind]; eauto.
    intros kv Hk. apply (proj1 (In_entries ms kv)) in Hk.
    rewrite Forall_forall in N. specialize (N kv Hk).
    unfold lookProperty.
    destruct (declared props (fst kv)) as [sc|] eqn:D.
    + exact (declared_Forall
               (fun s => forall d p, noToString d = true ->
                  exists errs, vv d s p = Return errs)
               props (fst kv) sc IH D _ _ N).
    + destruct (protoKey (fst kv)); [eauto|].
      destruct addl as [[|]|]; eauto.
  - rewrite validateUnion_eq.
    induction IH as [|v r Hv _ IHr]; cbn [firstMatch].
    + destruct (valueToString_returns d N) as [a ->]. cbn [bind]. eauto.
    + destruct (Hv d p N) as [e ->]. cbn [bind].
      destruct (isNil e); [eauto | exact IHr].
  - cbn [validateValue].
    destruct (strictEq numberOf d l); [eauto|].
    destruct (valueToString_returns d N) as [a E]. rewrite E. cbn [bind]. eauto.
Qed.

Lemma plainSchema_obj (props : list (str * Schema)) (req : option (list str))
    (addl : option bool) :
  plainSchema (ObjectSchema props req addl) = true ->
  Forall (fun ks => plainSchema (snd ks) = true) props.
Proof.
  cbn [plainSchema]. induction props as [|ks r IH]; intros H; [constructor|].
  apply andb_prop in H. destruct H as [H1 H2].
  constructor; [exact H1 | apply IH, H2].
Qed.

(** Against a schema without union and without literal, [validateValue]
    returns on every value. *)
Lemma validate_plain_returns (s : Schema) :
  plainSchema s = true -> forall d p, exists errs, vv d s p = Return errs.
Proof.
  induction s as [t e|items mn mx IH|props req addl IH|vs IH|l]
    using Schema_induction; intros N d p; try discriminate N.
  - destruct t; cbn [validateValue]; destruct d; eauto.
  - destruct d; try (cbn [validateValue]; eauto; fail).
    rewrite validateArray_eq. cbn [plainSchema] in N.
    assert (E : forall i, exists e,
                eachItem numberOf numberToString items p i xs = Return e).
    { induction xs as [|v r IHr]; intros i; cbn [eachItem]; [eauto|].
      destruct (IH N v (subPath p (indexText i))) as [a ->]. cbn [bind].
      destruct (IHr (S i)) as [b ->]. cbn [bind]. eauto. }
    destruct (E 0) as [e3 ->]. cbn [bind]. eauto.
  - destruct d; try (cbn [validateValue]; eauto; fail).
    rewrite validateObject_eq.
    apply plainSchema_obj in N.
    destruct (flatMapM_returns
                (lookProperty numberOf numberToString props addl p) (entries ms))
      as [e2 ->]; cbn [bind]; eauto.
    intros kv _. unfold lookProperty.
    destruct (declared props (fst kv)) as [sc|] eqn:D.
    + assert (K : plainSchema sc = true
                  /\ (plainSchema sc = true ->
                      forall d p, exists errs, vv d sc p = Return errs)).
      { clear - IH N D. induction props as [|[k' sc'] r IHr]; [discriminate D|].
        cbn [declared] in D. inversion IH; subst. inversion N; subst.
        destruct (str_eqb (fst kv) k').
        - injection D as <-. split; assumption.
        - apply IHr; assumption. }
      destruct K as [K1 K2]. apply K2, K1.
    + destruct (protoKey (fst kv)); [eauto|].
      destruct addl as [[|]|]; eauto.
Qed.

Lemma strictEq_conforms (d : value) (l : LiteralValue) :
  strictEq numberOf d l = true <-> conforms numberOf d (LiteralSchema l).
Proof.
  split.
  - destruct d, l; cbn [strictEq]; intros H; try discriminate.
    + constructor.
    + apply eqb_prop in H. subst. constructor.
    + constructor. exact H.
    + apply str_eqb_eq in H. subst. constructor.
  - intros H. inversion H; subst; cbn [strictEq].
    + apply str_eqb_refl.
    + assumption.
    + apply eqb_reflx.
    + reflexivity.
Qed.

Lemma conforms_union_iff (d : value) (vs : list Schema) :
  conforms numberOf d (UnionSchema vs)
  <-> exists v, In v vs /\ conforms numberOf d v.
Proof.
  split.
  - intros H. inversion H; subst. eauto.
  - intros (v & Hv & C). econstructor; eassumption.
Qed.

(** When the validation returns, it returns no error exactly when the
    value conforms to the schema. *)
Lemma validate_conforms (s : Schema) : forall d p errs,
  vv d s p = Return errs -> (errs = [] <-> conforms numberOf d s).
Proof.
  assert (One : forall (e : ValidationError) errs C,
             Return [e] = Return errs -> ~ C -> (errs = [] <-> C)).
  { intros e errs C H N. apply Return_inj in H. subst errs.
    split; [discriminate | intros K; contradiction]. }
  induction s as [t e|items mn mx IH|props req addl IH|vs IH|l]
    using Schema_induction; intros d p errs.
  - (* primitive *)
    destruct t; cbn [validateValue]; destruct d;
      try (intros H; eapply One; [exact H | intros K; inversion K]; fail);
      intros H; apply Return_inj in H; subst errs.
    + unfold checkEnum. destruct e as [e'|].
      * destruct (existsb (str_eqb s) e') eqn:E; cbn [negb].
        -- split; [|reflexivity]. intros _. constructor.
           intros l0 H. injection H as <-. apply existsb_str. exact E.
        -- split; [discriminate|]. intros K. inversion K as [|? ? He| | | | | | | | |]; subst.
           specialize (He e' eq_refl). apply existsb_str in He. congruence.
      * split; [|reflexivity]. intros _. constructor. discriminate.
    + split; [intros _; constructor | reflexivity].
    + split; [intros _; constructor | reflexivity].
    + split; [intros _; constructor | reflexivity].
  - (* array *)
    destruct d;
      try (cbn [validateValue]; intros H; eapply One;
           [exact H | intros K; inversion K]; fail).
    rewrite validateArray_eq. intros H.
    apply bind_Return in H. destruct H as (e3 & E & H).
    apply Return_inj in H. subst errs.
    assert (A : e3 = [] <-> Forall (fun x => conforms numberOf x items) xs).
    { revert e3 E. generalize 0.
      induction xs as [|v r IHr]; intros i e3 E; cbn [eachItem] in E.
      - apply Return_inj in E. subst e3. split; [constructor | reflexivity].
      - apply bind_Return in E. destruct E as (a & Ea & E).
        apply bind_Return in E. destruct E as (b & Eb & E).
        apply Return_inj in E. subst e3.
        pose proof (IH v _ a Ea) as Ha. pose proof (IHr _ b Eb) as Hb.
        split.
        + intros K. apply app_eq_nil in K. destruct K as [-> ->].
          constructor; [apply Ha | apply Hb]; reflexivity.
        + intros K. inversion K; subst.
          rewrite (proj2 Ha), (proj2 Hb) by assumption. reflexivity. }
    split.
    + intros K. apply app_eq_nil in K. destruct K as [K1 K].
      apply app_eq_nil in K. destruct K as [K2 K3].
      constructor.
      * intros n ->. unfold minError in K1.
        destruct (lengthBelow (length xs) n); [discriminate | reflexivity].
      * intros n ->. unfold maxError in K2.
        destruct (lengthAbove (length xs) n); [discriminate | reflexivity].
      * apply A, K3.
    + intros K. inversion K as [| | | |? ? ? ? H1 H2 H3| | | | | |]; subst.
      rewrite (proj2 A H3). unfold minError, maxError.
      destruct mn as [n|]; [rewrite (H1 n eq_refl)|];
        (destruct mx as [m|]; [rewrite (H2 m eq_refl)|]); reflexivity.
  - (* object *)
    destruct d;
      try (cbn [validateValue]; intros H; eapply One;
           [exact H | intros K; inversion K]; fail).
    rewrite validateObject_eq. intros H.
    apply bind_Return in H. destruct H as (e2 & E & H).
    apply Return_inj in H. subst errs.
    destruct (flatMapM_nil _ _ _ E) as [R N].
    assert (L : forall kv, In kv ms ->
              forall a, lookProperty numberOf numberToString props addl p kv = Return a ->
              (a = [] <->
               match declared props (fst kv) with
               | Some sc => conforms numberOf (snd kv) sc
               | None => In (fst kv) protoKeys \/ addl <> Some false
               end)).
    { intros kv Hk a Ea. unfold lookProperty in Ea.
      destruct (declared props (fst kv)) as [sc|] eqn:D.
      - exact (declared_Forall
                 (fun s => forall d p errs, vv d s p = Return errs ->
                    (errs = [] <-> conforms numberOf d s))
                 props (fst kv) sc IH D _ _ _ Ea).
      - destruct (protoKey (fst kv)) eqn:Pk.
        + apply Return_inj in Ea. subst a.
          split; [intros _; left; apply protoKey_In, Pk | reflexivity].
        + assert (Np : ~ In (fst kv) protoKeys)
            by (intros K; apply protoKey_In in K; congruence).
          destruct addl as [[|]|]; apply Return_inj in Ea; subst a.
          * split; [intros _; right; discriminate | reflexivity].
          * split; [discriminate | intros [K|K]; [contradiction | congruence]].
          * split; [intros _; right; discriminate | reflexivity]. }
    split.
    + intros K. apply app_eq_nil in K. destruct K as [K1 K2].
      constructor.
      * intros l0 k -> Hk. apply inObject_In.
        rewrite flat_map_nil in K1. specialize (K1 k Hk).
        destruct (inObject k ms); [reflexivity | discriminate].
      * intros k v sc Hk D.
        pose proof (proj1 N K2 (k, v) (proj2 (In_entries ms (k, v)) Hk)) as Ea.
        pose proof (proj1 (L (k, v) Hk [] Ea) eq_refl) as C.
        cbn [fst snd] in C. rewrite D in C. exact C.
      * intros k v Hk D.
        pose proof (proj1 N K2 (k, v) (proj2 (In_entries ms (k, v)) Hk)) as Ea.
        pose proof (proj1 (L (k, v) Hk [] Ea) eq_refl) as C.
        cbn [fst snd] in C. rewrite D in C. exact C.
    + intros K. inversion K as [| | | | |? ? ? ? H1 H2 H3| | | | |]; subst.
      replace (flat_map _ (match req with Some r => r | None => [] end))
        with (@nil ValidationError).
      * cbn [app]. apply N. intros kv Hk.
        destruct (R kv Hk) as [a Ea]. rewrite Ea. f_equal.
        apply (proj1 (In_entries ms kv)) in Hk.
        apply (L kv Hk a Ea). destruct kv as [k v]. cbn [fst snd].
        destruct (declared props k) as [sc|] eqn:D.
        -- apply (H2 k v sc Hk D).
        -- apply (H3 k v Hk D).
      * symmetry. apply flat_map_nil. intros k Hk.
        destruct req as [r|]; [|destruct Hk].
        rewrite (proj2 (inObject_In k ms) (H1 r k eq_refl Hk)). reflexivity.
  - (* union *)
    rewrite validateUnion_eq, conforms_union_iff.
    induction IH as [|v r Hv _ IHr]; cbn [firstMatch]; intros H.
    + apply bind_Return in H. destruct H as (a & _ & H).
      apply Return_inj in H. subst errs.
      split; [discriminate | intros (v & [] & _)].
    + apply bind_Return in H. destruct H as (e & Ev & H).
      pose proof (Hv d p e Ev) as C.
      destruct e as [|e0 e'] eqn:Ee; cbn [isNil] in H.
      * apply Return_inj in H. subst errs.
        split; [|reflexivity]. intros _. exists v.
        split; [left; reflexivity | apply C; reflexivity].
      * rewrite (IHr H). split.
        -- intros (v' & Hv' & C'). exists v'. split; [right; exact Hv' | exact C'].
        -- intros (v' & [<-|Hv'] & C').
           ++ apply C in C'. discriminate.
           ++ exists v'. split; [exact Hv' | exact C'].
  - (* literal *)
    cbn [validateValue]. rewrite <- strictEq_conforms.
    destruct (strictEq numberOf d l); intros H.
    + apply Return_inj in H. subst errs. split; reflexivity.
    + apply bind_Return in H. destruct H as (a & _ & H).
      apply Return_inj in H. subst errs. split; discriminate.
Qed.




(** X20.  When [validateValue] returns, it returns no error exactly when
    the value conforms to the schema, whatever the base path.  It returns
    whenever no object in the value has a property of its own named
    [toString]; otherwise it may throw, and what it throws is the
    [TypeError] of [String(d)]. *)
Theorem validate_conforms_iff (d : value) (s : Schema) (p : str) :
  (forall errs, vv d s p = Return errs ->
     (errs = [] <-> conforms numberOf d s))
  /\ (noToString d = true -> exists errs, vv d s p = Return errs)
  /\ (forall e, vv d s p = Throw e -> e = TypeError /\ noToString d = false)
  /\ vv d s p <> OutOfFuel.
Proof.
  split; [intros errs; apply validate_conforms|].
  split; [apply validate_returns|].
  split.
  - intros e H. split.
    + destruct (validate_cases s d p) as [[errs E] | E]; congruence.
    + destruct (noToString d) eqn:N; [|reflexivity].
      destruct (validate_returns s d p N) as [errs E]. congruence.
  - destruct (validate_cases s d p) as [[errs E] | E]; congruence.
Qed.

End ValidateFacts.

Section Checked.

Variable numberOf : str -> jsnum.
Variable numberToString : jsnum -> str.
Variable stringifyErrors : option (list ValidationError) -> str.

Local Notation vv := (validateValue numberOf numberToString).
Let parseV := parse vv stringifyErrors.
Let writeV := write vv stringifyErrors.
Let finishV := finish vv stringifyErrors.
Let parseWithSchemaV :=
  parseWithSchema Schema ValidationError vv stringifyErrors.

Lemma validate_no_fuel (d : value) (s : Schema) (p : str) :
  vv d s p <> OutOfFuel.
Proof.
  destruct (validate_cases numberOf numberToString s d p) as [[errs E] | E];
    congruence.
Qed.

Lemma process_cases (schema : option Schema) (st : session) :
  (exists r, process vv stringifyErrors schema st = Return r)
  \/ process vv stringifyErrors schema st = Throw TypeError.
Proof.
  rewrite process_filter.
  destruct (process_returns Schema ValidationError vv stringifyErrors st)
    as [r ->].
  cbn [bind]. unfold checkSchema.
  destruct r as [d w|e p]; [|eauto].
  destruct schema as [sc|]; [|eauto].
  unfold validate.
  destruct (validate_cases numberOf numberToString sc d []) as [[errs E] | E];
    rewrite E; cbn [bind]; eauto.
Qed.

(** X23.  A [Success] of [parseWithSchema] carries data that conforms to
    the schema.  And when [parse] without a schema returns a [Success]
    whose data holds no object with a property of its own named
    [toString], [parseWithSchema] returns the same [Success] if the data
    conforms to the schema, and otherwise the [schema_mismatch] failure
    whose context is the printed list of the errors of the validation,
    which is not empty. *)
Theorem parseWithSchema_conforms (input : str) (sc : Schema) :
  (forall d w, parseWithSchemaV input sc = Return (Success d w) ->
     conforms numberOf d sc)
  /\ (forall d w,
        parseV input None = Return (Success d w) -> noToString d = true ->
        (conforms numberOf d sc ->
         parseWithSchemaV input sc = Return (Success d w))
        /\ (~ conforms numberOf d sc ->
            exists errs,
              errs <> [] /\ vv d sc [] = Return errs
              /\ parseWithSchemaV input sc
                 = Return (Failure
                             (mkError schema_mismatch (Text "Schema mismatch")
                                (Some (stringifyErrors (Some errs))))
                             None))).
Proof.
  unfold parseWithSchemaV, parseWithSchema. split.
  - intros d w H.
    destruct (parse_success_shape Schema ValidationError vv stringifyErrors
                input (Some sc) d w H) as (_ & _ & V).
    specialize (V sc eq_refl).
    apply (validate_conforms numberOf numberToString sc d [] [] V).
    reflexivity.
  - intros d w H N.
    destruct (validate_returns numberOf numberToString sc d [] N) as [errs E].
    pose proof (validate_conforms numberOf numberToString sc d [] errs E) as C.
    assert (K : checkSchema Schema ValidationError vv stringifyErrors
                  (Some sc) (Success d w)
                = Return (match errs with
                          | [] => Success d w
                          | _ =>
                              Failure
                                (mkError schema_mismatch (Text "Schema mismatch")
                                   (Some (stringifyErrors (Some errs)))) None
                          end)).
    { unfold checkSchema, validate. rewrite E. cbn [bind].
      destruct errs; reflexivity. }
    pose proof (parse_filter Schema ValidationError vv stringifyErrors input
                  (Some sc) _ _ H K) as R.
    split.
    + intros Cf. apply C in Cf. subst errs. exact R.
    + intros Nc. exists errs. split; [|split; [exact E|]].
      * intros Z. apply Nc, C, Z.
      * destruct errs as [|e0 es]; [|exact R].
        exfalso. apply Nc, C. reflexivity.
Qed.

(** X27.  [parse] and [parsePartial] return a result for every input,
    every schema and every option: they never throw and they terminate.
    Without a schema, so do [write] and [finish].  With a schema, [write]
    and [finish] either return a result or throw the [TypeError] of the
    validation, and nothing else. *)
Theorem parse_always_returns (input : str) (schema : option Schema)
    (options : option UserOptions) (st : session) (chunk : str) :
  (exists r, parseV input schema = Return r)
  /\ (exists r, parsePartial input options = Return r)
  /\ (exists r, snd (writeV None st chunk) = Return r)
  /\ (exists r, finishV None st = Return r)
  /\ ((exists r, snd (writeV schema st chunk) = Return r)
      \/ snd (writeV schema st chunk) = Throw TypeError)
  /\ ((exists r, finishV schema st = Return r)
      \/ finishV schema st = Throw TypeError).
Proof.
  split; [apply parse_returns; exact validate_no_fuel|].
  split; [apply parsePartial_returns|].
  split; [apply process_returns|].
  assert (F : forall sch,
            (exists r, finishV sch st = Return r)
            \/ finishV sch st = Throw TypeError).
  { intros sch. unfold finishV, finish.
    destruct (negb (started st)); [eauto|].
    destruct ((depth st >? 0)%Z || inStr st); [eauto|].
    apply process_cases. }
  split.
  { unfold finishV, finish.
    destruct (negb (started st)); [eauto|].
    destruct ((depth st >? 0)%Z || inStr st); [eauto|].
    apply process_returns. }
  split; [apply process_cases | apply F].
Qed.

End Checked.

(** X12 at two ways of cutting the same text, with a schema that holds
    no union and no literal. *)
Lemma parseStream_chunking_witness :
  let vv := validateValue (fun _ : str => NaN) (fun _ : jsnum => @nil chr) in
  let print := fun _ : option (list ValidationError) => lit "errors" in
  let sc := ObjectSchema
              [(lit "a", ArraySchema (PrimitiveSchema T_number None) None None)]
              None None in
  let cs1 := [jsq "{~a~"; lit ": ["; lit "1]}"] in
  let cs2 := [lit "{"; jsq "~a~: [1]}"] in
  concat cs1 = concat cs2
  /\ plainSchema sc = true
  /\ parseStream Schema ValidationError vv print (Some cs1) (Some sc)
     = parseStream Schema ValidationError vv print (Some cs2) (Some sc)
  /\ parseStream Schema ValidationError vv print (Some cs2) (Some sc)
     = Return (Success (VObj [(lit "a", VArr [VNum (lit "1")])]) None).
Proof.
  cbv zeta.
  set (sc := ObjectSchema
               [(lit "a", ArraySchema (PrimitiveSchema T_number None) None None)]
               None None).
  assert (H : concat [jsq "{~a~"; lit ": ["; lit "1]}"]
              = concat [lit "{"; jsq "~a~: [1]}"]) by reflexivity.
  assert (N : plainSchema sc = true) by reflexivity.
  split; [exact H|]. split; [exact N|]. split.
  - apply (proj1 (parseStream_chunking Schema ValidationError
                    (validateValue (fun _ : str => NaN)
                       (fun _ : jsnum => @nil chr))
                    (fun _ : option (list ValidationError) => lit "errors")
                    _ _ (Some sc) H)).
    intros sc' d E.
    assert (E' : sc' = sc) by congruence.
    rewrite E'. apply validate_plain_returns. exact N.
  - vm_compute. reflexivity.
Defined.

(** With a union in the schema, the result of [parseStream] can depend
    on the cut.  The text is [{~toString~:1,~k~:~```~} ```] and the schema
    asks for an object whose [k] is the empty string.  Given whole, the
    text loses its pair of fences, the data conforms, and the stream is
    fulfilled.  Cut before the last fence, it makes the first [write]
    see a [k] that is a fence; no variant matches, the error of the
    union needs [String(d)], which throws on the own [toString], and the
    stream is rejected. *)
Example parseStream_depends_on_cut :
  let vv := validateValue (fun _ : str => NaN) (fun _ : jsnum => @nil chr) in
  let print := fun _ : option (list ValidationError) => lit "errors" in
  let sc := UnionSchema
              [ObjectSchema [(lit "k", PrimitiveSchema T_string (Some [[]]))]
                 None None] in
  let part := jsq "{~toString~:1,~k~:~```~}" in
  parseStream Schema ValidationError vv print
    (Some [part; lit " ```"]) (Some sc) = Throw TypeError
  /\ parseStream Schema ValidationError vv print
       (Some [part ++ lit " ```"]) (Some sc)
     = Return (Success (VObj [(lit "toString", VNum (lit "1"));
                              (lit "k", VStr [])]) None).
Proof. vm_compute. split; reflexivity. Qed.

(** What [parse] makes of a validation that throws.  In its first [try]
    block the exception is dropped and the candidate goes to [repair]:
    with a comment in a string, [parse] succeeds on the repaired data,
    which is not the data it returns without a schema.  In its second
    [try] block the exception becomes the [invalid_json] failure, so
    that data which does not conform is not always reported as a
    [schema_mismatch].  In a union the order of the variants matters: a
    literal that does not match throws before the variant that matches
    is tried. *)
Example parse_after_validation_throws :
  let vv := validateValue (fun _ : str => NaN) (fun _ : jsnum => @nil chr) in
  let print := fun _ : option (list ValidationError) => lit "errors" in
  let sc := UnionSchema
              [ObjectSchema [(lit "k", PrimitiveSchema T_string (Some [[]]))]
                 None None] in
  let one := LiteralSchema (L_number (Finite 1 1)) in
  let d := VObj [(lit "toString", VNum (lit "1"))] in
  parse vv print (jsq "{~toString~:1,~k~:~/**/~}") None
  = Return (Success (VObj [(lit "toString", VNum (lit "1"));
                           (lit "k", VStr (lit "/**/"))]) None)
  /\ parse vv print (jsq "{~toString~:1,~k~:~/**/~}") (Some sc)
     = Return (Success (VObj [(lit "toString", VNum (lit "1"));
                              (lit "k", VStr [])]) None)
  /\ parseWithSchema Schema ValidationError vv print (jsq "{~toString~: 1}") one
     = Return (Failure (mkError invalid_json TypeErrorText None) None)
  /\ vv d (UnionSchema [one; ObjectSchema [] None None]) [] = Throw TypeError
  /\ vv d (UnionSchema [ObjectSchema [] None None; one]) [] = Return [].
Proof. vm_compute. repeat split; reflexivity. Qed.


(** X20 at the schema of the tests of the repository: an object whose
    [name] is a string. *)
Lemma validate_conforms_iff_witness :
  let numberOf := fun _ : str => NaN in
  let toStr := fun _ : jsnum => @nil chr in
  let sc := ObjectSchema [(lit "name", PrimitiveSchema T_string None)]
              None None in
  let good := VObj [(lit "name", VStr (lit "test"))] in
  let bad := VObj [(lit "name", VNum (lit "123"))] in
  validateValue numberOf toStr good sc [] = Return []
  /\ conforms numberOf good sc
  /\ noToString bad = true
  /\ exists errs, validateValue numberOf toStr bad sc [] = Return errs.
Proof.
  cbv zeta.
  assert (H : validateValue (fun _ : str => NaN) (fun _ : jsnum => @nil chr)
                (VObj [(lit "name", VStr (lit "test"))])
                (ObjectSchema [(lit "name", PrimitiveSchema T_string None)]
                   None None) []
              = Return []) by (vm_compute; reflexivity).
  assert (N : noToString (VObj [(lit "name", VNum (lit "123"))]) = true)
    by reflexivity.
  split; [exact H|].
  split.
  - exact (proj1 (proj1 (validate_conforms_iff (fun _ : str => NaN)
                           (fun _ : jsnum => @nil chr) _ _ []) [] H) eq_refl).
  - split; [exact N|].
    exact (proj1 (proj2 (validate_conforms_iff (fun _ : str => NaN)
                           (fun _ : jsnum => @nil chr)
                           (VObj [(lit "name", VNum (lit "123"))])
                           (ObjectSchema
                              [(lit "name", PrimitiveSchema T_string None)]
                              None None) [])) N).
Defined.

(** X22 at an object that lacks a required key and holds a number where
    a string is asked for, under the base path [/user]. *)
Lemma validate_error_codes_and_paths_witness :
  let numberOf := fun _ : str => NaN in
  let toStr := fun _ : jsnum => @nil chr in
  let sc := ObjectSchema [(lit "name", PrimitiveSchema T_string None)]
              (Some [lit "id"]) None in
  let bad := VObj [(lit "name", VNum (lit "123"))] in
  match validateValue numberOf toStr bad sc (lit "/user") with
  | Return errs =>
      length errs = 2
      /\ Forall (fun e => validationCode e /\ pathUnder (lit "/user") e) errs
  | _ => False
  end.
Proof.
  cbv zeta.
  destruct (validateValue (fun _ : str => NaN) (fun _ : jsnum => @nil chr)
              (VObj [(lit "name", VNum (lit "123"))])
              (ObjectSchema [(lit "name", PrimitiveSchema T_string None)]
                 (Some [lit "id"]) None) (lit "/user")) as [errs|e|] eqn:E.
  - split.
    + vm_compute in E. apply Return_inj in E. subst errs. reflexivity.
    + exact (validate_error_codes_and_paths (fun _ : str => NaN)
               (fun _ : jsnum => @nil chr) _ _ _ errs E).
  - vm_compute in E. discriminate E.
  - vm_compute in E. discriminate E.
Defined.

(** X23 at the two tests of the repository: a string where the schema
    asks for one, and a number in its place. *)
Lemma parseWithSchema_conforms_witness :
  let numberOf := fun _ : str => NaN in
  let toStr := fun _ : jsnum => @nil chr in
  let print := fun _ : option (list ValidationError) => @nil chr in
  let sc := ObjectSchema [(lit "name", PrimitiveSchema T_string None)]
              None None in
  let good := VObj [(lit "name", VStr (lit "test"))] in
  parse (validateValue numberOf toStr) print (jsq "{~name~: ~test~}") None
  = Return (Success good None)
  /\ noToString good = true
  /\ conforms numberOf good sc
  /\ parseWithSchema Schema ValidationError (validateValue numberOf toStr)
       print (jsq "{~name~: ~test~}") sc
     = Return (Success good None).
Proof.
  cbv zeta.
  set (numberOf := fun _ : str => NaN).
  set (toStr := fun _ : jsnum => @nil chr).
  set (print := fun _ : option (list ValidationError) => @nil chr).
  set (sc := ObjectSchema [(lit "name", PrimitiveSchema T_string None)]
               None None).
  assert (H1 : parse (validateValue numberOf toStr) print
                 (jsq "{~name~: ~test~}") None
               = Return (Success (VObj [(lit "name", VStr (lit "test"))]) None))
    by (vm_compute; reflexivity).
  assert (N1 : noToString (VObj [(lit "name", VStr (lit "test"))]) = true)
    by reflexivity.
  assert (C1 : conforms numberOf (VObj [(lit "name", VStr (lit "test"))]) sc).
  { apply (validate_conforms numberOf toStr sc _ [] []); [|reflexivity].
    vm_compute. reflexivity. }
  split; [exact H1|]. split; [exact N1|]. split; [exact C1|].
  exact (proj1 (proj2 (parseWithSchema_conforms numberOf toStr print
                         (jsq "{~name~: ~test~}") sc) _ _ H1 N1) C1).
Defined.

(** An object inherits [toString]: a schema that requires it is
    satisfied by the empty object. *)
Example required_inherited_key :
  validateValue (fun _ => NaN) (fun _ => []) (VObj [])
    (ObjectSchema [] (Some [lit "toString"; lit "constructor"]) (Some false))
    []
  = Return [].
Proof. vm_compute. reflexivity. Qed.

(** A property of the data that is named like a member of
    [Object.prototype] is accepted under [additionalProperties: false],
    and a union whose first variant is a literal throws on an object with
    such a property before its second variant is tried. *)
Example inherited_names_in_data :
  forall (numberOf : str -> jsnum) (numberToString : jsnum -> str),
  let data := VObj [(lit "toString", VNum (lit "1"))] in
  validateValue numberOf numberToString data
    (ObjectSchema [] None (Some false)) []
  = Return []
  /\ validateValue numberOf numberToString data
       (UnionSchema [LiteralSchema (L_boolean true);
                     ObjectSchema [] None None]) []
     = Throw TypeError.
Proof. intros. vm_compute. split; reflexivity. Qed.

(** ** The configuration *)

Section ConfigFacts.

Variable RepairRule : Type.

Lemma spreadField_assoc {A : Type} (a b c : property A) :
  spreadField (spreadField a b) c = spreadField a (spreadField b c).
Proof. destruct c; [|reflexivity]. reflexivity. Qed.


(** X24.  [configure] merges: two calls in a row leave the configuration
    that one call with the spread of the two objects leaves, the later
    object winning on the properties that both have; a second call with
    the same object changes nothing; and a call with the empty object
    changes nothing. *)
Theorem configure_composes (c1 c2 g : LlmJsonConfig RepairRule) :
  getConfig RepairRule (configure RepairRule c2 (configure RepairRule c1 g))
  = getConfig RepairRule (configure RepairRule (spread RepairRule c1 c2) g)
  /\ configure RepairRule c1 (configure RepairRule c1 g)
     = configure RepairRule c1 g
  /\ configure RepairRule (mkConfig RepairRule Absent Absent Absent Absent) g
     = g.
Proof.
  unfold getConfig, configure, spread. cbn.
  split; [|split].
  - rewrite !spreadField_assoc. reflexivity.
  - destruct c1 as [a b c d], g as [a' b' c' d']. cbn.
    destruct a, b, c, d; reflexivity.
  - destruct g. reflexivity.
Qed.

End ConfigFacts.

Section NoPreview.
Variable Schema : Type.
Variable ValidationError : Type.
Variable validateValue :
  value -> Schema -> str -> outcome (list ValidationError).
Variable stringifyErrors : option (list ValidationError) -> str.

(** ** The stream while the value is open *)

(** [findJson] on a text whose first bracket is never closed. *)
Lemma findJson_open (pre : str) (o : chr) (mid : str) (all : bool) :
  forallb plainChar pre = true -> isOpen o = true ->
  quiet (1%Z, false, false) mid = true ->
  findJson (pre ++ o :: mid) all = mkExtract None 0 0 (Some []).
Proof.
  intros Hp O Q. unfold findJson, f_init.
  rewrite findLoop_plain by exact Hp. cbn [Nat.add].
  cbn [findLoop]. rewrite andb_false_r, (open_not_dq o O), O.
  cbn [Z.eqb]. change (0 + 1)%Z with 1%Z.
  rewrite <- (app_nil_r mid).
  rewrite (findLoop_quiet all (pre ++ o :: mid ++ []) mid); [|lia|exact Q].
  destruct (coreScan mid (1%Z, false, false)) as [[d b] e].
  reflexivity.
Qed.

(** X25.  No preview while the top-level value is open.  When the buffer
    with the new chunk, once the code fences are stripped and the text is
    trimmed, holds no double quote and no bracket before its first opening
    bracket, and the scan after that bracket never gets back to depth 0
    (the brackets inside strings not counted), [write] answers with the
    failure [truncated] and the message 'No JSON found': neither the
    repair nor the partial parser is tried on the open value. *)
Theorem write_fails_while_open (schema : option Schema) (st : session)
    (chunk pre : str) (o : chr) (mid : str) :
  stripMd (buf st ++ chunk) = pre ++ o :: mid ->
  forallb plainChar pre = true -> isOpen o = true ->
  quiet (1%Z, false, false) mid = true ->
  snd (write validateValue stringifyErrors schema st chunk)
  = Return (Failure (mkError truncated (Text "No JSON found") None) None).
Proof.
  intros E Hp O Q. unfold write. cbn [snd]. unfold process.
  rewrite update_buf. unfold extract.
  destruct (buf st ++ chunk) as [|c0 b0] eqn:Eb.
  { reflexivity. }
  cbn [emptyStr]. rewrite E, (findJson_open pre o mid false Hp O Q).
  reflexivity.
Qed.

End NoPreview.

(** X25 at an object cut inside its second string; the closing brace
    inside the first string is not counted. *)
Lemma write_fails_while_open_witness :
  let b := jsq "Here: {~a~: [1, {~b~: ~}~}], ~c~: ~hel" in
  stripMd ([] ++ b) = lit "Here: " ++ c_lbrace :: jsq "~a~: [1, {~b~: ~}~}], ~c~: ~hel"
  /\ quiet (1%Z, false, false) (jsq "~a~: [1, {~b~: ~}~}], ~c~: ~hel") = true
  /\ snd (write0 newSession b)
     = Return (Failure (mkError truncated (Text "No JSON found") None) None).
Proof.
  cbv zeta.
  assert (E : stripMd ([] ++ jsq "Here: {~a~: [1, {~b~: ~}~}], ~c~: ~hel")
              = lit "Here: " ++ c_lbrace :: jsq "~a~: [1, {~b~: ~}~}], ~c~: ~hel")
    by (vm_compute; reflexivity).
  assert (Q : quiet (1%Z, false, false) (jsq "~a~: [1, {~b~: ~}~}], ~c~: ~hel")
              = true) by (vm_compute; reflexivity).
  split; [exact E|]. split; [exact Q|].
  exact (write_fails_while_open Empty_set unit noErrors noContext None
           newSession _ _ _ _ E eq_refl eq_refl Q).
Defined.

(** ** Arrays without commas *)

(** A value starts, after its white space, with a character that is
    neither a closing bracket nor a comma. *)
Lemma render_value_head (v : list item) (y : str) :
  JV v -> wfLex v = true ->
  exists d z, skip (render v ++ y) = d :: z
              /\ ceq d c_rbrack = false /\ ceq d c_comma = false
              /\ render v ++ y <> [].
Proof.
  intros J W.
  destruct (proj1 JSON_start v J) as (w & t & rest & -> & Vs).
  rewrite wfLex_cons in W. apply andb_prop in W. destruct W as [W Wr].
  apply andb_prop in W. destruct W as [Ww Wt].
  destruct (valueStart_head t Wt Vs) as (d & tt & Et & Sd & Rb & _ & Cm).
  exists d, (tt ++ render rest ++ y).
  rewrite render_cons_app.
  rewrite (skip_item w t (render rest ++ y) d tt Ww Et Sd).
  repeat split; try assumption.
  rewrite Et. intros E. apply (f_equal (@length chr)) in E.
  rewrite length_app in E. cbn [length app] in E. lia.
Qed.

Lemma noNumStart_keep (a y : str) :
  a <> [] -> noNumStart a = true -> noNumStart (a ++ y) = true.
Proof. destruct a; [congruence|]. intros _ H. exact H. Qed.

(** The loop of [parseArr] reads the values one after the other, with or
    without a comma between them. *)
Lemma arrLoop_spaced (len : nat) (vs : list (list item)) :
  forall (arr : list value) (f : nat) (w x : str),
  Forall JV vs -> Forall (fun v => wfLex v = true) vs ->
  Forall (fun v => noNumStart (render v) = true) (tl vs) ->
  forallb isJsonWs w = true ->
  arrLoop optsAll len f arr (render (concat vs) ++ w ++ c_rbrack :: x)
    <> OutOfFuel ->
  exists vals, length vals = length vs
    /\ arrLoop optsAll len f arr (render (concat vs) ++ w ++ c_rbrack :: x)
       = Return (VArr (arr ++ vals), x).
Proof.
  induction vs as [|v vs IH]; intros arr f w x J W N Hw F.
  - cbn [concat render app] in *. exists []. split; [reflexivity|].
    destruct f as [|f]; [exfalso; apply F, AL_0|].
    rewrite app_nil_r. apply AL_close.
    apply skip_punct; [exact Hw | reflexivity].
  - cbn [concat] in *. rewrite render_app, <- app_assoc in *.
    inversion J as [|? ? Jv Jr]; subst.
    inversion W as [|? ? Wv Wr]; subst.
    cbn [tl] in N.
    set (x' := render (concat vs) ++ w ++ c_rbrack :: x) in *.
    assert (Nx : noNumStart x' = true).
    { subst x'. destruct vs as [|v' vs'].
      - cbn [concat render app]. apply noNumStart_punct; [exact Hw|reflexivity].
      - cbn [concat]. rewrite render_app, <- app_assoc.
        inversion N as [|? ? Nv' _]; subst.
        inversion Jr as [|? ? Jv' _]; subst.
        inversion Wr as [|? ? Wv' _]; subst.
        apply noNumStart_keep; [|exact Nv'].
        destruct (render_value_head v' [] Jv' Wv') as (_ & _ & _ & _ & _ & Ne).
        rewrite app_nil_r in Ne. exact Ne. }
    destruct (AL_elem len v Jv (okV_all len v Jv) Wv x' arr f Nx F)
      as (v1 & f' & -> & E).
    rewrite E in F |- *.
    assert (N' : Forall (fun v => noNumStart (render v) = true) (tl vs)).
    { destruct vs; [constructor|]. inversion N; assumption. }
    destruct (IH (arr ++ [v1]) f' w x Jr Wr N' Hw F) as (vals & L & R).
    exists (v1 :: vals). split; [cbn [length]; lia|].
    fold x' in R. rewrite R, <- app_assoc. reflexivity.
Qed.

(** X26.  The fallback parser does not ask for commas in an array.  For
    a text made of an opening bracket, any number of JSON values written
    one after the other with no comma (each value after the first starts
    with white space or with a character that a number cannot go on
    with), optional white space and a closing bracket, [doParse] with
    every [allowPartial] option on returns an array with one element for
    each value, and [parsePartial] succeeds on the text. *)
Theorem doParse_array_without_commas (vs : list (list item)) (w : str) :
  Forall JV vs -> Forall (fun v => wfLex v = true) vs ->
  Forall (fun v => noNumStart (render v) = true) (tl vs) ->
  forallb isJsonWs w = true ->
  let text := c_lbrack :: render (concat vs) ++ w ++ [c_rbrack] in
  (exists vals, length vals = length vs
     /\ doParse text optsAll = Return (VArr vals))
  /\ exists d, parsePartial text allPartial = Return (Success d None).
Proof.
  intros J W N Hw text.
  assert (D : exists vals, length vals = length vs
                /\ doParse text optsAll = Return (VArr vals)).
  { pose proof (doParse_no_fuel text optsAll) as F.
    unfold doParse in F |- *.
    set (len := length text) in *.
    replace (2 * len + 2) with (S (2 * len + 1)) in * by lia.
    assert (Sk : skip text = c_lbrack :: render (concat vs) ++ w ++ [c_rbrack])
      by (apply (skip_punct [] c_lbrack); reflexivity).
    rewrite (PV_arr len _ text _ Sk) in F |- *.
    destruct vs as [|v vs].
    - cbn [concat render app] in *.
      rewrite (skip_punct w c_rbrack [] Hw eq_refl).
      cbn [ceq]. exists []. split; reflexivity.
    - inversion J as [|? ? Jv _]; subst. inversion W as [|? ? Wv _]; subst.
      remember (render (concat (v :: vs)) ++ w ++ [c_rbrack]) as r eqn:Er.
      assert (H : exists d z, skip r = d :: z /\ ceq d c_rbrack = false).
      { subst r. cbn [concat]. rewrite render_app, <- app_assoc.
        destruct (render_value_head v (render (concat vs) ++ w ++ [c_rbrack])
                    Jv Wv) as (d & z & E & Rb & _).
        exists d, z. split; assumption. }
      destruct H as (d & z & E & Rb).
      assert (Ne : skip r <> []) by (rewrite E; discriminate).
      rewrite E in F |- *. rewrite Rb in F |- *. rewrite <- E in F |- *.
      rewrite (AL_skip len _ [] r Ne) in F |- *.
      subst r.
      assert (F' : arrLoop optsAll len (2 * len + 1) []
                     (render (concat (v :: vs)) ++ w ++ [c_rbrack])
                   <> OutOfFuel).
      { intros E0. apply F. rewrite E0. reflexivity. }
      destruct (arrLoop_spaced len (v :: vs) [] (2 * len + 1) w [] J W N Hw F')
        as (vals & L & R).
      exists vals. split; [exact L|]. rewrite R. reflexivity. }
  split; [exact D|].
  destruct D as (vals & _ & D).
  unfold parsePartial. subst text. cbn [emptyStr].
  destruct (JSON_parse _) as [d|e|] eqn:P.
  - exists d. reflexivity.
  - change (withDefaults allPartial) with optsAll. rewrite D.
    exists (VArr vals). reflexivity.
  - exfalso. exact (JSON_parse_no_fuel _ P).
Qed.

(** X26 at a number, a string and an array separated by one space. *)
Lemma doParse_array_without_commas_witness :
  let vs := [ [([], TNum (lit "1"))]; [(lit " ", TStr (lit "a"))];
              [(lit " ", TLBrack); ([], TNum (lit "2")); ([], TRBrack)] ] in
  let text := c_lbrack :: render (concat vs) ++ [] ++ [c_rbrack] in
  (exists vals, length vals = length vs
     /\ doParse text optsAll = Return (VArr vals))
  /\ exists d, parsePartial text allPartial = Return (Success d None).
Proof.
  cbv zeta.
  apply (doParse_array_without_commas
           [ [([], TNum (lit "1"))]; [(lit " ", TStr (lit "a"))];
             [(lit " ", TLBrack); ([], TNum (lit "2")); ([], TRBrack)] ] []).
  - repeat constructor.
    apply (JV_arr (lit " ") [([], TNum (lit "2"))] []).
    apply JE_one. constructor.
  - repeat constructor.
  - repeat constructor.
  - reflexivity.
Defined.

(** ** A value in prose or in a fence *)

(** Over such prose the scanner records nothing and comes back to its
    initial state. *)
Lemma findLoop_prose (all : bool) (s : str) (l : str) :
  forall rest i d b e start results,
  (d <= 0)%Z -> proseFrom (d, b, e) l = true ->
  findLoop all s (l ++ rest) i (mkF d b e start results)
  = findLoop all s rest (i + length l) (mkF 0 false false start results).
Proof.
  induction l as [|c l IH]; intros rest i d b e start results Hd H.
  - cbn [proseFrom] in H. apply andb_prop in H. destruct H as [H He].
    apply andb_prop in H. destruct H as [H Hb].
    apply Z.eqb_eq in H. apply negb_true_iff in Hb, He. subst d b e.
    cbn [app length]. rewrite Nat.add_0_r. reflexivity.
  - cbn [proseFrom] in H. apply andb_prop in H. destruct H as [G H].
    apply negb_true_iff in G.
    replace (i + length (c :: l)) with (S i + length l) by (cbn [length]; lia).
    cbn [app findLoop]. unfold coreStep in H.
    destruct e.
    { apply IH; assumption. }
    destruct (ceq c c_bslash && b); [apply IH; assumption|].
    destruct (ceq c c_dq); [apply IH; assumption|].
    destruct b; [apply IH; assumption|].
    cbn [negb andb] in G.
    destruct (isOpen c).
    { cbn [andb] in G. rewrite G. apply IH; [|exact H].
      apply Z.eqb_neq in G. lia. }
    destruct (isClose c); [|apply IH; assumption].
    destruct (Z.eqb_spec (d - 1) 0) as [E|_]; [lia|].
    cbn [andb]. apply IH; [lia | exact H].
Qed.

(** On prose that leaves the scanner at depth 0 outside a string without
    a candidate, followed by a strictly valid bracketed value,
    [findJson] returns that value and its span. *)
Lemma findJson_prose (pre j post : str) (v : value) :
  JSON_parse j = Return v -> bracketed j = true ->
  proseOk pre = true ->
  findJson (pre ++ j ++ post) false
  = mkExtract (Some j) (length pre) (length pre + length j) (Some [j]).
Proof.
  intros P B Hpre.
  destruct (bracketed_text j v P B) as (o & mid & c & E & O & C1 & C2 & C3 & Sc & Q).
  unfold findJson, f_init.
  rewrite (findLoop_prose false (pre ++ j ++ post) pre) by (try lia; exact Hpre).
  cbn [Nat.add].
  set (s := pre ++ j ++ post).
  assert (R : findLoop false s (j ++ post) (length pre) (mkF 0 false false (-1) [])
              = mkF 0 false false (Z.of_nat (length pre))
                    [(j, (length pre, length pre + length j))]).
  { rewrite E at 1. cbn [app findLoop]. rewrite andb_false_r.
    rewrite (open_not_dq o O), O. cbn [Z.eqb]. change (0 + 1)%Z with 1%Z.
    rewrite <- app_assoc.
    rewrite (findLoop_quiet false s mid); [|lia|exact Q].
    rewrite Sc. cbn [app findLoop]. rewrite andb_false_r, C3, C2, C1.
    change (1 - 1)%Z with 0%Z. cbn [Z.eqb].
    destruct (Z.leb_spec 0 (Z.of_nat (length pre))) as [_|]; [|lia].
    cbn [andb negb app]. rewrite Nat2Z.id.
    replace (S (length pre) + length mid + 1) with (length pre + length j)
      by (rewrite E; cbn [length]; rewrite length_app; simpl; lia).
    subst s. rewrite slice_middle. reflexivity. }
  rewrite R. reflexivity.
Qed.

Lemma proseFrom_spaces (pre : str) :
  proseOk pre = true -> proseOk (dropWhile isSpace pre) = true.
Proof.
  unfold proseOk. induction pre as [|c pre IH]; intros H; [exact H|].
  cbn [dropWhile]. destruct (isSpace c) eqn:S; [|exact H].
  apply IH. cbn [proseFrom] in H. apply andb_prop in H. destruct H as [_ H].
  assert (E : coreStep (0%Z, false, false) c = (0%Z, false, false)).
  { unfold coreStep. rewrite andb_false_r.
    destruct (ceq c c_dq) eqn:D.
    { apply ceq_eq in D. subst c. discriminate S. }
    destruct (isOpen c) eqn:O.
    { rewrite (isSpace_not_open c O) in S. discriminate. }
    destruct (isClose c) eqn:C; [|reflexivity].
    rewrite (isSpace_not_close c C) in S. discriminate. }
  rewrite E in H. exact H.
Qed.

Lemma dropWhile_app_stop (p : chr -> bool) (a : str) (c : chr) (b : str) :
  p c = false -> dropWhile p (a ++ c :: b) = dropWhile p a ++ c :: b.
Proof.
  intros H. induction a as [|x a IH]; cbn [app dropWhile].
  - rewrite H. reflexivity.
  - destruct (p x); [exact IH | reflexivity].
Qed.

Lemma trim_around (pre post : str) (o c : chr) (mid : str) :
  isSpace o = false -> isSpace c = false ->
  trim (pre ++ (o :: mid ++ [c]) ++ post)
  = dropWhile isSpace pre ++ (o :: mid ++ [c])
    ++ rev (dropWhile isSpace (rev post)).
Proof.
  intros Ho Hc. unfold trim.
  assert (E1 : dropWhile isSpace (pre ++ (o :: mid ++ [c]) ++ post)
               = dropWhile isSpace pre ++ (o :: mid ++ [c]) ++ post).
  { cbn [app]. apply dropWhile_app_stop. exact Ho. }
  rewrite E1. clear E1.
  remember (dropWhile isSpace pre) as A eqn:EA.
  change (o :: mid ++ [c]) with ((o :: mid) ++ [c]).
  remember (o :: mid) as om eqn:Eom.
  assert (E2 : rev (A ++ (om ++ [c]) ++ post)
               = rev post ++ c :: (rev om ++ rev A)).
  { rewrite !rev_app_distr. change (rev [c]) with [c].
    rewrite <- !app_assoc. reflexivity. }
  rewrite E2. clear E2.
  rewrite (dropWhile_app_stop isSpace (rev post) c _ Hc).
  remember (dropWhile isSpace (rev post)) as X eqn:EX.
  change (c :: rev om ++ rev A) with ([c] ++ (rev om ++ rev A)).
  rewrite !rev_app_distr, !rev_involutive. change (rev [c]) with [c].
  rewrite <- !app_assoc. reflexivity.
Qed.

Lemma replaceFrom_prefix (m : matcher) (a rest : str) : forall fuel,
  noMatchFrom m a rest = true -> length a <= fuel ->
  replaceFrom fuel m (a ++ rest) = a ++ replaceFrom (fuel - length a) m rest.
Proof.
  induction a as [|c a IH]; intros fuel H L.
  - cbn [app length]. rewrite Nat.sub_0_r. reflexivity.
  - cbn [length] in L. destruct fuel as [|fuel]; [lia|].
    cbn [noMatchFrom] in H.
    cbn [app replaceFrom length Nat.sub].
    change (c :: a ++ rest) with ((c :: a) ++ rest).
    destruct (m ((c :: a) ++ rest)); [discriminate|].
    rewrite IH by (try exact H; lia). reflexivity.
Qed.

Lemma replaceFrom_match (m : matcher) (s repl rest : str) (n : nat) :
  m s = Some (repl, rest) -> m [] = None ->
  replaceFrom (S n) m s = repl ++ replaceFrom n m rest.
Proof.
  intros H Z. destruct s as [|c r]; [congruence|].
  cbn [replaceFrom]. rewrite H. reflexivity.
Qed.


(** On a value that holds no fence and ends with a bracket, the lazy
    capture runs up to the closing fence. *)
Lemma findClose_value (a : str) (nl : bool) (post : str) :
  noFence a = true ->
  (a <> [] -> ceq (last a 0%N) c_tick = false /\ ceq (last a 0%N) c_nl = false) ->
  findClose (a ++ (if nl then [c_nl] else []) ++ fence ++ post) = Some (a, post).
Proof.
  set (close := (if nl then [c_nl] else []) ++ fence ++ post).
  assert (Base : findClose close = Some ([], post)).
  { subst close. destruct nl; reflexivity. }
  assert (Hd : stripPrefix fence close = None -> nl = true).
  { subst close. destruct nl; [reflexivity | discriminate]. }
  induction a as [|c a IH]; intros N L; [exact Base|].
  cbn [noFence] in N. apply andb_prop in N. destruct N as [N1 N2].
  apply negb_true_iff in N1.
  assert (La : a <> [] ->
              ceq (last a 0%N) c_tick = false /\ ceq (last a 0%N) c_nl = false).
  { intros Na. destruct a as [|d a']; [contradiction|].
    apply L. discriminate. }
  specialize (IH N2 La).
  assert (Lc : a = [] -> ceq c c_tick = false /\ ceq c c_nl = false).
  { intros ->. apply (L ltac:(discriminate)). }
  cbn [app]. fold close.
  assert (F : stripPrefix fence (c :: a ++ close) = None).
  { unfold startsWith in N1.
    unfold fence in *. cbn [stripPrefix] in *.
    destruct (ceq c_tick c) eqn:E1; [|reflexivity].
    assert (Ec : ceq c c_tick = true)
      by (unfold ceq in *; rewrite N.eqb_sym; exact E1).
    destruct a as [|d a'].
    { destruct (Lc eq_refl) as [K _]. congruence. }
    cbn [app] in *.
    destruct (ceq c_tick d) eqn:E2; [|reflexivity].
    assert (Ed : ceq d c_tick = true)
      by (unfold ceq in *; rewrite N.eqb_sym; exact E2).
    destruct a' as [|e a''].
    { destruct (La ltac:(discriminate)) as [K _]. cbn [last] in K. congruence. }
    cbn [app] in *.
    destruct (ceq c_tick e) eqn:E3; [discriminate N1 | reflexivity]. }
  assert (G : stripPrefix (c_nl :: fence) (c :: a ++ close) = None).
  { cbn [stripPrefix].
    destruct (ceq c_nl c) eqn:E1; [|reflexivity].
    assert (Ec : ceq c c_nl = true)
      by (unfold ceq in *; rewrite N.eqb_sym; exact E1).
    destruct a as [|d a'].
    { destruct (Lc eq_refl) as [_ K]. congruence. }
    cbn [noFence] in N2. apply andb_prop in N2. destruct N2 as [N3 _].
    apply negb_true_iff in N3.
    clear - N3 La. unfold startsWith in N3.
    unfold fence in *. cbn [app stripPrefix] in *.
    destruct (ceq c_tick d) eqn:E2; [|reflexivity].
    assert (Ed : ceq d c_tick = true)
      by (unfold ceq in *; rewrite N.eqb_sym; exact E2).
    destruct a' as [|e a''].
    { destruct (La ltac:(discriminate)) as [K _]. cbn [last] in K. congruence. }
    cbn [app] in *.
    destruct (ceq c_tick e) eqn:E3; [|reflexivity].
    assert (Ee : ceq e c_tick = true)
      by (unfold ceq in *; rewrite N.eqb_sym; exact E3).
    destruct a'' as [|g a3].
    { destruct (La ltac:(discriminate)) as [K _]. cbn [last] in K. congruence. }
    cbn [app] in *.
    destruct (ceq c_tick g) eqn:E4; [discriminate N3 | reflexivity]. }
  cbn [findClose]. change (c :: a ++ close) with ((c :: a) ++ close) in *.
  cbn [app] in *.
  rewrite G, F, IH. reflexivity.
Qed.

Lemma stripPrefix_self (p rest : str) : stripPrefix p (p ++ rest) = Some rest.
Proof.
  induction p as [|x p IH]; [reflexivity|].
  cbn [app stripPrefix]. unfold ceq. rewrite N.eqb_refl. exact IH.
Qed.

Lemma last_snoc (a : str) (c d : chr) : last (a ++ [c]) d = c.
Proof.
  induction a as [|x a IH]; [reflexivity|].
  cbn [app]. destruct (a ++ [c]) eqn:E; [destruct a; discriminate|].
  exact IH.
Qed.

(** The fence pattern at a wrapped value: the value is the capture. *)
Lemma m_fenced_wrap (tagged : bool) (ws : str) (nl : bool)
    (o : chr) (mid : str) (c : chr) (post : str) :
  forallb isSpace ws = true -> noFence (o :: mid ++ [c]) = true ->
  isOpen o = true -> isClose c = true ->
  m_fenced (wrap (Fenced tagged ws nl) (o :: mid ++ [c]) ++ post)
  = Some (o :: mid ++ [c], post).
Proof.
  intros Hws N O C. set (j := o :: mid ++ [c]) in *.
  unfold wrap, m_fenced. rewrite <- !app_assoc.
  rewrite stripPrefix_self.
  set (x := ws ++ j ++ (if nl then [c_nl] else []) ++ fence ++ post).
  assert (R2 : match stripPrefix tag_json
                       ((if tagged then tag_json else []) ++ x) with
               | Some r => r
               | None => (if tagged then tag_json else []) ++ x
               end = x).
  { destruct tagged; [rewrite stripPrefix_self; reflexivity|].
    cbn [app].
    assert (H : stripPrefix tag_json x = None); [|rewrite H; reflexivity].
    subst x. destruct ws as [|s ws'].
    - subst j. cbn [app]. unfold tag_json. cbn [stripPrefix].
      destruct (ceq 106%N o) eqn:E; [|reflexivity].
      apply ceq_eq in E. subst o. discriminate O.
    - cbn [forallb] in Hws. apply andb_prop in Hws. destruct Hws as [Hs _].
      cbn [app]. unfold tag_json. cbn [stripPrefix].
      destruct (ceq 106%N s) eqn:E; [|reflexivity].
      apply ceq_eq in E. subst s. discriminate Hs. }
  rewrite R2. subst x.
  assert (D : dropWhile isSpace
                (ws ++ j ++ (if nl then [c_nl] else []) ++ fence ++ post)
              = j ++ (if nl then [c_nl] else []) ++ fence ++ post).
  { subst j. cbn [app].
    rewrite (dropWhile_app_stop isSpace ws o _ (isSpace_not_open o O)).
    change (dropWhile isSpace ws) with (skip ws).
    rewrite (skip_all ws Hws). reflexivity. }
  rewrite D. apply findClose_value; [exact N|].
  intros _. subst j. change (o :: mid ++ [c]) with ((o :: mid) ++ [c]).
  rewrite last_snoc.
  unfold isClose, ceq, c_rbrace, c_rbrack in C.
  apply orb_prop in C. destruct C as [C|C]; apply N.eqb_eq in C; subst c;
    split; reflexivity.
Qed.

(** What [stripMd] leaves of the text: the prose before the value less
    its leading white space, the value, and more. *)
Lemma stripMd_wrapped (k : wrapping) (pre post : str)
    (o : chr) (mid : str) (c : chr) :
  isOpen o = true -> isClose c = true ->
  fencesOk k pre (o :: mid ++ [c]) post = true ->
  exists post',
    stripMd (pre ++ wrap k (o :: mid ++ [c]) ++ post)
    = dropWhile isSpace pre ++ (o :: mid ++ [c]) ++ post'.
Proof.
  intros O C F. set (j := o :: mid ++ [c]) in *.
  assert (T : forall x, trim (pre ++ j ++ x)
                        = dropWhile isSpace pre ++ j
                          ++ rev (dropWhile isSpace (rev x))).
  { intros x. subst j.
    apply trim_around; [apply isSpace_not_open, O | apply isSpace_not_close, C]. }
  unfold stripMd, replaceAll.
  destruct k as [|tagged ws nl]; cbn [fencesOk] in F.
  - cbn [wrap]. rewrite app_assoc.
    rewrite (replaceFrom_prefix m_fenced (pre ++ j) post _ F)
      by (rewrite !length_app; lia).
    rewrite <- app_assoc, T. eexists. reflexivity.
  - apply andb_prop in F. destruct F as [F N].
    apply andb_prop in F. destruct F as [Hws F].
    set (w := wrap (Fenced tagged ws nl) j) in *.
    rewrite (replaceFrom_prefix m_fenced pre (w ++ post) _ F)
      by (rewrite !length_app; lia).
    assert (M : m_fenced (w ++ post) = Some (j, post))
      by (subst w j; apply m_fenced_wrap; assumption).
    assert (Lw : exists n, length (pre ++ w ++ post) - length pre = S n).
    { exists (length (w ++ post) - 1).
      rewrite length_app. subst w. unfold wrap, fence. cbn [app length].
      lia. }
    destruct Lw as (n & Ln). rewrite Ln.
    rewrite (replaceFrom_match m_fenced (w ++ post) j post n M eq_refl).
    rewrite T. eexists. reflexivity.
Qed.

Section BracketedValue.

Variable Schema : Type.
Variable ValidationError : Type.
Variable validateValue :
  value -> Schema -> str -> outcome (list ValidationError).
Variable stringifyErrors : option (list ValidationError) -> str.

Let parseS := parse validateValue stringifyErrors.

(** C3, as amended.  Let the text be [pre ++ w ++ post], where [w] is a
    strictly valid JSON value [j] that runs from its opening bracket to
    its closing bracket, as it is or in a markdown fence (three
    backquotes, the tag [json] or none, white space, [j], a newline or
    none, three backquotes).  Let the prose [pre] have its double quotes
    in pairs and no opening bracket at depth 0 outside them, the depth
    being 0 at its end; let the fence pattern match at no position of
    [pre], nor of [j] when it is not in a fence; and let [j] hold no
    three backquotes in a row when it is in a fence.  Then [extract]
    returns [j] character for character as the candidate, with its span
    in the stripped text (it starts where [pre] ends, the leading white
    space of [pre] being trimmed), and [parse] returns [Success] with the
    strict parse of [j] and no warning.  The prose after the value is
    arbitrary. *)
Theorem extract_and_parse_bracketed (k : wrapping) (pre j post : str)
    (v : value) :
  JSON_parse j = Return v -> bracketed j = true ->
  proseOk pre = true -> fencesOk k pre j post = true ->
  let text := pre ++ wrap k j ++ post in
  let start := length (dropWhile isSpace pre) in
  extract text = mkExtract (Some j) start (start + length j) (Some [j])
  /\ parseS text None = Return (Success v None).
Proof.
  intros P B Hpre F text start.
  destruct (bracketed_text j v P B)
    as (o & mid & c & E & O & C1 & _).
  assert (Ne : emptyStr text = false).
  { subst text. rewrite E. destruct pre; [|reflexivity].
    destruct k; reflexivity. }
  destruct (stripMd_wrapped k pre post o mid c O C1) as [post' S].
  { rewrite <- E. exact F. }
  rewrite <- E in S. fold text in S.
  assert (Ex : extract text
               = mkExtract (Some j) start (start + length j) (Some [j])).
  { unfold extract. rewrite Ne, S.
    apply (findJson_prose (dropWhile isSpace pre) j post' v P B).
    apply proseFrom_spaces, Hpre. }
  split; [exact Ex|].
  subst parseS. unfold parse. rewrite Ne, Ex. cbn [json].
  destruct j as [|c0 j']; [discriminate|].
  unfold parseChecked. rewrite P. reflexivity.
Qed.

End BracketedValue.

(** C3 at a value in a fence, after prose that holds a pair of double
    quotes with a bracket between them. *)
Lemma extract_and_parse_bracketed_witness :
  let pre := jsq "He said ~see [1~: " in
  let k := Fenced true [c_nl] true in
  let j := jsq "{~a~: 1}" in
  let post := lit " thanks" in
  let v := VObj [(lit "a", VNum (lit "1"))] in
  pre ++ wrap k j ++ post
  = jsq "He said ~see [1~: ```json" ++ [c_nl] ++ jsq "{~a~: 1}" ++ [c_nl]
    ++ lit "``` thanks"
  /\ JSON_parse j = Return v
  /\ bracketed j = true
  /\ proseOk pre = true
  /\ fencesOk k pre j post = true
  /\ extract (pre ++ wrap k j ++ post) = mkExtract (Some j) 18 26 (Some [j])
  /\ parse0 (pre ++ wrap k j ++ post) = Return (Success v None).
Proof.
  cbv zeta.
  assert (H2 : JSON_parse (jsq "{~a~: 1}")
               = Return (VObj [(lit "a", VNum (lit "1"))]))
    by (vm_compute; reflexivity).
  assert (H3 : bracketed (jsq "{~a~: 1}") = true) by (vm_compute; reflexivity).
  assert (H4 : proseOk (jsq "He said ~see [1~: ") = true)
    by (vm_compute; reflexivity).
  assert (H5 : fencesOk (Fenced true [c_nl] true) (jsq "He said ~see [1~: ")
                 (jsq "{~a~: 1}") (lit " thanks") = true)
    by (vm_compute; reflexivity).
  split; [reflexivity|].
  repeat (split; [assumption|]).
  exact (extract_and_parse_bracketed Empty_set unit noErrors noContext
           (Fenced true [c_nl] true) _ _ (lit " thanks") _ H2 H3 H4 H5).
Defined.

(** The value as it is, after prose with a pair of double quotes; and
    three texts on which [extract] does not return the value: a closing
    bracket in the prose, an opening bracket in the prose, and a fence
    inside a string of the value. *)
Example extract_in_prose :
  json (extract (jsq "He said ~hi~ {~a~:1}")) = Some (jsq "{~a~:1}")
  /\ json (extract (jsq "a } {~a~:1}")) = None
  /\ json (extract (jsq "a [ {~a~:1}")) = None
  /\ json (extract (jsq "{~a~:~```b```~}")) = Some (jsq "{~a~:~b~}").
Proof. vm_compute. repeat split; reflexivity. Qed.
